(** * Student-registration algorithms suite: embedding and verification

    A shallow embedding of the TypeScript engines of the repository
    (AdvancedSearchEngine, AdvancedSortingEngine, AdvancedAnalyticsEngine,
    PredictionEngine) and the proofs of the properties their specification
    states.

    Conventions of the embedding:
    - a JavaScript array is a [list]; indices are [Z], as in the source,
      where [low - 1] and [j--] go below zero;
    - a JavaScript [number] is a binary64 float ([PrimFloat.float]), and an
      integer [Z] where the source only counts or indexes;
    - a call that can throw returns an [outcome];
    - arrays that a caller shares with a callee live in a [heap]. *)

From Stdlib Require Import ZArith Floats String Ascii Lia.
From Stdlib Require Import Sorted Permutation.
From stdpp Require Import base tactics option list numbers strings gmap sorting.

(* ===================================================================== *)
(** * Part I: the embedding                                               *)
(* ===================================================================== *)

(** ** JavaScript values shared by the engines *)

Module Js.

(** What a [throw] carries: [new Error(msg)], or an error of the runtime. *)
Inductive error : Type :=
| Error (msg : string)
| TypeError
| RangeError.

(** The result of a call: a returned value or a thrown error. *)
Inductive outcome (A : Type) : Type :=
| Returns (a : A)
| Throws (e : error).
Arguments Returns {A} a.
Arguments Throws {A} e.

Definition bind {A B : Type} (o : outcome A) (k : A -> outcome B) : outcome B :=
  match o with
  | Returns a => k a
  | Throws e => Throws e
  end.

Section Arrays.
Context {T : Type}.
(** [undefined] is what reading past the end of a [T[]] yields at run time. *)
Variable undefined : T.

(** [arr[i]] *)
Definition get (arr : list T) (i : Z) : T :=
  if (0 <=? i)%Z then nth (Z.to_nat i) arr undefined else undefined.

(** [arr[i] = v]: in range the slot is overwritten; past the end the array
    grows, the gap reading as [undefined]; a negative index names a property
    and leaves the elements alone. *)
Definition set (arr : list T) (i : Z) (v : T) : list T :=
  if (i <? 0)%Z then arr
  else if (i <? Z.of_nat (length arr))%Z then <[Z.to_nat i := v]> arr
  else arr ++ replicate (Z.to_nat i - length arr) undefined ++ [v].

(** [[arr[a], arr[b]] = [arr[b], arr[a]]]: both reads come first. *)
Definition swap (arr : list T) (a b : Z) : list T :=
  let x := get arr b in
  let y := get arr a in
  set (set arr a x) b y.

(** [arr.slice(start, end)] *)
Definition slice (arr : list T) (start end_ : Z) : list T :=
  let len := Z.of_nat (length arr) in
  let rel (i : Z) := if (i <? 0)%Z then Z.max (len + i) 0 else Z.min i len in
  let s := rel start in
  let e := rel end_ in
  take (Z.to_nat (e - s)) (drop (Z.to_nat s) arr).

End Arrays.

(** [for (let i = start; ...; i++) body], over [n] iterations. *)
Fixpoint for_up {S : Type} (n : nat) (i : Z) (body : Z -> S -> S) (s : S) : S :=
  match n with
  | O => s
  | S n' => for_up n' (i + 1)%Z body (body i s)
  end.

(** [for (let i = start; ...; i--) body], over [n] iterations. *)
Fixpoint for_down {S : Type} (n : nat) (i : Z) (body : Z -> S -> S) (s : S) : S :=
  match n with
  | O => s
  | S n' => for_down n' (i - 1)%Z body (body i s)
  end.

(** [Array.prototype.sort(compare)], given as [gt a b := compare(a, b) > 0].
    The built-in is stable (ECMAScript 2019); for a consistent comparator
    its result is the unique stable ordering, computed here by insertion.
    A comparator that returns [NaN] or is otherwise inconsistent leaves the
    order of the built-in to the implementation, and this function is then
    one of the orders allowed. *)
Fixpoint sort_insert {A : Type} (gt : A -> A -> bool) (x : A) (l : list A) : list A :=
  match l with
  | [] => [x]
  | y :: l' => if gt x y then y :: sort_insert gt x l' else x :: y :: l'
  end.

Definition Array_sort {A : Type} (gt : A -> A -> bool) (l : list A) : list A :=
  foldr (sort_insert gt) [] l.

(** A [Map] whose keys are visited in insertion order ([forEach]): [set] on
    a key already present keeps its place. *)
Fixpoint map_get {V : Type} (k : string) (m : list (string * V)) : option V :=
  match m with
  | [] => None
  | (k', v) :: m' => if String.eqb k' k then Some v else map_get k m'
  end.

Fixpoint map_set {V : Type} (k : string) (v : V) (m : list (string * V))
  : list (string * V) :=
  match m with
  | [] => [(k, v)]
  | (k', v') :: m' =>
      if String.eqb k' k then (k', v) :: m' else (k', v') :: map_set k v m'
  end.

(** The caller-visible arrays: a location is an index into the heap, and
    allocation appends. *)
Abbreviation loc := nat.
Abbreviation heap A := (list (list A)).

Definition alloc {A : Type} (v : list A) (h : heap A) : loc * heap A :=
  (length h, h ++ [v]).

(** The contents of an array; a location that was never allocated has none. *)
Definition deref {A : Type} (h : heap A) (l : loc) : list A :=
  default [] (h !! l).

Definition store {A : Type} (l : loc) (v : list A) (h : heap A) : heap A :=
  <[l := v]> h.

End Js.
Export Js.

(** ** binary64 arithmetic of [Math] *)

Module JsMath.
Local Open Scope float_scope.

(** An integer below [2^63] in magnitude as a float. *)
Definition of_Z (z : Z) : float :=
  if (z <? 0)%Z then - PrimFloat.of_uint63 (Uint63.of_Z (- z))
  else PrimFloat.of_uint63 (Uint63.of_Z z).

Definition of_nat (n : nat) : float := of_Z (Z.of_nat n).

(** [Math.floor]: a float with a non-negative exponent is an integer. *)
Definition floor (x : float) : float :=
  match Prim2SF x with
  | S754_finite s m e =>
      if (0 <=? e)%Z then x
      else
        let z := Z.div (if s then Z.neg m else Z.pos m) (2 ^ (- e)) in
        if (z =? 0)%Z then (if s then -0 else 0) else of_Z z
  | _ => x
  end.

(** [Math.ceil] *)
Definition ceil (x : float) : float := - floor (- x).

(** [Math.max(a, b)]: [NaN] if either is, and [+0] above [-0]. *)
Definition max (a b : float) : float :=
  if PrimFloat.is_nan a || PrimFloat.is_nan b then nan
  else if a <? b then b
  else if b <? a then a
  else if PrimFloat.get_sign a then b else a.

(** [Math.min(a, b)] *)
Definition min (a b : float) : float :=
  if PrimFloat.is_nan a || PrimFloat.is_nan b then nan
  else if a <? b then a
  else if b <? a then b
  else if PrimFloat.get_sign a then a else b.

(** [Math.max(...values)] and [Math.min(...values)] *)
Definition max_list (values : list float) : float := foldl max neg_infinity values.
Definition min_list (values : list float) : float := foldl min infinity values.

(** [Math.pow(x, n)] at the exponents 2, 3 and 4 the engines use, as the
    repeated product. At the exponents 3 and 4 the built-in may round the
    last bit otherwise, so the skewness and the kurtosis, the only values
    computed from them, are those of the code up to this rounding. *)
Definition pow2 (x : float) : float := x * x.
Definition pow3 (x : float) : float := x * x * x.
Definition pow4 (x : float) : float := x * x * x * x.

(** A float used as an array index: a non-negative integer, or no element. *)
Definition to_index (x : float) : option nat :=
  match Prim2SF x with
  | S754_zero _ => Some O
  | S754_finite false m e =>
      if (0 <=? e)%Z then Some (Z.to_nat (Z.pos m * 2 ^ e))
      else if (Z.pos m mod 2 ^ (- e) =? 0)%Z then Some (Z.to_nat (Z.pos m / 2 ^ (- e)))
      else None
  | _ => None
  end.

(** [arr[x]] on an array of numbers; [undefined] reads as [NaN] in the
    arithmetic that follows. *)
Definition at_index (arr : list float) (x : float) : float :=
  match to_index x with
  | Some i => nth i arr nan
  | None => nan
  end.

(** [x || 0] and the test of [x ? _ : _] on a number: [0] and [NaN] are falsy. *)
Definition truthy (x : float) : bool :=
  negb (PrimFloat.is_nan x || (x =? 0)).

(** [a === b] as keys of a [Map] (SameValueZero): [NaN] is equal to itself. *)
Definition same_value_zero (a b : float) : bool :=
  (a =? b) || (PrimFloat.is_nan a && PrimFloat.is_nan b).

End JsMath.

(** ** The records of src/types/index.ts *)

Module Types.

(** The fields of [Student] that hold a string, a number or a [Date] (a
    [Date] by its [getTime()]). Its nested objects and sequences ([address],
    [emergencyContact], [academicHistory], [extracurriculars],
    [achievements], [fees], [attendance]) are read by none of the routines
    below and are left out. *)
Record Student : Type := {
  id : string;
  firstName : string;
  lastName : string;
  email : string;
  rollNo : string;
  password : option string;
  contact : string;
  dateOfBirth : float;
  gender : string;
  course : string;
  department : string;
  year : float;
  semester : float;
  gpa : float;
  credits : float;
  enrollmentDate : float;
  graduationDate : option float;
  status : string;
  profileImage : option string;
  createdAt : float;
  updatedAt : float
}.

(** What [(student as any)[feature]] finds. *)
Inductive property : Type :=
| PNumber (value : float)
| PString (value : string)
| PDate (time : float)
| POther.

Definition optional {A : Type} (f : A -> property) (o : option A) : property :=
  match o with
  | Some a => f a
  | None => POther
  end.

Definition student_property (student : Student) (feature : string) : property :=
  if String.eqb feature "id" then PString (id student)
  else if String.eqb feature "firstName" then PString (firstName student)
  else if String.eqb feature "lastName" then PString (lastName student)
  else if String.eqb feature "email" then PString (email student)
  else if String.eqb feature "rollNo" then PString (rollNo student)
  else if String.eqb feature "password" then optional PString (password student)
  else if String.eqb feature "contact" then PString (contact student)
  else if String.eqb feature "dateOfBirth" then PDate (dateOfBirth student)
  else if String.eqb feature "gender" then PString (gender student)
  else if String.eqb feature "course" then PString (course student)
  else if String.eqb feature "department" then PString (department student)
  else if String.eqb feature "year" then PNumber (year student)
  else if String.eqb feature "semester" then PNumber (semester student)
  else if String.eqb feature "gpa" then PNumber (gpa student)
  else if String.eqb feature "credits" then PNumber (credits student)
  else if String.eqb feature "enrollmentDate" then PDate (enrollmentDate student)
  else if String.eqb feature "graduationDate" then optional PDate (graduationDate student)
  else if String.eqb feature "status" then PString (status student)
  else if String.eqb feature "profileImage" then optional PString (profileImage student)
  else if String.eqb feature "createdAt" then PDate (createdAt student)
  else if String.eqb feature "updatedAt" then PDate (updatedAt student)
  else POther.

End Types.

(** ** PredictionEngine (src/algorithms/predictionAlgorithms.ts) *)

Module PredictionEngine.
Local Open Scope float_scope.

(** [predict]: [weights[0]] plus the dot product with [weights[i + 1]]. *)
Definition predict (features weights : list float) : float :=
  nth 0 weights nan
  + fst (foldl (fun '(sum, i) feature => (sum + feature * nth (S i) weights nan, S i))
           (0, O) features).

(** [variance]: the population variance around the mean. *)
Definition variance (values : list float) : float :=
  let n := JsMath.of_nat (length values) in
  let mean := foldl (fun sum val => sum + val) 0 values / n in
  foldl (fun sum val => sum + JsMath.pow2 (val - mean)) 0 values / n.

(** [calculateConfidence] *)
Definition calculateConfidence (X : list (list float)) (y weights : list float) : float :=
  let predictions := map (fun features => predict features weights) X in
  let mse :=
    fst (foldl (fun '(sum, i) pred => (sum + JsMath.pow2 (pred - nth i y nan), S i))
           (0, O) predictions)
    / JsMath.of_nat (length y) in
  JsMath.max 0 (1 - mse / variance y).

(** [normalizeTargets], the sibling that guards its division. *)
Definition normalizeTargets (targets : list float) : list float :=
  let min := JsMath.min_list targets in
  let max := JsMath.max_list targets in
  let range := max - min in
  map (fun target => if range =? 0 then 0 else (target - min) / range) targets.

End PredictionEngine.

(** ** AdvancedAnalyticsEngine (src/algorithms/predictionAlgorithms.ts) *)

Module AnalyticsEngine.
Local Open Scope float_scope.

Record StatisticalSummary : Type := {
  count : nat;
  sum : float;
  mean : float;
  median : float;
  mode : list float;
  variance : float;
  standardDeviation : float;
  min : float;
  max : float;
  range : float;
  q1 : float;
  q3 : float;
  iqr : float;
  skewness : float;
  kurtosis : float;
  outliers : list float
}.

(** [calculatePercentile]: linear interpolation between order statistics. *)
Definition calculatePercentile (sortedArray : list float) (percentile : float) : float :=
  let index := (percentile / 100) * (JsMath.of_nat (length sortedArray) - 1) in
  let lower := JsMath.floor index in
  let upper := JsMath.ceil index in
  if lower =? upper then JsMath.at_index sortedArray lower
  else JsMath.at_index sortedArray lower * (upper - index)
       + JsMath.at_index sortedArray upper * (index - lower).

(** [detectOutliers]: the values outside the 1.5 IQR fences. *)
Definition detectOutliers (sorted : list float) (q1 q3 iqr : float) : list float :=
  let lowerBound := q1 - 1.5 * iqr in
  let upperBound := q3 + 1.5 * iqr in
  filter (fun val => (val <? lowerBound) || (upperBound <? val) = true) sorted.

(** [frequency.set(val, (frequency.get(val) || 0) + 1)] on a [Map] kept in
    insertion order. *)
Fixpoint frequency_add (val : float) (frequency : list (float * nat)) : list (float * nat) :=
  match frequency with
  | [] => [(val, 1%nat)]
  | (k, c) :: rest =>
      if JsMath.same_value_zero k val then (k, S c) :: rest
      else (k, c) :: frequency_add val rest
  end.

(** [calculateStatistics] *)
Definition calculateStatistics (values : list float) : outcome StatisticalSummary :=
  match values with
  | [] => Throws (Error "Cannot calculate statistics for empty array")
  | _ :: _ =>
      let sorted := Array_sort (fun a b => 0 <? a - b) values in
      let n := length values in
      let nf := JsMath.of_nat n in
      let sum := foldl (fun acc val => acc + val) 0 values in
      let mean := sum / nf in
      let variance := foldl (fun acc val => acc + JsMath.pow2 (val - mean)) 0 values / nf in
      let standardDeviation := PrimFloat.sqrt variance in
      let median :=
        if Nat.even n
        then (nth (n / 2 - 1) sorted nan + nth (n / 2) sorted nan) / 2
        else nth (n / 2) sorted nan in
      let q1 := calculatePercentile sorted 25 in
      let q3 := calculatePercentile sorted 75 in
      let iqr := q3 - q1 in
      let skewness :=
        foldl (fun acc val => acc + JsMath.pow3 ((val - mean) / standardDeviation)) 0 values
        / nf in
      let kurtosis :=
        foldl (fun acc val => acc + JsMath.pow4 ((val - mean) / standardDeviation)) 0 values
        / nf - 3 in
      let frequency := foldl (fun f val => frequency_add val f) [] values in
      let maxFreq := foldl Nat.max O (map snd frequency) in
      let mode := map fst (filter (fun e => snd e = maxFreq) frequency) in
      Returns {|
        count := n;
        sum := sum;
        mean := mean;
        median := median;
        mode := mode;
        variance := variance;
        standardDeviation := standardDeviation;
        min := nth 0 sorted nan;
        max := nth (n - 1) sorted nan;
        range := nth (n - 1) sorted nan - nth 0 sorted nan;
        q1 := q1;
        q3 := q3;
        iqr := iqr;
        skewness := skewness;
        kurtosis := kurtosis;
        outliers := detectOutliers sorted q1 q3 iqr
      |}
  end.

(** *** k-means *)

Import Types.

Record ClusterResult : Type := {
  clusters : list (list Student);
  centroids : list (list float);
  (** a slot of [assignments] that was never written is a hole, [None] *)
  assignments : list (option nat);
  inertia : float
}.

Section KMeans.
(** The built-in [parseFloat], and the successive values of [Math.random()]. *)
Variable parseFloat : string -> float.
Variable random : nat -> float.

Definition extractNumericFeature (student : Student) (feature : string) : float :=
  match student_property student feature with
  | PNumber value => value
  | PString value =>
      let parsed := parseFloat value in
      if JsMath.truthy parsed then parsed else 0
  | PDate time => time
  | POther => 0
  end.

(** [euclideanDistance], both points present. A coordinate that [point2]
    lacks reads as [undefined] and makes the sum [NaN]. *)
Definition euclideanDistance (point1 point2 : list float) : float :=
  PrimFloat.sqrt
    (fst (foldl (fun '(sum, index) val =>
                   (sum + JsMath.pow2 (val - nth index point2 nan), S index))
            (0, O) point1)).

(** [initializeCentroids]; [points[0].length] throws on an empty collection.
    Centroid [i] draws its coordinate [d] as the [(i * dimensions + d)]-th
    random number. *)
Definition initializeCentroids (points : list (list float)) (k : nat)
  : outcome (list (list float)) :=
  match points with
  | [] => Throws TypeError
  | p0 :: _ =>
      let dimensions := length p0 in
      Returns
        (map (fun i =>
                map (fun d =>
                       let values := map (fun point => nth d point nan) points in
                       let min := JsMath.min_list values in
                       let max := JsMath.max_list values in
                       random (i * dimensions + d)%nat * (max - min) + min)
                  (seq 0 dimensions))
           (seq 0 k))
  end.

(** [findNearestCentroid] *)
Definition findNearestCentroid (point : list float) (centroids : list (list float)) : nat :=
  snd (fst (foldl (fun '(minDistance, nearestIndex, index) centroid =>
                     let distance := euclideanDistance point centroid in
                     if distance <? minDistance then (distance, index, S index)
                     else (minDistance, nearestIndex, S index))
              (infinity, O, O) centroids)).

(** [updateCentroids]; [points[0].length] is read first. *)
Definition updateCentroids (points : list (list float)) (assignments : list nat) (k : nat)
  : outcome (list (list float)) :=
  match points with
  | [] => Throws TypeError
  | p0 :: _ =>
      let dimensions := length p0 in
      Returns
        (map (fun cluster =>
                let clusterPoints :=
                  map fst (filter (fun pa => snd pa = cluster) (zip points assignments)) in
                match clusterPoints with
                | [] => replicate dimensions 0
                | _ :: _ =>
                    let centroid :=
                      foldl (fun centroid point =>
                               imap (fun dim sum => sum + nth dim point nan) centroid)
                        (replicate dimensions 0) clusterPoints in
                    map (fun sum => sum / JsMath.of_nat (length clusterPoints)) centroid
                end)
           (seq 0 k))
  end.

(** [arraysEqual]: [every] visits only the slots that hold a value, so a
    hole of [a] is never compared. *)
Definition arraysEqual (a : list (option nat)) (b : list nat) : bool :=
  (length a =? length b)%nat
  && forallb (fun '(index, slot) =>
                match slot with
                | None => true
                | Some val =>
                    match b !! index with
                    | Some val' => (val =? val')%nat
                    | None => false
                    end
                end)
       (imap (fun index slot => (index, slot)) a).

(** [calculateInertia]. [centroids[assignments[index]]] is [undefined] when
    the assignment is a hole or names no centroid; [euclideanDistance] then
    throws as soon as its callback reads [point2[index]], that is unless the
    point has no coordinate. *)
Definition calculateInertia (points : list (list float)) (centroids : list (list float))
    (assignments : list (option nat)) : outcome float :=
  fst (foldl (fun '(acc, index) point =>
                (bind acc (fun sum =>
                   match mjoin (assignments !! index) ≫= (centroids !!.) with
                   | Some centroid =>
                       Returns (sum + JsMath.pow2 (euclideanDistance point centroid))
                   | None =>
                       match point with
                       | [] => Returns (sum + JsMath.pow2 (PrimFloat.sqrt 0))
                       | _ :: _ => Throws TypeError
                       end
                   end),
                 S index))
         (Returns 0, O) points).

(** The loop of [kMeansClustering]: [maxIterations - iteration] rounds left. *)
Fixpoint kMeans_loop (rounds : nat) (points : list (list float)) (k : nat)
    (centroids : list (list float)) (assignments : list (option nat))
  : outcome (list (list float) * list (option nat)) :=
  match rounds with
  | O => Returns (centroids, assignments)
  | S rounds' =>
      let newAssignments := map (fun point => findNearestCentroid point centroids) points in
      if arraysEqual assignments newAssignments then Returns (centroids, assignments)
      else
        bind (updateCentroids points newAssignments k) (fun newCentroids =>
          kMeans_loop rounds' points k newCentroids (map Some newAssignments))
  end.

(** [clusters[clusterIndex].push(studentIndex)] over the slots of
    [assignments] that hold a value; a [clusterIndex] without a cluster
    throws. *)
Definition groupByCluster (k : nat) (assignments : list (option nat))
  : outcome (list (list nat)) :=
  fst (foldl (fun '(acc, studentIndex) slot =>
                (match slot with
                 | None => acc
                 | Some clusterIndex =>
                     bind acc (fun clusters =>
                       match clusters !! clusterIndex with
                       | Some cluster =>
                           Returns (<[clusterIndex := cluster ++ [studentIndex]]> clusters)
                       | None => Throws TypeError
                       end)
                 end,
                 S studentIndex))
         (Returns (replicate k []), O) assignments).

(** [kMeansClustering] *)
Definition kMeansClustering (students : list Student) (k : nat) (features : list string)
    (maxIterations : nat) : outcome ClusterResult :=
  let points :=
    map (fun student => map (fun feature => extractNumericFeature student feature) features)
      students in
  bind (initializeCentroids points k) (fun centroids0 =>
  bind (kMeans_loop maxIterations points k centroids0 (replicate (length points) None))
    (fun '(centroids, assignments) =>
  bind (groupByCluster k assignments) (fun clusters =>
  bind (calculateInertia points centroids assignments) (fun inertia =>
  Returns {|
    clusters :=
      map (fun cluster => omap (fun index => students !! index) cluster) clusters;
    centroids := centroids;
    assignments := assignments;
    inertia := inertia
  |})))).

End KMeans.

(** *** Correlation *)

(** [x.reduce((a, b) => a + b, 0)] *)
Definition total (values : list float) : float := foldl (fun a b => a + b) 0 values.

(** [pearsonCorrelation]; [y[i]] past the end of [y] is [undefined], which
    the product reads as [NaN]. *)
Definition pearsonCorrelation (x y : list float) : float :=
  let n := JsMath.of_nat (length x) in
  let sumX := total x in
  let sumY := total y in
  let sumXY := fst (foldl (fun '(sum, i) xi => (sum + xi * nth i y nan, S i)) (0, O) x) in
  let sumX2 := foldl (fun sum xi => sum + xi * xi) 0 x in
  let sumY2 := foldl (fun sum yi => sum + yi * yi) 0 y in
  let numerator := n * sumXY - sumX * sumY in
  let denominator :=
    PrimFloat.sqrt ((n * sumX2 - sumX * sumX) * (n * sumY2 - sumY * sumY)) in
  if denominator =? 0 then 0 else numerator / denominator.

Record StrongCorrelation : Type := {
  feature1 : option string;
  feature2 : option string;
  correlation : float
}.

Record CorrelationMatrix : Type := {
  matrix : list (list float);
  matrix_features : list string;
  strongCorrelations : list StrongCorrelation
}.

(** [findStrongCorrelations]: the pairs [i < j] of feature indices whose
    entry reaches the threshold in magnitude, by descending magnitude.
    Reading [matrix[i][j]] in a row that the matrix lacks throws; an entry
    that a row lacks reads as [undefined], whose magnitude [NaN] reaches
    nothing. *)
Definition findStrongCorrelations (matrix : list (list float)) (features : list string)
    (threshold : float) : outcome (list StrongCorrelation) :=
  let n := length features in
  bind
    (for_up n 0
       (fun i correlations =>
          for_up (n - S (Z.to_nat i)) (i + 1)
            (fun j correlations =>
               bind correlations (fun correlations =>
                 match matrix !! Z.to_nat i with
                 | None => Throws TypeError
                 | Some row =>
                     let correlation := get nan row j in
                     if threshold <=? PrimFloat.abs correlation then
                       Returns
                         (correlations
                          ++ [{| feature1 := features !! Z.to_nat i;
                                 feature2 := features !! Z.to_nat j;
                                 correlation := correlation |}])
                     else Returns correlations
                 end))
            correlations)
       (Returns []))
    (fun correlations =>
       Returns
         (Array_sort
            (fun a b => 0 <? PrimFloat.abs (correlation b) - PrimFloat.abs (correlation a))
            correlations)).

Section Correlation.
Variable parseFloat : string -> float.

(** [calculateCorrelationMatrix] *)
Definition calculateCorrelationMatrix (students : list Student) (features : list string)
  : outcome CorrelationMatrix :=
  let featureData :=
    map (fun feature =>
           map (fun student => extractNumericFeature parseFloat student feature) students)
      features in
  let matrix :=
    map (fun column1 => map (fun column2 => pearsonCorrelation column1 column2) featureData)
      featureData in
  bind (findStrongCorrelations matrix features 0x1.6666666666666p-1)
    (fun strongCorrelations =>
       Returns {| matrix := matrix;
                  matrix_features := features;
                  strongCorrelations := strongCorrelations |}).

End Correlation.

(** *** Performance trends *)

Record LinearFit : Type := {
  slope : float;
  intercept : float;
  rSquared : float
}.

Inductive Direction : Type := increasing | decreasing | stable.

(** [trend]: the three numbers of the fit, and the direction of the slope. *)
Record Trend : Type := {
  fit : LinearFit;
  direction : Direction
}.

Record Seasonality : Type := {
  period : Z;
  strength : float
}.

Record TrendAnalysis : Type := {
  trend : Trend;
  movingAverages_short : list float;
  movingAverages_long : list float;
  seasonality : Seasonality;
  volatility : float;
  forecast : list float
}.

(** [linearRegression]; [sumY2] is computed and not used. *)
Definition linearRegression (x y : list float) : LinearFit :=
  let n := JsMath.of_nat (length x) in
  let sumX := total x in
  let sumY := total y in
  let sumXY := fst (foldl (fun '(sum, i) xi => (sum + xi * nth i y nan, S i)) (0, O) x) in
  let sumX2 := foldl (fun sum xi => sum + xi * xi) 0 x in
  let slope := (n * sumXY - sumX * sumY) / (n * sumX2 - sumX * sumX) in
  let intercept := (sumY - slope * sumX) / n in
  let yMean := sumY / n in
  let totalSumSquares := foldl (fun sum yi => sum + JsMath.pow2 (yi - yMean)) 0 y in
  let residualSumSquares :=
    fst (foldl (fun '(sum, i) yi =>
                  let predicted := slope * nth i x nan + intercept in
                  (sum + JsMath.pow2 (yi - predicted), S i))
           (0, O) y) in
  {| slope := slope;
     intercept := intercept;
     rSquared := 1 - residualSumSquares / totalSumSquares |}.

(** [calculateMovingAverage(values, window)], for a whole number [window]:
    [i] runs from [window - 1] to the last index. *)
Definition calculateMovingAverage (values : list float) (window : Z) : list float :=
  for_up (Z.to_nat (Z.of_nat (length values) - (window - 1))) (window - 1)
    (fun i result =>
       let sum := total (slice values (i - window + 1) (i + 1)) in
       result ++ [sum / JsMath.of_Z window])
    [].

(** [autocorrelation(values, lag)], for a whole number [lag]. *)
Definition autocorrelation (values : list float) (lag : Z) : float :=
  let n := (Z.of_nat (length values) - lag)%Z in
  let mean := total values / JsMath.of_nat (length values) in
  let numerator :=
    for_up (Z.to_nat n) 0
      (fun i numerator =>
         numerator + (get nan values i - mean) * (get nan values (i + lag) - mean))
      0 in
  let denominator :=
    for_up (length values) 0
      (fun i denominator => denominator + JsMath.pow2 (get nan values i - mean))
      0 in
  if denominator =? 0 then 0 else numerator / denominator.

(** [detectSeasonality]: [period] runs from [2] to [floor(length / 2)]. *)
Definition detectSeasonality (values : list float) : Seasonality :=
  let '(maxCorrelation, bestPeriod) :=
    for_up (Z.to_nat (Z.of_nat (length values) / 2 - 1)) 2
      (fun period '(maxCorrelation, bestPeriod) =>
         let correlation := autocorrelation values period in
         if maxCorrelation <? correlation then (correlation, period)
         else (maxCorrelation, bestPeriod))
      (0, 1%Z) in
  {| period := bestPeriod; strength := maxCorrelation |}.

(** [calculateVolatility]: the standard deviation of the relative changes;
    [calculateStatistics] throws when there is none. *)
Definition calculateVolatility (values : list float) : outcome float :=
  let returns :=
    imap (fun i value => (value - nth i values nan) / nth i values nan) (drop 1 values) in
  bind (calculateStatistics returns) (fun stats => Returns (standardDeviation stats)).

(** [generateForecast(values, slope, intercept, periods)], for a whole
    number [periods]. *)
Definition generateForecast (values : list float) (slope intercept : float) (periods : Z)
  : list float :=
  let lastIndex := (Z.of_nat (length values) - 1)%Z in
  for_up (Z.to_nat periods) 1
    (fun i forecast => forecast ++ [slope * JsMath.of_Z (lastIndex + i) + intercept])
    [].

(** [analyzePerformanceTrends]: a datum is its [date] (by [getTime()]) and
    its [value]. The fields of the result are evaluated in the order in
    which they are written. *)
Definition analyzePerformanceTrends (performanceData : list (float * float))
  : outcome TrendAnalysis :=
  let values := map snd performanceData in
  let xValues := imap (fun index _ => JsMath.of_nat index) performanceData in
  let regression := linearRegression xValues values in
  let movingAverage7 := calculateMovingAverage values 7 in
  let movingAverage30 := calculateMovingAverage values 30 in
  let seasonality := detectSeasonality values in
  let trend :=
    {| fit := regression;
       direction :=
         if 0 <? slope regression then increasing
         else if slope regression <? 0 then decreasing
         else stable |} in
  bind (calculateVolatility values) (fun volatility =>
  Returns {|
    trend := trend;
    movingAverages_short := movingAverage7;
    movingAverages_long := movingAverage30;
    seasonality := seasonality;
    volatility := volatility;
    forecast := generateForecast values (slope regression) (intercept regression) 5
  |}).

End AnalyticsEngine.

(** ** AdvancedAnalyticsEngine: DBSCAN (src/algorithms/predictionAlgorithms.ts) *)

Module DensityClustering.
Import Types AnalyticsEngine.
Local Open Scope float_scope.

Record DBSCANResult : Type := {
  clusters : list (list Student);
  noise : list Student;
  clusterCount : nat
}.

(** [getNeighbors(points, pointIndex, epsilon)]: the indices of the other
    points within [epsilon]. [pointIndex] is an index of [points] at every
    call. *)
Definition getNeighbors (points : list (list float)) (pointIndex : nat) (epsilon : float)
  : list nat :=
  let point := nth pointIndex points [] in
  map fst
    (filter (fun e => negb (fst e =? pointIndex)%nat
                      && (euclideanDistance point (snd e) <=? epsilon) = true)
       (imap (fun index otherPoint => (index, otherPoint)) points)).

(** The [for] loop of [expandCluster], whose bound [neighbors.length] grows
    with the array; [None] when [rounds] rounds do not end it. [visited] and
    [cluster] are the caller's objects: what the loop leaves in them is
    returned. *)
Fixpoint expandCluster_loop (rounds : nat) (points : list (list float))
    (epsilon minPoints : float) (neighbors : list nat) (i : nat)
    (cluster : list nat) (visited : gset nat) : option (list nat * gset nat) :=
  match rounds with
  | O => None
  | S rounds' =>
      match neighbors !! i with
      | None => Some (cluster, visited)
      | Some neighborIndex =>
          let '(neighbors, visited) :=
            if bool_decide (neighborIndex ∈ visited) then (neighbors, visited)
            else
              let neighborNeighbors := getNeighbors points neighborIndex epsilon in
              (if minPoints <=? JsMath.of_nat (length neighborNeighbors)
               then neighbors ++ neighborNeighbors
               else neighbors,
               {[neighborIndex]} ∪ visited) in
          let cluster :=
            if bool_decide (neighborIndex ∈ cluster) then cluster
            else cluster ++ [neighborIndex] in
          expandCluster_loop rounds' points epsilon minPoints neighbors (S i) cluster visited
      end
  end.

(** [expandCluster]. An index enters [visited] once, and then extends
    [neighbors] by no more entries than there are points: the rounds given
    are enough. *)
Definition expandCluster (points : list (list float)) (pointIndex : nat)
    (neighbors : list nat) (cluster : list nat) (visited : gset nat)
    (epsilon minPoints : float) : option (list nat * gset nat) :=
  expandCluster_loop (S (length neighbors + length points * S (length points)))
    points epsilon minPoints neighbors 0 (cluster ++ [pointIndex]) visited.

Section Dbscan.
Variable parseFloat : string -> float.

(** [dbscanClustering(students, features, epsilon = 0.5, minPoints = 5)] *)
Definition dbscanClustering (students : list Student) (features : list string)
    (epsilon minPoints : float) : option DBSCANResult :=
  let points :=
    map (fun student =>
           map (fun feature => extractNumericFeature parseFloat student feature) features)
      students in
  foldl
    (fun state index =>
       state ≫= fun '(clusters, noise, visited) =>
         if bool_decide (index ∈ visited) then Some (clusters, noise, visited)
         else
           let visited : gset nat := {[index]} ∪ visited in
           let neighbors := getNeighbors points index epsilon in
           if JsMath.of_nat (length neighbors) <? minPoints
           then Some (clusters, noise ++ [index], visited)
           else
             expandCluster points index neighbors [] visited epsilon minPoints
               ≫= fun '(cluster, visited) => Some (clusters ++ [cluster], noise, visited))
    (Some ([], [], ∅)) (seq 0 (length points))
    ≫= fun '(clusters, noise, _) =>
         Some {| clusters :=
                   map (fun cluster => omap (fun index => students !! index) cluster)
                     clusters;
                 noise := omap (fun index => students !! index) noise;
                 clusterCount := length clusters |}.

End Dbscan.

End DensityClustering.

(** ** AdvancedSortingEngine (sorting algorithms suite) *)

Module SortingEngine.
Local Open Scope Z_scope.

Section Comparator.
Context {T : Type}.
Variable undefined : T.
(** [compareFn(a, b)]; only its sign is inspected ([< 0], [<= 0], [> 0]), so
    the number it returns is kept as an integer of that sign. A result of
    [NaN], for which all three tests fail, is left out. *)
Variable compareFn : T -> T -> Z.

Local Abbreviation get := (Js.get undefined).
Local Abbreviation set := (Js.set undefined).
Local Abbreviation swap := (Js.swap undefined).

(** The [while] of [insertionSort]: shift the elements above [key] one slot
    up. [j] falls by one a round and the loop stops below [low], so
    [j - low + 1] rounds are all it can take. *)
Fixpoint insertionSort_shift (rounds : nat) (arr : list T) (low j : Z) (key : T)
  : list T * Z :=
  match rounds with
  | O => (arr, j)
  | S rounds' =>
      if (low <=? j) && (0 <? compareFn (get arr j) key)
      then insertionSort_shift rounds' (set arr (j + 1) (get arr j)) low (j - 1) key
      else (arr, j)
  end.

(** [insertionSort(arr, low, high, compareFn)] *)
Definition insertionSort (arr : list T) (low high : Z) : list T :=
  for_up (Z.to_nat (high - low)) (low + 1)
    (fun i arr =>
       let key := get arr i in
       let '(arr, j) := insertionSort_shift (Z.to_nat (i - low)) arr low (i - 1) key in
       set arr (j + 1) key)
    arr.

(** [partition(arr, low, high, compareFn)]: median-of-three, then Lomuto. *)
Definition partition (arr : list T) (low high : Z) : list T * Z :=
  let mid := (low + high) / 2 in
  let arr := if compareFn (get arr mid) (get arr low) <? 0 then swap arr low mid else arr in
  let arr := if compareFn (get arr high) (get arr low) <? 0 then swap arr low high else arr in
  let arr := if compareFn (get arr high) (get arr mid) <? 0 then swap arr mid high else arr in
  let pivot := get arr mid in
  let arr := swap arr mid high in
  let '(arr, i) :=
    for_up (Z.to_nat (high - low)) low
      (fun j '(arr, i) =>
         if compareFn (get arr j) pivot <=? 0
         then (swap arr (i + 1) j, i + 1)
         else (arr, i))
      (arr, low - 1) in
  (swap arr (i + 1) high, i + 1).

(** [quickSortHybrid]; [depth] bounds the nesting of the recursive calls,
    each of which works on a strictly shorter segment. *)
Fixpoint quickSortHybrid (depth : nat) (arr : list T) (low high threshold : Z) : list T :=
  match depth with
  | O => arr
  | S depth' =>
      if low <? high then
        if high - low + 1 <? threshold then insertionSort arr low high
        else
          let '(arr, pivotIndex) := partition arr low high in
          let arr := quickSortHybrid depth' arr low (pivotIndex - 1) threshold in
          quickSortHybrid depth' arr (pivotIndex + 1) high threshold
      else arr
  end.

(** [hybridQuickSort(arr, compareFn, threshold = 10)] *)
Definition hybridQuickSort (arr : loc) (threshold : Z) (h : heap T) : loc * heap T :=
  let '(result, h) := alloc (deref h arr) h in
  let contents := deref h result in
  (result,
   store result
     (quickSortHybrid (length contents) contents 0 (Z.of_nat (length contents) - 1) threshold)
     h).

(** The first [while] of [merge]: both runs still have elements. *)
Fixpoint merge_both (rounds : nat) (arr leftArr rightArr : list T) (i j k : Z)
  : list T * Z * Z * Z :=
  match rounds with
  | O => (arr, i, j, k)
  | S rounds' =>
      if (i <? Z.of_nat (length leftArr)) && (j <? Z.of_nat (length rightArr)) then
        if compareFn (get leftArr i) (get rightArr j) <=? 0
        then merge_both rounds' (set arr k (get leftArr i)) leftArr rightArr (i + 1) j (k + 1)
        else merge_both rounds' (set arr k (get rightArr j)) leftArr rightArr i (j + 1) (k + 1)
      else (arr, i, j, k)
  end.

(** [while (i < src.length) arr[k++] = src[i++]] *)
Fixpoint merge_rest (rounds : nat) (arr src : list T) (i k : Z) : list T * Z :=
  match rounds with
  | O => (arr, k)
  | S rounds' =>
      if i <? Z.of_nat (length src)
      then merge_rest rounds' (set arr k (get src i)) src (i + 1) (k + 1)
      else (arr, k)
  end.

(** [merge(arr, left, mid, right, compareFn)] *)
Definition merge (arr : list T) (left mid right : Z) : list T :=
  let leftArr := slice arr left (mid + 1) in
  let rightArr := slice arr (mid + 1) (right + 1) in
  let '(arr, i, j, k) :=
    merge_both (length leftArr + length rightArr) arr leftArr rightArr 0 0 left in
  let '(arr, k) := merge_rest (length leftArr) arr leftArr i k in
  let '(arr, _) := merge_rest (length rightArr) arr rightArr j k in
  arr.

Definition minMerge : Z := 32.

(** [for (let i = 0; i < n; i += minMerge) insertionSort(...)] *)
Fixpoint timSort_runs (rounds : nat) (arr : list T) (n i : Z) : list T :=
  match rounds with
  | O => arr
  | S rounds' =>
      if i <? n
      then timSort_runs rounds'
             (insertionSort arr i (Z.min (i + minMerge - 1) (n - 1))) n (i + minMerge)
      else arr
  end.

(** [for (let start = 0; start < n; start += size * 2) ...] *)
Fixpoint timSort_pass (rounds : nat) (arr : list T) (n size start : Z) : list T :=
  match rounds with
  | O => arr
  | S rounds' =>
      if start <? n then
        let mid := start + size - 1 in
        let end_ := Z.min (start + size * 2 - 1) (n - 1) in
        let arr := if mid <? end_ then merge arr start mid end_ else arr in
        timSort_pass rounds' arr n size (start + size * 2)
      else arr
  end.

(** [for (let size = minMerge; size < n; size *= 2) ...] *)
Fixpoint timSort_merges (rounds : nat) (arr : list T) (n size : Z) : list T :=
  match rounds with
  | O => arr
  | S rounds' =>
      if size <? n
      then timSort_merges rounds' (timSort_pass (Z.to_nat n) arr n size 0) n (size * 2)
      else arr
  end.

(** [timSort(arr, compareFn)]. Every loop advances by at least one a round
    and stops at [n], so [n] rounds are all any of them can take. *)
Definition timSort (arr : loc) (h : heap T) : loc * heap T :=
  let '(result, h) := alloc (deref h arr) h in
  let contents := deref h result in
  let n := Z.of_nat (length contents) in
  let contents := timSort_runs (length contents) contents n 0 in
  let contents := timSort_merges (length contents) contents n minMerge in
  (result, store result contents h).

End Comparator.

(** *** Radix sort. An element of the working array is a number or, once a
    pass has left a slot of [output] unwritten, [undefined] ([None]). The
    numbers are the integers below [2^53] in magnitude: binary64 holds them
    exactly, and for such [x] and [exp] the quotient [x / exp] of binary64,
    rounded down by [Math.floor], is the exact quotient rounded down (the
    exact quotient lies [1 / exp] or more below the next integer, which is
    more than half the distance between two neighbouring numbers there).
    From [2^53] on the two differ, and the arithmetic below is not that of
    the code: every theorem on [countingSort] and [radixSort] is stated for
    numbers below [2^53]. *)

Abbreviation cell := (option Z).

(** [Math.floor(arr[i] / exp) % 10] as an index into [count], for [arr[i]]
    and [exp] below [2^53] in magnitude: [%] keeps the sign of the
    dividend, so a negative number yields a negative remainder, and
    [undefined] yields [NaN]; neither names an element of [count]. *)
Definition digit (v : cell) (exp : Z) : option Z :=
  match v with
  | Some x =>
      let r := Z.rem (x / exp) 10 in
      if 0 <=? r then Some r else None
  | None => None
  end.

(** [countingSort(arr, exp)]. An access [count[d]] or [output[count[d] - 1]]
    whose [d] names no element reads and writes a property of the array
    object and changes none of its elements. *)
Definition countingSort (arr : list cell) (exp : Z) : list cell :=
  let n := length arr in
  let output : list cell := replicate n None in
  let count : list Z := replicate 10 0 in
  let count :=
    for_up n 0
      (fun i count =>
         match digit (Js.get None arr i) exp with
         | Some d => Js.set 0 count d (Js.get 0 count d + 1)
         | None => count
         end)
      count in
  let count :=
    for_up 9 1 (fun i count => Js.set 0 count i (Js.get 0 count i + Js.get 0 count (i - 1)))
      count in
  let '(output, count) :=
    for_down n (Z.of_nat n - 1)
      (fun i '(output, count) =>
         match digit (Js.get None arr i) exp with
         | Some d =>
             (Js.set None output (Js.get 0 count d - 1) (Js.get None arr i),
              Js.set 0 count d (Js.get 0 count d - 1))
         | None => (output, count)
         end)
      (output, count) in
  for_up n 0 (fun i arr => Js.set None arr i (Js.get None output i)) arr.

(** [Math.max(...result)]: [NaN] ([None]) as soon as a slot is [undefined]. *)
Definition max_cells (cells : list cell) : option Z :=
  foldl (fun acc c => match acc, c with
                      | Some (Some a), Some x => Some (Some (Z.max a x))
                      | Some None, Some x => Some (Some x)
                      | _, _ => None
                      end)
    (Some None) cells ≫= id.

(** [for (let exp = 1; Math.floor(max / exp) > 0; exp *= 10)], for [max]
    below [2^53]: the powers of ten that [exp] runs through are numbers of
    binary64, and the quotient rounded down is the exact one. *)
Fixpoint radixSort_passes (rounds : nat) (result : list cell) (max exp : Z) : list cell :=
  match rounds with
  | O => result
  | S rounds' =>
      if 0 <? max / exp
      then radixSort_passes rounds' (countingSort result exp) max (exp * 10)
      else result
  end.

(** [radixSort(arr)]. [exp] grows tenfold a pass and the loop stops once it
    exceeds [max], within [max] passes. *)
Definition radixSort (arr : loc) (h : heap cell) : loc * heap cell :=
  if (length (deref h arr) <=? 1)%nat then alloc (deref h arr) h
  else
    let '(result, h) := alloc (deref h arr) h in
    let contents := deref h result in
    match max_cells contents with
    | Some max => (result, store result (radixSort_passes (Z.to_nat max) contents max 1) h)
    | None => (result, h)
    end.

(** *** Bucket sort *)

(** The [forEach] of [bucketSort]: [buckets[bucketIndex].push(grade)], which
    throws a [TypeError] when the index names no bucket. *)
Definition bucketSort_distribute (min bucketSize bucketLast : float)
    (buckets : outcome (list (list float))) (grade : float)
  : outcome (list (list float)) :=
  bind buckets (fun buckets =>
    let bucketIndex :=
      JsMath.min (JsMath.floor ((grade - min) / bucketSize)%float) bucketLast in
    match JsMath.to_index bucketIndex ≫= (fun i => (fun bucket => (i, bucket)) <$> buckets !! i) with
    | Some (i, bucket) => Returns (<[i := bucket ++ [grade]]> buckets)
    | None => Throws TypeError
    end).

(** [bucketSort(grades, bucketCount = 10)], for an integer [bucketCount].
    [Array(bucketCount)] throws a [RangeError] on a length that is negative
    or beyond [2^32 - 1]. The buckets are local to the call; the returned
    array is allocated. *)
Definition bucketSort (grades : loc) (bucketCount : Z) (h : heap float)
  : outcome loc * heap float :=
  let contents := deref h grades in
  if (length contents <=? 1)%nat then
    let '(result, h) := alloc contents h in (Returns result, h)
  else
    let min := JsMath.min_list contents in
    let max := JsMath.max_list contents in
    let bucketSize := ((max - min) / JsMath.of_Z bucketCount)%float in
    if (bucketCount <? 0) || (2 ^ 32 <=? bucketCount) then (Throws RangeError, h)
    else
      match
        foldl (bucketSort_distribute min bucketSize (JsMath.of_Z bucketCount - 1)%float)
          (Returns (replicate (Z.to_nat bucketCount) [])) contents
      with
      | Throws e => (Throws e, h)
      | Returns buckets =>
          let sorted :=
            foldl
              (fun result bucket =>
                 match bucket with
                 | [] => result
                 | _ :: _ => result ++ Array_sort (fun a b => (0 <? a - b)%float) bucket
                 end)
              [] buckets in
          let '(result, h) := alloc sorted h in
          (Returns result, h)
      end.

(** *** Topological sort *)

Record Course : Type := {
  id : string;
  name : string;
  prerequisites : option (list string)
}.

(** [course.prerequisites || []] *)
Definition prereqs (course : Course) : list string := default [] (prerequisites course).

(** An in-degree: an integer, or the [NaN] that [undefined - 1] would give. *)
Inductive degree : Type :=
| Deg (d : Z)
| NaN.

(** [degree === 0] *)
Definition is_zero (d : degree) : bool :=
  match d with
  | Deg 0 => true
  | _ => false
  end.

(** The first [forEach]: [graph.set(course.id, ...)] and
    [inDegree.set(course.id, 0)]. *)
Definition build_graph (courses : list Course) : gmap string (list string) :=
  foldl (fun graph course => <[id course := prereqs course]> graph) ∅ courses.

Definition init_inDegree (courses : list Course) : list (string * degree) :=
  foldl (fun inDegree course => map_set (id course) (Deg 0) inDegree) [] courses.

(** The second [forEach]:
    [inDegree.set(prereq, (inDegree.get(prereq) || 0) + 1)]. *)
Definition count_prereq (inDegree : list (string * degree)) (prereq : string)
  : list (string * degree) :=
  map_set prereq
    (match map_get prereq inDegree with
     | Some (Deg d) => Deg (d + 1)
     | Some NaN | None => Deg 1
     end)
    inDegree.

Definition count_inDegree (courses : list Course) (inDegree : list (string * degree))
  : list (string * degree) :=
  foldl (fun inDegree course => foldl count_prereq inDegree (prereqs course))
    inDegree courses.

(** The state of Kahn's loop. *)
Record kahn_state : Type := {
  inDegree : list (string * degree);
  queue : list string;
  result : list (option Course)
}.

(** The body of the inner [forEach]: decrement, and enqueue at zero. *)
Definition visit_neighbor (st : list (string * degree) * list string) (neighbor : string)
  : list (string * degree) * list string :=
  let '(inDegree, queue) := st in
  let inDegree :=
    map_set neighbor
      (match map_get neighbor inDegree with
       | Some (Deg d) => Deg (d - 1)
       | Some NaN | None => NaN
       end)
      inDegree in
  match map_get neighbor inDegree with
  | Some d => if is_zero d then (inDegree, queue ++ [neighbor]) else (inDegree, queue)
  | None => (inDegree, queue)
  end.

(** [while (queue.length > 0) ...], over at most [rounds] rounds.
    [courses.find(...)] is [undefined] ([None]) for an identifier that only
    occurs as a prerequisite. *)
Fixpoint kahn (courses : list Course) (graph : gmap string (list string))
    (rounds : nat) (st : kahn_state) : kahn_state :=
  match rounds, queue st with
  | S rounds', currentId :: queue' =>
      let currentCourse := find (fun c => String.eqb (id c) currentId) courses in
      let '(inDegree', queue'') :=
        foldl visit_neighbor (inDegree st, queue') (default [] (graph !! currentId)) in
      kahn courses graph rounds'
        {| inDegree := inDegree'; queue := queue''; result := result st ++ [currentCourse] |}
  | _, _ => st
  end.

(** The state in which Kahn's loop starts. *)
Definition kahn_init (courses : list Course) : kahn_state :=
  let inDegree := count_inDegree courses (init_inDegree courses) in
  {| inDegree := inDegree;
     queue := map fst (filter (fun e => is_zero (snd e) = true) inDegree);
     result := [] |}.

(** [topologicalSort(courses)]. An identifier enters the queue at most once,
    so the loop takes no more rounds than [inDegree] has keys. There is no
    [throw] on any path. *)
Definition topologicalSort (courses : list Course) : outcome (list (option Course)) :=
  let st := kahn_init courses in
  Returns (result (kahn courses (build_graph courses) (length (inDegree st)) st)).

End SortingEngine.

(** ** AdvancedSearchEngine (search algorithms) *)

Module SearchEngine.
Import Types.
Local Open Scope Z_scope.

(** A string is the sequence of its code units; [s[i]] is [undefined]
    ([None]) outside of it. The characters of the embedding are the code
    units below 256, and of these the embedding knows the case of the ASCII
    letters only. *)
Definition char_at (s : string) (i : Z) : option ascii :=
  if i <? 0 then None else String.get (Z.to_nat i) s.

Definition strlen (s : string) : Z := Z.of_nat (String.length s).

(** [toLowerCase()] on ASCII text, where the letters [A]-[Z] are the only
    characters that JavaScript maps. Beyond ASCII, JavaScript lower-cases
    further letters and this function does not: the theorems that depend on
    the lower-casing are stated for ASCII text. *)
Definition lower_char (c : ascii) : ascii :=
  let n := nat_of_ascii c in
  if ((65 <=? n) && (n <=? 90))%nat then ascii_of_nat (n + 32) else c.

Fixpoint toLowerCase (s : string) : string :=
  match s with
  | EmptyString => EmptyString
  | String c s' => String (lower_char c) (toLowerCase s')
  end.

(** [matrix[j][i]] and [matrix[j][i] = v]. A cell is created as [null],
    which arithmetic reads as [0]; the recurrence reads none before it is
    written. *)
Definition cell_get (matrix : list (list Z)) (j i : Z) : Z :=
  Js.get 0 (Js.get [] matrix j) i.

Definition cell_set (matrix : list (list Z)) (j i : Z) (v : Z) : list (list Z) :=
  Js.set [] matrix j (Js.set 0 (Js.get [] matrix j) i v).

(** [levenshteinDistance(str1, str2)]: the full matrix, row by row. *)
Definition levenshteinDistance (str1 str2 : string) : Z :=
  let len1 := String.length str1 in
  let len2 := String.length str2 in
  let matrix : list (list Z) := replicate (len2 + 1) (replicate (len1 + 1) 0) in
  let matrix := for_up (len1 + 1) 0 (fun i matrix => cell_set matrix 0 i i) matrix in
  let matrix := for_up (len2 + 1) 0 (fun j matrix => cell_set matrix j 0 j) matrix in
  let matrix :=
    for_up len2 1
      (fun j matrix =>
         for_up len1 1
           (fun i matrix =>
              let indicator :=
                if bool_decide (char_at str1 (i - 1) = char_at str2 (j - 1)) then 0 else 1 in
              cell_set matrix j i
                (Z.min (Z.min (cell_get matrix j (i - 1) + 1) (cell_get matrix (j - 1) i + 1))
                   (cell_get matrix (j - 1) (i - 1) + indicator)))
           matrix)
      matrix in
  cell_get matrix (Z.of_nat len2) (Z.of_nat len1).

(** [buildBadCharTable(pattern)]: the last index of each character. *)
Definition buildBadCharTable (pattern : string) : gmap ascii Z :=
  for_up (String.length pattern) 0
    (fun i table =>
       match char_at pattern i with
       | Some c => <[c := i]> table
       | None => table
       end)
    ∅.

(** The inner [while] of [boyerMooreSearch]: compare right to left. *)
Fixpoint boyerMoore_compare (rounds : nat) (text pattern : string) (shift j : Z) : Z :=
  match rounds with
  | O => j
  | S rounds' =>
      if (0 <=? j) && bool_decide (char_at pattern j = char_at text (shift + j))
      then boyerMoore_compare rounds' text pattern shift (j - 1)
      else j
  end.

(** The outer [while] of [boyerMooreSearch]; [None] when [rounds] rounds do
    not end it. In
    [shift + m < n ? m - table.get(c) || m : 1] the conditional binds last;
    [x || y] is [y] when [x] is [0] or [NaN]. *)
Fixpoint boyerMoore_loop (rounds : nat) (text pattern : string)
    (badCharTable : gmap ascii Z) (shift : Z) (positions : list Z) : option (list Z) :=
  match rounds with
  | O => None
  | S rounds' =>
      if shift <=? strlen text - strlen pattern then
        let j :=
          boyerMoore_compare (String.length pattern) text pattern shift (strlen pattern - 1) in
        if j <? 0 then
          let step :=
            if shift + strlen pattern <? strlen text then
              match char_at text (shift + strlen pattern) ≫= (badCharTable !!.) with
              | Some last =>
                  if strlen pattern - last =? 0 then strlen pattern
                  else strlen pattern - last
              | None => strlen pattern
              end
            else 1 in
          boyerMoore_loop rounds' text pattern badCharTable (shift + step)
            (positions ++ [shift])
        else
          let last :=
            match char_at text (shift + j) ≫= (badCharTable !!.) with
            | Some last => if last =? 0 then -1 else last
            | None => -1
            end in
          boyerMoore_loop rounds' text pattern badCharTable
            (shift + Z.max 1 (j - last)) positions
      else Some positions
  end.

(** [boyerMooreSearch(text, pattern)]. With a non-empty pattern [shift]
    grows every round and the loop ends within [text.length + 2] rounds;
    with an empty pattern and a non-empty text it never ends ([None]). *)
Definition boyerMooreSearch (text pattern : string) : option (list Z) :=
  boyerMoore_loop (S (S (String.length text))) text pattern (buildBadCharTable pattern) 0 [].

(** The text a student is matched on. *)
Definition searchableText (student : Student) : string :=
  toLowerCase
    (firstName student ++ " " ++ lastName student ++ " " ++ email student ++ " "
     ++ rollNo student)%string.

(** [1 - distance / maxLength]. The distance and the lengths are integers
    that binary64 arithmetic keeps exactly; the quotient and the difference
    are rounded. *)
Definition similarity (queryLower text : string) : float :=
  let distance := levenshteinDistance queryLower text in
  let maxLength := Z.max (strlen queryLower) (strlen text) in
  (1 - JsMath.of_Z distance / JsMath.of_Z maxLength)%float.

(** [fuzzySearch(students, query, threshold = 0.7)] *)
Definition fuzzySearch (students : list Student) (query : string) (threshold : float)
  : list Student :=
  let results :=
    foldl
      (fun results student =>
         let score := similarity (toLowerCase query) (searchableText student) in
         if (threshold <=? score)%float then results ++ [(student, score)] else results)
      [] students in
  map fst (Array_sort (fun a b => (0 <? snd b - snd a)%float) results).

End SearchEngine.

(** ** List-level counterparts of the in-place routines *)

Module ListLevel.
Local Open Scope Z_scope.

Section Comparator.
Context {T : Type}.
Variable compareFn : T -> T -> Z.

(** [a] is ordered before or with [b]. *)
Definition cmp_le (a b : T) : Prop := compareFn a b <= 0.

Global Instance cmp_le_dec (a b : T) : Decision (cmp_le a b).
Proof. unfold cmp_le. apply _. Defined.

(** What a sort needs of its comparator to order its output: any two
    elements are comparable, and the order is transitive. *)
Definition comparator_total : Prop :=
  forall a b, cmp_le a b \/ cmp_le b a.

Definition comparator_transitive : Prop :=
  forall a b c, cmp_le a b -> cmp_le b c -> cmp_le a c.

(** A consistent comparator, as the built-in sort requires it: swapping the
    arguments negates the sign. *)
Definition comparator_antisymmetric : Prop :=
  forall a b, Z.sgn (compareFn a b) = - Z.sgn (compareFn b a).

(** The elements that compare equal to [a]. *)
Definition same_rank (a : T) (e : T) : Prop := compareFn a e = 0.

Global Instance same_rank_dec (a e : T) : Decision (same_rank a e).
Proof. unfold same_rank. apply _. Defined.

(** [l'] is a stable rearrangement of [l]: every class of elements that
    compare equal keeps its order. *)
Definition stable (l l' : list T) : Prop :=
  forall a, filter (same_rank a) l' = filter (same_rank a) l.

(** One round of insertion sort seen from the right end of the sorted
    prefix, which [rfront] lists backwards: [key] passes the elements that
    compare above it. *)
Fixpoint insert_desc (key : T) (rfront : list T) : list T :=
  match rfront with
  | [] => [key]
  | y :: r => if 0 <? compareFn y key then y :: insert_desc key r else key :: y :: r
  end.

Definition insert_back (front : list T) (key : T) : list T :=
  reverse (insert_desc key (reverse front)).

(** Insertion sort of [todo] into the sorted prefix [front]. *)
Definition insertion_sort_from (front todo : list T) : list T :=
  foldl insert_back front todo.

Definition insertion_sort (l : list T) : list T := insertion_sort_from [] l.

(** The array as [timSort] sees it during a pass: runs of [size] elements,
    the last one possibly shorter. *)
Inductive runs_of (size : nat) : list (list T) -> Prop :=
| runs_of_nil : runs_of size []
| runs_of_last run : (0 < length run <= size)%nat -> runs_of size [run]
| runs_of_cons run run' rest :
    length run = size -> runs_of size (run' :: rest) -> runs_of size (run :: run' :: rest).

(** One pass of the bottom-up merge: adjacent runs are merged two by two. *)
Fixpoint merge_pairs (runs : list (list T)) : list (list T) :=
  match runs with
  | a :: b :: rest => list_merge cmp_le a b :: merge_pairs rest
  | _ => runs
  end.

End Comparator.

(** The decimal digit of [x] that a pass at [exp] sorts by. *)
Definition digit_of (exp x : Z) : Z := (x / exp) mod 10.

(** A stable sort by that digit: the elements with digit 0 in their order,
    then those with digit 1, and so on. *)
Definition counting_pass (exp : Z) (l : list Z) : list Z :=
  flat_map (fun d => filter (fun x => digit_of exp x = d) l) (seqZ 0 10).

(** Least-significant-digit passes while [exp] does not exceed [max]. *)
Fixpoint lsd_passes (rounds : nat) (max exp : Z) (l : list Z) : list Z :=
  match rounds with
  | O => l
  | S rounds' =>
      if 0 <? max / exp then lsd_passes rounds' max (exp * 10) (counting_pass exp l) else l
  end.

End ListLevel.

(** ** The prerequisite graph *)

Module Graph.
Import SortingEngine.

(** The prerequisite edges of a collection of courses: [(u, v)] when the
    course [u] lists [v] as a prerequisite. *)
Definition edges (courses : list Course) : list (string * string) :=
  flat_map (fun course => map (fun prereq => (id course, prereq)) (prereqs course)) courses.

Definition depends (courses : list Course) (u v : string) : Prop :=
  (u, v) ∈ edges courses.

(** [u] lies on a cycle of prerequisite edges. *)
Definition on_cycle (courses : list Course) (u : string) : Prop :=
  tc (depends courses) u u.

(** The in-degree the map holds for [v]; an identifier it does not hold
    counts for nothing. *)
Definition deg_of (m : list (string * degree)) (v : string) : Z :=
  match map_get v m with
  | Some (Deg d) => d
  | _ => 0
  end.

(** The map holds an integer for [v]. *)
Definition counted (m : list (string * degree)) (v : string) : Prop :=
  exists d, map_get v m = Some (Deg d).

(** The map holds integers only. *)
Definition proper (m : list (string * degree)) : Prop :=
  forall k x, map_get k m = Some x -> exists d, x = Deg d.

(** How often [v] stands in [ps]. *)
Definition occurrences (v : string) (ps : list string) : Z :=
  Z.of_nat (length (filter (fun p => p = v) ps)).

(** The number of prerequisite edges into [v] whose source is not in
    [visited]. *)
Definition pending (courses : list Course) (visited : list string) (v : string) : Z :=
  foldr (fun course acc =>
           ((if decide (id course ∈ visited) then 0 else occurrences v (prereqs course))
            + acc)%Z)
        0%Z courses.

(** What Kahn's loop keeps, with [visited] the identifiers dequeued so far. *)
Record kahn_inv (courses : list Course) (visited : list string) (st : kahn_state)
  : Prop := {
  inv_proper : proper (inDegree st);
  inv_keys : map fst (inDegree st) = map fst (inDegree (kahn_init courses));
  inv_counted : forall p, p ∈ flat_map prereqs courses -> counted (inDegree st) p;
  inv_once : NoDup (visited ++ queue st);
  inv_spent :
    forall v, v ∈ visited ++ queue st ->
              v ∈ map fst (inDegree st) /\ (deg_of (inDegree st) v <= 0)%Z;
  inv_pending : forall v, (pending courses visited v <= deg_of (inDegree st) v)%Z;
  inv_cycle : forall v, on_cycle courses v -> v ∉ visited ++ queue st;
  inv_result : forall c, Some c ∈ result st -> id c ∈ visited
}.

End Graph.

(** ** The order of the binary64 numbers *)

Module Binary64.
Local Open Scope Z_scope.

(** A number's place in the order of the binary64 numbers that are not
    [NaN]: its value in units of the least positive number, the infinities
    beyond every finite value, both zeros at [0]. *)
Definition key (x : spec_float) : Z :=
  match x with
  | S754_zero _ => 0
  | S754_infinity s => if s then - 2 ^ 2100 else 2 ^ 2100
  | S754_nan => 0
  | S754_finite s m e => if s then - (Zpos m * 2 ^ (e + 1074)) else Zpos m * 2 ^ (e + 1074)
  end.

Definition is_number (x : spec_float) : Prop := x <> S754_nan.

Definition fkey (x : float) : Z := key (Prim2SF x).

Definition is_num (x : float) : Prop := is_number (Prim2SF x).

(** Zero or above, and finite: what an array length or a count of edits
    is as a number. *)
Definition is_count (x : spec_float) : Prop :=
  match x with
  | S754_zero false | S754_finite false _ _ => True
  | _ => False
  end.

Definition is_positive (x : spec_float) : Prop :=
  match x with
  | S754_finite false _ _ => True
  | _ => False
  end.

(** A number of sign [sx]. *)
Definition has_sign (sx : bool) (x : spec_float) : Prop :=
  match x with
  | S754_zero s | S754_infinity s | S754_finite s _ _ => s = sx
  | S754_nan => False
  end.

End Binary64.

(** ** Edit distance *)

Module EditDistance.
Import SearchEngine.
Local Open Scope Z_scope.

(** [aligned s t n]: [s] is turned into [t] by deleting, inserting and
    substituting single characters, [n] of them in all. *)
Inductive aligned : list ascii -> list ascii -> Z -> Prop :=
| aligned_nil : aligned [] [] 0
| aligned_delete a s t n : aligned s t n -> aligned (a :: s) t (n + 1)
| aligned_insert b s t n : aligned s t n -> aligned s (b :: t) (n + 1)
| aligned_keep a s t n : aligned s t n -> aligned (a :: s) (a :: t) n
| aligned_substitute a b s t n : aligned s t n -> aligned (a :: s) (b :: t) (n + 1).

(** The edit distance is the least number of edits. *)
Definition is_edit_distance (s t : list ascii) (d : Z) : Prop :=
  aligned s t d /\ forall n, aligned s t n -> d <= n.

(** The recurrence of Levenshtein, on the first characters. *)
Fixpoint lev (s t : list ascii) {struct s} : Z :=
  match s with
  | [] => Z.of_nat (length t)
  | a :: s' =>
      (fix lev_row (t : list ascii) : Z :=
         match t with
         | [] => Z.of_nat (S (length s'))
         | b :: t' =>
             Z.min (Z.min (lev s' t + 1) (lev_row t' + 1))
               (lev s' t' + (if decide (a = b) then 0 else 1))
         end) t
  end.

Definition chars (s : string) : list ascii := list_ascii_of_string s.

Definition edit_distance (s t : string) : Z := lev (chars s) (chars t).

(** Modelled from the spec: the normalized similarity
    [1 - (edit distance) / max(lengths)], in binary64 arithmetic. *)
Definition normalized_similarity (s t : string) : float :=
  (1 - JsMath.of_Z (edit_distance s t) / JsMath.of_Z (Z.max (strlen s) (strlen t)))%float.

(** Modelled from the spec: lower-casing, by the table of the alphabet. A
    character that is no capital letter of ASCII is left as it is. *)
Definition lowercase_letter (c : ascii) : ascii :=
  match c with
  | "A" => "a" | "B" => "b" | "C" => "c" | "D" => "d" | "E" => "e" | "F" => "f"
  | "G" => "g" | "H" => "h" | "I" => "i" | "J" => "j" | "K" => "k" | "L" => "l"
  | "M" => "m" | "N" => "n" | "O" => "o" | "P" => "p" | "Q" => "q" | "R" => "r"
  | "S" => "s" | "T" => "t" | "U" => "u" | "V" => "v" | "W" => "w" | "X" => "x"
  | "Y" => "y" | "Z" => "z"
  | _ => c
  end%char.

Fixpoint lower_cased (s : string) : string :=
  match s with
  | EmptyString => EmptyString
  | String c s' => String (lowercase_letter c) (lower_cased s')
  end.


(** The concatenation of a record's searchable fields. *)
Definition searchable_fields (student : Types.Student) : string :=
  (Types.firstName student ++ " " ++ Types.lastName student ++ " "
   ++ Types.email student ++ " " ++ Types.rollNo student)%string.

(** The similarity of a record to a query: both lower-cased, the record
    as the concatenation of its searchable fields. *)
Definition record_similarity (query : string) (student : Types.Student) : float :=
  normalized_similarity (lower_cased query) (lower_cased (searchable_fields student)).

End EditDistance.

(* ===================================================================== *)
(** * Part II: the properties                                             *)
(* ===================================================================== *)

(** ** Descriptive statistics *)

Section Statistics.
Import AnalyticsEngine.
Local Open Scope float_scope.

(** C4. [calculateStatistics] throws its explicit error on the empty list,
    and on the singleton [[5]] it returns a summary whose mean and median
    are 5, whose variance and standard deviation are 0 and whose outlier
    list is empty. *)
Theorem calculateStatistics_empty_and_singleton :
  calculateStatistics [] = Throws (Error "Cannot calculate statistics for empty array")
  /\ exists summary,
       calculateStatistics [5] = Returns summary
       /\ mean summary = 5
       /\ median summary = 5
       /\ variance summary = 0
       /\ standardDeviation summary = 0
       /\ outliers summary = [].
Proof.
  split; [reflexivity |].
  eexists. split; [vm_compute; reflexivity |].
  repeat split; reflexivity.
Qed.

End Statistics.

(** ** Ridge-regression confidence *)

Section Confidence.
Import PredictionEngine.
Local Open Scope float_scope.

(** The confidence is [max(0, 1 - MSE / variance(targets))] by
    construction; what remains to check is the value of that expression
    when the variance is zero. With a positive error the quotient is
    [+Infinity] and [Math.max] absorbs [-Infinity]. *)
Example calculateConfidence_zero_variance_positive_error :
  variance [2; 2] = 0 /\ calculateConfidence [[1]; [2]] [2; 2] [1; 0] = 0.
Proof. split; reflexivity. Qed.

(** C9 (fails on the code). One sample with target [2] and weights that
    predict it exactly: the targets have zero variance, the error is zero,
    the quotient is [0 / 0] and the confidence is [NaN], which [Math.max]
    propagates. The guard that [normalizeTargets] has on its own
    zero-range division gives [0] on the same targets. *)
Theorem calculateConfidence_zero_variance_is_nan :
  variance [2] = 0
  /\ PrimFloat.is_nan (calculateConfidence [[1]] [2] [2; 0]) = true
  /\ normalizeTargets [2] = [0].
Proof. repeat split; reflexivity. Qed.

End Confidence.

(** ** k-means *)

Section KMeansProperties.
Import Types AnalyticsEngine.
Variable parseFloat : string -> float.
Variable random : nat -> float.

Lemma arraysEqual_holes (n : nat) (b : list nat) :
  length b = n -> arraysEqual (replicate n None) b = true.
Proof.
  intros Hlen. unfold arraysEqual.
  rewrite length_replicate, Hlen, Nat.eqb_refl. simpl.
  apply forallb_forall. intros [index slot] Hin.
  apply list_elem_of_In, elem_of_lookup_imap in Hin as (i & slot' & Heq & Hlook).
  apply lookup_replicate in Hlook as [-> _]. by inversion Heq.
Qed.

(** The loop leaves at its first round: the initial [assignments] has only
    holes, and [arraysEqual] compares none of them. *)
Lemma kMeans_loop_first_round rounds points k centroids :
  kMeans_loop rounds points k centroids (replicate (length points) None)
  = Returns (centroids, replicate (length points) None).
Proof.
  destruct rounds as [| rounds]; [reflexivity |]. simpl.
  by rewrite arraysEqual_holes by by rewrite length_map.
Qed.

Lemma groupByCluster_holes_from n (acc : outcome (list (list nat))) (i : nat) :
  foldl (fun '(acc, studentIndex) (slot : option nat) =>
           (match slot with
            | None => acc
            | Some clusterIndex =>
                bind acc (fun clusters =>
                  match clusters !! clusterIndex with
                  | Some cluster =>
                      Returns (<[clusterIndex := cluster ++ [studentIndex]]> clusters)
                  | None => Throws TypeError
                  end)
            end,
            S studentIndex))
    (acc, i) (replicate n None)
  = (acc, (i + n)%nat).
Proof.
  revert i. induction n as [| n IH]; intros i; simpl.
  - by rewrite Nat.add_0_r.
  - rewrite IH. f_equal. lia.
Qed.

Lemma groupByCluster_holes k n :
  groupByCluster k (replicate n None) = Returns (replicate k []).
Proof. unfold groupByCluster. by rewrite groupByCluster_holes_from. Qed.

Lemma calculateInertia_thrown points (centroids : list (list float))
    (assignments : list (option nat)) e (i : nat) :
  fst (foldl (fun '(acc, index) (point : list float) =>
                (bind acc (fun sum =>
                   match mjoin (assignments !! index) ≫= (centroids !!.) with
                   | Some centroid =>
                       Returns (sum + JsMath.pow2 (euclideanDistance point centroid))%float
                   | None =>
                       match point with
                       | [] => Returns (sum + JsMath.pow2 (PrimFloat.sqrt 0))%float
                       | _ :: _ => Throws TypeError
                       end
                   end),
                 S index))
         (Throws e, i) points)
  = Throws e.
Proof.
  revert i. induction points as [| p points IH]; intros i; simpl; [done |]. apply IH.
Qed.

(** With only holes in [assignments], the first point that has a coordinate
    makes [calculateInertia] throw. *)
Lemma calculateInertia_holes x point points centroids n :
  calculateInertia ((x :: point) :: points) centroids (replicate (S n) None)
  = Throws TypeError.
Proof. unfold calculateInertia. simpl. apply calculateInertia_thrown. Qed.

(** Every call on at least one student and at least one feature throws. *)
Lemma kMeansClustering_throws student students k feature features maxIterations :
  kMeansClustering parseFloat random (student :: students) k (feature :: features) maxIterations
  = Throws TypeError.
Proof.
  unfold kMeansClustering. cbn [map initializeCentroids bind].
  rewrite kMeans_loop_first_round. cbn [bind].
  rewrite groupByCluster_holes. cbn [bind length].
  by rewrite calculateInertia_holes.
Qed.

End KMeansProperties.

Section KMeansFailure.
Import Types AnalyticsEngine.
Local Open Scope float_scope.

(** Two students that differ in [gpa] only. *)
Definition sample_student (identifier : string) (grade : float) : Student := {|
  Types.id := identifier; firstName := "Ada"; lastName := "Byron"; email := "ada@uni.edu";
  rollNo := identifier; password := None; contact := "555"; dateOfBirth := 0;
  gender := "other"; course := "Mathematics"; department := "Science"; year := 2;
  semester := 3; gpa := grade; credits := 60; enrollmentDate := 0;
  graduationDate := None; status := "active"; profileImage := None;
  createdAt := 0; updatedAt := 0
|}.

(** C5 (fails on the code). Clustering two students into [k = 2] groups by
    [gpa], as the README does, returns no centroids and no assignments: the
    call throws. The same call on an empty feature list returns, with an
    [assignments] array of the right length that holds nothing. *)
Theorem kMeansClustering_two_students_throws :
  let students := [sample_student "s1" 3.5; sample_student "s2" 2] in
  kMeansClustering (fun _ => nan) (fun _ => 0.5) students 2 ["gpa"%string] 100
  = Throws TypeError
  /\ exists r,
       kMeansClustering (fun _ => nan) (fun _ => 0.5) students 2 [] 100 = Returns r
       /\ length (centroids r) = 2%nat
       /\ assignments r = [None; None].
Proof.
  split; [vm_compute; reflexivity |].
  eexists. split; [vm_compute; reflexivity |]. split; reflexivity.
Qed.

End KMeansFailure.

(** ** Exact pattern search *)

Section PatternSearch.
Import SearchEngine.
Local Open Scope Z_scope.

(** [pattern] occurs in [text] at offset [i]. *)
Definition occurs_at (text pattern : string) (i : Z) : Prop :=
  0 <= i /\ substring (Z.to_nat i) (String.length pattern) text = pattern
  /\ i + strlen pattern <= strlen text.

(** A pattern longer than the text is never compared: no match. *)
Lemma boyerMooreSearch_long_pattern text pattern :
  strlen text < strlen pattern -> boyerMooreSearch text pattern = Some [].
Proof.
  intros Hlen. unfold boyerMooreSearch. simpl.
  destruct (Z.leb_spec 0 (strlen text - strlen pattern)); [lia | done].
Qed.

(** C7 (fails on the code). In ["aab"] the pattern ["ab"] occurs at offset 1.
    The first window mismatches on the text character [a], whose last index
    in the pattern is [0]; [0 || -1] reads that index as absent, the window
    moves by 2 instead of 1, and the search ends with no offset at all. *)
Theorem boyerMooreSearch_misses_occurrence :
  occurs_at "aab" "ab" 1
  /\ buildBadCharTable "ab" !! "a"%char = Some 0
  /\ boyerMooreSearch "aab" "ab" = Some [].
Proof. repeat split; try reflexivity; vm_compute; congruence. Qed.

End PatternSearch.

(** ** Arrays: reads and writes at a known position *)

Section ArrayFacts.
Context {T : Type}.
Variable undefined : T.
Local Abbreviation get := (Js.get undefined).
Local Abbreviation set := (Js.set undefined).
Local Abbreviation swap := (Js.swap undefined).
Local Open Scope Z_scope.

Lemma get_middle (l1 l2 : list T) x i :
  i = Z.of_nat (length l1) -> get (l1 ++ x :: l2) i = x.
Proof.
  intros ->. unfold Js.get.
  destruct (Z.leb_spec 0 (Z.of_nat (length l1))); [| lia].
  rewrite Nat2Z.id. apply nth_middle.
Qed.

Lemma set_middle (l1 l2 : list T) x y i :
  i = Z.of_nat (length l1) -> set (l1 ++ x :: l2) i y = l1 ++ y :: l2.
Proof.
  intros ->. unfold Js.set.
  destruct (Z.ltb_spec (Z.of_nat (length l1)) 0); [lia |].
  destruct (Z.ltb_spec (Z.of_nat (length l1)) (Z.of_nat (length (l1 ++ x :: l2)))).
  - rewrite Nat2Z.id. replace (length l1) with (length l1 + 0)%nat at 1 by lia.
    by rewrite insert_app_r.
  - rewrite length_app in *. simpl in *. lia.
Qed.

(** Any index inside an array splits it around the element it names. *)
Lemma split_at (arr : list T) (i : Z) :
  0 <= i < Z.of_nat (length arr) ->
  exists l1 x l2, arr = l1 ++ x :: l2 /\ Z.of_nat (length l1) = i.
Proof.
  intros Hi.
  destruct (lookup_lt_is_Some_2 arr (Z.to_nat i)) as [x Hx]; [lia |].
  exists (take (Z.to_nat i) arr), x, (drop (S (Z.to_nat i)) arr). split.
  - by rewrite take_drop_middle.
  - rewrite length_take. apply lookup_lt_Some in Hx. lia.
Qed.

Lemma length_set (arr : list T) i v :
  0 <= i < Z.of_nat (length arr) -> length (set arr i v) = length arr.
Proof.
  intros Hi. destruct (split_at arr i Hi) as (l1 & x & l2 & -> & Hl).
  rewrite (set_middle _ _ _ _ _ (eq_sym Hl)). by rewrite !length_app.
Qed.

End ArrayFacts.

Lemma for_up_S {S : Type} (n : nat) (i : Z) (body : Z -> S -> S) (s : S) :
  for_up (Datatypes.S n) i body s = for_up n (i + 1)%Z body (body i s).
Proof. reflexivity. Qed.

(** Two lists that differ by the bracketing of [++] and [::] only. *)
Ltac reassoc := repeat first [rewrite <- app_assoc | progress simpl]; reflexivity.

Lemma Permutation_swap_far {A : Type} (l1 l2 l3 : list A) x y :
  l1 ++ y :: l2 ++ x :: l3 ≡ₚ l1 ++ x :: l2 ++ y :: l3.
Proof.
  apply Permutation_app_head.
  rewrite <- (Permutation_middle l2 l3 x), <- (Permutation_middle l2 l3 y).
  apply Permutation_swap.
Qed.

Lemma filter_none {A : Type} (P : A -> Prop) `{forall x, Decision (P x)} (l : list A) :
  Forall (fun x => ~ P x) l -> filter P l = [].
Proof.
  induction 1 as [| x l Hx _ IH]; [done |].
  by rewrite filter_cons, decide_False.
Qed.

(** ** Insertion sort: the in-place loops against the list-level sort *)

Section InsertionSortRefinement.
Import SortingEngine ListLevel.
Context {T : Type}.
Variable undefined : T.
Variable compareFn : T -> T -> Z.
Local Abbreviation get := (Js.get undefined).
Local Abbreviation set := (Js.set undefined).
Local Open Scope Z_scope.

Lemma insert_back_nil key : insert_back compareFn [] key = [key].
Proof. reflexivity. Qed.

Lemma insert_back_snoc_gt front y key :
  0 < compareFn y key ->
  insert_back compareFn (front ++ [y]) key = insert_back compareFn front key ++ [y].
Proof.
  intros Hgt. unfold insert_back. rewrite reverse_snoc. simpl.
  destruct (Z.ltb_spec 0 (compareFn y key)); [| lia]. by rewrite reverse_cons.
Qed.

Lemma insert_back_snoc_le front y key :
  compareFn y key <= 0 ->
  insert_back compareFn (front ++ [y]) key = front ++ [y; key].
Proof.
  intros Hle. unfold insert_back. rewrite reverse_snoc. simpl.
  destruct (Z.ltb_spec 0 (compareFn y key)); [lia |].
  rewrite !reverse_cons, reverse_involutive. by rewrite <- app_assoc.
Qed.

Lemma insertionSort_shift_below rounds arr low j key :
  j < low -> insertionSort_shift undefined compareFn rounds arr low j key = (arr, j).
Proof.
  intros Hlt. destruct rounds; [done |]. simpl.
  destruct (Z.leb_spec low j); [lia | done].
Qed.

(** The [while] loop followed by [arr[j + 1] = key] inserts [key] into the
    prefix [front] that ends just below the slot [x] the key came from. *)
Lemma insertionSort_shift_spec key front :
  forall pre x tail rounds,
    (length front <= rounds)%nat ->
    let '(arr, j) :=
      insertionSort_shift undefined compareFn rounds (pre ++ front ++ x :: tail)
        (Z.of_nat (length pre)) (Z.of_nat (length pre) + Z.of_nat (length front) - 1) key in
    set arr (j + 1) key = pre ++ insert_back compareFn front key ++ tail.
Proof.
  induction front as [| y front IH] using rev_ind; intros pre x tail rounds Hrounds.
  - rewrite insertionSort_shift_below by (simpl; lia).
    simpl. apply set_middle. lia.
  - rewrite length_app in *. simpl in *.
    destruct rounds as [| rounds]; [lia |]. simpl.
    destruct (Z.leb_spec (Z.of_nat (length pre))
                (Z.of_nat (length pre) + Z.of_nat (length front + 1) - 1)); [| lia].
    assert (Hy : get (pre ++ (front ++ [y]) ++ x :: tail)
                   (Z.of_nat (length pre) + Z.of_nat (length front + 1) - 1) = y).
    { rewrite <- (app_assoc front), (app_assoc pre). apply get_middle.
      rewrite length_app. lia. }
    rewrite Hy. simpl.
    destruct (Z.ltb_spec 0 (compareFn y key)) as [Hgt | Hle].
    + assert (Hset : set (pre ++ (front ++ [y]) ++ x :: tail)
                       (Z.of_nat (length pre) + Z.of_nat (length front + 1) - 1 + 1) y
                     = pre ++ front ++ y :: y :: tail).
      { rewrite <- (app_assoc front). simpl.
        replace (pre ++ front ++ y :: x :: tail) with ((pre ++ front ++ [y]) ++ x :: tail)
          by by rewrite <- !app_assoc.
        rewrite set_middle by (rewrite !length_app; simpl; lia).
        by rewrite <- !app_assoc. }
      rewrite Hset.
      replace (Z.of_nat (length pre) + Z.of_nat (length front + 1) - 1 - 1)
        with (Z.of_nat (length pre) + Z.of_nat (length front) - 1) by lia.
      specialize (IH pre y (y :: tail) rounds ltac:(lia)).
      destruct (insertionSort_shift _ _ _ _ _ _ _) as [arr j].
      rewrite IH, insert_back_snoc_gt by done. by rewrite <- app_assoc.
    + rewrite insert_back_snoc_le by done.
      replace (pre ++ (front ++ [y]) ++ x :: tail) with ((pre ++ front ++ [y]) ++ x :: tail)
        by by rewrite <- !app_assoc.
      rewrite set_middle by (rewrite !length_app; simpl; lia).
      rewrite <- !app_assoc. by simpl.
Qed.

(** The [for] loop of [insertionSort], started with the prefix [front]
    already in order, inserts the elements of [todo] one after the other. *)
Lemma insertionSort_loop_spec todo :
  forall pre front post,
    for_up (length todo) (Z.of_nat (length pre) + Z.of_nat (length front))
      (fun i arr =>
         let key := get arr i in
         let '(arr, j) :=
           insertionSort_shift undefined compareFn
             (Z.to_nat (i - Z.of_nat (length pre))) arr (Z.of_nat (length pre)) (i - 1) key in
         set arr (j + 1) key)
      (pre ++ front ++ todo ++ post)
    = pre ++ insertion_sort_from compareFn front todo ++ post.
Proof.
  induction todo as [| key todo IH]; intros pre front post; [done |].
  simpl.
  assert (Hkey : get (pre ++ front ++ key :: todo ++ post)
                   (Z.of_nat (length pre) + Z.of_nat (length front)) = key).
  { rewrite app_assoc. apply get_middle. rewrite length_app. lia. }
  rewrite Hkey.
  pose proof (insertionSort_shift_spec key front pre key (todo ++ post)
                (Z.to_nat (Z.of_nat (length pre) + Z.of_nat (length front)
                           - Z.of_nat (length pre))) ltac:(lia)) as Hshift.
  destruct (insertionSort_shift _ _ _ _ _ _ _) as [arr j].
  rewrite Hshift.
  replace (Z.of_nat (length pre) + Z.of_nat (length front) + 1)
    with (Z.of_nat (length pre) + Z.of_nat (length (insert_back compareFn front key))).
  - apply IH.
  - unfold insert_back. rewrite length_reverse.
    assert (Hlen : forall r, length (insert_desc compareFn key r) = S (length r)).
    { induction r as [| y r IHr]; [done |]. simpl.
      destruct (0 <? compareFn y key); simpl; by rewrite ?IHr. }
    rewrite Hlen, length_reverse. lia.
Qed.

(** [insertionSort] on the segment [seg] of [pre ++ seg ++ post]. *)
Lemma insertionSort_spec pre seg post low high :
  low = Z.of_nat (length pre) ->
  high = low + Z.of_nat (length seg) - 1 ->
  insertionSort undefined compareFn (pre ++ seg ++ post) low high
  = pre ++ insertion_sort compareFn seg ++ post.
Proof.
  intros -> ->. unfold insertionSort, insertion_sort.
  destruct seg as [| x todo].
  - simpl. replace (Z.to_nat _) with 0%nat by lia. done.
  - replace (Z.to_nat _) with (length todo) by (simpl; lia).
    exact (insertionSort_loop_spec todo pre [x] post).
Qed.

End InsertionSortRefinement.

(** ** Insertion sort on lists: permutation, order, stability *)

Section InsertionSortProperties.
Import ListLevel.
Context {T : Type}.
Variable compareFn : T -> T -> Z.
Local Open Scope Z_scope.
Local Abbreviation le := (cmp_le compareFn).

Lemma insert_desc_Permutation key r : insert_desc compareFn key r ≡ₚ key :: r.
Proof.
  induction r as [| y r IH]; [done |]. simpl.
  destruct (0 <? compareFn y key); [| done].
  rewrite IH. apply Permutation_swap.
Qed.

Lemma insert_back_Permutation front key :
  insert_back compareFn front key ≡ₚ key :: front.
Proof.
  unfold insert_back.
  by rewrite reverse_Permutation, insert_desc_Permutation, reverse_Permutation.
Qed.

Lemma insertion_sort_from_cons front key todo :
  insertion_sort_from compareFn front (key :: todo)
  = insertion_sort_from compareFn (insert_back compareFn front key) todo.
Proof. reflexivity. Qed.

Lemma insertion_sort_from_Permutation todo :
  forall front, insertion_sort_from compareFn front todo ≡ₚ front ++ todo.
Proof.
  induction todo as [| key todo IH]; intros front.
  - by rewrite app_nil_r.
  - rewrite insertion_sort_from_cons, IH, insert_back_Permutation.
    simpl. apply Permutation_middle.
Qed.

Lemma insertion_sort_Permutation l : insertion_sort compareFn l ≡ₚ l.
Proof. apply (insertion_sort_from_Permutation l []). Qed.

Section Ordered.
Hypothesis total : comparator_total compareFn.

Lemma gt_cmp_le y key : 0 < compareFn y key -> le key y.
Proof. intros Hgt. destruct (total key y) as [H | H]; [done |]. unfold cmp_le in H. lia. Qed.

Lemma insert_desc_Sorted key r :
  Sorted (flip le) r -> Sorted (flip le) (insert_desc compareFn key r).
Proof.
  induction 1 as [| y r Hsorted IH Hhd]; simpl.
  - by repeat constructor.
  - destruct (Z.ltb_spec 0 (compareFn y key)) as [Hgt | Hle].
    + constructor; [done |].
      destruct Hhd as [| z r Hz]; simpl.
      * constructor. by apply gt_cmp_le.
      * destruct (0 <? compareFn z key); constructor; [done |]. by apply gt_cmp_le.
    + by repeat constructor.
Qed.

Lemma insert_back_Sorted front key :
  Sorted le front -> Sorted le (insert_back compareFn front key).
Proof.
  intros Hsorted. unfold insert_back.
  apply (Sorted_reverse (flip le)), insert_desc_Sorted.
  by apply (Sorted_reverse le).
Qed.

Lemma insertion_sort_from_Sorted todo :
  forall front, Sorted le front -> Sorted le (insertion_sort_from compareFn front todo).
Proof.
  induction todo as [| key todo IH]; intros front Hsorted; [done |].
  rewrite insertion_sort_from_cons. apply IH. by apply insert_back_Sorted.
Qed.

Lemma insertion_sort_Sorted l : Sorted le (insertion_sort compareFn l).
Proof. apply insertion_sort_from_Sorted. constructor. Qed.

End Ordered.

Section Stable.
Hypothesis antisymmetric : comparator_antisymmetric compareFn.
Hypothesis transitive : comparator_transitive compareFn.

Lemma same_rank_sym a b : same_rank compareFn a b -> same_rank compareFn b a.
Proof. unfold same_rank. intros H. pose proof (antisymmetric a b). lia. Qed.

(** Two elements of one class compare equal. *)
Lemma same_rank_class a x y :
  same_rank compareFn a x -> same_rank compareFn a y -> compareFn x y = 0.
Proof.
  intros Hx Hy.
  pose proof (same_rank_sym _ _ Hx) as Hx'. pose proof (same_rank_sym _ _ Hy) as Hy'.
  unfold same_rank in *.
  assert (compareFn x y <= 0) by (apply (transitive x a y); unfold cmp_le; lia).
  assert (compareFn y x <= 0) by (apply (transitive y a x); unfold cmp_le; lia).
  pose proof (antisymmetric x y). lia.
Qed.

Lemma insert_desc_filter a key r :
  filter (same_rank compareFn a) (insert_desc compareFn key r)
  = filter (same_rank compareFn a) (key :: r).
Proof.
  induction r as [| y r IH]; [done |]. simpl.
  destruct (Z.ltb_spec 0 (compareFn y key)) as [Hgt | Hle]; [| done].
  rewrite (filter_cons _ y), IH, !filter_cons.
  destruct (decide (same_rank compareFn a y)) as [Hy | Hy];
    destruct (decide (same_rank compareFn a key)) as [Hkey | Hkey]; try done.
  pose proof (same_rank_class a y key Hy Hkey). lia.
Qed.

Lemma insert_back_stable front key :
  stable compareFn (front ++ [key]) (insert_back compareFn front key).
Proof.
  intros a. unfold insert_back.
  rewrite filter_reverse, insert_desc_filter, <- filter_reverse.
  by rewrite reverse_cons, reverse_involutive.
Qed.

Lemma insertion_sort_from_stable todo :
  forall front, stable compareFn (front ++ todo) (insertion_sort_from compareFn front todo).
Proof.
  induction todo as [| key todo IH]; intros front a.
  - by rewrite app_nil_r.
  - rewrite insertion_sort_from_cons, IH, !filter_app, insert_back_stable.
    rewrite filter_app, <- app_assoc. by rewrite <- filter_app.
Qed.

Lemma insertion_sort_stable l : stable compareFn l (insertion_sort compareFn l).
Proof. apply (insertion_sort_from_stable l []). Qed.

End Stable.

End InsertionSortProperties.

(** ** Merge: the in-place loops against the list-level merge *)

Section MergeRefinement.
Import SortingEngine ListLevel.
Context {T : Type}.
Variable undefined : T.
Variable compareFn : T -> T -> Z.
Local Abbreviation get := (Js.get undefined).
Local Abbreviation set := (Js.set undefined).
Local Abbreviation le := (cmp_le compareFn).
Local Open Scope Z_scope.

Lemma slice_segment (pre seg post : list T) (start end_ : Z) :
  start = Z.of_nat (length pre) ->
  end_ = start + Z.of_nat (length seg) ->
  slice (pre ++ seg ++ post) start end_ = seg.
Proof.
  intros -> ->. unfold slice. rewrite !length_app.
  destruct (Z.ltb_spec (Z.of_nat (length pre)) 0); [lia |].
  destruct (Z.ltb_spec (Z.of_nat (length pre) + Z.of_nat (length seg)) 0); [lia |].
  rewrite !Z.min_l by lia.
  rewrite Nat2Z.id, drop_app_length.
  replace (Z.to_nat _) with (length seg) by lia.
  by rewrite take_app_length.
Qed.

(** The draining loop copies what is left of [src]. *)
Lemma merge_rest_spec todo :
  forall done pre mid post rounds,
    length mid = length todo ->
    (length todo <= rounds)%nat ->
    fst (merge_rest undefined rounds (pre ++ mid ++ post) (done ++ todo)
           (Z.of_nat (length done)) (Z.of_nat (length pre)))
    = pre ++ todo ++ post.
Proof.
  induction todo as [| x todo IH]; intros done pre mid post rounds Hmid Hrounds.
  - destruct mid; [| done]. destruct rounds; [done |]. simpl.
    rewrite app_nil_r.
    destruct (Z.ltb_spec (Z.of_nat (length done)) (Z.of_nat (length done))); [lia | done].
  - destruct mid as [| m mid]; [done |]. destruct rounds as [| rounds]; [simpl in *; lia |].
    simpl in *. rewrite length_app. simpl.
    destruct (Z.ltb_spec (Z.of_nat (length done)) (Z.of_nat (length done + S (length todo))));
      [| lia].
    rewrite get_middle, set_middle by done.
    replace (pre ++ x :: mid ++ post) with ((pre ++ [x]) ++ mid ++ post)
      by by rewrite <- app_assoc.
    replace (done ++ x :: todo) with ((done ++ [x]) ++ todo) by by rewrite <- app_assoc.
    replace (Z.of_nat (length done) + 1) with (Z.of_nat (length (done ++ [x])))
      by (rewrite length_app; simpl; lia).
    replace (Z.of_nat (length pre) + 1) with (Z.of_nat (length (pre ++ [x])))
      by (rewrite length_app; simpl; lia).
    rewrite IH by lia. by rewrite <- app_assoc.
Qed.

(** The three loops of [merge], from any point of the two runs on. *)
Definition merge_from (rounds : nat) (arr lrun rrun : list T) (i j k : Z) : list T :=
  let '(arr, i, j, k) := merge_both undefined compareFn rounds arr lrun rrun i j k in
  let '(arr, k) := merge_rest undefined (length lrun) arr lrun i k in
  fst (merge_rest undefined (length rrun) arr rrun j k).

Lemma merge_rest_done rounds arr src k :
  merge_rest undefined rounds arr src (Z.of_nat (length src)) k = (arr, k).
Proof. destruct rounds; [done |]. simpl. by rewrite Z.ltb_irrefl. Qed.

Lemma merge_from_left_done rounds arr lrun rrun j k :
  merge_from rounds arr lrun rrun (Z.of_nat (length lrun)) j k
  = fst (merge_rest undefined (length rrun) arr rrun j k).
Proof.
  unfold merge_from.
  assert (Hboth : merge_both undefined compareFn rounds arr lrun rrun
                    (Z.of_nat (length lrun)) j k
                  = (arr, Z.of_nat (length lrun), j, k)).
  { destruct rounds; [done |]. simpl. by rewrite Z.ltb_irrefl. }
  by rewrite Hboth, merge_rest_done.
Qed.

Lemma merge_from_right_done rounds arr lrun rrun i k :
  merge_from rounds arr lrun rrun i (Z.of_nat (length rrun)) k
  = fst (merge_rest undefined (length lrun) arr lrun i k).
Proof.
  unfold merge_from.
  assert (Hboth : merge_both undefined compareFn rounds arr lrun rrun
                    i (Z.of_nat (length rrun)) k
                  = (arr, i, Z.of_nat (length rrun), k)).
  { destruct rounds; [done |]. simpl. by rewrite Z.ltb_irrefl, andb_false_r. }
  rewrite Hboth.
  destruct (merge_rest undefined (length lrun) arr lrun i k) as [arr' k'].
  by rewrite merge_rest_done.
Qed.

Lemma merge_from_step rounds arr lrun rrun i j k :
  0 <= i < Z.of_nat (length lrun) ->
  0 <= j < Z.of_nat (length rrun) ->
  merge_from (S rounds) arr lrun rrun i j k
  = if decide (le (get lrun i) (get rrun j))
    then merge_from rounds (set arr k (get lrun i)) lrun rrun (i + 1) j (k + 1)
    else merge_from rounds (set arr k (get rrun j)) lrun rrun i (j + 1) (k + 1).
Proof.
  intros Hi Hj. unfold merge_from at 1. simpl.
  destruct (Z.ltb_spec i (Z.of_nat (length lrun))); [| lia].
  destruct (Z.ltb_spec j (Z.of_nat (length rrun))); [| lia].
  simpl. unfold cmp_le.
  destruct (Z.leb_spec (compareFn (get lrun i) (get rrun j)) 0);
    destruct (decide (compareFn (get lrun i) (get rrun j) <= 0)); done || lia.
Qed.

Lemma merge_from_spec ltodo :
  forall rtodo ldone rdone pre mid post rounds,
    length mid = (length ltodo + length rtodo)%nat ->
    (length ltodo + length rtodo <= rounds)%nat ->
    merge_from rounds (pre ++ mid ++ post) (ldone ++ ltodo) (rdone ++ rtodo)
      (Z.of_nat (length ldone)) (Z.of_nat (length rdone)) (Z.of_nat (length pre))
    = pre ++ list_merge le ltodo rtodo ++ post.
Proof.
  induction ltodo as [| x ltodo IHl].
  - intros rtodo ldone rdone pre mid post rounds Hmid Hrounds.
    rewrite app_nil_r, list_merge_nil_l, merge_from_left_done.
    apply merge_rest_spec; [done |]. rewrite length_app. lia.
  - induction rtodo as [| y rtodo IHr];
      intros ldone rdone pre mid post rounds Hmid Hrounds.
    + rewrite app_nil_r, list_merge_nil_r, merge_from_right_done.
      apply merge_rest_spec; [simpl in *; lia |]. rewrite length_app. lia.
    + destruct rounds as [| rounds]; [simpl in *; lia |].
      destruct mid as [| m mid]; [done |].
      rewrite merge_from_step by (rewrite length_app; simpl; lia).
      change ((m :: mid) ++ post) with (m :: mid ++ post).
      rewrite list_merge_cons, !get_middle, !set_middle by done.
      unfold decide_rel.
      destruct (decide (le x y)).
      * replace (ldone ++ x :: ltodo) with ((ldone ++ [x]) ++ ltodo)
          by by rewrite <- app_assoc.
        replace (pre ++ x :: mid ++ post) with ((pre ++ [x]) ++ mid ++ post)
          by by rewrite <- app_assoc.
        replace (Z.of_nat (length ldone) + 1) with (Z.of_nat (length (ldone ++ [x])))
          by (rewrite length_app; simpl; lia).
        replace (Z.of_nat (length pre) + 1) with (Z.of_nat (length (pre ++ [x])))
          by (rewrite length_app; simpl; lia).
        rewrite IHl by (simpl in *; lia). by rewrite <- app_assoc.
      * replace (rdone ++ y :: rtodo) with ((rdone ++ [y]) ++ rtodo)
          by by rewrite <- app_assoc.
        replace (pre ++ y :: mid ++ post) with ((pre ++ [y]) ++ mid ++ post)
          by by rewrite <- app_assoc.
        replace (Z.of_nat (length rdone) + 1) with (Z.of_nat (length (rdone ++ [y])))
          by (rewrite length_app; simpl; lia).
        replace (Z.of_nat (length pre) + 1) with (Z.of_nat (length (pre ++ [y])))
          by (rewrite length_app; simpl; lia).
        rewrite IHr by (simpl in *; lia). by rewrite <- app_assoc.
Qed.

(** [merge] on two adjacent runs of [pre ++ lrun ++ rrun ++ post]. *)
Lemma merge_spec pre lrun rrun post left mid right :
  left = Z.of_nat (length pre) ->
  mid = left + Z.of_nat (length lrun) - 1 ->
  right = mid + Z.of_nat (length rrun) ->
  merge undefined compareFn (pre ++ lrun ++ rrun ++ post) left mid right
  = pre ++ list_merge le lrun rrun ++ post.
Proof.
  intros -> -> ->. unfold merge.
  rewrite (slice_segment pre lrun (rrun ++ post)) by lia.
  assert (Hright : slice (pre ++ lrun ++ rrun ++ post)
                     (Z.of_nat (length pre) + Z.of_nat (length lrun) - 1 + 1)
                     (Z.of_nat (length pre) + Z.of_nat (length lrun) - 1
                      + Z.of_nat (length rrun) + 1) = rrun).
  { rewrite (app_assoc pre). apply slice_segment; rewrite ?length_app; lia. }
  rewrite Hright.
  pose proof (merge_from_spec lrun rrun [] [] pre (lrun ++ rrun) post
                (length lrun + length rrun)) as Hloops.
  simpl in Hloops. rewrite <- app_assoc in Hloops.
  specialize (Hloops ltac:(by rewrite length_app) ltac:(lia)).
  unfold merge_from in Hloops.
  destruct (merge_both _ _ _ _ _ _ _ _ _) as [[[arr i] j] k].
  destruct (merge_rest _ _ arr lrun i k) as [arr' k'].
  destruct (merge_rest _ _ arr' rrun j k') as [arr'' k''].
  exact Hloops.
Qed.

End MergeRefinement.

(** ** Merging runs on lists: permutation, order, stability *)

Section MergeProperties.
Import ListLevel.
Context {T : Type}.
Variable compareFn : T -> T -> Z.
Local Open Scope Z_scope.
Local Abbreviation le := (cmp_le compareFn).

Lemma merge_pairs_Permutation runs : concat (merge_pairs compareFn runs) ≡ₚ concat runs.
Proof.
  induction runs as [runs IH] using (induction_ltof1 _ length). unfold ltof in IH.
  destruct runs as [| a [| b rest]]; [done | done |].
  simpl. rewrite IH by (simpl; lia). rewrite merge_Permutation. by rewrite <- app_assoc.
Qed.

Lemma merge_pairs_length runs :
  (length (merge_pairs compareFn runs) <= length runs)%nat
  /\ (2 <= length runs -> length (merge_pairs compareFn runs) < length runs)%nat.
Proof.
  induction runs as [runs IH] using (induction_ltof1 _ length). unfold ltof in IH.
  destruct runs as [| a [| b rest]]; simpl; [lia | lia |].
  destruct (IH rest ltac:(simpl; lia)). lia.
Qed.

Lemma runs_of_positive size (runs : list (list T)) :
  (0 < size)%nat -> runs_of size runs -> Forall (fun run => (0 < length run <= size)%nat) runs.
Proof.
  intros Hsize. induction 1; constructor; try done. lia.
Qed.

Lemma runs_of_cons_nonempty size (run : list T) runs :
  length run = size -> runs <> [] -> runs_of size runs -> runs_of size (run :: runs).
Proof. intros Hlen Hne Hruns. destruct runs; [done |]. by constructor. Qed.

Lemma merge_pairs_nonempty runs : runs <> [] -> merge_pairs compareFn runs <> [].
Proof. by destruct runs as [| a [| b rest]]. Qed.

Lemma merge_pairs_runs_of size runs :
  runs_of size runs -> runs_of (2 * size) (merge_pairs compareFn runs).
Proof.
  induction runs as [runs IH] using (induction_ltof1 _ length). unfold ltof in IH.
  intros Hruns.
  destruct runs as [| a [| b rest]].
  - constructor.
  - inversion Hruns; subst. constructor. lia.
  - inversion Hruns as [| | ? ? ? Ha Hrest]; subst. simpl.
    assert (Hlen : length (list_merge le a b) = (length a + length b)%nat)
      by by rewrite merge_Permutation, length_app.
    specialize (IH rest ltac:(simpl; lia)).
    inversion Hrest as [| ? Hb | ? ? ? Hb Hrest']; subst.
    + simpl. constructor. lia.
    + specialize (IH Hrest'). apply runs_of_cons_nonempty; [lia | | done].
      by apply merge_pairs_nonempty.
Qed.

Section Ordered.
Hypothesis total : comparator_total compareFn.

Local Instance cmp_le_Total : Total le.
Proof. exact total. Qed.

Lemma merge_pairs_Sorted runs :
  Forall (Sorted le) runs -> Forall (Sorted le) (merge_pairs compareFn runs).
Proof.
  induction runs as [runs IH] using (induction_ltof1 _ length). unfold ltof in IH.
  intros Hruns.
  destruct runs as [| a [| b rest]]; [done | done |].
  inversion Hruns as [| ? ? Ha Hrest]; subst. inversion Hrest as [| ? ? Hb Hrest']; subst.
  simpl. constructor.
  - by apply Sorted_list_merge.
  - apply IH; [simpl; lia | done].
Qed.

End Ordered.

Section Stable.
Hypothesis antisymmetric : comparator_antisymmetric compareFn.
Hypothesis transitive : comparator_transitive compareFn.

Lemma list_merge_stable l1 :
  forall l2,
    StronglySorted le l1 ->
    stable compareFn (l1 ++ l2) (list_merge le l1 l2).
Proof.
  induction l1 as [| x l1 IHl]; intros l2 Hl1 a.
  - by rewrite list_merge_nil_l.
  - induction l2 as [| y l2 IHr].
    + by rewrite list_merge_nil_r, app_nil_r.
    + rewrite list_merge_cons. unfold decide_rel.
      destruct (decide (le x y)) as [Hle | Hgt].
      * simpl. rewrite !(filter_cons _ x).
        rewrite (IHl (y :: l2)) by by inversion Hl1. done.
      * rewrite filter_cons, IHr, !filter_app, (filter_cons _ y).
        destruct (decide (same_rank compareFn a y)) as [Hy | Hy]; [| done].
        assert (Hnone : filter (same_rank compareFn a) (x :: l1) = []).
        { apply StronglySorted_inv in Hl1 as [_ Hx].
          assert (Hall : Forall (le x) (x :: l1)).
          { constructor; [| done]. unfold cmp_le. pose proof (antisymmetric x x). lia. }
          apply filter_none. eapply Forall_impl; [exact Hall |].
          intros e Hxe He. apply Hgt. apply (transitive x e y); [done |].
          unfold cmp_le.
          pose proof (same_rank_class compareFn antisymmetric transitive a e y He Hy). lia. }
        by rewrite Hnone.
Qed.

End Stable.

End MergeProperties.

(** ** The adaptive run-merge sort: the loops against runs of lists *)

Section TimSortRefinement.
Import SortingEngine ListLevel.
Context {T : Type}.
Variable undefined : T.
Variable compareFn : T -> T -> Z.
Local Abbreviation le := (cmp_le compareFn).
Local Abbreviation isort := (insertion_sort compareFn).
Local Open Scope Z_scope.

Lemma isort_length (l : list T) : length (isort l) = length l.
Proof. by rewrite insertion_sort_Permutation. Qed.

Lemma timSort_runs_done rounds (arr : list T) n i :
  n <= i -> timSort_runs undefined compareFn rounds arr n i = arr.
Proof.
  intros Hle. destruct rounds; [done |]. simpl.
  destruct (Z.ltb_spec i n); [lia | done].
Qed.

(** The first loop cuts the array into runs of [minMerge] elements and
    sorts each by insertion. *)
Lemma timSort_runs_spec rounds :
  forall pre rest n,
    n = Z.of_nat (length (pre ++ rest)) ->
    (length rest <= rounds)%nat ->
    exists segs,
      rest = concat segs
      /\ runs_of 32 segs
      /\ timSort_runs undefined compareFn rounds (pre ++ rest) n (Z.of_nat (length pre))
         = pre ++ concat (map isort segs).
Proof.
  induction rounds as [| rounds IH]; intros pre rest n Hn Hrounds.
  - destruct rest; [| simpl in *; lia]. exists []. repeat split. constructor.
  - destruct rest as [| x rest0].
    { exists []. repeat split; [constructor |].
      apply timSort_runs_done. rewrite Hn, app_nil_r. lia. }
    remember (x :: rest0) as rest eqn:Hrest.
    assert (Hpos : (0 < length rest)%nat) by (subst rest; simpl; lia).
    rewrite length_app in Hn.
    simpl timSort_runs.
    destruct (Z.ltb_spec (Z.of_nat (length pre)) n); [| lia].
    pose proof (take_drop 32 rest) as Hsplit.
    assert (Hseg : length (take 32 rest) = Nat.min 32 (length rest)) by apply length_take.
    replace (pre ++ rest) with (pre ++ take 32 rest ++ drop 32 rest) by by rewrite Hsplit.
    rewrite (insertionSort_spec undefined compareFn pre (take 32 rest) (drop 32 rest))
      by (unfold minMerge; lia).
    destruct (decide (length rest <= 32)%nat) as [Hshort | Hlong].
    + exists [rest]. split; [simpl; by rewrite app_nil_r |]. split; [constructor; lia |].
      rewrite timSort_runs_done by (unfold minMerge; lia).
      rewrite drop_ge, take_ge by lia. simpl. by rewrite !app_nil_r.
    + destruct (IH (pre ++ isort (take 32 rest)) (drop 32 rest) n) as (segs & Hsegs & Hruns & Heq).
      * rewrite !length_app, isort_length, length_drop. lia.
      * rewrite length_drop. lia.
      * exists (take 32 rest :: segs). split; [simpl; by rewrite <- Hsegs, Hsplit |]. split.
        -- apply runs_of_cons_nonempty; [lia | | done].
           intros ->. simpl in Hsegs.
           apply (f_equal length) in Hsegs. rewrite length_drop in Hsegs. simpl in Hsegs. lia.
        -- rewrite <- app_assoc in Heq.
           replace (Z.of_nat (length pre) + minMerge)
             with (Z.of_nat (length (pre ++ isort (take 32 rest))))
             by (rewrite length_app, isort_length; unfold minMerge; lia).
           rewrite Heq. simpl. by rewrite <- app_assoc.
Qed.

Lemma timSort_pass_done rounds (arr : list T) n size start :
  n <= start -> timSort_pass undefined compareFn rounds arr n size start = arr.
Proof.
  intros Hle. destruct rounds; [done |]. simpl.
  destruct (Z.ltb_spec start n); [lia | done].
Qed.

(** One pass of the second loop merges the runs two by two. *)
Lemma timSort_pass_spec (size : nat) rounds :
  (0 < size)%nat ->
  forall pre runs n,
    runs_of size runs ->
    n = Z.of_nat (length (pre ++ concat runs)) ->
    (length runs <= rounds)%nat ->
    timSort_pass undefined compareFn rounds (pre ++ concat runs) n (Z.of_nat size)
      (Z.of_nat (length pre))
    = pre ++ concat (merge_pairs compareFn runs).
Proof.
  intros Hsize.
  induction rounds as [| rounds IH]; intros pre runs n Hruns Hn Hrounds.
  - by destruct runs; [| simpl in *; lia].
  - rewrite length_app in Hn.
    destruct runs as [| a [| b rest]].
    + apply timSort_pass_done. simpl in Hn. lia.
    + (* a single run is left: nothing to merge with *)
      inversion Hruns; subst. simpl in *. rewrite app_nil_r in *.
      destruct (Z.ltb_spec (Z.of_nat (length pre)) (Z.of_nat (length pre + length a))); [| lia].
      destruct (Z.ltb_spec (Z.of_nat (length pre) + Z.of_nat size - 1)
                  (Z.min (Z.of_nat (length pre) + Z.of_nat size * 2 - 1)
                     (Z.of_nat (length pre + length a) - 1))); [lia |].
      apply timSort_pass_done. lia.
    + revert Hn. inversion Hruns as [| | ? ? ? Ha Hrest]; subst. intros Hn.
      pose proof (runs_of_positive _ _ Hsize Hrest) as Hpositive.
      apply Forall_cons in Hpositive as [Hb Hpositive].
      assert (Hend : Z.min (Z.of_nat (length pre) + Z.of_nat (length a) * 2 - 1) (n - 1)
                     = Z.of_nat (length pre) + Z.of_nat (length a) - 1 + Z.of_nat (length b)).
      { rewrite Hn. clear Hn. simpl. rewrite !length_app.
        inversion Hrest as [| | ? ? ? Hb' Hrest']; subst.
        - simpl. lia.
        - apply (runs_of_positive _ _ Hsize) in Hrest'.
          apply Forall_cons in Hrest' as [Hrun' _]. simpl. rewrite !length_app. lia. }
      simpl timSort_pass.
      destruct (Z.ltb_spec (Z.of_nat (length pre)) n);
        [| subst n; simpl in *; rewrite length_app in *; lia].
      rewrite Hend.
      destruct (Z.ltb_spec (Z.of_nat (length pre) + Z.of_nat (length a) - 1)
                  (Z.of_nat (length pre) + Z.of_nat (length a) - 1 + Z.of_nat (length b)));
        [| lia].
      change (merge_pairs compareFn (a :: b :: rest))
        with (list_merge le a b :: merge_pairs compareFn rest).
      simpl concat.
      rewrite (merge_spec undefined compareFn pre a b (concat rest)) by lia.
      destruct rest as [| c rest].
      * simpl. rewrite timSort_pass_done; [done |].
        subst n. simpl. rewrite length_app, app_nil_r. lia.
      * assert (length b = length a) by by inversion Hrest.
        rewrite app_assoc.
        replace (Z.of_nat (length pre) + Z.of_nat (length a) * 2)
          with (Z.of_nat (length (pre ++ list_merge le a b)))
          by (rewrite length_app, merge_Permutation, length_app; lia).
        rewrite IH.
        -- by rewrite <- app_assoc.
        -- by inversion Hrest.
        -- subst n. simpl. rewrite !length_app, merge_Permutation, !length_app. lia.
        -- simpl in *. lia.
Qed.

(** The second loop: passes with doubling run length, until one run is left. *)
Lemma timSort_merges_spec rounds :
  forall (size : nat) runs n,
    (0 < size)%nat ->
    runs_of size runs ->
    n = Z.of_nat (length (concat runs)) ->
    (length runs <= rounds)%nat ->
    exists passes,
      (length (Nat.iter passes (merge_pairs compareFn) runs) <= 1)%nat
      /\ timSort_merges undefined compareFn rounds (concat runs) n (Z.of_nat size)
         = concat (Nat.iter passes (merge_pairs compareFn) runs).
Proof.
  induction rounds as [| rounds IH]; intros size runs n Hsize Hruns Hn Hrounds.
  - exists O. split; [simpl; lia | done].
  - simpl timSort_merges.
    pose proof (runs_of_positive _ _ Hsize Hruns) as Hpositive.
    destruct runs as [| a [| b rest]].
    + exists O. split; [simpl; lia |]. simpl in *.
      destruct (Z.ltb_spec (Z.of_nat size) n); [lia | done].
    + exists O. split; [simpl; lia |].
      apply Forall_cons in Hpositive as [Ha _]. simpl in *. rewrite app_nil_r in *.
      destruct (Z.ltb_spec (Z.of_nat size) n); [lia | done].
    + inversion Hruns as [| | ? ? ? Ha Hrest]; subst size.
      apply Forall_cons in Hpositive as [_ Hpositive].
      apply Forall_cons in Hpositive as [Hb _].
      destruct (Z.ltb_spec (Z.of_nat (length a)) n);
        [| subst n; simpl in *; rewrite !length_app in *; lia].
      assert (Hpass : timSort_pass undefined compareFn (Z.to_nat n) (concat (a :: b :: rest))
                        n (Z.of_nat (length a)) 0
                      = concat (merge_pairs compareFn (a :: b :: rest))).
      { apply (timSort_pass_spec (length a) (Z.to_nat n) Hsize [] (a :: b :: rest) n Hruns Hn).
        subst n. rewrite Nat2Z.id.
        clear -Hruns Hsize. apply (runs_of_positive _ _ Hsize) in Hruns.
        induction Hruns as [| run runs Hrun _ IHruns]; [done |].
        simpl. rewrite length_app. lia. }
      rewrite Hpass; clear Hpass.
      destruct (merge_pairs_length compareFn (a :: b :: rest)) as [_ Hless].
      specialize (Hless ltac:(simpl; lia)).
      destruct (IH (2 * length a)%nat (merge_pairs compareFn (a :: b :: rest)) n)
        as (passes & Hone & Heq).
      * lia.
      * by apply merge_pairs_runs_of.
      * by rewrite merge_pairs_Permutation.
      * simpl in *. lia.
      * exists (S passes). rewrite Nat.iter_succ_r. split; [done |].
        replace (Z.of_nat (length a) * 2) with (Z.of_nat (2 * length a)) by lia.
        exact Heq.
Qed.

End TimSortRefinement.

(** ** Hybrid quicksort: partition and recursion on segments *)

Section QuickSortRefinement.
Import SortingEngine ListLevel.
Context {T : Type}.
Variable undefined : T.
Variable compareFn : T -> T -> Z.
Local Abbreviation get := (Js.get undefined).
Local Abbreviation set := (Js.set undefined).
Local Abbreviation swap := (Js.swap undefined).
Local Abbreviation le := (cmp_le compareFn).
Local Open Scope Z_scope.

Lemma swap_same (arr : list T) a :
  0 <= a < Z.of_nat (length arr) -> swap arr a a = arr.
Proof.
  intros Ha. destruct (split_at arr a Ha) as (l1 & x & l2 & -> & Hl).
  unfold Js.swap. by rewrite !get_middle, !set_middle.
Qed.

Lemma swap_middle (l1 l2 l3 : list T) x y a b :
  a = Z.of_nat (length l1) ->
  b = a + 1 + Z.of_nat (length l2) ->
  swap (l1 ++ x :: l2 ++ y :: l3) a b = l1 ++ y :: l2 ++ x :: l3
  /\ swap (l1 ++ x :: l2 ++ y :: l3) b a = l1 ++ y :: l2 ++ x :: l3.
Proof.
  intros -> ->.
  assert (Hx : get (l1 ++ x :: l2 ++ y :: l3) (Z.of_nat (length l1)) = x)
    by by apply get_middle.
  assert (Hy : get (l1 ++ x :: l2 ++ y :: l3)
                 (Z.of_nat (length l1) + 1 + Z.of_nat (length l2)) = y).
  { replace (l1 ++ x :: l2 ++ y :: l3) with ((l1 ++ x :: l2) ++ y :: l3)
      by by rewrite <- app_assoc.
    apply get_middle. rewrite length_app. simpl. lia. }
  unfold Js.swap. rewrite Hx, Hy. split.
  - rewrite set_middle by done.
    replace (l1 ++ y :: l2 ++ y :: l3) with ((l1 ++ y :: l2) ++ y :: l3)
      by by rewrite <- app_assoc.
    rewrite set_middle by (rewrite length_app; simpl; lia).
    by rewrite <- app_assoc.
  - replace (l1 ++ x :: l2 ++ y :: l3) with ((l1 ++ x :: l2) ++ y :: l3)
      by by rewrite <- app_assoc.
    rewrite set_middle by (rewrite length_app; simpl; lia).
    rewrite <- app_assoc. simpl.
    by rewrite set_middle.
Qed.

(** A swap of two slots of a segment permutes the segment, leaves the rest
    alone, and exchanges the two elements. *)
Lemma swap_segment pre seg post a b :
  Z.of_nat (length pre) <= a < Z.of_nat (length pre) + Z.of_nat (length seg) ->
  Z.of_nat (length pre) <= b < Z.of_nat (length pre) + Z.of_nat (length seg) ->
  exists seg',
    swap (pre ++ seg ++ post) a b = pre ++ seg' ++ post
    /\ seg' ≡ₚ seg
    /\ get (pre ++ seg' ++ post) b = get (pre ++ seg ++ post) a.
Proof.
  intros Ha Hb.
  assert (Hcase : a = b \/ a < b \/ b < a) by lia.
  destruct Hcase as [-> | [Hlt | Hlt]].
  - exists seg. rewrite swap_same by (rewrite !length_app; lia). done.
  - destruct (split_at seg (a - Z.of_nat (length pre)) ltac:(lia)) as (s1 & x & s2 & -> & Hs1).
    rewrite length_app in Hb. simpl in Hb.
    destruct (split_at s2 (b - a - 1) ltac:(lia)) as (s2' & y & s3 & -> & Hs2).
    exists (s1 ++ y :: s2' ++ x :: s3).
    replace (pre ++ (s1 ++ x :: s2' ++ y :: s3) ++ post)
      with ((pre ++ s1) ++ x :: s2' ++ y :: (s3 ++ post))
      by reassoc.
    replace (pre ++ (s1 ++ y :: s2' ++ x :: s3) ++ post)
      with ((pre ++ s1) ++ y :: s2' ++ x :: (s3 ++ post))
      by reassoc.
    destruct (swap_middle (pre ++ s1) s2' (s3 ++ post) x y a b) as [-> _];
      [rewrite length_app; lia | lia |].
    split; [done |]. split.
    + apply Permutation_swap_far.
    + transitivity x; [| symmetry; apply get_middle; rewrite length_app; lia].
      replace ((pre ++ s1) ++ y :: s2' ++ x :: s3 ++ post)
        with (((pre ++ s1) ++ y :: s2') ++ x :: s3 ++ post) by by rewrite <- !app_assoc.
      apply get_middle. rewrite !length_app. simpl. lia.
  - destruct (split_at seg (b - Z.of_nat (length pre)) ltac:(lia)) as (s1 & x & s2 & -> & Hs1).
    rewrite length_app in Ha. simpl in Ha.
    destruct (split_at s2 (a - b - 1) ltac:(lia)) as (s2' & y & s3 & -> & Hs2).
    exists (s1 ++ y :: s2' ++ x :: s3).
    replace (pre ++ (s1 ++ x :: s2' ++ y :: s3) ++ post)
      with ((pre ++ s1) ++ x :: s2' ++ y :: (s3 ++ post))
      by reassoc.
    replace (pre ++ (s1 ++ y :: s2' ++ x :: s3) ++ post)
      with ((pre ++ s1) ++ y :: s2' ++ x :: (s3 ++ post))
      by reassoc.
    destruct (swap_middle (pre ++ s1) s2' (s3 ++ post) x y b a) as [_ ->];
      [rewrite length_app; lia | lia |].
    split; [done |]. split.
    + apply Permutation_swap_far.
    + transitivity y; [apply get_middle; rewrite length_app; lia |].
      symmetry.
      replace ((pre ++ s1) ++ x :: s2' ++ y :: s3 ++ post)
        with (((pre ++ s1) ++ x :: s2') ++ y :: s3 ++ post) by by rewrite <- !app_assoc.
      apply get_middle. rewrite !length_app. simpl. lia.
Qed.

(** The same for a swap that a test may skip. *)
Lemma swap_if_segment (test : bool) pre seg post a b :
  Z.of_nat (length pre) <= a < Z.of_nat (length pre) + Z.of_nat (length seg) ->
  Z.of_nat (length pre) <= b < Z.of_nat (length pre) + Z.of_nat (length seg) ->
  exists seg',
    (if test then swap (pre ++ seg ++ post) a b else pre ++ seg ++ post)
    = pre ++ seg' ++ post
    /\ seg' ≡ₚ seg.
Proof.
  intros Ha Hb. destruct test; [| by exists seg].
  destruct (swap_segment pre seg post a b Ha Hb) as (seg' & ? & ? & _). by exists seg'.
Qed.

(** The Lomuto loop: [small] holds what compared at most equal to the
    pivot, [large] what compared above it, [todo] is still to be read. *)
Lemma partition_loop_spec pivot todo :
  forall pre small large post,
    Forall (fun e => compareFn e pivot <= 0) small ->
    Forall (fun e => 0 < compareFn e pivot) large ->
    exists small' large',
      for_up (length todo) (Z.of_nat (length pre + length small + length large))
        (fun j '(arr, i) =>
           if compareFn (get arr j) pivot <=? 0
           then (swap arr (i + 1) j, i + 1)
           else (arr, i))
        (pre ++ small ++ large ++ todo ++ pivot :: post,
         Z.of_nat (length pre + length small) - 1)
      = (pre ++ small' ++ large' ++ pivot :: post,
         Z.of_nat (length pre + length small') - 1)
      /\ small' ++ large' ≡ₚ small ++ large ++ todo
      /\ Forall (fun e => compareFn e pivot <= 0) small'
      /\ Forall (fun e => 0 < compareFn e pivot) large'.
Proof.
  induction todo as [| c todo IH]; intros pre small large post Hsmall Hlarge.
  - exists small, large. by rewrite app_nil_r.
  - assert (Hc : get (pre ++ small ++ large ++ (c :: todo) ++ pivot :: post)
                   (Z.of_nat (length pre + length small + length large)) = c).
    { rewrite !app_assoc, <- (app_assoc _ (c :: todo)). simpl.
      apply get_middle. rewrite !length_app. lia. }
    destruct (Z.leb_spec (compareFn c pivot) 0) as [Hle | Hgt].
    + assert (Hswap : swap (pre ++ small ++ large ++ (c :: todo) ++ pivot :: post)
                        (Z.of_nat (length pre + length small) - 1 + 1)
                        (Z.of_nat (length pre + length small + length large))
                      = pre ++ (small ++ [c]) ++ (match large with
                                                  | [] => []
                                                  | b :: large' => large' ++ [b]
                                                  end) ++ todo ++ pivot :: post).
      { destruct large as [| b large'].
        - simpl.
          replace (Z.of_nat (length pre + length small) - 1 + 1)
            with (Z.of_nat (length pre + length small + 0)) by lia.
          rewrite swap_same.
          + reassoc.
          + rewrite !length_app. simpl. lia.
        - replace (pre ++ small ++ (b :: large') ++ (c :: todo) ++ pivot :: post)
            with ((pre ++ small) ++ b :: large' ++ c :: (todo ++ pivot :: post))
            by reassoc.
          destruct (swap_middle (pre ++ small) large' (todo ++ pivot :: post) b c
                      (Z.of_nat (length pre + length small) - 1 + 1)
                      (Z.of_nat (length pre + length small + length (b :: large'))))
            as [-> _]; [rewrite length_app; lia | simpl; lia |].
          reassoc. }
      set (large1 := match large with [] => [] | b :: large' => large' ++ [b] end) in *.
      assert (Hlarge1 : large1 ≡ₚ large).
      { subst large1. destruct large as [| b large']; [done |].
        by rewrite <- Permutation_cons_append. }
      destruct (IH pre (small ++ [c]) large1 post) as (small' & large' & Heq & Hperm & Hs & Hl).
      { apply Forall_app. split; [done |]. by constructor. }
      { by rewrite Hlarge1. }
      exists small', large'. split; [| split; [| done]].
      * simpl length. rewrite for_up_S. cbv beta iota. rewrite Hc.
        destruct (Z.leb_spec (compareFn c pivot) 0); [| lia].
        rewrite Hswap, <- Heq. f_equal; [f_equal |].
        -- rewrite length_app, Hlarge1. simpl. lia.
        -- f_equal. rewrite length_app. simpl. lia.
      * rewrite Hperm, Hlarge1, <- !app_assoc. apply Permutation_app_head. simpl.
        by rewrite (Permutation_middle large).
    + destruct (IH pre small (large ++ [c]) post) as (small' & large' & Heq & Hperm & Hs & Hl).
      { done. }
      { apply Forall_app. split; [done |]. by constructor. }
      exists small', large'. split; [| split; [| done]].
      * simpl length. rewrite for_up_S. cbv beta iota. rewrite Hc.
        destruct (Z.leb_spec (compareFn c pivot) 0); [lia |].
        rewrite <- Heq. f_equal; [f_equal |].
        -- rewrite length_app. simpl. lia.
        -- f_equal. by rewrite <- !app_assoc.
      * by rewrite Hperm, <- !app_assoc.
Qed.

(** [partition] on a segment of at least two elements: the pivot ends at
    the returned index, after what compared at most equal to it and before
    what compared above it. *)
Lemma partition_spec pre seg post low high :
  low = Z.of_nat (length pre) ->
  high = low + Z.of_nat (length seg) - 1 ->
  (2 <= length seg)%nat ->
  exists small large pivot,
    partition undefined compareFn (pre ++ seg ++ post) low high
    = (pre ++ small ++ pivot :: large ++ post, low + Z.of_nat (length small))
    /\ small ++ pivot :: large ≡ₚ seg
    /\ Forall (fun e => compareFn e pivot <= 0) small
    /\ Forall (fun e => 0 < compareFn e pivot) large.
Proof.
  intros -> -> Hlen. unfold partition.
  set (low := Z.of_nat (length pre)).
  set (high := low + Z.of_nat (length seg) - 1).
  set (mid := (low + high) / 2).
  assert (Hmid : low <= mid < low + Z.of_nat (length seg)).
  { subst mid high low. split.
    - apply Z.div_le_lower_bound; lia.
    - apply Z.div_lt_upper_bound; lia. }
  cbv zeta.
  destruct (swap_if_segment (compareFn (get (pre ++ seg ++ post) mid)
                               (get (pre ++ seg ++ post) low) <? 0)
              pre seg post low mid) as (seg1 & Heq1 & Hperm1); [lia | lia |].
  rewrite !Heq1. clear Heq1.
  assert (Hlen1 : length seg1 = length seg) by by rewrite Hperm1.
  destruct (swap_if_segment (compareFn (get (pre ++ seg1 ++ post) high)
                               (get (pre ++ seg1 ++ post) low) <? 0)
              pre seg1 post low high) as (seg2 & Heq2 & Hperm2); [lia | lia |].
  rewrite !Heq2. clear Heq2.
  assert (Hlen2 : length seg2 = length seg) by by rewrite Hperm2.
  destruct (swap_if_segment (compareFn (get (pre ++ seg2 ++ post) high)
                               (get (pre ++ seg2 ++ post) mid) <? 0)
              pre seg2 post mid high) as (seg3 & Heq3 & Hperm3); [lia | lia |].
  rewrite !Heq3. clear Heq3.
  assert (Hlen3 : length seg3 = length seg) by by rewrite Hperm3.
  destruct (swap_segment pre seg3 post mid high) as (seg4 & Heq4 & Hperm4 & Hpivot);
    [lia | lia |].
  rewrite !Heq4. clear Heq4.
  assert (Hlen4 : length seg4 = length seg) by by rewrite Hperm4, Hlen3.
  set (pivot := get (pre ++ seg3 ++ post) mid) in *.
  destruct seg4 as [| z init _] using rev_ind; [simpl in *; lia |].
  rewrite length_app in Hlen4. simpl in Hlen4.
  assert (z = pivot) as ->.
  { rewrite <- Hpivot. symmetry.
    replace (pre ++ (init ++ [z]) ++ post) with ((pre ++ init) ++ z :: post) by reassoc.
    apply get_middle. rewrite length_app. lia. }
  destruct (partition_loop_spec pivot init pre [] [] post)
    as (small & large & Hloop & Hperm & Hsmall & Hlarge); [done | done |].
  simpl app in Hloop. simpl length in Hloop.
  replace (Z.of_nat (length pre + 0 + 0)) with low in Hloop by lia.
  replace (Z.of_nat (length pre + 0) - 1) with (low - 1) in Hloop by lia.
  replace (Z.to_nat (high - low)) with (length init) by lia.
  replace (pre ++ (init ++ [pivot]) ++ post) with (pre ++ init ++ pivot :: post) by reassoc.
  assert (Hsl : (length small + length large = length init)%nat).
  { rewrite <- length_app, Hperm. done. }
  destruct large as [| b large'].
  - exists small, [], pivot.
    rewrite Hloop.
    replace high with (Z.of_nat (length pre + length small) - 1 + 1)
      by (simpl in Hsl; lia).
    rewrite swap_same by (rewrite !length_app; simpl; lia).
    split; [f_equal; lia |]. split; [| done].
    rewrite app_nil_r in Hperm. simpl in Hperm.
    rewrite Hperm, Hperm4, Hperm3, Hperm2. exact Hperm1.
  - exists small, (large' ++ [b]), pivot.
    rewrite Hloop.
    replace (pre ++ small ++ (b :: large') ++ pivot :: post)
      with ((pre ++ small) ++ b :: large' ++ pivot :: post) by reassoc.
    destruct (swap_middle (pre ++ small) large' post b pivot
                (Z.of_nat (length pre + length small) - 1 + 1) high) as [-> _].
    { rewrite length_app. lia. }
    { simpl in Hsl. lia. }
    split; [f_equal; [reassoc | lia] |]. split; [| split; [done |]].
    + transitivity ((small ++ b :: large') ++ [pivot]).
      * rewrite <- app_assoc. simpl. apply Permutation_app_head.
        apply (Permutation_swap_far [] large' [] b pivot).
      * simpl in Hperm. rewrite Hperm, Hperm4, Hperm3, Hperm2. exact Hperm1.
    + apply Forall_cons in Hlarge as [Hb Hlarge].
      apply Forall_app. split; [done |]. by constructor.
Qed.

(** [quickSortHybrid] on a segment no longer than [depth]. *)
Lemma quickSortHybrid_spec depth :
  forall pre seg post low high threshold,
    low = Z.of_nat (length pre) ->
    high = low + Z.of_nat (length seg) - 1 ->
    (length seg <= depth)%nat ->
    exists seg',
      quickSortHybrid undefined compareFn depth (pre ++ seg ++ post) low high threshold
      = pre ++ seg' ++ post
      /\ seg' ≡ₚ seg
      /\ (comparator_total compareFn -> comparator_transitive compareFn ->
          StronglySorted le seg').
Proof.
  induction depth as [| depth IH]; intros pre seg post low high threshold Hlow Hhigh Hdepth.
  - destruct seg; [| simpl in *; lia]. exists [].
    split; [done |]. split; [done |]. intros _ _. constructor.
  - simpl quickSortHybrid.
    destruct (Z.ltb_spec low high) as [Hlt | Hge].
    + destruct (Z.ltb_spec (high - low + 1) threshold) as [Hsmall | Hbig].
      * exists (insertion_sort compareFn seg).
        split; [by apply insertionSort_spec |].
        split; [apply insertion_sort_Permutation |].
        intros total transitive.
        apply (@Sorted_StronglySorted _ le transitive).
        by apply insertion_sort_Sorted.
      * destruct (partition_spec pre seg post low high Hlow Hhigh ltac:(lia))
          as (small & large & pivot & Hpart & Hperm & Hsmall & Hlarge).
        rewrite Hpart.
        assert (Hlen : (length small + S (length large) = length seg)%nat).
        { rewrite <- Hperm, length_app. done. }
        destruct (IH pre small (pivot :: large ++ post) low
                    (low + Z.of_nat (length small) - 1) threshold Hlow eq_refl ltac:(lia))
          as (small' & Heq1 & Hperm1 & Hsorted1).
        rewrite Heq1.
        assert (Hlen1 : length small' = length small) by by rewrite Hperm1.
        destruct (IH (pre ++ small' ++ [pivot]) large post
                    (low + Z.of_nat (length small) + 1) high threshold)
          as (large' & Heq2 & Hperm2 & Hsorted2).
        { rewrite !length_app. simpl. lia. }
        { lia. }
        { lia. }
        replace (pre ++ small' ++ pivot :: large ++ post)
          with ((pre ++ small' ++ [pivot]) ++ large ++ post) by reassoc.
        rewrite Heq2.
        exists (small' ++ pivot :: large'). split; [reassoc |]. split.
        -- by rewrite Hperm1, Hperm2.
        -- intros total transitive.
           apply StronglySorted_app_2; [| by apply Hsorted1 |].
           ++ intros x1 x2 Hx1 Hx2.
              rewrite Hperm1 in Hx1.
              assert (le x1 pivot) by by eapply (proj1 (Forall_forall _ _) Hsmall).
              apply elem_of_cons in Hx2 as [-> | Hx2]; [done |].
              rewrite Hperm2 in Hx2.
              apply (transitive x1 pivot x2); [done |].
              apply (gt_cmp_le compareFn total).
              by eapply (proj1 (Forall_forall _ _) Hlarge).
           ++ constructor; [by apply Hsorted2 |].
              rewrite Hperm2. eapply Forall_impl; [exact Hlarge |].
              intros e He. by apply (gt_cmp_le compareFn total).
    + exists seg. split; [done |]. split; [done |].
      intros _ _. destruct seg as [| x [| y seg]]; [constructor | | simpl in *; lia].
      by repeat constructor.
Qed.

End QuickSortRefinement.

(** ** The comparator-driven sorts as the caller sees them *)

Section HeapFacts.
Context {A : Type}.

Lemma deref_alloc (h : heap A) (v : list A) : deref (h ++ [v]) (length h) = v.
Proof. unfold deref. by rewrite lookup_app_r, Nat.sub_diag. Qed.

Lemma store_alloc (h : heap A) (v v' : list A) : store (length h) v' (h ++ [v]) = h ++ [v'].
Proof.
  unfold store. replace (length h) with (length h + 0)%nat at 1 by lia.
  by rewrite insert_app_r.
Qed.

(** An array that was there before an allocation still is, unchanged. *)
Lemma lookup_alloc (h : heap A) (v : list A) (l : loc) :
  (l < length h)%nat -> (h ++ [v]) !! l = h !! l.
Proof. intros Hl. by rewrite lookup_app_l. Qed.

End HeapFacts.

Section SortResults.
Import SortingEngine ListLevel.
Context {T : Type}.
Variable undefined : T.
Variable compareFn : T -> T -> Z.
Local Abbreviation le := (cmp_le compareFn).
Local Abbreviation isort := (insertion_sort compareFn).
Local Open Scope Z_scope.

(** What [hybridQuickSort] stores in the array it returns. *)
Definition quick_sorted (l : list T) (threshold : Z) : list T :=
  quickSortHybrid undefined compareFn (length l) l 0 (Z.of_nat (length l) - 1) threshold.

(** What [timSort] stores in the array it returns. *)
Definition tim_sorted (l : list T) : list T :=
  let n := Z.of_nat (length l) in
  let runs := timSort_runs undefined compareFn (length l) l n 0 in
  timSort_merges undefined compareFn (length runs) runs n minMerge.

Lemma hybridQuickSort_unfold arr threshold (h : heap T) :
  hybridQuickSort undefined compareFn arr threshold h
  = (length h, h ++ [quick_sorted (deref h arr) threshold]).
Proof. unfold hybridQuickSort, alloc. by rewrite deref_alloc, store_alloc. Qed.

Lemma timSort_unfold arr (h : heap T) :
  timSort undefined compareFn arr h = (length h, h ++ [tim_sorted (deref h arr)]).
Proof. unfold timSort, alloc. by rewrite deref_alloc, store_alloc. Qed.

Lemma quick_sorted_spec l threshold :
  quick_sorted l threshold ≡ₚ l
  /\ (comparator_total compareFn -> comparator_transitive compareFn ->
      StronglySorted le (quick_sorted l threshold)).
Proof.
  destruct (quickSortHybrid_spec undefined compareFn (length l) [] l [] 0
              (Z.of_nat (length l) - 1) threshold) as (seg' & Heq & Hperm & Hsorted);
    [done | lia | done |].
  unfold quick_sorted. simpl in Heq. rewrite app_nil_r in Heq.
  rewrite Heq, app_nil_r. done.
Qed.

(** [timSort] computes the runs of the input, sorted by insertion, merged
    two by two until one is left. *)
Lemma tim_sorted_spec l :
  exists segs passes,
    l = concat segs
    /\ (length (Nat.iter passes (merge_pairs compareFn) (map isort segs)) <= 1)%nat
    /\ tim_sorted l = concat (Nat.iter passes (merge_pairs compareFn) (map isort segs)).
Proof.
  unfold tim_sorted.
  destruct (timSort_runs_spec undefined compareFn (length l) [] l (Z.of_nat (length l)))
    as (segs & Hsegs & Hruns & Heq); [done | done |].
  change (timSort_runs undefined compareFn (length l) l (Z.of_nat (length l)) 0
          = concat (map isort segs)) in Heq.
  rewrite Heq.
  assert (Hruns' : runs_of 32 (map isort segs)).
  { clear -Hruns. induction Hruns as [| run Hrun | run run' rest Hrun Hrest IH].
    - constructor.
    - constructor. by rewrite isort_length.
    - simpl. constructor; [by rewrite isort_length | done]. }
  assert (Hlen : length (concat (map isort segs)) = length l).
  { rewrite Hsegs. clear. induction segs as [| seg segs IH]; [done |].
    simpl. by rewrite !length_app, isort_length, IH. }
  destruct (timSort_merges_spec undefined compareFn (length (concat (map isort segs)))
              32 (map isort segs) (Z.of_nat (length l)))
    as (passes & Hone & Heq'); [lia | done | by rewrite Hlen | |].
  - apply (runs_of_positive 32 _ ltac:(lia)) in Hruns'. clear -Hruns'.
    induction Hruns' as [| run runs Hrun _ IH]; [done |].
    simpl. rewrite length_app. lia.
  - exists segs, passes. done.
Qed.

Lemma iter_merge_pairs_Permutation passes runs :
  concat (Nat.iter passes (merge_pairs compareFn) runs) ≡ₚ concat runs.
Proof.
  induction passes as [| passes IH]; [done |].
  simpl. by rewrite merge_pairs_Permutation.
Qed.

Lemma concat_isort_Permutation segs : concat (map isort segs) ≡ₚ concat segs.
Proof.
  induction segs as [| seg segs IH]; [done |].
  simpl. by rewrite insertion_sort_Permutation, IH.
Qed.

Lemma tim_sorted_Permutation l : tim_sorted l ≡ₚ l.
Proof.
  destruct (tim_sorted_spec l) as (segs & passes & Hsegs & _ & ->).
  by rewrite iter_merge_pairs_Permutation, concat_isort_Permutation, Hsegs.
Qed.

Lemma concat_at_most_one (runs : list (list T)) (P : list T -> Prop) :
  (length runs <= 1)%nat -> P [] -> Forall P runs -> P (concat runs).
Proof.
  intros Hone Hnil Hruns. destruct runs as [| run [| run' runs]]; [done | | simpl in *; lia].
  simpl. rewrite app_nil_r. by apply Forall_cons in Hruns as [? _].
Qed.

Section Ordered.
Hypothesis total : comparator_total compareFn.
Hypothesis transitive : comparator_transitive compareFn.

Lemma iter_merge_pairs_Sorted passes runs :
  Forall (Sorted le) runs ->
  Forall (Sorted le) (Nat.iter passes (merge_pairs compareFn) runs).
Proof.
  intros Hruns. induction passes as [| passes IH]; [done |].
  simpl. by apply merge_pairs_Sorted.
Qed.

Lemma isort_runs_Sorted (segs : list (list T)) : Forall (Sorted le) (map isort segs).
Proof. apply Forall_map, Forall_true. intros seg. by apply insertion_sort_Sorted. Qed.

Lemma tim_sorted_StronglySorted l : StronglySorted le (tim_sorted l).
Proof.
  destruct (tim_sorted_spec l) as (segs & passes & Hsegs & Hone & ->).
  apply (@Sorted_StronglySorted _ le transitive).
  apply concat_at_most_one; [done | constructor |].
  apply iter_merge_pairs_Sorted, isort_runs_Sorted.
Qed.

End Ordered.

Section Stable.
Hypothesis antisymmetric : comparator_antisymmetric compareFn.
Hypothesis transitive : comparator_transitive compareFn.

Lemma antisymmetric_total : comparator_total compareFn.
Proof.
  intros a b. unfold cmp_le. pose proof (antisymmetric a b). lia.
Qed.

Lemma stable_concat (runs runs' : list (list T)) :
  Forall2 (stable compareFn) runs runs' -> stable compareFn (concat runs) (concat runs').
Proof.
  intros Hruns a. induction Hruns as [| run run' runs runs' Hrun _ IH]; [done |].
  simpl. by rewrite !filter_app, Hrun, IH.
Qed.

Lemma merge_pairs_stable runs :
  Forall (Sorted le) runs ->
  stable compareFn (concat runs) (concat (merge_pairs compareFn runs)).
Proof.
  induction runs as [runs IH] using (induction_ltof1 _ length). unfold ltof in IH.
  intros Hruns a.
  destruct runs as [| x [| y rest]]; [done | done |].
  apply Forall_cons in Hruns as [Hx Hruns]. apply Forall_cons in Hruns as [Hy Hruns].
  simpl. rewrite !filter_app, IH by (simpl; lia || done).
  rewrite (list_merge_stable compareFn antisymmetric transitive x y).
  - by rewrite filter_app, <- app_assoc.
  - by apply (@Sorted_StronglySorted _ le transitive).
Qed.

Lemma iter_merge_pairs_stable passes runs :
  Forall (Sorted le) runs ->
  stable compareFn (concat runs) (concat (Nat.iter passes (merge_pairs compareFn) runs)).
Proof.
  intros Hruns. induction passes as [| passes IH]; [done |].
  intros a. simpl. rewrite merge_pairs_stable.
  - apply IH.
  - by apply iter_merge_pairs_Sorted; [apply antisymmetric_total |].
Qed.

Lemma tim_sorted_stable l : stable compareFn l (tim_sorted l).
Proof.
  destruct (tim_sorted_spec l) as (segs & passes & Hsegs & _ & ->).
  intros a. rewrite iter_merge_pairs_stable by by apply isort_runs_Sorted, antisymmetric_total.
  rewrite Hsegs. apply stable_concat.
  clear Hsegs. induction segs as [| seg segs IH]; constructor; [| done].
  by apply insertion_sort_stable.
Qed.

End Stable.

End SortResults.

Section ComparatorSorts.
Import SortingEngine ListLevel.
Context {T : Type}.
Variable undefined : T.
Variable compareFn : T -> T -> Z.
Local Open Scope Z_scope.

(** X23. Whatever function is passed as the comparator, be it inconsistent,
    [hybridQuickSort] and [timSort] return, and the arrays they return hold
    a permutation of the input: no element is lost and none is repeated. *)
Lemma comparator_sorts_permute (h : heap T) (arr : loc) (threshold : Z) :
  let quick := hybridQuickSort undefined compareFn arr threshold h in
  let tim := timSort undefined compareFn arr h in
  deref (snd quick) (fst quick) ≡ₚ deref h arr
  /\ deref (snd tim) (fst tim) ≡ₚ deref h arr.
Proof.
  cbv zeta. rewrite hybridQuickSort_unfold, timSort_unfold. simpl fst. simpl snd.
  rewrite !deref_alloc. split.
  - apply quick_sorted_spec.
  - apply tim_sorted_Permutation.
Qed.

(** C2. For every input array and every comparator (a total and transitive
    order: [compareFn(a, b) <= 0] reads "a is ordered before or with b"),
    the array that [hybridQuickSort] returns and the array that [timSort]
    returns each hold a permutation of the input, ordered by the
    comparator. *)
Theorem comparator_sorts_permute_and_order (h : heap T) (arr : loc) (threshold : Z) :
  comparator_total compareFn ->
  comparator_transitive compareFn ->
  let quick := hybridQuickSort undefined compareFn arr threshold h in
  let tim := timSort undefined compareFn arr h in
  (deref (snd quick) (fst quick) ≡ₚ deref h arr
   /\ StronglySorted (cmp_le compareFn) (deref (snd quick) (fst quick)))
  /\ (deref (snd tim) (fst tim) ≡ₚ deref h arr
      /\ StronglySorted (cmp_le compareFn) (deref (snd tim) (fst tim))).
Proof.
  intros total transitive. cbv zeta.
  rewrite hybridQuickSort_unfold, timSort_unfold. simpl fst. simpl snd.
  rewrite !deref_alloc. split; split.
  - apply quick_sorted_spec.
  - by apply quick_sorted_spec.
  - apply tim_sorted_Permutation.
  - by apply tim_sorted_StronglySorted.
Qed.

(** C3. For every input array and every consistent comparator, [timSort]
    is stable: for each element [a], the elements that compare equal to [a]
    stand in the returned array in the order they had in the input. *)
Theorem timSort_stable (h : heap T) (arr : loc) :
  comparator_antisymmetric compareFn ->
  comparator_transitive compareFn ->
  let tim := timSort undefined compareFn arr h in
  stable compareFn (deref h arr) (deref (snd tim) (fst tim)).
Proof.
  intros antisymmetric transitive. cbv zeta.
  rewrite timSort_unfold. simpl fst. simpl snd. rewrite deref_alloc.
  by apply tim_sorted_stable.
Qed.

End ComparatorSorts.

Section ComparatorSortsWitnesses.
Import SortingEngine ListLevel.
Local Open Scope Z_scope.

Lemma comparator_sorts_permute_and_order_witness :
  let compareFn := fun a b : Z => a - b in
  let h := [[3; 1; 2]] in
  comparator_total compareFn
  /\ comparator_transitive compareFn
  /\ let quick := hybridQuickSort 0 compareFn 0%nat 10 h in
     let tim := timSort 0 compareFn 0%nat h in
     (deref (snd quick) (fst quick) ≡ₚ deref h 0%nat
      /\ StronglySorted (cmp_le compareFn) (deref (snd quick) (fst quick)))
     /\ (deref (snd tim) (fst tim) ≡ₚ deref h 0%nat
         /\ StronglySorted (cmp_le compareFn) (deref (snd tim) (fst tim))).
Proof.
  assert (Htotal : comparator_total (fun a b : Z => a - b))
    by (intros a b; unfold cmp_le; lia).
  assert (Htrans : comparator_transitive (fun a b : Z => a - b))
    by (intros a b c; unfold cmp_le; lia).
  split; [exact Htotal |]. split; [exact Htrans |].
  exact (comparator_sorts_permute_and_order 0 (fun a b : Z => a - b) [[3; 1; 2]] 0%nat 10
           Htotal Htrans).
Defined.

(** Records ordered by their first component only. *)
Lemma timSort_stable_witness :
  let compareFn := fun a b : Z * Z => fst a - fst b in
  let h := [[(2, 0); (1, 1); (2, 2); (1, 3)]] in
  comparator_antisymmetric compareFn
  /\ comparator_transitive compareFn
  /\ let tim := timSort (0, 0) compareFn 0%nat h in
     stable compareFn (deref h 0%nat) (deref (snd tim) (fst tim)).
Proof.
  assert (Hanti : comparator_antisymmetric (fun a b : Z * Z => fst a - fst b))
    by (intros a b; lia).
  assert (Htrans : comparator_transitive (fun a b : Z * Z => fst a - fst b))
    by (intros a b c; unfold cmp_le; lia).
  split; [exact Hanti |]. split; [exact Htrans |].
  exact (timSort_stable (0, 0) (fun a b : Z * Z => fst a - fst b)
           [[(2, 0); (1, 1); (2, 2); (1, 3)]] 0%nat Hanti Htrans).
Defined.

End ComparatorSortsWitnesses.

(** ** Frame: what the four sorts do to the arrays of their caller *)

Section Frame.
Import SortingEngine.
Local Open Scope Z_scope.

(** What [radixSort] stores in the array it returns. *)
Definition radix_sorted (cells : list cell) : list cell :=
  if (length cells <=? 1)%nat then cells
  else
    match max_cells cells with
    | Some max => radixSort_passes (Z.to_nat max) cells max 1
    | None => cells
    end.

Lemma radixSort_unfold arr (h : heap cell) :
  radixSort arr h = (length h, h ++ [radix_sorted (deref h arr)]).
Proof.
  unfold radixSort, radix_sorted, alloc.
  destruct (length (deref h arr) <=? 1)%nat; [done |].
  rewrite deref_alloc.
  destruct (max_cells (deref h arr)); [| done]. by rewrite store_alloc.
Qed.

(** X24. [hybridQuickSort], [timSort] and [radixSort] always return, and
    the array they return is a new one: its location was not in use, and
    every array that was, the input among them, is as it was. *)
Lemma total_sorts_frame {T : Type} (undefined : T) (compareFn : T -> T -> Z)
    (h : heap T) (hc : heap cell) (arr : loc) (threshold : Z) :
  let quick := hybridQuickSort undefined compareFn arr threshold h in
  let tim := timSort undefined compareFn arr h in
  let radix := radixSort arr hc in
  (fst quick = length h /\ forall l, (l < length h)%nat -> snd quick !! l = h !! l)
  /\ (fst tim = length h /\ forall l, (l < length h)%nat -> snd tim !! l = h !! l)
  /\ (fst radix = length hc /\ forall l, (l < length hc)%nat -> snd radix !! l = hc !! l).
Proof.
  cbv zeta. rewrite hybridQuickSort_unfold, timSort_unfold, radixSort_unfold.
  simpl fst. simpl snd.
  repeat split; try done; intros l Hl; by apply lookup_alloc.
Qed.

(** X25. [bucketSort] writes to no array of its caller either, whether it
    returns or throws; the array it returns, when it does, is a new one. *)
Lemma bucketSort_frame (h : heap float) (grades : loc) (bucketCount : Z) :
  let bucket := bucketSort grades bucketCount h in
  (forall l, (l < length h)%nat -> snd bucket !! l = h !! l)
  /\ (forall result, fst bucket = Returns result -> result = length h).
Proof.
  cbv zeta. unfold bucketSort, alloc.
  destruct (length (deref h grades) <=? 1)%nat; simpl.
  - split; [intros l Hl; by apply lookup_alloc | by intros result [= <-]].
  - destruct ((bucketCount <? 0) || (2 ^ 32 <=? bucketCount)); [by split |].
    destruct (foldl _ _ _) as [buckets | e]; simpl; [| by split].
    split; [intros l Hl; by apply lookup_alloc | by intros result [= <-]].
Qed.

(** The example of the specification. *)
Example bucketSort_example :
  bucketSort 0%nat 5 [[5; 1; 4; 2; 8]%float]
  = (Returns 1%nat, [[5; 1; 4; 2; 8]; [1; 2; 4; 5; 8]]%float).
Proof. vm_compute. reflexivity. Qed.

(** C10 (fails on the code). On two equal grades [bucketSort] returns no
    array: [bucketSize] is 0, the bucket index is [NaN], and the [push]
    throws. The caller's array is unchanged all the same. *)
Theorem bucketSort_equal_grades_throws :
  bucketSort 0%nat 10 [[3; 3]%float] = (Throws TypeError, [[3; 3]%float]).
Proof. vm_compute. reflexivity. Qed.

End Frame.

(** ** Radix sort *)

Section RadixNegative.
Import SortingEngine.
Local Open Scope Z_scope.

(** C8 (as stated, fails on the code). [radixSort([15, -10, 3])] is neither
    rejected nor sorted: the call returns the array [[3, 15, undefined]].
    The second pass computes the digit [-1] for [-10], which names no
    counter and no slot of [output]. *)
Lemma radixSort_negative_not_rejected :
  radixSort 0%nat [[Some 15; Some (-10); Some 3]]
  = (1%nat, [[Some 15; Some (-10); Some 3]; [Some 3; Some 15; None]]).
Proof. reflexivity. Qed.

End RadixNegative.

Section CountingSort.
Import SortingEngine ListLevel.
Local Open Scope Z_scope.
Variable exp : Z.
Hypothesis exp_positive : 0 < exp.

Local Abbreviation dg := (digit_of exp).

(** How many elements of [s] have the digit [d], and how many a digit up
    to [d]. *)
Definition cnt (d : Z) (s : list Z) : Z :=
  Z.of_nat (length (filter (fun x => dg x = d) s)).

Definition upto (d : Z) (s : list Z) : Z :=
  Z.of_nat (length (filter (fun x => dg x <= d) s)).

Lemma digit_range x : 0 <= dg x < 10.
Proof. unfold digit_of. apply Z.mod_pos_bound. lia. Qed.

Lemma digit_Some x : 0 <= x -> digit (Some x) exp = Some (dg x).
Proof.
  intros Hx. unfold digit, digit_of.
  rewrite Z.rem_mod_nonneg by (try apply Z.div_pos; lia).
  pose proof (digit_range x) as Hd. unfold digit_of in Hd.
  destruct (Z.leb_spec 0 ((x / exp) mod 10)); [done | lia].
Qed.

Lemma get_cells (done todo : list Z) x i :
  i = Z.of_nat (length done) ->
  Js.get None (map Some (done ++ x :: todo)) i = Some x.
Proof.
  intros ->. rewrite map_app. simpl. apply get_middle. by rewrite length_map.
Qed.

Lemma cnt_snoc d s x : cnt d (s ++ [x]) = cnt d s + (if decide (dg x = d) then 1 else 0).
Proof.
  unfold cnt. rewrite filter_app, length_app, filter_cons, filter_nil.
  destruct (decide (dg x = d)); simpl; lia.
Qed.

Lemma cnt_cons d s x : cnt d (x :: s) = cnt d s + (if decide (dg x = d) then 1 else 0).
Proof.
  unfold cnt. rewrite filter_cons.
  destruct (decide (dg x = d)); simpl; lia.
Qed.

Lemma upto_split d s : upto d s = upto (d - 1) s + cnt d s.
Proof.
  unfold upto, cnt. induction s as [| x s IH]; [done |].
  rewrite !filter_cons.
  destruct (decide (dg x <= d)), (decide (dg x <= d - 1)), (decide (dg x = d));
    simpl; lia.
Qed.

Lemma upto_below s : upto (-1) s = 0.
Proof.
  unfold upto. rewrite filter_none; [done |].
  apply Forall_forall. intros x _. pose proof (digit_range x). lia.
Qed.

Lemma upto_all s : upto 9 s = Z.of_nat (length s).
Proof.
  unfold upto. induction s as [| x s IH]; [done |].
  rewrite filter_cons. pose proof (digit_range x).
  destruct (decide (dg x <= 9)); [| lia]. simpl. lia.
Qed.

(** The ten counters after the elements of [s] were counted. *)
Definition counts_of (s : list Z) : list Z := map (fun d => cnt d s) (seqZ 0 10).

(** The ten counters after the prefix sums. *)
Definition ends_of (s : list Z) : list Z := map (fun d => upto d s) (seqZ 0 10).

Lemma seqZ_ten : seqZ 0 10 = [0; 1; 2; 3; 4; 5; 6; 7; 8; 9].
Proof. reflexivity. Qed.

Lemma ten_cases d : 0 <= d < 10 ->
  d = 0 \/ d = 1 \/ d = 2 \/ d = 3 \/ d = 4 \/ d = 5 \/ d = 6 \/ d = 7 \/ d = 8 \/ d = 9.
Proof. lia. Qed.

(** [count[d]++] for the digit of one more element. *)
Lemma bump_counts s x :
  Js.set 0 (counts_of s) (dg x) (Js.get 0 (counts_of s) (dg x) + 1) = counts_of (s ++ [x]).
Proof.
  unfold counts_of. rewrite seqZ_ten.
  destruct (ten_cases (dg x) (digit_range x)) as [Hd|[Hd|[Hd|[Hd|[Hd|[Hd|[Hd|[Hd|[Hd|Hd]]]]]]]]];
    rewrite Hd; unfold Js.get, Js.set; simpl;
    rewrite !cnt_snoc, Hd; simpl; rewrite ?Z.add_0_r; reflexivity.
Qed.

(** The first loop of [countingSort]. *)
Lemma count_loop_spec todo :
  forall seen count,
    Forall (fun x => 0 <= x) todo ->
    for_up (length todo) (Z.of_nat (length seen))
      (fun i count =>
         match digit (Js.get None (map Some (seen ++ todo)) i) exp with
         | Some d => Js.set 0 count d (Js.get 0 count d + 1)
         | None => count
         end)
      count
    = foldl (fun count x => Js.set 0 count (dg x) (Js.get 0 count (dg x) + 1)) count todo.
Proof.
  induction todo as [| x todo IH]; intros seen count Hpos; [done |].
  apply Forall_cons in Hpos as [Hx Hpos].
  simpl length. rewrite for_up_S. cbv beta.
  rewrite get_cells, digit_Some by done. simpl foldl.
  replace (seen ++ x :: todo) with ((seen ++ [x]) ++ todo) by reassoc.
  replace (Z.of_nat (length seen) + 1) with (Z.of_nat (length (seen ++ [x])))
    by (rewrite length_app; simpl; lia).
  by apply IH.
Qed.

Lemma counts_fold todo :
  forall seen,
    foldl (fun count x => Js.set 0 count (dg x) (Js.get 0 count (dg x) + 1))
      (counts_of seen) todo
    = counts_of (seen ++ todo).
Proof.
  induction todo as [| x todo IH]; intros seen; simpl.
  - by rewrite app_nil_r.
  - rewrite bump_counts, IH. f_equal. reassoc.
Qed.

(** The second loop: prefix sums. *)
Lemma prefix_loop_spec s :
  for_up 9 1 (fun i count => Js.set 0 count i (Js.get 0 count i + Js.get 0 count (i - 1)))
    (counts_of s)
  = ends_of s.
Proof.
  assert (H0 : upto 0 s = cnt 0 s)
    by (rewrite (upto_split 0); replace (0 - 1) with (-1) by lia; rewrite upto_below; lia).
  assert (H1 : upto 1 s = cnt 1 s + upto 0 s)
    by (rewrite (upto_split 1); replace (1 - 1) with 0 by lia; lia).
  assert (H2 : upto 2 s = cnt 2 s + upto 1 s)
    by (rewrite (upto_split 2); replace (2 - 1) with 1 by lia; lia).
  assert (H3 : upto 3 s = cnt 3 s + upto 2 s)
    by (rewrite (upto_split 3); replace (3 - 1) with 2 by lia; lia).
  assert (H4 : upto 4 s = cnt 4 s + upto 3 s)
    by (rewrite (upto_split 4); replace (4 - 1) with 3 by lia; lia).
  assert (H5 : upto 5 s = cnt 5 s + upto 4 s)
    by (rewrite (upto_split 5); replace (5 - 1) with 4 by lia; lia).
  assert (H6 : upto 6 s = cnt 6 s + upto 5 s)
    by (rewrite (upto_split 6); replace (6 - 1) with 5 by lia; lia).
  assert (H7 : upto 7 s = cnt 7 s + upto 6 s)
    by (rewrite (upto_split 7); replace (7 - 1) with 6 by lia; lia).
  assert (H8 : upto 8 s = cnt 8 s + upto 7 s)
    by (rewrite (upto_split 8); replace (8 - 1) with 7 by lia; lia).
  assert (H9 : upto 9 s = cnt 9 s + upto 8 s)
    by (rewrite (upto_split 9); replace (9 - 1) with 8 by lia; lia).
  unfold counts_of, ends_of. rewrite seqZ_ten. unfold Js.get, Js.set. simpl.
  by rewrite H9, H8, H7, H6, H5, H4, H3, H2, H1, H0.
Qed.

Lemma for_down_S {S : Type} (n : nat) (i : Z) (body : Z -> S -> S) (s : S) :
  for_down (Datatypes.S n) i body s = for_down n (i - 1) body (body i s).
Proof. reflexivity. Qed.

Lemma flat_map_ext_in {A B : Type} (f g : A -> list B) (l : list A) :
  Forall (fun a => f a = g a) l -> flat_map f l = flat_map g l.
Proof. induction 1 as [| a l Ha _ IH]; [done |]. simpl. by rewrite Ha, IH. Qed.

Lemma seqZ_split d :
  0 <= d < 10 -> seqZ 0 10 = seqZ 0 d ++ d :: seqZ (d + 1) (9 - d).
Proof.
  intros Hd. replace 10 with (d + (10 - d)) at 1 by lia.
  rewrite seqZ_app by lia. f_equal. rewrite seqZ_cons by lia. simpl. f_equal.
  f_equal; lia.
Qed.

Lemma get_map_seqZ (f : Z -> Z) d : 0 <= d < 10 -> Js.get 0 (map f (seqZ 0 10)) d = f d.
Proof.
  intros Hd. rewrite seqZ_ten.
  destruct (ten_cases d Hd) as [->|[->|[->|[->|[->|[->|[->|[->|[->| ->]]]]]]]]]; reflexivity.
Qed.

(** The array being sorted, and the elements of it that the third loop has
    placed so far: a suffix [S], as the loop runs backwards. *)
Variable l : list Z.

(** The slots of [output] that await an element of digit [d], followed by
    the elements of that digit already placed. *)
Definition block (d : Z) (S : list Z) : list cell :=
  replicate (length (filter (fun x => dg x = d) l) - length (filter (fun x => dg x = d) S))
    None
  ++ map Some (filter (fun x => dg x = d) S).

Definition out_of (S : list Z) : list cell := flat_map (fun d => block d S) (seqZ 0 10).

(** The counters while the third loop runs. *)
Definition cur (S : list Z) : list Z := map (fun d => upto d l - cnt d S) (seqZ 0 10).

Lemma length_block d P S :
  l = P ++ S -> Z.of_nat (length (block d S)) = cnt d l.
Proof.
  intros Hl. unfold block, cnt. rewrite Hl.
  rewrite length_app, length_replicate, length_map, filter_app, length_app. lia.
Qed.

Lemma length_blocks (k : nat) P S :
  l = P ++ S ->
  Z.of_nat (length (flat_map (fun d => block d S) (seqZ 0 (Z.of_nat k))))
  = upto (Z.of_nat k - 1) l.
Proof.
  intros Hl. induction k as [| k IH].
  - simpl. by rewrite upto_below.
  - rewrite seqZ_S, flat_map_app, length_app. simpl flat_map. rewrite app_nil_r.
    rewrite Nat2Z.inj_add, IH, (length_block _ P S Hl).
    rewrite (upto_split (Z.of_nat (Datatypes.S k) - 1)).
    replace (Z.of_nat (Datatypes.S k) - 1 - 1) with (Z.of_nat k - 1) by lia.
    replace (0 + Z.of_nat k) with (Z.of_nat (Datatypes.S k) - 1) by lia. done.
Qed.

Lemma length_out_of P S : l = P ++ S -> length (out_of S) = length l.
Proof.
  intros Hl. pose proof (length_blocks 10 P S Hl) as Hlen.
  change (Z.of_nat 10) with 10 in Hlen. change (10 - 1) with 9 in Hlen.
  rewrite upto_all in Hlen. unfold out_of. lia.
Qed.

(** [count[d]--] *)
Lemma set_cur x S :
  Js.set 0 (cur S) (dg x) (Js.get 0 (cur S) (dg x) - 1) = cur (x :: S).
Proof.
  unfold cur. rewrite seqZ_ten.
  destruct (ten_cases (dg x) (digit_range x)) as [Hd|[Hd|[Hd|[Hd|[Hd|[Hd|[Hd|[Hd|[Hd|Hd]]]]]]]]];
    rewrite Hd; unfold Js.get, Js.set; simpl;
    rewrite !cnt_cons, Hd; simpl; repeat (apply (f_equal2 cons); [lia |]); reflexivity.
Qed.

(** [output[count[d] - 1] = arr[i]]: the element fills the last free slot
    of its digit. *)
Lemma place_step P x S :
  l = P ++ x :: S ->
  Js.set None (out_of S) (Js.get 0 (cur S) (dg x) - 1) (Some x) = out_of (x :: S).
Proof.
  intros Hl. pose proof (digit_range x) as Hd.
  assert (Hsuffix : l = (P ++ [x]) ++ S) by (rewrite Hl; reassoc).
  unfold cur. rewrite get_map_seqZ by done.
  unfold out_of. rewrite (seqZ_split (dg x) Hd), !flat_map_app. simpl flat_map.
  rewrite (flat_map_ext_in (fun d => block d (x :: S)) (fun d => block d S) (seqZ 0 (dg x))).
  2:{ apply Forall_seqZ. intros e He. unfold block.
      rewrite !(filter_cons _ x). by destruct (decide (dg x = e)); [lia |]. }
  rewrite (flat_map_ext_in (fun d => block d (x :: S)) (fun d => block d S)
             (seqZ (dg x + 1) (9 - dg x))).
  2:{ apply Forall_seqZ. intros e He. unfold block.
      rewrite !(filter_cons _ x). by destruct (decide (dg x = e)); [lia |]. }
  set (pre := flat_map (fun d => block d S) (seqZ 0 (dg x))).
  set (post := flat_map (fun d => block d S) (seqZ (dg x + 1) (9 - dg x))).
  assert (Hpre : Z.of_nat (length pre) = upto (dg x - 1) l).
  { subst pre. pose proof (length_blocks (Z.to_nat (dg x)) (P ++ [x]) S Hsuffix) as Hlen.
    rewrite Z2Nat.id in Hlen by lia. done. }
  unfold block. rewrite (filter_cons _ x), decide_True by done.
  assert (Hholes : exists h,
             (length (filter (fun y => dg y = dg x) l)
              - length (filter (fun y => dg y = dg x) S) = Datatypes.S h)%nat
             /\ (length (filter (fun y => dg y = dg x) l)
                 - length (filter (fun y => dg y = dg x) (x :: S)) = h)%nat).
  { exists (length (filter (fun y => dg y = dg x) P)).
    rewrite Hl, filter_app, !(filter_cons _ x), decide_True by done.
    rewrite length_app. simpl. lia. }
  destruct Hholes as (h & Hh1 & Hh2).
  rewrite (filter_cons _ x), decide_True in Hh2 by done.
  rewrite Hh1, Hh2. rewrite replicate_S_end.
  assert (Hpos : upto (dg x) l - cnt (dg x) S - 1 = Z.of_nat (length (pre ++ replicate h None))).
  { rewrite length_app, length_replicate, Nat2Z.inj_add, Hpre, (upto_split (dg x)).
    unfold cnt. lia. }
  rewrite Hpos.
  replace (pre ++ ((replicate h None ++ [None])
                   ++ map Some (filter (fun y => dg y = dg x) S)) ++ post)
    with ((pre ++ replicate h None)
          ++ None :: (map Some (filter (fun y => dg y = dg x) S) ++ post)) by reassoc.
  rewrite set_middle by done. reassoc.
Qed.

(** The third loop, run backwards over [todo]. *)
Lemma place_loop_spec todo :
  forall S,
    l = todo ++ S ->
    Forall (fun x => 0 <= x) l ->
    for_down (length todo) (Z.of_nat (length todo) - 1)
      (fun i '(output, count) =>
         match digit (Js.get None (map Some l) i) exp with
         | Some d =>
             (Js.set None output (Js.get 0 count d - 1) (Js.get None (map Some l) i),
              Js.set 0 count d (Js.get 0 count d - 1))
         | None => (output, count)
         end)
      (out_of S, cur S)
    = (out_of l, cur l).
Proof.
  induction todo as [| x todo IH] using rev_ind; intros S Hl Hpos.
  - simpl in Hl. by subst S.
  - rewrite length_app. simpl length.
    replace (length todo + 1)%nat with (Datatypes.S (length todo)) by lia.
    rewrite for_down_S. cbv beta iota.
    assert (Hl' : l = todo ++ x :: S) by (rewrite Hl; reassoc).
    assert (Hx : 0 <= x).
    { rewrite Hl' in Hpos. apply Forall_app in Hpos as [_ Hpos].
      by apply Forall_cons in Hpos as [? _]. }
    assert (Hget : Js.get None (map Some l) (Z.of_nat (Datatypes.S (length todo)) - 1) = Some x).
    { rewrite Hl'. apply get_cells. lia. }
    rewrite Hget, digit_Some by done.
    rewrite (place_step todo x S Hl'), set_cur.
    replace (Z.of_nat (Datatypes.S (length todo)) - 1 - 1) with (Z.of_nat (length todo) - 1)
      by lia.
    by apply IH.
Qed.

(** The fourth loop copies [output] back. *)
Lemma copy_loop_spec (todo : list cell) :
  forall seen rest,
    length rest = length todo ->
    for_up (length todo) (Z.of_nat (length seen))
      (fun i arr => Js.set None arr i (Js.get None (seen ++ todo) i))
      (seen ++ rest)
    = seen ++ todo.
Proof.
  induction todo as [| c todo IH]; intros seen rest Hlen.
  - by destruct rest.
  - destruct rest as [| r rest]; [done |].
    simpl length. rewrite for_up_S. cbv beta.
    rewrite get_middle, set_middle by done.
    replace (seen ++ c :: rest) with ((seen ++ [c]) ++ rest) by reassoc.
    replace (seen ++ c :: todo) with ((seen ++ [c]) ++ todo) by reassoc.
    replace (Z.of_nat (length seen) + 1) with (Z.of_nat (length (seen ++ [c])))
      by (rewrite length_app; simpl; lia).
    apply IH. simpl in Hlen. lia.
Qed.

Lemma out_of_nil : out_of [] = replicate (length l) None.
Proof.
  assert (Hnone : Forall (fun c => c = None) (out_of [])).
  { unfold out_of. apply Forall_flat_map, Forall_forall. intros d _.
    unfold block. simpl. rewrite app_nil_r. apply Forall_replicate. done. }
  rewrite <- (length_out_of l []) by by rewrite app_nil_r.
  induction Hnone as [| c cs -> _ IH]; [done |]. simpl. by rewrite <- IH.
Qed.

Lemma out_of_all : out_of l = map Some (counting_pass exp l).
Proof.
  unfold out_of, counting_pass.
  induction (seqZ 0 10) as [| d ds IH]; [done |].
  simpl. rewrite map_app, IH. unfold block at 1.
  by rewrite Nat.sub_diag.
Qed.

(** One pass of [countingSort] over non-negative integers is the stable
    sort by the digit at [exp]. *)
Lemma countingSort_spec :
  Forall (fun x => 0 <= x) l ->
  countingSort (map Some l) exp = map Some (counting_pass exp l).
Proof.
  intros Hpos. unfold countingSort. rewrite length_map.
  pose proof (count_loop_spec l [] (replicate 10 0) Hpos) as Hcount.
  simpl app in Hcount. simpl length in Hcount. change (Z.of_nat 0) with 0 in Hcount.
  rewrite Hcount. clear Hcount.
  change (replicate 10 0) with (counts_of []).
  rewrite counts_fold. simpl app.
  rewrite prefix_loop_spec.
  assert (Hcur : ends_of l = cur []).
  { unfold ends_of, cur. apply map_ext. intros d. unfold cnt. simpl. lia. }
  rewrite Hcur, <- out_of_nil.
  pose proof (place_loop_spec l []) as Hplace.
  rewrite app_nil_r in Hplace. rewrite (Hplace eq_refl Hpos). clear Hplace.
  pose proof (copy_loop_spec (out_of l) [] (map Some l)) as Hcopy.
  simpl app in Hcopy. simpl length in Hcopy. change (Z.of_nat 0) with 0 in Hcopy.
  rewrite (length_out_of [] l eq_refl) in Hcopy.
  rewrite Hcopy by by rewrite length_map.
  apply out_of_all.
Qed.

End CountingSort.

Section RadixSort.
Import SortingEngine ListLevel.
Local Open Scope Z_scope.

(** [l] is ordered by the remainders modulo [exp], that is by the digits
    below [exp]. *)
Definition sorted_below (exp : Z) (l : list Z) : Prop :=
  StronglySorted (fun a b => a mod exp <= b mod exp) l.

Lemma flat_filter_nil (f : Z -> Z -> Prop) `{forall d x, Decision (f d x)}
    (ds : list Z) :
  flat_map (fun d => filter (f d) ([] : list Z)) ds = [].
Proof. induction ds as [| d ds IH]; [done |]. simpl. by rewrite IH. Qed.

Lemma flat_filter_cons exp x l ds :
  NoDup ds ->
  flat_map (fun d => filter (fun y => digit_of exp y = d) (x :: l)) ds
  ≡ₚ (if decide (digit_of exp x ∈ ds) then [x] else [])
     ++ flat_map (fun d => filter (fun y => digit_of exp y = d) l) ds.
Proof.
  induction 1 as [| d ds Hd Hds IH].
  - done.
  - simpl. rewrite IH, filter_cons.
    destruct (decide (digit_of exp x = d)) as [Heq | Hne].
    + rewrite (decide_True (P := digit_of exp x ∈ d :: ds)) by set_solver.
      rewrite (decide_False (P := digit_of exp x ∈ ds)) by (by rewrite Heq).
      done.
    + destruct (decide (digit_of exp x ∈ ds)) as [Hin | Hout].
      * rewrite (decide_True (P := digit_of exp x ∈ d :: ds)) by set_solver.
        simpl. by rewrite Permutation_middle.
      * rewrite (decide_False (P := digit_of exp x ∈ d :: ds))
          by (intros [? | ?]%elem_of_cons; done).
        done.
Qed.

Lemma counting_pass_Permutation exp l : 0 < exp -> counting_pass exp l ≡ₚ l.
Proof.
  intros Hexp. unfold counting_pass. induction l as [| x l IH].
  - by rewrite (flat_filter_nil (fun d y => digit_of exp y = d)).
  - rewrite flat_filter_cons by apply NoDup_seqZ.
    rewrite decide_True.
    + simpl. by rewrite IH.
    + apply elem_of_seqZ. pose proof (digit_range exp x). lia.
Qed.

(** Stability of a pass: the elements of one digit keep their order. *)
Lemma counting_pass_stable exp l d :
  filter (fun y => digit_of exp y = d) (counting_pass exp l)
  = filter (fun y => digit_of exp y = d) l.
Proof.
  unfold counting_pass.
  assert (Hblocks : forall ds,
             NoDup ds ->
             filter (fun y => digit_of exp y = d)
               (flat_map (fun e => filter (fun y => digit_of exp y = e) l) ds)
             = if decide (d ∈ ds) then filter (fun y => digit_of exp y = d) l else []).
  { induction 1 as [| e ds He Hds IH].
    - done.
    - simpl. rewrite filter_app, IH.
      destruct (decide (d = e)) as [<- | Hne].
      + rewrite (decide_True (P := d ∈ d :: ds)) by set_solver.
        rewrite (decide_False (P := d ∈ ds)) by done.
        rewrite app_nil_r. clear. induction l as [| y l IH]; [done |].
        rewrite (filter_cons _ y). destruct (decide (digit_of exp y = d)); [| done].
        rewrite !(filter_cons _ y), decide_True by done. by rewrite IH.
      + rewrite (filter_none _ (filter _ l)).
        2:{ apply Forall_forall. intros y Hy. apply list_elem_of_filter in Hy as [Hy _]. lia. }
        destruct (decide (d ∈ ds)).
        * by rewrite (decide_True (P := d ∈ e :: ds)) by set_solver.
        * by rewrite (decide_False (P := d ∈ e :: ds))
            by (intros [? | ?]%elem_of_cons; done). }
  rewrite Hblocks by apply NoDup_seqZ.
  destruct (decide (d ∈ seqZ 0 10)) as [Hin | Hout]; [done |].
  symmetry. apply filter_none, Forall_forall. intros y _ Hy. apply Hout.
  apply elem_of_seqZ. subst d. unfold digit_of.
  pose proof (Z.mod_pos_bound (y / exp) 10). lia.
Qed.

Lemma filter_StronglySorted {A : Type} (R R' : A -> A -> Prop) (P : A -> Prop)
    `{forall x, Decision (P x)} (l : list A) :
  (forall a b, P a -> P b -> R a b -> R' a b) ->
  StronglySorted R l -> StronglySorted R' (filter P l).
Proof.
  intros Himpl. induction 1 as [| x l Hsorted IH Hx]; [constructor |].
  rewrite filter_cons. destruct (decide (P x)) as [HPx | _]; [| done].
  constructor; [done |].
  apply Forall_forall. intros y Hy. apply list_elem_of_filter in Hy as [HPy Hy].
  apply Himpl; [done | done |]. by eapply (proj1 (Forall_forall _ _) Hx).
Qed.

Lemma mod_split exp x :
  0 < exp -> x mod (exp * 10) = x mod exp + exp * digit_of exp x.
Proof. intros Hexp. unfold digit_of. apply Z.rem_mul_r; lia. Qed.

(** A pass at [exp] on a list ordered below [exp] orders it below
    [10 * exp]. *)
Lemma counting_pass_sorted exp l :
  0 < exp -> sorted_below exp l -> sorted_below (exp * 10) (counting_pass exp l).
Proof.
  intros Hexp Hsorted. unfold counting_pass, sorted_below.
  assert (Hblocks : forall ds,
             StronglySorted Z.lt ds ->
             StronglySorted (fun a b => a mod (exp * 10) <= b mod (exp * 10))
               (flat_map (fun d => filter (fun y => digit_of exp y = d) l) ds)).
  { induction 1 as [| d ds Hds IH Hd]; [constructor |].
    simpl. apply StronglySorted_app_2; [| | done].
    - intros x1 x2 Hx1 Hx2.
      apply list_elem_of_filter in Hx1 as [Hx1 _].
      apply list_elem_of_In, in_flat_map in Hx2 as (d' & Hd' & Hx2).
      apply list_elem_of_In, list_elem_of_filter in Hx2 as [Hx2 _].
      apply list_elem_of_In in Hd'.
      assert (d < d') by by eapply (proj1 (Forall_forall _ _) Hd).
      rewrite !mod_split, Hx1, Hx2 by done.
      pose proof (Z.mod_pos_bound x1 exp Hexp). pose proof (Z.mod_pos_bound x2 exp Hexp).
      nia.
    - apply (filter_StronglySorted (fun a b => a mod exp <= b mod exp)); [| done].
      intros a b Ha Hb Hab. rewrite !mod_split, Ha, Hb by done. lia. }
  apply Hblocks. rewrite seqZ_ten.
  repeat (constructor; [| repeat (constructor; [lia |]); constructor]). constructor.
Qed.

Lemma sorted_below_one l : sorted_below 1 l.
Proof.
  unfold sorted_below. induction l as [| x l IH]; constructor; [done |].
  apply Forall_forall. intros y _. rewrite !Z.mod_1_r. lia.
Qed.

Lemma sorted_below_all exp l :
  Forall (fun x => 0 <= x < exp) l -> sorted_below exp l -> StronglySorted Z.le l.
Proof.
  intros Hsmall Hsorted. induction Hsorted as [| x l Hsorted IH Hx]; [constructor |].
  apply Forall_cons in Hsmall as [Hxs Hsmall]. constructor; [by apply IH |].
  apply Forall_forall. intros y Hy.
  assert (x mod exp <= y mod exp) by by eapply (proj1 (Forall_forall _ _) Hx).
  assert (0 <= y < exp) by by eapply (proj1 (Forall_forall _ _) Hsmall).
  rewrite !Z.mod_small in * by lia. lia.
Qed.

(** The passes of [radixSort] end with the list in order: [exp] has then
    grown past [max]. *)
Lemma lsd_passes_spec rounds :
  forall max exp l,
    0 < exp ->
    Forall (fun x => 0 <= x <= max) l ->
    sorted_below exp l ->
    max < exp + Z.of_nat rounds ->
    lsd_passes rounds max exp l ≡ₚ l /\ StronglySorted Z.le (lsd_passes rounds max exp l).
Proof.
  induction rounds as [| rounds IH]; intros max exp l Hexp Hrange Hsorted Hfuel.
  - split; [done |]. apply (sorted_below_all exp); [| done].
    eapply Forall_impl; [exact Hrange |]. simpl. intros x Hx. lia.
  - simpl. destruct (Z.ltb_spec 0 (max / exp)) as [Hmore | Hstop].
    + pose proof (counting_pass_Permutation exp l Hexp) as Hperm.
      destruct (IH max (exp * 10) (counting_pass exp l)) as [Hperm' Hsorted'].
      * lia.
      * by rewrite Hperm.
      * by apply counting_pass_sorted.
      * lia.
      * split; [by rewrite Hperm' | done].
    + split; [done |]. apply (sorted_below_all exp); [| done].
      eapply Forall_impl; [exact Hrange |]. simpl. intros x Hx.
      assert (max < exp); [| lia].
      destruct (Z.lt_ge_cases max exp) as [| Hge]; [done |].
      assert (1 <= max / exp) by (apply Z.div_le_lower_bound; lia). lia.
Qed.

(** The passes on the array are the passes on the list. *)
Lemma radixSort_passes_spec rounds :
  forall max exp l,
    0 < exp ->
    Forall (fun x => 0 <= x) l ->
    radixSort_passes rounds (map Some l) max exp = map Some (lsd_passes rounds max exp l).
Proof.
  induction rounds as [| rounds IH]; intros max exp l Hexp Hpos; [done |].
  simpl. destruct (0 <? max / exp); [| done].
  rewrite countingSort_spec by done.
  apply IH; [lia |]. by rewrite counting_pass_Permutation.
Qed.

Lemma max_cells_from l :
  forall a,
    foldl (fun acc c => match acc, c with
                        | Some (Some a), Some x => Some (Some (Z.max a x))
                        | Some None, Some x => Some (Some x)
                        | _, _ => None
                        end)
      (Some (Some a)) (map Some l)
    = Some (Some (foldl Z.max a l)).
Proof. induction l as [| x l IH]; intros a; [done |]. simpl. apply IH. Qed.

Lemma foldl_max_bound l : forall a, a <= foldl Z.max a l /\ Forall (fun x => x <= foldl Z.max a l) l.
Proof.
  induction l as [| x l IH]; intros a; simpl; [split; [lia | constructor] |].
  destruct (IH (Z.max a x)) as [Hle Hall]. split; [lia |]. constructor; [lia | done].
Qed.

Lemma max_cells_spec x l :
  exists max, max_cells (map Some (x :: l)) = Some max /\ Forall (fun y => y <= max) (x :: l).
Proof.
  exists (foldl Z.max x l). unfold max_cells. simpl. rewrite max_cells_from. simpl.
  split; [done |]. destruct (foldl_max_bound l x). by constructor.
Qed.

(** What [radixSort] returns for non-negative integers. *)
Lemma radix_sorted_spec l :
  Forall (fun x => 0 <= x) l ->
  exists rounds max,
    radix_sorted (map Some l) = map Some (lsd_passes rounds max 1 l)
    /\ lsd_passes rounds max 1 l ≡ₚ l
    /\ StronglySorted Z.le (lsd_passes rounds max 1 l).
Proof.
  intros Hpos. unfold radix_sorted. rewrite length_map.
  destruct l as [| x [| y l]].
  - exists O, 0. repeat split; constructor.
  - exists O, 0. repeat split; [done |]. by repeat constructor.
  - simpl Nat.leb.
    destruct (max_cells_spec x (y :: l)) as (max & Hmax & Hbound).
    rewrite Hmax. exists (Z.to_nat max), max.
    assert (0 <= max).
    { apply Forall_cons in Hpos as [? _]. apply Forall_cons in Hbound as [? _]. lia. }
    split; [by apply radixSort_passes_spec |].
    apply lsd_passes_spec; [lia | | apply sorted_below_one | lia].
    apply Forall_forall. intros z Hz.
    split.
    + by eapply (proj1 (Forall_forall _ _) Hpos).
    + by eapply (proj1 (Forall_forall _ _) Hbound).
Qed.

(** C8, amended. [radixSort] rejects no input: whatever the array holds,
    the call returns a new array. When the array holds non-negative
    integers below [2^53] only (the integers that binary64 holds exactly and
    divides as the integers are divided), that array is the result of
    stable counting-sort passes by increasing decimal digit, and it is the
    input in ascending order. *)
Theorem radixSort_sorts_non_negative (h : heap cell) (arr : loc) (l : list Z) :
  deref h arr = map Some l ->
  Forall (fun x => 0 <= x < 2 ^ 53) l ->
  let radix := radixSort arr h in
  fst radix = length h
  /\ exists rounds max,
       deref (snd radix) (fst radix) = map Some (lsd_passes rounds max 1 l)
       /\ lsd_passes rounds max 1 l ≡ₚ l
       /\ StronglySorted Z.le (lsd_passes rounds max 1 l).
Proof.
  intros Hl Hsafe. cbv zeta. rewrite radixSort_unfold. simpl fst. simpl snd.
  split; [done |]. rewrite deref_alloc, Hl. apply radix_sorted_spec.
  eapply Forall_impl; [exact Hsafe |]. simpl. intros x Hx. lia.
Qed.

Lemma radixSort_sorts_non_negative_witness :
  let h := [map Some [170; 45; 75; 90; 802; 24; 2; 66]] in
  deref h 0%nat = map Some [170; 45; 75; 90; 802; 24; 2; 66]
  /\ Forall (fun x => 0 <= x < 2 ^ 53) [170; 45; 75; 90; 802; 24; 2; 66]
  /\ let radix := radixSort 0%nat h in
     fst radix = length h
     /\ exists rounds max,
          deref (snd radix) (fst radix)
          = map Some (lsd_passes rounds max 1 [170; 45; 75; 90; 802; 24; 2; 66])
          /\ lsd_passes rounds max 1 [170; 45; 75; 90; 802; 24; 2; 66]
             ≡ₚ [170; 45; 75; 90; 802; 24; 2; 66]
          /\ StronglySorted Z.le (lsd_passes rounds max 1 [170; 45; 75; 90; 802; 24; 2; 66]).
Proof.
  assert (Hpos : Forall (fun x => 0 <= x < 2 ^ 53) [170; 45; 75; 90; 802; 24; 2; 66])
    by (repeat (constructor; [lia |]); constructor).
  split; [reflexivity |]. split; [exact Hpos |].
  exact (radixSort_sorts_non_negative [map Some [170; 45; 75; 90; 802; 24; 2; 66]] 0%nat
           [170; 45; 75; 90; 802; 24; 2; 66] eq_refl Hpos).
Defined.

(** Why the bound: from [2^53] on the quotient of binary64 is not the exact
    one. [50000000000000088] is a number of binary64; divided by [10] it
    gives [5000000000000009], so that the code reads the digit [9] where the
    decimal digit, which [digit] computes, is [8]. *)
Example binary64_quotient_beyond_safe_integers :
  JsMath.floor (JsMath.of_Z 50000000000000088 / JsMath.of_Z 10)%float
  = JsMath.of_Z 5000000000000009
  /\ digit (Some 50000000000000088) 10 = Some 8
  /\ 2 ^ 53 <= 50000000000000088.
Proof. split_and!; [vm_compute; reflexivity | reflexivity | lia]. Qed.

(** The example of the specification. *)
Example radixSort_example :
  deref (snd (radixSort 0%nat [map Some [170; 45; 75; 90; 802; 24; 2; 66]])) 1%nat
  = map Some [2; 24; 45; 66; 75; 90; 170; 802].
Proof. reflexivity. Qed.

End RadixSort.

(** ** Topological sort *)

Section InsertionOrderedMap.
Context {V : Type}.

Lemma map_get_set_eq k (v : V) m : map_get k (map_set k v m) = Some v.
Proof.
  induction m as [| [k' v'] m IH]; simpl.
  - by rewrite String.eqb_refl.
  - destruct (String.eqb_spec k' k) as [-> | Hne]; simpl.
    + by rewrite String.eqb_refl.
    + by destruct (String.eqb_spec k' k).
Qed.

Lemma map_get_set_ne k k' (v : V) m : k <> k' -> map_get k' (map_set k v m) = map_get k' m.
Proof.
  intros Hne. induction m as [| [k0 v0] m IH]; simpl.
  - by destruct (String.eqb_spec k k').
  - destruct (String.eqb_spec k0 k) as [-> | Hne0]; simpl.
    + by destruct (String.eqb_spec k k').
    + by rewrite IH.
Qed.

Lemma map_get_Some_key k (v : V) m : map_get k m = Some v -> k ∈ map fst m.
Proof.
  induction m as [| [k' v'] m IH]; simpl; [done |].
  destruct (String.eqb_spec k' k) as [-> | Hne]; intros Hget.
  - apply list_elem_of_here.
  - apply list_elem_of_further. by apply IH.
Qed.

Lemma map_get_key k m : k ∈ map fst m -> exists v : V, map_get k m = Some v.
Proof.
  induction m as [| [k' v'] m IH]; simpl; [by intros ?%elem_of_nil |].
  intros Hin. destruct (String.eqb_spec k' k) as [-> | Hne]; [by eexists |].
  apply elem_of_cons in Hin as [-> | Hin]; [done | by apply IH].
Qed.

(** [set] on a key that is present changes no key. *)
Lemma map_set_keys_present k (v : V) m :
  k ∈ map fst m -> map fst (map_set k v m) = map fst m.
Proof.
  induction m as [| [k' v'] m IH]; simpl; [by intros ?%elem_of_nil |].
  intros Hin. destruct (String.eqb_spec k' k) as [-> | Hne]; simpl; [done |].
  apply elem_of_cons in Hin as [-> | Hin]; [done |]. by rewrite IH.
Qed.

(** [set] on a key that is absent appends it. *)
Lemma map_set_keys_absent k (v : V) m :
  k ∉ map fst m -> map fst (map_set k v m) = map fst m ++ [k].
Proof.
  induction m as [| [k' v'] m IH]; simpl; [done |].
  intros Hout. apply not_elem_of_cons in Hout as [Hne Hout].
  destruct (String.eqb_spec k' k) as [-> | _]; [done |]. simpl. by rewrite IH.
Qed.

Lemma map_set_NoDup k (v : V) m : NoDup (map fst m) -> NoDup (map fst (map_set k v m)).
Proof.
  intros Hm. destruct (decide (k ∈ map fst m)) as [Hin | Hout].
  - by rewrite map_set_keys_present.
  - rewrite map_set_keys_absent by done.
    apply NoDup_app. split; [done |]. split; [| apply NoDup_singleton].
    intros x Hx ->%list_elem_of_singleton. done.
Qed.

End InsertionOrderedMap.

Section InDegree.
Import SortingEngine Graph.
Local Open Scope Z_scope.

Lemma deg_of_set_eq k d m : deg_of (map_set k (Deg d) m) k = d.
Proof. unfold deg_of. by rewrite map_get_set_eq. Qed.

Lemma deg_of_set_ne k k' x m : k <> k' -> deg_of (map_set k x m) k' = deg_of m k'.
Proof. intros Hne. unfold deg_of. by rewrite map_get_set_ne. Qed.

Lemma proper_set k d m : proper m -> proper (map_set k (Deg d) m).
Proof.
  intros Hm k' x. destruct (decide (k = k')) as [<- | Hne].
  - rewrite map_get_set_eq. intros [= <-]. by eexists.
  - rewrite map_get_set_ne by done. apply Hm.
Qed.

Lemma counted_set k d m v : counted m v -> counted (map_set k (Deg d) m) v.
Proof.
  intros [d' Hv]. destruct (decide (k = v)) as [<- | Hne].
  - exists d. apply map_get_set_eq.
  - exists d'. by rewrite map_get_set_ne.
Qed.

Lemma counted_key m v : counted m v -> v ∈ map fst m.
Proof. intros [d Hd]. by eapply map_get_Some_key. Qed.

Lemma occurrences_cons v p ps :
  occurrences v (p :: ps) = (if decide (p = v) then 1 else 0) + occurrences v ps.
Proof.
  unfold occurrences. rewrite filter_cons. destruct (decide (p = v)); simpl; lia.
Qed.

Lemma occurrences_nonneg v ps : 0 <= occurrences v ps.
Proof. unfold occurrences. lia. Qed.

Lemma occurrences_elem v ps : v ∈ ps -> 1 <= occurrences v ps.
Proof.
  induction 1 as [v ps | v p ps _ IH]; rewrite occurrences_cons.
  - rewrite decide_True by done. pose proof (occurrences_nonneg v ps). lia.
  - destruct (decide (p = v)); lia.
Qed.

(** Counting one prerequisite. *)
Lemma count_prereq_spec m p :
  proper m ->
  proper (count_prereq m p)
  /\ counted (count_prereq m p) p
  /\ (forall v, counted m v -> counted (count_prereq m p) v)
  /\ (forall v, deg_of (count_prereq m p) v = deg_of m v + (if decide (p = v) then 1 else 0))
  /\ (NoDup (map fst m) -> NoDup (map fst (count_prereq m p))).
Proof.
  intros Hm. unfold count_prereq.
  destruct (map_get p m) as [[d |] |] eqn:Hp.
  - split_and!.
    + by apply proper_set.
    + eexists. apply map_get_set_eq.
    + intros v. apply counted_set.
    + intros v. destruct (decide (p = v)) as [<- | Hne].
      * rewrite deg_of_set_eq. unfold deg_of. rewrite Hp. lia.
      * rewrite deg_of_set_ne by done. lia.
    + apply map_set_NoDup.
  - destruct (Hm p NaN Hp) as [d Hd]. done.
  - split_and!.
    + by apply proper_set.
    + eexists. apply map_get_set_eq.
    + intros v. apply counted_set.
    + intros v. destruct (decide (p = v)) as [<- | Hne].
      * rewrite deg_of_set_eq. unfold deg_of. rewrite Hp. lia.
      * rewrite deg_of_set_ne by done. lia.
    + apply map_set_NoDup.
Qed.

Lemma count_prereqs_spec ps :
  forall m,
    proper m ->
    proper (foldl count_prereq m ps)
    /\ (forall v, v ∈ ps -> counted (foldl count_prereq m ps) v)
    /\ (forall v, counted m v -> counted (foldl count_prereq m ps) v)
    /\ (forall v, deg_of (foldl count_prereq m ps) v = deg_of m v + occurrences v ps)
    /\ (NoDup (map fst m) -> NoDup (map fst (foldl count_prereq m ps))).
Proof.
  induction ps as [| p ps IH]; intros m Hm; simpl.
  - split_and!; try done.
    + by intros v ?%elem_of_nil.
    + intros v. unfold occurrences. simpl. lia.
  - destruct (count_prereq_spec m p Hm) as (Hm1 & Hp & Hkeep & Hdeg & Hnodup).
    destruct (IH _ Hm1) as (Hm2 & Hin & Hkeep2 & Hdeg2 & Hnodup2).
    split_and!.
    + done.
    + intros v [-> | Hv]%elem_of_cons; [by apply Hkeep2 | by apply Hin].
    + intros v Hv. by apply Hkeep2, Hkeep.
    + intros v. rewrite Hdeg2, Hdeg, occurrences_cons. lia.
    + intros Hnd. by apply Hnodup2, Hnodup.
Qed.

Lemma count_inDegree_flat courses :
  forall m,
    count_inDegree courses m = foldl count_prereq m (flat_map prereqs courses).
Proof.
  induction courses as [| c courses IH]; intros m; [done |].
  simpl. unfold count_inDegree in *. simpl. by rewrite IH, foldl_app.
Qed.

Lemma init_inDegree_spec courses :
  forall m,
    proper m -> NoDup (map fst m) -> (forall v, deg_of m v = 0) ->
    let m' := foldl (fun inDegree course => map_set (id course) (Deg 0) inDegree) m courses in
    proper m' /\ NoDup (map fst m') /\ (forall v, deg_of m' v = 0)
    /\ (forall c, c ∈ courses -> counted m' (id c))
    /\ (forall v, counted m v -> counted m' v).
Proof.
  induction courses as [| c courses IH]; intros m Hm Hnd Hzero; simpl.
  - split_and!; try done. by intros c ?%elem_of_nil.
  - destruct (IH (map_set (id c) (Deg 0) m)) as (Hm' & Hnd' & Hzero' & Hin & Hkeep).
    + by apply proper_set.
    + by apply map_set_NoDup.
    + intros v. destruct (decide (id c = v)) as [<- | Hne].
      * by rewrite deg_of_set_eq.
      * by rewrite deg_of_set_ne.
    + split_and!; try done.
      * intros c' [-> | Hc']%elem_of_cons; [| by apply Hin].
        apply Hkeep. eexists. apply map_get_set_eq.
      * intros v Hv. by apply Hkeep, counted_set.
Qed.

(** The map with which Kahn's loop starts holds, for every identifier that
    occurs, the number of prerequisite edges into it. *)
Lemma kahn_init_inDegree courses :
  let m := inDegree (kahn_init courses) in
  proper m
  /\ NoDup (map fst m)
  /\ (forall v, deg_of m v = occurrences v (flat_map prereqs courses))
  /\ (forall v, v ∈ flat_map prereqs courses -> counted m v).
Proof.
  simpl. rewrite count_inDegree_flat.
  destruct (init_inDegree_spec courses []) as (Hm & Hnd & Hzero & _ & _).
  { by intros k x. } { constructor. } { done. }
  destruct (count_prereqs_spec (flat_map prereqs courses) _ Hm)
    as (Hm' & Hin & _ & Hdeg & Hnd').
  split_and!; try done.
  - by apply Hnd'.
  - intros v. rewrite Hdeg. unfold init_inDegree. rewrite Hzero. lia.
Qed.

Lemma visit_neighbor_counted m q n d :
  map_get n m = Some (Deg d) ->
  visit_neighbor (m, q) n
  = (map_set n (Deg (d - 1)) m, if is_zero (Deg (d - 1)) then q ++ [n] else q).
Proof.
  intros Hn. unfold visit_neighbor. rewrite Hn, map_get_set_eq.
  by destruct (is_zero (Deg (d - 1))).
Qed.

(** The inner [forEach] of Kahn's loop, over the prerequisites [ns] of the
    course that was dequeued. *)
Lemma visit_neighbors_spec ns :
  forall m q,
    proper m ->
    (forall p, p ∈ ns -> counted m p) ->
    exists m' pushed,
      foldl visit_neighbor (m, q) ns = (m', q ++ pushed)
      /\ proper m'
      /\ map fst m' = map fst m
      /\ (forall v, counted m v -> counted m' v)
      /\ (forall v, deg_of m' v = deg_of m v - occurrences v ns)
      /\ NoDup pushed
      /\ (forall v, v ∈ pushed -> v ∈ ns /\ 1 <= deg_of m v /\ deg_of m' v <= 0).
Proof.
  induction ns as [| n ns IH]; intros m q Hm Hns.
  - exists m, []. simpl. rewrite app_nil_r. split_and!; try done.
    + intros v. unfold occurrences. simpl. lia.
    + constructor.
    + by intros v ?%elem_of_nil.
  - destruct (Hns n ltac:(left)) as [d Hn].
    change (foldl visit_neighbor (m, q) (n :: ns))
      with (foldl visit_neighbor (visit_neighbor (m, q) n) ns).
    rewrite (visit_neighbor_counted m q n d Hn).
    set (m1 := map_set n (Deg (d - 1)) m).
    assert (Hm1 : proper m1) by by apply proper_set.
    assert (Hkeys1 : map fst m1 = map fst m)
      by (apply map_set_keys_present; by eapply map_get_Some_key).
    assert (Hdeg1 : forall v, deg_of m1 v = deg_of m v - (if decide (n = v) then 1 else 0)).
    { intros v. subst m1. destruct (decide (n = v)) as [<- | Hne].
      - rewrite deg_of_set_eq. unfold deg_of. rewrite Hn. lia.
      - rewrite deg_of_set_ne by done. lia. }
    assert (Hns1 : forall p, p ∈ ns -> counted m1 p).
    { intros p Hp. apply counted_set, Hns. by right. }
    destruct (IH m1 (if is_zero (Deg (d - 1)) then q ++ [n] else q) Hm1 Hns1)
      as (m' & pushed & Heq & Hm' & Hkeys & Hkeep & Hdeg & Hnd & Hpushed).
    assert (Hstep : forall v, deg_of m' v = deg_of m v - occurrences v (n :: ns)).
    { intros v. rewrite Hdeg, Hdeg1, occurrences_cons. lia. }
    destruct (is_zero (Deg (d - 1))) eqn:Hzero.
    + exists m', (n :: pushed). rewrite Heq.
      assert (Hd : d = 1).
      { simpl in Hzero. destruct (d - 1) eqn:Hd1; try done. lia. }
      assert (Hn1 : deg_of m1 n = 0).
      { rewrite Hdeg1, decide_True by done. unfold deg_of. rewrite Hn. lia. }
      split_and!; try done.
      * f_equal. reassoc.
      * by rewrite Hkeys.
      * intros v Hv. by apply Hkeep, counted_set.
      * constructor; [| done]. intros Hin. destruct (Hpushed n Hin) as (_ & Hge & _). lia.
      * intros v [-> | Hv]%elem_of_cons.
        -- split_and!; [left | |].
           ++ unfold deg_of. rewrite Hn. lia.
           ++ rewrite Hdeg, Hn1. pose proof (occurrences_nonneg n ns). lia.
        -- destruct (Hpushed v Hv) as (Hin & Hge & Hle). split_and!; [by right | | done].
           rewrite Hdeg1 in Hge. destruct (decide (n = v)); lia.
    + exists m', pushed. rewrite Heq. split_and!; try done.
      * by rewrite Hkeys.
      * intros v Hv. by apply Hkeep, counted_set.
      * intros v Hv. destruct (Hpushed v Hv) as (Hin & Hge & Hle).
        split_and!; [by right | | done].
        rewrite Hdeg1 in Hge. destruct (decide (n = v)); lia.
Qed.

End InDegree.

Section KahnFacts.
Import SortingEngine Graph.
Local Open Scope Z_scope.

Lemma map_get_NoDup {V : Type} k (x : V) m :
  NoDup (map fst m) -> (k, x) ∈ m -> map_get k m = Some x.
Proof.
  induction m as [| [k' x'] m IH]; simpl; intros Hnd Hin.
  - by apply elem_of_nil in Hin.
  - apply NoDup_cons in Hnd as [Hk' Hnd].
    apply elem_of_cons in Hin as [[= -> ->] | Hin].
    + by rewrite String.eqb_refl.
    + destruct (String.eqb_spec k' k) as [-> | Hne]; [| by apply IH].
      destruct Hk'. apply list_elem_of_fmap. by exists (k, x).
Qed.

Lemma NoDup_keys_filter {V : Type} (P : string * V -> Prop) `{!forall e, Decision (P e)} m :
  NoDup (map fst m) -> NoDup (map fst (filter P m)).
Proof.
  induction m as [| e m IH]; simpl; intros Hnd; [constructor |].
  apply NoDup_cons in Hnd as [He Hnd]. rewrite filter_cons.
  destruct (decide (P e)); [| by apply IH].
  simpl. apply NoDup_cons. split; [| by apply IH].
  intros (e' & Heq & [_ Hin]%list_elem_of_filter)%list_elem_of_fmap.
  apply He, list_elem_of_fmap. by exists e'.
Qed.

Lemma build_graph_lookup courses u ps :
  build_graph courses !! u = Some ps ->
  exists c, c ∈ courses /\ id c = u /\ prereqs c = ps.
Proof.
  unfold build_graph.
  assert (Hgen : forall (g : gmap string (list string)),
             (forall u ps, g !! u = Some ps ->
                           exists c, c ∈ courses /\ id c = u /\ prereqs c = ps) ->
             forall cs, (forall c, c ∈ cs -> c ∈ courses) ->
             forall u ps,
               foldl (fun graph course => <[id course := prereqs course]> graph) g cs !! u
               = Some ps ->
               exists c, c ∈ courses /\ id c = u /\ prereqs c = ps).
  { intros g Hg cs. revert g Hg.
    induction cs as [| c cs IH]; intros g Hg Hcs u' ps'; simpl; [apply Hg |].
    apply IH.
    - intros u'' ps''. destruct (decide (id c = u'')) as [<- | Hne].
      + rewrite lookup_insert_eq. intros [= <-]. exists c. split_and!; try done.
        apply Hcs. left.
      + rewrite lookup_insert_ne by done. apply Hg.
    - intros c' Hc'. apply Hcs. by right. }
  apply (Hgen ∅); [| done]. intros u' ps'. by rewrite lookup_empty.
Qed.

Lemma occurrences_app v ps qs :
  occurrences v (ps ++ qs) = occurrences v ps + occurrences v qs.
Proof. unfold occurrences. rewrite filter_app, length_app. lia. Qed.

Lemma pending_nil courses v :
  pending courses [] v = occurrences v (flat_map prereqs courses).
Proof.
  induction courses as [| c courses IH]; simpl; [done |].
  rewrite occurrences_app, <- IH. unfold pending. simpl.
  destruct (decide (id c ∈ [])) as [Hin | _]; [by apply elem_of_nil in Hin | done].
Qed.

Lemma pending_nonneg courses visited v : 0 <= pending courses visited v.
Proof.
  induction courses as [| c courses IH]; simpl; [done |].
  pose proof (occurrences_nonneg v (prereqs c)).
  destruct (decide (id c ∈ visited)); unfold pending in *; lia.
Qed.

Lemma pending_mono courses visited u v :
  pending courses (visited ++ [u]) v <= pending courses visited v.
Proof.
  induction courses as [| c courses IH]; simpl; [done |].
  pose proof (occurrences_nonneg v (prereqs c)).
  destruct (decide (id c ∈ visited ++ [u])) as [Hin | Hin],
    (decide (id c ∈ visited)) as [Hin' | Hin']; unfold pending in *; try lia.
  destruct Hin. apply elem_of_app. by left.
Qed.

(** Dequeuing a course takes its prerequisite edges out of [pending]. *)
Lemma pending_visit courses visited c v :
  c ∈ courses -> id c ∉ visited ->
  pending courses (visited ++ [id c]) v + occurrences v (prereqs c)
  <= pending courses visited v.
Proof.
  intros Hc Hnew. induction Hc as [c courses | c c' courses Hc IH]; simpl.
  - pose proof (pending_mono courses visited (id c) v).
    rewrite decide_True by (apply elem_of_app; right; left).
    rewrite decide_False by done. unfold pending in *. lia.
  - pose proof (occurrences_nonneg v (prereqs c')). specialize (IH Hnew).
    destruct (decide (id c' ∈ visited ++ [id c])) as [Hin | Hin],
      (decide (id c' ∈ visited)) as [Hin' | Hin']; unfold pending in *; try lia.
    destruct Hin. apply elem_of_app. by left.
Qed.

Lemma depends_course courses w v :
  depends courses w v <-> exists c, c ∈ courses /\ id c = w /\ v ∈ prereqs c.
Proof.
  unfold depends, edges. rewrite list_elem_of_In, in_flat_map. split.
  - intros (c & Hc & He). apply list_elem_of_In, list_elem_of_fmap in He as (p & [= -> ->] & Hp).
    exists c. by rewrite list_elem_of_In.
  - intros (c & Hc & <- & Hv). exists c. rewrite <- !list_elem_of_In. split; [done |].
    apply list_elem_of_fmap. by exists v.
Qed.

Lemma depends_prereq courses w v :
  depends courses w v -> v ∈ flat_map prereqs courses.
Proof.
  intros (c & Hc & _ & Hv)%depends_course.
  apply list_elem_of_In, in_flat_map. exists c. by rewrite <- !list_elem_of_In.
Qed.

(** An edge whose source was not dequeued is still pending. *)
Lemma pending_edge courses visited w v :
  depends courses w v -> w ∉ visited -> 1 <= pending courses visited v.
Proof.
  intros (c & Hc & <- & Hv)%depends_course Hnew.
  induction Hc as [c courses | c c' courses Hc IH]; simpl.
  - rewrite decide_False by done.
    pose proof (occurrences_elem v _ Hv). pose proof (pending_nonneg courses visited v).
    unfold pending in *. lia.
  - pose proof (occurrences_nonneg v (prereqs c')). specialize (IH Hv Hnew).
    destruct (decide (id c' ∈ visited)); unfold pending in *; lia.
Qed.

(** A node on a cycle has a predecessor on a cycle. *)
Lemma on_cycle_pred courses v :
  on_cycle courses v -> exists w, depends courses w v /\ on_cycle courses w.
Proof.
  unfold on_cycle. intros Hcycle.
  assert (Hlast : forall x z, tc (depends courses) x z ->
                              exists w, rtc (depends courses) x w /\ depends courses w z).
  { induction 1 as [x z Hxz | x y z Hxy _ (w & Hyw & Hwz)].
    - exists x. split; [apply rtc_refl | done].
    - exists w. split; [by eapply rtc_l | done]. }
  destruct (Hlast v v Hcycle) as (w & Hvw & Hwv).
  exists w. split; [done |]. eapply tc_rtc_r; [by apply tc_once | done].
Qed.

End KahnFacts.

Section KahnLoop.
Import SortingEngine Graph.
Local Open Scope Z_scope.

Variable courses : list Course.

(** The loop starts in a state that has the invariant. *)
Lemma kahn_init_inv : kahn_inv courses [] (kahn_init courses).
Proof.
  destruct (kahn_init_inDegree courses) as (Hm & Hnd & Hdeg & Hcounted).
  assert (Hqueue : forall v,
             v ∈ queue (kahn_init courses) ->
             v ∈ map fst (inDegree (kahn_init courses))
             /\ deg_of (inDegree (kahn_init courses)) v <= 0).
  { intros v (e & -> & [Hzero He]%list_elem_of_filter)%list_elem_of_fmap.
    split; [apply list_elem_of_fmap; by exists e |].
    destruct e as [k x]. pose proof (map_get_NoDup k x _ Hnd He) as Hget.
    unfold deg_of. simpl fst. rewrite Hget.
    simpl in Hzero. destruct x as [[| |] |]; simpl in *; done. }
  split.
  - done.
  - done.
  - done.
  - simpl app. by apply NoDup_keys_filter.
  - done.
  - intros v. rewrite pending_nil, Hdeg. lia.
  - intros v (w & Hwv & _)%on_cycle_pred Hv. simpl app in Hv.
    destruct (Hqueue v Hv) as [_ Hle]. rewrite Hdeg in Hle.
    pose proof (occurrences_elem v _ (depends_prereq _ _ _ Hwv)). lia.
  - simpl. by intros c ?%elem_of_nil.
Qed.

(** One round of the loop keeps the invariant. *)
Lemma kahn_round_inv visited st u rest :
  kahn_inv courses visited st ->
  queue st = u :: rest ->
  exists m' q',
    foldl visit_neighbor (inDegree st, rest) (default [] (build_graph courses !! u))
    = (m', q')
    /\ kahn_inv courses (visited ++ [u])
         {| inDegree := m';
            queue := q';
            result := result st
                      ++ [find (fun c => String.eqb (id c) u) courses] |}.
Proof.
  intros [Hm Hkeys Hcounted Honce Hspent Hpending Hcycle Hresult] Hqueue.
  rewrite Hqueue in *.
  set (ns := default [] (build_graph courses !! u)).
  assert (Hns : forall p, p ∈ ns -> counted (inDegree st) p).
  { intros p Hp. apply Hcounted. subst ns.
    destruct (build_graph courses !! u) as [ps |] eqn:Hu; [| by apply elem_of_nil in Hp].
    apply build_graph_lookup in Hu as (c & Hc & _ & <-).
    apply list_elem_of_In, in_flat_map. exists c. by rewrite <- !list_elem_of_In. }
  assert (Hu : u ∉ visited).
  { apply NoDup_app in Honce as (_ & Hdisj & _). intros Hin. apply (Hdisj u Hin). left. }
  assert (Hdrop : forall v,
             pending courses (visited ++ [u]) v + occurrences v ns
             <= pending courses visited v).
  { intros v. subst ns.
    destruct (build_graph courses !! u) as [ps |] eqn:Hlook; simpl.
    - apply build_graph_lookup in Hlook as (c & Hc & <- & <-). by apply pending_visit.
    - pose proof (pending_mono courses visited u v). unfold occurrences. simpl. lia. }
  destruct (visit_neighbors_spec ns (inDegree st) rest Hm Hns)
    as (m' & pushed & Heq & Hm' & Hkeys' & Hkeep & Hdeg & Hnd & Hpushed).
  exists m', (rest ++ pushed). split; [done |].
  assert (Hshape : (visited ++ [u]) ++ rest ++ pushed = (visited ++ u :: rest) ++ pushed)
    by reassoc.
  assert (Hle : forall v, deg_of m' v <= deg_of (inDegree st) v).
  { intros v. rewrite Hdeg. pose proof (occurrences_nonneg v ns). lia. }
  assert (Hpending' : forall v, pending courses (visited ++ [u]) v <= deg_of m' v).
  { intros v. rewrite Hdeg. specialize (Hdrop v). specialize (Hpending v). lia. }
  split; simpl.
  - done.
  - by rewrite Hkeys'.
  - intros p Hp. by apply Hkeep, Hcounted.
  - rewrite Hshape. apply NoDup_app. split_and!; [done | | done].
    intros v Hv Hv'. destruct (Hspent v Hv) as [_ Hv0].
    destruct (Hpushed v Hv') as (_ & Hv1 & _). lia.
  - intros v. rewrite Hshape, Hkeys'. intros [Hv | Hv]%elem_of_app.
    + destruct (Hspent v Hv) as [Hkey Hv0]. split; [done |]. specialize (Hle v). lia.
    + destruct (Hpushed v Hv) as (Hin & _ & Hv0). split; [| done].
      by apply counted_key, Hns.
  - done.
  - intros v Hv. rewrite Hshape. intros [Hin | Hin]%elem_of_app.
    + by apply (Hcycle v).
    + destruct (Hpushed v Hin) as (_ & _ & Hv0).
      destruct (on_cycle_pred _ _ Hv) as (w & Hwv & Hw).
      assert (Hnew : w ∉ visited ++ [u]).
      { intros Hin'. apply (Hcycle w Hw).
        apply elem_of_app in Hin' as [Hin' | Hin'%list_elem_of_singleton].
        - apply elem_of_app. by left.
        - subst w. apply elem_of_app. right. left. }
      pose proof (pending_edge _ _ _ _ Hwv Hnew). specialize (Hpending' v). lia.
  - intros c [Hc | Hc%list_elem_of_singleton]%elem_of_app.
    + apply elem_of_app. left. by apply Hresult.
    + symmetry in Hc. apply find_some in Hc as [_ Heq'%String.eqb_eq].
      rewrite Heq'. apply elem_of_app. right. left.
Qed.

Lemma kahn_round rounds st u rest m' q' :
  queue st = u :: rest ->
  foldl visit_neighbor (inDegree st, rest) (default [] (build_graph courses !! u))
  = (m', q') ->
  kahn courses (build_graph courses) (S rounds) st
  = kahn courses (build_graph courses) rounds
      {| inDegree := m';
         queue := q';
         result := result st ++ [find (fun c => String.eqb (id c) u) courses] |}.
Proof. intros Hqueue Heq. simpl. by rewrite Hqueue, Heq. Qed.

Lemma kahn_idle rounds st :
  queue st = [] -> kahn courses (build_graph courses) rounds st = st.
Proof. intros Hqueue. destruct rounds; simpl; [done |]. by rewrite Hqueue. Qed.

(** No identifier is enqueued twice, so the queue is empty after as many
    rounds as the in-degree map has keys. *)
Lemma kahn_inv_full visited st :
  kahn_inv courses visited st ->
  (length (inDegree (kahn_init courses)) <= length visited)%nat ->
  queue st = [].
Proof.
  intros [_ Hkeys _ Honce Hspent _ _ _] Hfull.
  assert (Hsub : visited ++ queue st ⊆+ map fst (inDegree st)).
  { apply NoDup_submseteq; [done |]. intros v Hv. by apply Hspent. }
  apply submseteq_length in Hsub.
  rewrite Hkeys, length_app, length_map in Hsub.
  destruct (queue st) as [| u rest]; [done |].
  rewrite length_cons in Hsub. lia.
Qed.

Lemma kahn_runs rounds :
  forall visited st,
    kahn_inv courses visited st ->
    (length (inDegree (kahn_init courses)) <= length visited + rounds)%nat ->
    queue (kahn courses (build_graph courses) rounds st) = []
    /\ exists visited', kahn_inv courses visited'
                          (kahn courses (build_graph courses) rounds st).
Proof.
  induction rounds as [| rounds IH]; intros visited st Hinv Hfull.
  - rewrite Nat.add_0_r in Hfull. change (kahn courses (build_graph courses) 0 st) with st.
    split; [| by exists visited].
    by apply (kahn_inv_full visited).
  - destruct (queue st) as [| u rest] eqn:Hqueue.
    + rewrite kahn_idle by done. split; [done | by exists visited].
    + destruct (kahn_round_inv visited st u rest Hinv Hqueue) as (m' & q' & Heq & Hinv').
      rewrite (kahn_round rounds st u rest m' q' Hqueue Heq).
      apply (IH (visited ++ [u])); [done |].
      rewrite length_app. change (length [u]) with 1%nat. lia.
Qed.

End KahnLoop.

Section TopologicalSort.
Import SortingEngine Graph.

Definition course_a : Course :=
  {| id := "A"; name := "Algebra"; prerequisites := Some ["B"%string] |}.
Definition course_b : Course :=
  {| id := "B"; name := "Basics"; prerequisites := Some ["A"%string] |}.

(** C1, as claimed: a collection of courses whose prerequisite edges form a
    cycle makes [topologicalSort] fail with a signalled error. It does not:
    for two courses that require each other it returns the empty list. *)
Lemma topologicalSort_cycle_returns :
  on_cycle [course_a; course_b] "A"
  /\ topologicalSort [course_a; course_b] = Returns []
  /\ forall e, topologicalSort [course_a; course_b] <> Throws e.
Proof.
  split_and!.
  - apply tc_l with "B"%string; [| apply tc_once];
      unfold depends; apply (bool_decide_unpack _); vm_compute; exact I.
  - reflexivity.
  - intros e. discriminate.
Qed.

(** C1, as the code has it: [topologicalSort] signals nothing. Its loop ends
    with an empty queue within the rounds it is given, and the list it
    returns holds no course that lies on a cycle of prerequisite edges. *)
Theorem topologicalSort_omits_cycles (courses : list Course) (c : Course) :
  on_cycle courses (id c) ->
  exists sorted,
    topologicalSort courses = Returns sorted
    /\ queue (kahn courses (build_graph courses)
                (length (inDegree (kahn_init courses))) (kahn_init courses)) = []
    /\ Some c ∉ sorted.
Proof.
  intros Hcycle. eexists. split; [reflexivity |].
  destruct (kahn_runs courses (length (inDegree (kahn_init courses))) []
              (kahn_init courses) (kahn_init_inv courses) (Nat.le_refl _))
    as [Hqueue [visited Hinv]].
  split; [done |].
  intros Hc. apply (inv_result _ _ _ Hinv) in Hc.
  apply (inv_cycle _ _ _ Hinv (id c) Hcycle). apply elem_of_app. by left.
Qed.

Lemma topologicalSort_omits_cycles_witness :
  on_cycle [course_a; course_b] (id course_a)
  /\ exists sorted,
       topologicalSort [course_a; course_b] = Returns sorted
       /\ queue (kahn [course_a; course_b] (build_graph [course_a; course_b])
                   (length (inDegree (kahn_init [course_a; course_b])))
                   (kahn_init [course_a; course_b])) = []
       /\ Some course_a ∉ sorted.
Proof.
  assert (Hcycle : on_cycle [course_a; course_b] (id course_a)).
  { apply tc_l with "B"%string; [| apply tc_once];
      unfold depends; apply (bool_decide_unpack _); vm_compute; exact I. }
  split; [exact Hcycle |].
  exact (topologicalSort_omits_cycles [course_a; course_b] course_a Hcycle).
Defined.

End TopologicalSort.

(** ** Fuzzy search *)

Section EditDistanceFacts.
Import SearchEngine EditDistance.
Local Open Scope Z_scope.

Lemma lev_nil_r s : lev s [] = Z.of_nat (length s).
Proof. by destruct s. Qed.

Lemma lev_cons a b s t :
  lev (a :: s) (b :: t)
  = Z.min (Z.min (lev s (b :: t) + 1) (lev (a :: s) t + 1))
      (lev s t + (if decide (a = b) then 0 else 1)).
Proof. reflexivity. Qed.

Lemma aligned_nonneg s t n : aligned s t n -> 0 <= n.
Proof. induction 1; lia. Qed.

Lemma aligned_deletes s : aligned s [] (Z.of_nat (length s)).
Proof.
  induction s as [| a s IH]; [constructor |].
  replace (Z.of_nat (length (a :: s))) with (Z.of_nat (length s) + 1) by (simpl; lia).
  by constructor.
Qed.

Lemma aligned_inserts t : aligned [] t (Z.of_nat (length t)).
Proof.
  induction t as [| b t IH]; [constructor |].
  replace (Z.of_nat (length (b :: t))) with (Z.of_nat (length t) + 1) by (simpl; lia).
  by constructor.
Qed.

(** The recurrence is reached by some sequence of edits ... *)
Lemma lev_aligned s : forall t, aligned s t (lev s t).
Proof.
  induction s as [| a s IHs]; intros t; [apply aligned_inserts |].
  induction t as [| b t IHt]; [rewrite lev_nil_r; apply aligned_deletes |].
  rewrite lev_cons.
  destruct (Z.min_spec (Z.min (lev s (b :: t) + 1) (lev (a :: s) t + 1))
              (lev s t + (if decide (a = b) then 0 else 1))) as [[_ ->] | [_ ->]].
  - destruct (Z.min_spec (lev s (b :: t) + 1) (lev (a :: s) t + 1)) as [[_ ->] | [_ ->]].
    + apply aligned_delete, IHs.
    + by apply aligned_insert.
  - destruct (decide (a = b)) as [<- | _].
    + rewrite Z.add_0_r. apply aligned_keep, IHs.
    + apply aligned_substitute, IHs.
Qed.

(** ... and no sequence of edits is shorter. *)
Lemma lev_least s t n : aligned s t n -> lev s t <= n.
Proof.
  induction 1 as [| a s t n _ IH | b s t n _ IH | a s t n _ IH | a b s t n _ IH].
  - done.
  - destruct t as [| b t]; [rewrite !lev_nil_r in *; simpl length; lia |].
    rewrite lev_cons. lia.
  - destruct s as [| a s]; [simpl in *; lia |].
    rewrite lev_cons. lia.
  - rewrite lev_cons, decide_True by done. lia.
  - rewrite lev_cons. destruct (decide (a = b)); lia.
Qed.

Lemma lev_is_edit_distance s t : is_edit_distance s t (lev s t).
Proof. split; [apply lev_aligned | apply lev_least]. Qed.

Lemma is_edit_distance_unique s t d d' :
  is_edit_distance s t d -> is_edit_distance s t d' -> d = d'.
Proof. intros [Hd Hleast] [Hd' Hleast']. apply Z.le_antisymm; auto. Qed.

Ltac aligned_step :=
  simpl;
  first [ by apply aligned_delete | by apply aligned_insert
        | by apply aligned_keep | by apply aligned_substitute ].

Lemma aligned_snoc_delete a s t n : aligned s t n -> aligned (s ++ [a]) t (n + 1).
Proof.
  induction 1; [| aligned_step ..].
  apply (aligned_delete a [] [] 0). constructor.
Qed.

Lemma aligned_snoc_insert b s t n : aligned s t n -> aligned s (t ++ [b]) (n + 1).
Proof.
  induction 1; [| aligned_step ..].
  apply (aligned_insert b [] [] 0). constructor.
Qed.

Lemma aligned_snoc_keep a s t n : aligned s t n -> aligned (s ++ [a]) (t ++ [a]) n.
Proof.
  induction 1; [| aligned_step ..].
  apply (aligned_keep a [] [] 0). constructor.
Qed.

Lemma aligned_snoc_substitute a b s t n :
  aligned s t n -> aligned (s ++ [a]) (t ++ [b]) (n + 1).
Proof.
  induction 1; [| aligned_step ..].
  apply (aligned_substitute a b [] [] 0). constructor.
Qed.

(** Edits can be read from either end. *)
Lemma aligned_reverse s t n : aligned s t n -> aligned (reverse s) (reverse t) n.
Proof.
  induction 1; rewrite ?reverse_cons.
  - constructor.
  - by apply aligned_snoc_delete.
  - by apply aligned_snoc_insert.
  - by apply aligned_snoc_keep.
  - by apply aligned_snoc_substitute.
Qed.

Lemma lev_reverse s t : lev (reverse s) (reverse t) = lev s t.
Proof.
  apply Z.le_antisymm.
  - apply lev_least, aligned_reverse, lev_aligned.
  - pose proof (aligned_reverse _ _ _ (lev_aligned (reverse s) (reverse t))) as Hback.
    rewrite !reverse_involutive in Hback. by apply lev_least.
Qed.

Lemma lev_nonneg s t : 0 <= lev s t.
Proof. eapply aligned_nonneg, lev_aligned. Qed.

Lemma aligned_same s : aligned s s 0.
Proof. induction s; [constructor | by apply aligned_keep]. Qed.

Lemma lev_same s : lev s s = 0.
Proof.
  apply Z.le_antisymm; [apply lev_least, aligned_same | apply lev_nonneg].
Qed.

Lemma aligned_zero s t n : aligned s t n -> n = 0 -> s = t.
Proof.
  induction 1 as [| a s t n H IH | b s t n H IH | a s t n H IH | a b s t n H IH];
    intros Hn; try (apply aligned_nonneg in H; lia).
  - done.
  - f_equal. by apply IH.
Qed.

Lemma lev_zero s t : lev s t = 0 -> s = t.
Proof. intros Hzero. by eapply aligned_zero; [apply lev_aligned |]. Qed.

End EditDistanceFacts.

Lemma for_up_inv {S : Type} (P : Z -> S -> Prop) (n : nat) :
  forall (i : Z) (body : Z -> S -> S) (s : S),
    P i s ->
    (forall k s, (i <= k < i + Z.of_nat n)%Z -> P k s -> P (k + 1)%Z (body k s)) ->
    P (i + Z.of_nat n)%Z (for_up n i body s).
Proof.
  induction n as [| n IH]; intros i body s Hstart Hstep.
  - simpl. by rewrite Z.add_0_r.
  - rewrite for_up_S.
    replace (i + Z.of_nat (Datatypes.S n))%Z with (i + 1 + Z.of_nat n)%Z by lia.
    apply IH.
    + apply Hstep; [lia | done].
    + intros k s' Hk. apply Hstep. lia.
Qed.

Section ArrayCells.
Context {T : Type}.
Variable undefined : T.
Local Open Scope Z_scope.

Lemma get_lookup (arr : list T) i :
  0 <= i -> Js.get undefined arr i = default undefined (arr !! Z.to_nat i).
Proof.
  intros Hi. unfold Js.get. destruct (Z.leb_spec 0 i); [| lia]. apply nth_lookup.
Qed.

Lemma get_set_eq (arr : list T) i v :
  0 <= i < Z.of_nat (length arr) ->
  Js.get undefined (Js.set undefined arr i v) i = v.
Proof.
  intros Hi. destruct (split_at arr i Hi) as (l1 & x & l2 & -> & Hl).
  rewrite (set_middle _ _ _ _ _ _ (eq_sym Hl)). by apply get_middle.
Qed.

Lemma get_set_ne (arr : list T) i i' v :
  0 <= i < Z.of_nat (length arr) -> i <> i' ->
  Js.get undefined (Js.set undefined arr i v) i' = Js.get undefined arr i'.
Proof.
  intros Hi Hne. unfold Js.get. destruct (Z.leb_spec 0 i'); [| done].
  unfold Js.set. destruct (Z.ltb_spec i 0); [lia |].
  destruct (Z.ltb_spec i (Z.of_nat (length arr))); [| lia].
  rewrite !nth_lookup, list_lookup_insert_ne; [done | lia].
Qed.

End ArrayCells.

Section Matrix.
Import SearchEngine.
Local Open Scope Z_scope.

(** A matrix of [rows] rows of [cols] cells each. *)
Definition dims (matrix : list (list Z)) (rows cols : nat) : Prop :=
  length matrix = rows /\ Forall (fun row => length row = cols) matrix.

Lemma dims_replicate rows cols : dims (replicate rows (replicate cols 0)) rows cols.
Proof.
  split; [apply length_replicate |].
  apply Forall_replicate, length_replicate.
Qed.

Lemma dims_row matrix rows cols j :
  dims matrix rows cols -> 0 <= j < Z.of_nat rows ->
  length (Js.get [] matrix j) = cols.
Proof.
  intros [Hrows Hcols] Hj. rewrite get_lookup by lia.
  destruct (lookup_lt_is_Some_2 matrix (Z.to_nat j)) as [row Hrow]; [lia |].
  rewrite Hrow. simpl. by eapply Forall_lookup_1 in Hcols.
Qed.

Lemma dims_cell_set matrix rows cols j i v :
  dims matrix rows cols -> 0 <= j < Z.of_nat rows -> 0 <= i < Z.of_nat cols ->
  dims (cell_set matrix j i v) rows cols.
Proof.
  intros Hdims Hj Hi. pose proof (dims_row _ _ _ _ Hdims Hj) as Hrow.
  destruct Hdims as [Hrows Hcols]. unfold cell_set, Js.set at 1.
  destruct (Z.ltb_spec j 0); [lia |].
  destruct (Z.ltb_spec j (Z.of_nat (length matrix))); [| lia].
  split; [by rewrite length_insert |].
  apply Forall_insert; [done |]. rewrite length_set; [done | lia].
Qed.

Lemma cell_get_set_eq matrix rows cols j i v :
  dims matrix rows cols -> 0 <= j < Z.of_nat rows -> 0 <= i < Z.of_nat cols ->
  cell_get (cell_set matrix j i v) j i = v.
Proof.
  intros Hdims Hj Hi. pose proof (dims_row _ _ _ _ Hdims Hj) as Hrow.
  destruct Hdims as [Hrows Hcols]. unfold cell_get, cell_set.
  rewrite get_set_eq by lia. apply get_set_eq. lia.
Qed.

Lemma cell_get_set_ne matrix rows cols j i j' i' v :
  dims matrix rows cols -> 0 <= j < Z.of_nat rows -> 0 <= i < Z.of_nat cols ->
  j <> j' \/ i <> i' ->
  cell_get (cell_set matrix j i v) j' i' = cell_get matrix j' i'.
Proof.
  intros Hdims Hj Hi Hne. pose proof (dims_row _ _ _ _ Hdims Hj) as Hrow.
  destruct Hdims as [Hrows Hcols]. unfold cell_get, cell_set.
  destruct (decide (j = j')) as [<- | Hj'].
  - rewrite get_set_eq by lia. apply get_set_ne; [lia |]. by destruct Hne.
  - by rewrite get_set_ne by (done || lia).
Qed.

End Matrix.

Section LevenshteinRefinement.
Import SearchEngine EditDistance.
Local Open Scope Z_scope.

Lemma get_chars s : forall n, String.get n s = chars s !! n.
Proof.
  induction s as [| c s IH]; intros n; [by destruct n |].
  destruct n as [| n]; [done |]. simpl. apply IH.
Qed.

Lemma length_chars s : length (chars s) = String.length s.
Proof. induction s as [| c s IH]; simpl; [done | by rewrite IH]. Qed.

Lemma char_at_chars s i : 0 <= i -> char_at s i = chars s !! Z.to_nat i.
Proof.
  intros Hi. unfold char_at. destruct (Z.ltb_spec i 0); [lia |]. apply get_chars.
Qed.

Variables str1 str2 : string.

Let len1 : nat := String.length str1.
Let len2 : nat := String.length str2.

(** The distance between the first [i] characters of [str1] and the first
    [j] of [str2]. *)
Definition prefix_distance (i j : Z) : Z :=
  lev (reverse (take (Z.to_nat i) (chars str1))) (reverse (take (Z.to_nat j) (chars str2))).

Lemma prefix_distance_row i : 0 <= i <= Z.of_nat len1 -> prefix_distance i 0 = i.
Proof.
  intros Hi. unfold prefix_distance. simpl. rewrite lev_nil_r, length_reverse, length_take.
  rewrite length_chars. fold len1. lia.
Qed.

Lemma prefix_distance_column j : 0 <= j <= Z.of_nat len2 -> prefix_distance 0 j = j.
Proof.
  intros Hj. unfold prefix_distance. simpl. rewrite length_reverse, length_take.
  rewrite length_chars. fold len2. lia.
Qed.

Lemma prefix_distance_step i j :
  1 <= i <= Z.of_nat len1 -> 1 <= j <= Z.of_nat len2 ->
  prefix_distance i j
  = Z.min (Z.min (prefix_distance (i - 1) j + 1) (prefix_distance i (j - 1) + 1))
      (prefix_distance (i - 1) (j - 1)
       + (if bool_decide (char_at str1 (i - 1) = char_at str2 (j - 1)) then 0 else 1)).
Proof.
  intros Hi Hj. unfold prefix_distance.
  destruct (lookup_lt_is_Some_2 (chars str1) (Z.to_nat (i - 1))) as [a Ha];
    [rewrite length_chars; fold len1; lia |].
  destruct (lookup_lt_is_Some_2 (chars str2) (Z.to_nat (j - 1))) as [b Hb];
    [rewrite length_chars; fold len2; lia |].
  rewrite !char_at_chars by lia. rewrite Ha, Hb.
  replace (Z.to_nat i) with (S (Z.to_nat (i - 1))) by lia.
  replace (Z.to_nat j) with (S (Z.to_nat (j - 1))) by lia.
  rewrite (take_S_r _ _ _ Ha), (take_S_r _ _ _ Hb), !reverse_snoc, lev_cons.
  destruct (decide (a = b)) as [-> | Hne].
  - by rewrite bool_decide_true.
  - rewrite bool_decide_false; [done | congruence].
Qed.

(** The cells the loops have written hold the distances of the prefixes:
    row [0], column [0], the rows above [J], and row [J] left of column
    [I]. *)
Definition known (matrix : list (list Z)) (J I : Z) : Prop :=
  dims matrix (len2 + 1) (len1 + 1)
  /\ forall j i,
       0 <= j <= Z.of_nat len2 -> 0 <= i <= Z.of_nat len1 ->
       j = 0 \/ i = 0 \/ j < J \/ (j = J /\ i < I) ->
       cell_get matrix j i = prefix_distance i j.

Lemma first_row_spec :
  let matrix :=
    for_up (len1 + 1) 0 (fun i matrix => cell_set matrix 0 i i)
      (replicate (len2 + 1) (replicate (len1 + 1) 0)) in
  dims matrix (len2 + 1) (len1 + 1)
  /\ forall i, 0 <= i <= Z.of_nat len1 -> cell_get matrix 0 i = i.
Proof.
  intros matrix.
  assert (Hinv : dims matrix (len2 + 1) (len1 + 1)
                 /\ forall i, 0 <= i < 0 + Z.of_nat (len1 + 1) -> cell_get matrix 0 i = i).
  { subst matrix.
    apply (for_up_inv (fun k matrix =>
             dims matrix (len2 + 1) (len1 + 1)
             /\ forall i, 0 <= i < k -> cell_get matrix 0 i = i)).
    - split; [apply dims_replicate | lia].
    - intros k matrix Hk [Hdims Hrow]. split; [apply dims_cell_set; (done || lia) |].
      intros i Hi. destruct (decide (i = k)) as [-> | Hne].
      + eapply cell_get_set_eq; (done || lia).
      + erewrite cell_get_set_ne; [apply Hrow; lia | done | lia | lia | by right]. }
  destruct Hinv as [Hdims Hrow]. split; [done |]. intros i Hi. apply Hrow. lia.
Qed.

Lemma first_column_spec matrix :
  dims matrix (len2 + 1) (len1 + 1) ->
  (forall i, 0 <= i <= Z.of_nat len1 -> cell_get matrix 0 i = i) ->
  known (for_up (len2 + 1) 0 (fun j matrix => cell_set matrix j 0 j) matrix) 1 1.
Proof.
  intros Hdims Hrow.
  assert (Hinv :
    let matrix' := for_up (len2 + 1) 0 (fun j matrix => cell_set matrix j 0 j) matrix in
    dims matrix' (len2 + 1) (len1 + 1)
    /\ (forall i, 0 <= i <= Z.of_nat len1 -> cell_get matrix' 0 i = i)
    /\ forall j, 0 <= j < 0 + Z.of_nat (len2 + 1) -> cell_get matrix' j 0 = j).
  { apply (for_up_inv (fun k matrix =>
             dims matrix (len2 + 1) (len1 + 1)
             /\ (forall i, 0 <= i <= Z.of_nat len1 -> cell_get matrix 0 i = i)
             /\ forall j, 0 <= j < k -> cell_get matrix j 0 = j)).
    - split_and!; [done | done | lia].
    - intros k matrix' Hk (Hdims' & Hrow' & Hcol). split_and!.
      + apply dims_cell_set; (done || lia).
      + intros i Hi. destruct (decide (k = 0 /\ i = 0)) as [[-> ->] | Hne].
        * eapply cell_get_set_eq; (done || lia).
        * erewrite cell_get_set_ne; [by apply Hrow' | done | lia | lia | lia].
      + intros j Hj. destruct (decide (j = k)) as [-> | Hne].
        * eapply cell_get_set_eq; (done || lia).
        * erewrite cell_get_set_ne; [apply Hcol; lia | done | lia | lia | by left]. }
  destruct Hinv as (Hdims' & Hrow' & Hcol). split; [done |].
  intros j i Hj Hi Hcase.
  destruct (decide (j = 0)) as [-> | Hj0].
  - rewrite prefix_distance_row by done. by apply Hrow'.
  - assert (i = 0) as -> by lia.
    rewrite prefix_distance_column by done. apply Hcol. lia.
Qed.

Lemma cell_step matrix J I :
  1 <= J <= Z.of_nat len2 -> 1 <= I <= Z.of_nat len1 ->
  known matrix J I ->
  known
    (cell_set matrix J I
       (Z.min (Z.min (cell_get matrix J (I - 1) + 1) (cell_get matrix (J - 1) I + 1))
          (cell_get matrix (J - 1) (I - 1)
           + (if bool_decide (char_at str1 (I - 1) = char_at str2 (J - 1)) then 0 else 1))))
    J (I + 1).
Proof.
  intros HJ HI [Hdims Hknown]. split; [apply dims_cell_set; (done || lia) |].
  intros j i Hj Hi Hcase.
  destruct (decide (j = J /\ i = I)) as [[-> ->] | Hne].
  - erewrite cell_get_set_eq; [| done | lia | lia].
    rewrite !Hknown by lia. symmetry. by apply prefix_distance_step.
  - erewrite cell_get_set_ne; [apply Hknown; lia | done | lia | lia | lia].
Qed.

Lemma row_step matrix J :
  1 <= J <= Z.of_nat len2 ->
  known matrix J 1 ->
  known
    (for_up len1 1
       (fun i matrix =>
          let indicator :=
            if bool_decide (char_at str1 (i - 1) = char_at str2 (J - 1)) then 0 else 1 in
          cell_set matrix J i
            (Z.min (Z.min (cell_get matrix J (i - 1) + 1) (cell_get matrix (J - 1) i + 1))
               (cell_get matrix (J - 1) (i - 1) + indicator)))
       matrix)
    (J + 1) 1.
Proof.
  intros HJ Hknown.
  assert (Hrow : known
    (for_up len1 1
       (fun i matrix =>
          let indicator :=
            if bool_decide (char_at str1 (i - 1) = char_at str2 (J - 1)) then 0 else 1 in
          cell_set matrix J i
            (Z.min (Z.min (cell_get matrix J (i - 1) + 1) (cell_get matrix (J - 1) i + 1))
               (cell_get matrix (J - 1) (i - 1) + indicator)))
       matrix)
    J (1 + Z.of_nat len1)).
  { apply (for_up_inv (fun I matrix => known matrix J I)); [done |].
    intros I matrix' HI Hknown'. cbv zeta. apply cell_step; (done || lia). }
  destruct Hrow as [Hdims Hcells]. split; [done |].
  intros j i Hj Hi Hcase. apply Hcells; lia.
Qed.

(** [levenshteinDistance] computes the edit distance. *)
Lemma levenshteinDistance_spec : levenshteinDistance str1 str2 = edit_distance str1 str2.
Proof.
  unfold levenshteinDistance. fold len1 len2. cbv zeta.
  destruct first_row_spec as [Hdims Hrow].
  pose proof (first_column_spec _ Hdims Hrow) as Hknown.
  match goal with
  | |- cell_get (for_up len2 1 ?body ?m) _ _ = _ =>
      assert (Hall : known (for_up len2 1 body m) (1 + Z.of_nat len2) 1)
  end.
  { apply (for_up_inv (fun J matrix => known matrix J 1)); [done |].
    intros J matrix HJ Hknown'. apply row_step; [lia | done]. }
  destruct Hall as [_ Hcells]. rewrite Hcells by lia.
  unfold prefix_distance, edit_distance, len1, len2.
  rewrite !Nat2Z.id, <- !length_chars, !firstn_all. apply lev_reverse.
Qed.

End LevenshteinRefinement.

(** ** Binary64 numbers: order, differences, counts *)

Section Binary64Facts.
Import Binary64.
Local Open Scope Z_scope.

Lemma digits2_pos_bounds m :
  2 ^ (Zpos (digits2_pos m) - 1) <= Zpos m < 2 ^ Zpos (digits2_pos m).
Proof.
  induction m as [m IH | m IH |]; simpl digits2_pos.
  - rewrite Pos2Z.inj_succ, Z.pow_succ_r by lia.
    replace (Z.succ (Zpos (digits2_pos m)) - 1) with (Z.succ (Zpos (digits2_pos m) - 1)) by lia.
    rewrite Z.pow_succ_r by lia. lia.
  - rewrite Pos2Z.inj_succ, Z.pow_succ_r by lia.
    replace (Z.succ (Zpos (digits2_pos m)) - 1) with (Z.succ (Zpos (digits2_pos m) - 1)) by lia.
    rewrite Z.pow_succ_r by lia. lia.
  - simpl. lia.
Qed.

(** What validity says of a finite binary64 number. *)
Lemma valid_finite s m e :
  valid_binary (S754_finite s m e) = true ->
  Z.max (Zpos (digits2_pos m) + e - 53) (-1074) = e /\ e <= 971.
Proof.
  unfold SpecFloat.valid_binary, bounded, canonical_mantissa, fexp, emin, prec, emax.
  rewrite andb_true_iff, Z.eqb_eq, Z.leb_le. lia.
Qed.

Lemma valid_finite_bounds s m e :
  valid_binary (S754_finite s m e) = true ->
  -1074 <= e <= 971 /\ Zpos m < 2 ^ 53 /\ (-1074 < e -> 2 ^ 52 <= Zpos m).
Proof.
  intros [Hcanonical Hbounded]%valid_finite.
  pose proof (digits2_pos_bounds m) as [Hlow Hhigh].
  assert (Hd : Zpos (digits2_pos m) <= 53) by lia.
  split; [lia |]. split.
  - eapply Z.lt_le_trans; [exact Hhigh |]. apply Z.pow_le_mono_r; lia.
  - intros He. assert (Zpos (digits2_pos m) = 53) as Hd' by lia.
    rewrite Hd' in Hlow. exact Hlow.
Qed.

Lemma magnitude_bounds s m e :
  valid_binary (S754_finite s m e) = true ->
  0 < Zpos m * 2 ^ (e + 1074) < 2 ^ 2100.
Proof.
  intros (He & Hm & _)%valid_finite_bounds.
  assert (Hpow : 0 < 2 ^ (e + 1074)) by (apply Z.pow_pos_nonneg; lia).
  split; [lia |].
  assert (Hpow' : 2 ^ (e + 1074) <= 2 ^ 2045) by (apply Z.pow_le_mono_r; lia).
  assert (Hsplit : 2 ^ 2100 = 2 ^ 55 * 2 ^ 2045).
  { change 2100 with (55 + 2045). apply Z.pow_add_r; lia. }
  assert (Hsmall : 2 ^ 53 < 2 ^ 55) by (apply Z.pow_lt_mono_r; lia).
  rewrite Hsplit. clear Hsplit.
  set (a := 2 ^ 2045) in *. set (b := 2 ^ 55) in *. set (c := 2 ^ 53) in *.
  clearbody a b c. nia.
Qed.

Lemma magnitude_lt m1 e1 m2 e2 s1 s2 :
  valid_binary (S754_finite s1 m1 e1) = true ->
  valid_binary (S754_finite s2 m2 e2) = true ->
  e1 < e2 ->
  Zpos m1 * 2 ^ (e1 + 1074) < Zpos m2 * 2 ^ (e2 + 1074).
Proof.
  intros (He1 & Hm1 & _)%valid_finite_bounds (He2 & _ & Hm2)%valid_finite_bounds Hlt.
  assert (He2' : -1074 < e2) by lia. specialize (Hm2 He2').
  replace (e2 + 1074) with ((e2 - e1 - 1) + 1 + (e1 + 1074)) by lia.
  rewrite (Z.pow_add_r 2 (e2 - e1 - 1 + 1) (e1 + 1074)), (Z.pow_add_r 2 (e2 - e1 - 1) 1) by lia.
  assert (0 < 2 ^ (e1 + 1074)) by (apply Z.pow_pos_nonneg; lia).
  assert (0 < 2 ^ (e2 - e1 - 1)) by (apply Z.pow_pos_nonneg; lia).
  change (2 ^ 1) with 2. change (2 ^ 53) with (2 ^ 52 * 2) in Hm1.
  set (a := 2 ^ 52) in *. set (b := 2 ^ (e1 + 1074)) in *.
  set (c := 2 ^ (e2 - e1 - 1)) in *. clearbody a b c.
  assert (Zpos m1 < Zpos m2 * (c * 2)) by nia.
  nia.
Qed.

Lemma key_compare x y :
  valid_binary x = true -> valid_binary y = true ->
  is_number x -> is_number y ->
  SFcompare x y = Some (key x ?= key y).
Proof.
  intros Hx Hy Hnx Hny.
  destruct x as [sx | sx | | sx mx ex]; [| | by destruct Hnx |];
    (destruct y as [sy | sy | | sy my ey]; [| | by destruct Hny |]).
  all: try pose proof (magnitude_bounds _ _ _ Hx) as Hbx.
  all: try pose proof (magnitude_bounds _ _ _ Hy) as Hby.
  all: assert (Hbig : 0 < 2 ^ 2100) by (apply Z.pow_pos_nonneg; lia).
  all: simpl SFcompare; unfold key.
  all: set (big := 2 ^ 2100) in *; clearbody big.
  all: try (destruct sx); try (destruct sy); f_equal; symmetry.
  all: try (apply Z.compare_eq_iff; lia).
  all: try (apply Z.compare_lt_iff; lia).
  all: try (apply Z.compare_gt_iff; lia).
  - destruct (Z.compare_spec ex ey) as [-> | Hlt | Hgt].
    + change (Pos.compare_cont Eq mx my) with (Pos.compare mx my).
      assert (0 < 2 ^ (ey + 1074)) by lia.
      destruct (Pos.compare_spec mx my) as [-> | Hlt | Hgt]; simpl.
      * apply Z.compare_eq_iff. lia.
      * apply Z.compare_gt_iff. nia.
      * apply Z.compare_lt_iff. nia.
    + apply Z.compare_gt_iff. pose proof (magnitude_lt _ _ _ _ _ _ Hx Hy Hlt). lia.
    + apply Z.compare_lt_iff. pose proof (magnitude_lt _ _ _ _ _ _ Hy Hx Hgt). lia.
  - destruct (Z.compare_spec ex ey) as [-> | Hlt | Hgt].
    + change (Pos.compare_cont Eq mx my) with (Pos.compare mx my).
      assert (0 < 2 ^ (ey + 1074)) by lia.
      destruct (Pos.compare_spec mx my) as [-> | Hlt | Hgt]; simpl.
      * apply Z.compare_eq_iff. lia.
      * apply Z.compare_lt_iff. nia.
      * apply Z.compare_gt_iff. nia.
    + apply Z.compare_lt_iff. pose proof (magnitude_lt _ _ _ _ _ _ Hx Hy Hlt). lia.
    + apply Z.compare_gt_iff. pose proof (magnitude_lt _ _ _ _ _ _ Hy Hx Hgt). lia.
Qed.

(** *** Shifting a mantissa right *)

Lemma shr_1_m mrs : 0 <= shr_m mrs -> shr_m (shr_1 mrs) = shr_m mrs / 2.
Proof.
  destruct mrs as [m r s]. simpl. intros Hm.
  destruct m as [| [p | p |] | p]; simpl; [done | | | done | lia].
  - apply Z.div_unique with 1; lia.
  - apply Z.div_unique with 0; lia.
Qed.

Lemma iter_pos_shr_1 n :
  forall mrs,
    0 <= shr_m mrs ->
    shr_m (SpecFloat.iter_pos shr_1 n mrs) = shr_m mrs / 2 ^ Zpos n.
Proof.
  assert (Hnonneg : forall m k, 0 <= m -> 0 < k -> 0 <= m / k)
    by (intros; apply Z.div_pos; lia).
  induction n as [n IH | n IH |]; intros mrs Hm; simpl SpecFloat.iter_pos.
  - assert (H2 : 0 <= shr_m (shr_1 mrs)) by (rewrite shr_1_m by done; apply Hnonneg; lia).
    assert (Hn : 0 < 2 ^ Zpos n) by lia.
    assert (Hpow : 2 ^ Zpos n~1 = 2 * (2 ^ Zpos n * 2 ^ Zpos n)).
    { rewrite <- Z.pow_add_r, <- Z.pow_succ_r by lia. f_equal. lia. }
    rewrite IH, IH, shr_1_m by (rewrite ?IH by done; auto).
    rewrite !Z.div_div by lia. by rewrite Hpow, Z.mul_assoc.
  - assert (Hn : 0 < 2 ^ Zpos n) by lia.
    assert (Hpow : 2 ^ Zpos n~0 = 2 ^ Zpos n * 2 ^ Zpos n).
    { rewrite <- Z.pow_add_r by lia. f_equal. lia. }
    rewrite IH, IH by (rewrite ?IH by done; auto).
    rewrite !Z.div_div by lia. by rewrite Hpow.
  - rewrite shr_1_m by done. reflexivity.
Qed.

Lemma shr_m_of_loc m l : shr_m (shr_record_of_loc m l) = m.
Proof. by destruct l as [| []]. Qed.

Lemma shr_fexp_nonneg m e l :
  0 <= m -> 0 <= shr_m (fst (shr_fexp prec emax m e l)).
Proof.
  intros Hm. unfold shr_fexp, shr.
  destruct (fexp prec emax (Zdigits2 m + e) - e) as [| n | n]; simpl;
    rewrite ?iter_pos_shr_1, shr_m_of_loc by (by rewrite shr_m_of_loc); try done.
  apply Z.div_pos; lia.
Qed.

(** A positive mantissa above the least exponent is never shifted away. *)
Lemma shr_fexp_pos m e l :
  0 < m -> -1074 <= e ->
  0 < shr_m (fst (shr_fexp prec emax m e l)) /\ -1074 <= snd (shr_fexp prec emax m e l).
Proof.
  intros Hm He. unfold shr_fexp, shr.
  destruct m as [| p | p]; [lia | | lia].
  pose proof (digits2_pos_bounds p) as [Hlow Hhigh].
  unfold fexp, SpecFloat.emin, prec, emax, Zdigits2.
  set (d := Zpos (digits2_pos p)) in *.
  destruct (Z.max (d + e - 53) (3 - 1024 - 53) - e) as [| n | n] eqn:Hn; simpl;
    rewrite ?shr_m_of_loc; try lia.
  rewrite iter_pos_shr_1, shr_m_of_loc by (rewrite shr_m_of_loc; lia).
  split; [| lia].
  assert (Hshift : Zpos n = d - 53) by lia.
  apply Z.lt_le_trans with (2 ^ 52); [lia |].
  apply Z.div_le_lower_bound; [lia |].
  rewrite Hshift, <- Z.pow_add_r by lia.
  replace (d - 53 + 52) with (d - 1) by lia. exact Hlow.
Qed.

Lemma round_nearest_even_le m l : m <= round_nearest_even m l.
Proof. destruct l as [| []]; simpl; try lia. destruct (Z.even m); lia. Qed.

(** Rounding a non-negative mantissa gives a number of the same sign ... *)
Lemma binary_round_aux_number sx mx ex lx :
  0 <= mx -> is_number (binary_round_aux prec emax sx mx ex lx).
Proof.
  intros Hmx. unfold binary_round_aux.
  pose proof (shr_fexp_nonneg mx ex lx Hmx) as H1.
  destruct (shr_fexp prec emax mx ex lx) as [mrs' e']. simpl in H1.
  pose proof (round_nearest_even_le (shr_m mrs') (loc_of_shr_record mrs')) as Hround.
  pose proof (shr_fexp_nonneg (round_nearest_even (shr_m mrs') (loc_of_shr_record mrs'))
                e' loc_Exact ltac:(lia)) as H2.
  destruct (shr_fexp prec emax _ e' loc_Exact) as [mrs'' e'']. simpl in H2.
  destruct (shr_m mrs'') as [| p | p]; [done | | lia].
  by destruct (e'' <=? emax - prec).
Qed.

(** ... and a positive one above the least exponent a number that is not
    zero. *)
Lemma binary_round_aux_pos sx mx ex lx :
  0 < mx -> -1074 <= ex ->
  (exists m e, binary_round_aux prec emax sx mx ex lx = S754_finite sx m e)
  \/ binary_round_aux prec emax sx mx ex lx = S754_infinity sx.
Proof.
  intros Hmx Hex. unfold binary_round_aux.
  pose proof (shr_fexp_pos mx ex lx Hmx Hex) as [H1 He1].
  destruct (shr_fexp prec emax mx ex lx) as [mrs' e']. simpl in H1, He1.
  pose proof (round_nearest_even_le (shr_m mrs') (loc_of_shr_record mrs')) as Hround.
  pose proof (shr_fexp_pos (round_nearest_even (shr_m mrs') (loc_of_shr_record mrs'))
                e' loc_Exact ltac:(lia) He1) as [H2 _].
  destruct (shr_fexp prec emax _ e' loc_Exact) as [mrs'' e'']. simpl in H2.
  destruct (shr_m mrs'') as [| p | p]; [lia | | lia].
  destruct (e'' <=? emax - prec); [left; by eexists _, _ | by right].
Qed.

Lemma iter_xO m d : Zpos (Pos.iter xO m d) = Zpos m * 2 ^ Zpos d.
Proof.
  revert m. induction d as [| d IH] using Pos.peano_ind; intros m.
  - simpl. lia.
  - rewrite Pos.iter_succ, Pos2Z.inj_xO, IH, Pos2Z.inj_succ, Z.pow_succ_r by lia. lia.
Qed.

(** Aligning a mantissa to a lower exponent keeps the value. *)
Lemma shl_align_value m e e' :
  e' <= e -> Zpos (fst (shl_align m e e')) = Zpos m * 2 ^ (e - e').
Proof.
  intros He. unfold shl_align.
  destruct (e' - e) as [| d | d] eqn:Hd; simpl.
  - replace (e - e') with 0 by lia. lia.
  - lia.
  - rewrite iter_xO. f_equal. f_equal. lia.
Qed.

Lemma binary_round_pos sx m e :
  -1074 <= e ->
  (exists m' e', binary_round prec emax sx m e = S754_finite sx m' e')
  \/ binary_round prec emax sx m e = S754_infinity sx.
Proof.
  intros He. unfold binary_round.
  destruct (shl_align m e (fexp prec emax (Zpos (digits2_pos m) + e))) as [mz ez] eqn:Halign.
  apply binary_round_aux_pos; [lia |].
  unfold shl_align in Halign.
  assert (Hfexp : -1074 <= fexp prec emax (Zpos (digits2_pos m) + e)).
  { unfold fexp, SpecFloat.emin, prec, emax. lia. }
  destruct (fexp prec emax (Zpos (digits2_pos m) + e) - e); injection Halign as <- <-; lia.
Qed.

(** *** The sign of a difference *)

Lemma key_sub_aligned sa ma ea sb mb eb :
  -1074 <= ea -> -1074 <= eb ->
  (cond_Zopp sb (Zpos (fst (shl_align mb eb (Z.min eb ea))))
   - cond_Zopp sa (Zpos (fst (shl_align ma ea (Z.min eb ea)))))
  * 2 ^ (Z.min eb ea + 1074)
  = key (S754_finite sb mb eb) - key (S754_finite sa ma ea).
Proof.
  intros Hea Heb. rewrite !shl_align_value by lia. unfold key.
  replace (2 ^ (eb + 1074)) with (2 ^ (eb - Z.min eb ea) * 2 ^ (Z.min eb ea + 1074))
    by (rewrite <- Z.pow_add_r by lia; f_equal; lia).
  replace (2 ^ (ea + 1074)) with (2 ^ (ea - Z.min eb ea) * 2 ^ (Z.min eb ea + 1074))
    by (rewrite <- Z.pow_add_r by lia; f_equal; lia).
  destruct sa, sb; simpl; ring.
Qed.

(** [b - a] is above zero exactly when [a] is below [b]: a difference of
    two binary64 numbers is never rounded to zero. *)
Lemma SFsub_sign a b :
  valid_binary a = true -> valid_binary b = true ->
  SFltb (S754_zero false) (SF64sub b a) = SFltb a b.
Proof.
  intros Ha Hb.
  destruct a as [sa | sa | | sa ma ea], b as [sb | sb | | sb mb eb];
    try reflexivity;
    try (by destruct sa); try (by destruct sb); try (by destruct sa, sb).
  pose proof (valid_finite_bounds _ _ _ Ha) as (Hea & _ & _).
  pose proof (valid_finite_bounds _ _ _ Hb) as (Heb & _ & _).
  unfold SFltb at 2. rewrite (key_compare _ _ Ha Hb) by done.
  pose proof (key_sub_aligned sa ma ea sb mb eb ltac:(lia) ltac:(lia)) as Hdiff.
  unfold SF64sub, SFsub. cbv zeta.
  assert (Hpow : 0 < 2 ^ (Z.min eb ea + 1074)) by (apply Z.pow_pos_nonneg; lia).
  destruct (cond_Zopp sb (Zpos (fst (shl_align mb eb (Z.min eb ea))))
            - cond_Zopp sa (Zpos (fst (shl_align ma ea (Z.min eb ea))))) as [| p | p];
    simpl binary_normalize.
  - assert (Heq : key (S754_finite sa ma ea) = key (S754_finite sb mb eb)) by lia.
    rewrite Heq, Z.compare_refl. reflexivity.
  - assert (Hlt : key (S754_finite sa ma ea) < key (S754_finite sb mb eb)) by lia.
    apply Z.compare_lt_iff in Hlt. rewrite Hlt.
    destruct (binary_round_pos false p (Z.min eb ea) ltac:(lia)) as [(m' & e' & ->) | ->];
      reflexivity.
  - assert (Hgt : key (S754_finite sb mb eb) < key (S754_finite sa ma ea)) by lia.
    apply Z.compare_gt_iff in Hgt. rewrite Hgt.
    destruct (binary_round_pos true p (Z.min eb ea) ltac:(lia)) as [(m' & e' & ->) | ->];
      reflexivity.
Qed.

(** *** Primitive numbers *)

Lemma ltb_key x y :
  is_num x -> is_num y -> (x <? y)%float = (fkey x <? fkey y).
Proof.
  intros Hx Hy. rewrite ltb_spec. unfold SFltb, fkey, Z.ltb.
  by rewrite (key_compare _ _ (Prim2SF_valid x) (Prim2SF_valid y) Hx Hy).
Qed.

Lemma leb_key x y :
  is_num x -> is_num y -> (x <=? y)%float = (fkey x <=? fkey y).
Proof.
  intros Hx Hy. rewrite leb_spec. unfold SFleb, fkey, Z.leb.
  rewrite (key_compare _ _ (Prim2SF_valid x) (Prim2SF_valid y) Hx Hy).
  by destruct (key (Prim2SF x) ?= key (Prim2SF y)).
Qed.

Lemma eqb_key x y :
  is_num x -> is_num y -> (x =? y)%float = (fkey x =? fkey y).
Proof.
  intros Hx Hy. rewrite FloatAxioms.eqb_spec, Z.eqb_compare. unfold SFeqb, fkey.
  by rewrite (key_compare _ _ (Prim2SF_valid x) (Prim2SF_valid y) Hx Hy).
Qed.

(** [b - a > 0] is [a < b], for all numbers and [NaN]. *)
Lemma sub_pos_ltb a b : (0 <? b - a)%float = (a <? b)%float.
Proof.
  rewrite !ltb_spec, sub_spec.
  apply (SFsub_sign _ _ (Prim2SF_valid a) (Prim2SF_valid b)).
Qed.

(** *** Counts as numbers *)

(** Shifting right does not raise the value. *)
Lemma shr_fexp_value m e l :
  0 < m -> -1074 <= e ->
  shr_m (fst (shr_fexp prec emax m e l)) * 2 ^ (snd (shr_fexp prec emax m e l) + 1074)
  <= m * 2 ^ (e + 1074).
Proof.
  intros Hm He. unfold shr_fexp, shr.
  destruct (fexp prec emax (Zdigits2 m + e) - e) as [| n | n]; simpl;
    rewrite ?shr_m_of_loc; try lia.
  rewrite iter_pos_shr_1, shr_m_of_loc by (rewrite shr_m_of_loc; lia).
  replace (e + Zpos n + 1074) with (Zpos n + (e + 1074)) by lia.
  rewrite Z.pow_add_r, Z.mul_assoc by lia.
  apply Z.mul_le_mono_nonneg_r; [lia |].
  rewrite Z.mul_comm. apply Z.mul_div_le. lia.
Qed.

(** A positive value far below the largest number rounds to a finite
    number. *)
Lemma binary_round_aux_finite sx mx ex lx K :
  0 < mx -> -1074 <= ex -> mx * 2 ^ (ex + 1074) < 2 ^ K -> K <= 2000 ->
  exists m e, binary_round_aux prec emax sx mx ex lx = S754_finite sx m e.
Proof.
  intros Hmx Hex Hvalue HK. unfold binary_round_aux.
  pose proof (shr_fexp_pos mx ex lx Hmx Hex) as [H1 He1].
  pose proof (shr_fexp_value mx ex lx Hmx Hex) as Hv1.
  destruct (shr_fexp prec emax mx ex lx) as [mrs' e']. simpl in H1, He1, Hv1.
  pose proof (round_nearest_even_le (shr_m mrs') (loc_of_shr_record mrs')) as Hround.
  assert (Hround' : round_nearest_even (shr_m mrs') (loc_of_shr_record mrs')
                    <= shr_m mrs' + 1).
  { destruct (loc_of_shr_record mrs') as [| []]; simpl; try lia.
    destruct (Z.even (shr_m mrs')); lia. }
  set (m1 := round_nearest_even (shr_m mrs') (loc_of_shr_record mrs')) in *.
  pose proof (shr_fexp_pos m1 e' loc_Exact ltac:(lia) He1) as [H2 He2].
  pose proof (shr_fexp_value m1 e' loc_Exact ltac:(lia) He1) as Hv2.
  destruct (shr_fexp prec emax m1 e' loc_Exact) as [mrs'' e'']. simpl in H2, He2, Hv2.
  destruct (shr_m mrs'') as [| p | p]; [lia | | lia].
  assert (Hpow : 0 < 2 ^ (ex + 1074)) by (apply Z.pow_pos_nonneg; lia).
  assert (Hpow' : 0 < 2 ^ (e' + 1074)) by (apply Z.pow_pos_nonneg; lia).
  assert (Hpow'' : 0 < 2 ^ (e'' + 1074)) by (apply Z.pow_pos_nonneg; lia).
  assert (HK0 : 0 <= K).
  { destruct (Z.le_gt_cases 0 K) as [| Hneg]; [done |].
    rewrite (Z.pow_neg_r 2 K) in Hvalue by lia. nia. }
  assert (Hbound : 2 ^ (e'' + 1074) < 2 ^ Z.succ K).
  { rewrite Z.pow_succ_r by done. nia. }
  apply Z.pow_lt_mono_r_iff in Hbound; [| lia | lia].
  destruct (Z.leb_spec e'' (emax - prec)) as [_ | Hover]; [by eexists _, _ |].
  unfold emax, prec in Hover. lia.
Qed.

Lemma scaled_lt m a K : 0 <= a -> 0 <= K -> m < 2 ^ K -> m * 2 ^ a < 2 ^ (K + a).
Proof.
  intros Ha HK Hm. rewrite Z.pow_add_r by done.
  assert (0 < 2 ^ a) by (apply Z.pow_pos_nonneg; lia). nia.
Qed.

Lemma binary_normalize_count z :
  0 <= z < 2 ^ 63 ->
  (z = 0 -> binary_normalize prec emax z 0 false = S754_zero false)
  /\ (0 < z -> is_positive (binary_normalize prec emax z 0 false)).
Proof.
  intros Hz. split.
  - by intros ->.
  - intros Hpos. destruct z as [| p | p]; [lia | | lia].
    pose proof (scaled_lt (Zpos p) 1074 63 ltac:(lia) ltac:(lia) ltac:(lia)) as Hscaled.
    cbn [binary_normalize]. unfold binary_round.
    pose proof (shl_align_value p 0 (fexp prec emax (Zpos (digits2_pos p) + 0))) as Hvalue.
    assert (Hfexp : -1074 <= fexp prec emax (Zpos (digits2_pos p) + 0)).
    { unfold fexp, SpecFloat.emin, prec, emax. lia. }
    unfold shl_align in *.
    destruct (fexp prec emax (Zpos (digits2_pos p) + 0) - 0) as [| d | d] eqn:Hd;
      simpl fst in Hvalue.
    + by destruct (binary_round_aux_finite false (Zpos p) 0 loc_Exact (63 + 1074))
        as (m & e & ->).
    + by destruct (binary_round_aux_finite false (Zpos p) 0 loc_Exact (63 + 1074))
        as (m & e & ->).
    + set (e' := fexp prec emax (Zpos (digits2_pos p) + 0)) in *.
      specialize (Hvalue ltac:(lia)).
      destruct (binary_round_aux_finite false (Zpos (Pos.iter xO p d)) e' loc_Exact
                  (63 + 1074)) as (m & e & ->); [lia | lia | | lia | done].
      rewrite Hvalue, <- Z.mul_assoc, <- Z.pow_add_r by lia.
      by replace (0 - e' + (e' + 1074)) with 1074 by lia.
Qed.

Lemma SFdiv_core_nonneg mx ex my ey :
  0 <= fst (fst (SFdiv_core_binary prec emax (Zpos mx) ex (Zpos my) ey)).
Proof.
  unfold SFdiv_core_binary. cbv zeta.
  set (s := ex - ey - _).
  set (m' := match s with Z0 => Zpos mx | Zpos _ => Z.shiftl (Zpos mx) s | Zneg _ => 0 end).
  assert (Hm' : 0 <= m').
  { subst m'. destruct s; [lia | | lia]. apply Z.shiftl_nonneg. lia. }
  assert (Hq : 0 <= m' / Zpos my) by (apply Z.div_pos; lia).
  unfold Z.div in Hq. by destruct (Z.div_eucl m' (Zpos my)).
Qed.

(** A count divided by a positive count is a number, and zero when the
    count is. *)
Lemma SFdiv_count x y :
  is_count x -> is_positive y ->
  is_number (SF64div x y) /\ (x = S754_zero false -> SF64div x y = S754_zero false).
Proof.
  intros Hx Hy.
  destruct x as [[] | [] | | [] mx ex]; try done;
    destruct y as [[] | [] | | [] my ey]; try done.
  split; [| done]. unfold SF64div, SFdiv.
  pose proof (SFdiv_core_nonneg mx ex my ey) as Hq.
  destruct (SFdiv_core_binary prec emax (Zpos mx) ex (Zpos my) ey) as [[mz ez] lz].
  by apply binary_round_aux_number.
Qed.

(** [1 - q] is a number when [q] is. *)
Lemma SFsub_one_number q :
  valid_binary q = true -> is_number q -> is_number (SF64sub (Prim2SF 1) q).
Proof.
  intros Hvalid Hq.
  change (Prim2SF 1) with (S754_finite false 4503599627370496 (-52)).
  destruct q as [sq | sq | | sq mq eq]; try done.
  pose proof (valid_finite_bounds _ _ _ Hvalid) as (He & _ & _).
  unfold SF64sub, SFsub. cbv zeta.
  destruct (cond_Zopp false _ - cond_Zopp sq _) as [| p | p]; simpl binary_normalize.
  - done.
  - by destruct (binary_round_pos false p (Z.min (-52) eq) ltac:(lia))
      as [(m' & e' & ->) | ->].
  - by destruct (binary_round_pos true p (Z.min (-52) eq) ltac:(lia))
      as [(m' & e' & ->) | ->].
Qed.

(** *** Rounding stays below a power of two *)

Lemma binary_round_aux_sign sx mx ex lx :
  0 <= mx -> has_sign sx (binary_round_aux prec emax sx mx ex lx).
Proof.
  intros Hmx. unfold binary_round_aux.
  pose proof (shr_fexp_nonneg mx ex lx Hmx) as H1.
  destruct (shr_fexp prec emax mx ex lx) as [mrs' e']. simpl in H1.
  pose proof (round_nearest_even_le (shr_m mrs') (loc_of_shr_record mrs')) as Hround.
  pose proof (shr_fexp_nonneg (round_nearest_even (shr_m mrs') (loc_of_shr_record mrs'))
                e' loc_Exact ltac:(lia)) as H2.
  destruct (shr_fexp prec emax _ e' loc_Exact) as [mrs'' e'']. simpl in H2.
  destruct (shr_m mrs'') as [| p | p]; [done | | lia].
  by destruct (e'' <=? emax - prec).
Qed.

Lemma binary_round_aux_le sx mx ex lx K :
  0 < mx -> -1074 <= ex -> mx * 2 ^ (ex + 1074) < 2 ^ K -> K <= 2000 ->
  exists m e,
    binary_round_aux prec emax sx mx ex lx = S754_finite sx m e
    /\ Zpos m * 2 ^ (e + 1074) <= 2 ^ K.
Proof.
  intros Hmx Hex Hvalue HK.
  destruct (binary_round_aux_finite sx mx ex lx K Hmx Hex Hvalue HK) as (m & e & Hfinite).
  exists m, e. split; [done |].
  revert Hfinite. unfold binary_round_aux.
  pose proof (shr_fexp_pos mx ex lx Hmx Hex) as [H1 He1].
  pose proof (shr_fexp_value mx ex lx Hmx Hex) as Hv1.
  destruct (shr_fexp prec emax mx ex lx) as [mrs' e']. simpl in H1, He1, Hv1.
  pose proof (round_nearest_even_le (shr_m mrs') (loc_of_shr_record mrs')) as Hround.
  assert (Hround' : round_nearest_even (shr_m mrs') (loc_of_shr_record mrs')
                    <= shr_m mrs' + 1).
  { destruct (loc_of_shr_record mrs') as [| []]; simpl; try lia.
    destruct (Z.even (shr_m mrs')); lia. }
  set (m1 := round_nearest_even (shr_m mrs') (loc_of_shr_record mrs')) in *.
  pose proof (shr_fexp_value m1 e' loc_Exact ltac:(lia) He1) as Hv2.
  destruct (shr_fexp prec emax m1 e' loc_Exact) as [mrs'' e'']. simpl in Hv2.
  assert (Hpow' : 0 < 2 ^ (e' + 1074)) by (apply Z.pow_pos_nonneg; lia).
  assert (Hbelow : 2 ^ (e' + 1074) < 2 ^ K) by nia.
  assert (HK0 : 0 <= K).
  { destruct (Z.le_gt_cases 0 K) as [| Hneg]; [done |].
    rewrite (Z.pow_neg_r 2 K) in Hbelow by lia. lia. }
  apply Z.pow_lt_mono_r_iff in Hbelow; [| lia | lia].
  assert (Hsplit : 2 ^ K = 2 ^ (K - (e' + 1074)) * 2 ^ (e' + 1074)).
  { rewrite <- Z.pow_add_r by lia. f_equal. lia. }
  assert (Hm1 : m1 * 2 ^ (e' + 1074) <= 2 ^ K).
  { rewrite Hsplit in *. apply Z.mul_le_mono_nonneg_r; [lia |].
    assert (shr_m mrs' < 2 ^ (K - (e' + 1074))) by nia. lia. }
  destruct (shr_m mrs'') as [| p | p]; [done | | done].
  destruct (e'' <=? emax - prec); intros [= <- <-]. lia.
Qed.

Lemma binary_round_le sx p e K :
  -1074 <= e -> Zpos p * 2 ^ (e + 1074) < 2 ^ K -> K <= 2000 ->
  exists m' e',
    binary_round prec emax sx p e = S754_finite sx m' e'
    /\ Zpos m' * 2 ^ (e' + 1074) <= 2 ^ K.
Proof.
  intros He Hvalue HK. unfold binary_round.
  pose proof (shl_align_value p e (fexp prec emax (Zpos (digits2_pos p) + e))) as Haligned.
  assert (Hfexp : -1074 <= fexp prec emax (Zpos (digits2_pos p) + e)).
  { unfold fexp, SpecFloat.emin, prec, emax. lia. }
  unfold shl_align in *.
  destruct (fexp prec emax (Zpos (digits2_pos p) + e) - e) as [| d | d] eqn:Hd;
    simpl fst in Haligned.
  - by apply binary_round_aux_le.
  - by apply binary_round_aux_le.
  - set (e' := fexp prec emax (Zpos (digits2_pos p) + e)) in *.
    specialize (Haligned ltac:(lia)).
    apply binary_round_aux_le; [lia | lia | | done].
    rewrite Haligned, <- Z.mul_assoc, <- Z.pow_add_r by lia.
    by replace (e - e' + (e' + 1074)) with (e + 1074) by lia.
Qed.

(** [1 - q] is at most [1] for a [q] that is zero, positive or
    [+Infinity]. *)
Lemma key_one : key (Prim2SF 1) = 2 ^ 1074.
Proof.
  change (key (Prim2SF 1)) with (2 ^ 52 * 2 ^ 1022).
  change 1074 with (52 + 1022). symmetry. apply Z.pow_add_r; lia.
Qed.

Lemma SFsub_one_le q :
  valid_binary q = true -> has_sign false q ->
  key (SF64sub (Prim2SF 1) q) <= key (Prim2SF 1).
Proof.
  intros Hvalid Hq.
  assert (Hone : 0 < key (Prim2SF 1)).
  { rewrite key_one. apply Z.pow_pos_nonneg; lia. }
  assert (Hbig : 0 < 2 ^ 2100) by (apply Z.pow_pos_nonneg; lia).
  destruct q as [sq | sq | | sq mq eq]; simpl in Hq; [subst sq | subst sq | done | subst sq].
  - apply Z.le_refl.
  - change (key (SF64sub (Prim2SF 1) (S754_infinity false))) with (- 2 ^ 2100).
    set (big := 2 ^ 2100) in *. clearbody big. lia.
  - pose proof (valid_finite_bounds _ _ _ Hvalid) as (He & _ & _).
    assert (Hq : 0 < key (S754_finite false mq eq)).
    { unfold key. assert (0 < 2 ^ (eq + 1074)) by (apply Z.pow_pos_nonneg; lia). lia. }
    pose proof (key_sub_aligned false mq eq false 4503599627370496 (-52)
                  ltac:(lia) ltac:(lia)) as Hdiff.
    change (S754_finite false 4503599627370496 (-52)) with (Prim2SF 1) in Hdiff.
    pose proof key_one as Hkey. 
    change (SF64sub (Prim2SF 1) (S754_finite false mq eq))
      with (binary_normalize prec emax
              (cond_Zopp false (Zpos (fst (shl_align 4503599627370496 (-52) (Z.min (-52) eq))))
               - cond_Zopp false (Zpos (fst (shl_align mq eq (Z.min (-52) eq)))))
              (Z.min (-52) eq) false).
    assert (Hpow : 0 < 2 ^ (Z.min (-52) eq + 1074)) by (apply Z.pow_pos_nonneg; lia).
    destruct (cond_Zopp false (Zpos (fst (shl_align 4503599627370496 (-52) (Z.min (-52) eq))))
              - cond_Zopp false (Zpos (fst (shl_align mq eq (Z.min (-52) eq)))))
      as [| p | p]; cbn [binary_normalize].
    + cbn [key]. lia.
    + destruct (binary_round_le false p (Z.min (-52) eq) 1074) as (m' & e' & -> & Hle).
      * lia.
      * rewrite <- Hkey. set (one := key (Prim2SF 1)) in *. clearbody one.
        set (k := key (S754_finite false mq eq)) in *. clearbody k. lia.
      * lia.
      * cbn [key]. by rewrite Hkey.
    + set (one := key (Prim2SF 1)) in *. clearbody one.
      destruct (binary_round_pos true p (Z.min (-52) eq) ltac:(lia))
        as [(m' & e' & ->) | ->]; cbn [key].
      * assert (0 <= 2 ^ (e' + 1074)) by (apply Z.pow_nonneg; lia). nia.
      * set (big := 2 ^ 2100) in *. clearbody big. lia.
Qed.

Lemma SFdiv_count_sign x y :
  is_count x -> is_positive y -> has_sign false (SF64div x y).
Proof.
  intros Hx Hy.
  destruct x as [[] | [] | | [] mx ex]; try done;
    destruct y as [[] | [] | | [] my ey]; try done.
  unfold SF64div, SFdiv.
  pose proof (SFdiv_core_nonneg mx ex my ey) as Hq.
  destruct (SFdiv_core_binary prec emax (Zpos mx) ex (Zpos my) ey) as [[mz ez] lz].
  by apply (binary_round_aux_sign false).
Qed.

End Binary64Facts.

Section Scores.
Import Binary64 SearchEngine EditDistance.
Local Open Scope Z_scope.

Lemma of_Z_count z :
  0 <= z < 2 ^ 63 ->
  (z = 0 -> Prim2SF (JsMath.of_Z z) = S754_zero false)
  /\ (0 < z -> is_positive (Prim2SF (JsMath.of_Z z))).
Proof.
  intros Hz. unfold JsMath.of_Z. destruct (Z.ltb_spec z 0); [lia |].
  rewrite of_uint63_spec, Uint63.of_Z_spec, Z.mod_small by (change Uint63.wB with (2 ^ 63); lia).
  by apply binary_normalize_count.
Qed.

(** [1 - d / m] is a number for a count [d] and a positive count [m], and
    is [1] when [d] is [0]. *)
Lemma score_number d m :
  0 <= d < 2 ^ 63 -> 0 < m < 2 ^ 63 ->
  is_num (1 - JsMath.of_Z d / JsMath.of_Z m)%float.
Proof.
  intros Hd Hm. unfold is_num. rewrite sub_spec, div_spec.
  apply SFsub_one_number.
  - rewrite <- div_spec. apply Prim2SF_valid.
  - destruct (of_Z_count d Hd) as [Hzero Hpos].
    destruct (of_Z_count m ltac:(lia)) as [_ Hm'].
    apply SFdiv_count; [| apply Hm'; lia].
    destruct (decide (d = 0)) as [Hd0 | Hd0].
    + by rewrite (Hzero Hd0).
    + specialize (Hpos ltac:(lia)). by destruct (Prim2SF (JsMath.of_Z d)) as [| | | []].
Qed.

(** No score is above [1]. *)
Lemma score_le_one d m :
  0 <= d < 2 ^ 63 -> 0 < m < 2 ^ 63 ->
  (1 - JsMath.of_Z d / JsMath.of_Z m <=? 1)%float = true.
Proof.
  intros Hd Hm. rewrite leb_key; [| by apply score_number | done].
  apply Z.leb_le. unfold fkey. rewrite sub_spec, div_spec.
  apply SFsub_one_le.
  - rewrite <- div_spec. apply Prim2SF_valid.
  - destruct (of_Z_count d Hd) as [Hzero Hpos].
    destruct (of_Z_count m ltac:(lia)) as [_ Hm'].
    apply SFdiv_count_sign; [| apply Hm'; lia].
    destruct (decide (d = 0)) as [Hd0 | Hd0].
    + by rewrite (Hzero Hd0).
    + specialize (Hpos ltac:(lia)). by destruct (Prim2SF (JsMath.of_Z d)) as [| | | []].
Qed.


End Scores.

(** *** [Array.prototype.sort] with a comparator that follows a rank *)

Section RankSort.
Context {A : Type}.
Variable gt : A -> A -> bool.
Variable rank : A -> Z.
Variable ranked : A -> Prop.
Hypothesis gt_rank : forall a b, ranked a -> ranked b -> gt a b = (rank a <? rank b)%Z.

Lemma sort_insert_Permutation (cmp : A -> A -> bool) x l : sort_insert cmp x l ≡ₚ x :: l.
Proof.
  induction l as [| y l IH]; simpl; [done |].
  destruct (cmp x y); [| done]. rewrite IH. apply Permutation_swap.
Qed.

Lemma Array_sort_Permutation (cmp : A -> A -> bool) l : Array_sort cmp l ≡ₚ l.
Proof.
  induction l as [| x l IH]; simpl; [done |].
  unfold Array_sort in *. simpl. by rewrite sort_insert_Permutation, IH.
Qed.

Lemma sort_insert_sorted x l :
  ranked x -> Forall ranked l ->
  StronglySorted (fun a b => rank b <= rank a)%Z l ->
  StronglySorted (fun a b => rank b <= rank a)%Z (sort_insert gt x l).
Proof.
  intros Hx Hl Hsorted. induction Hsorted as [| y l Hsorted IH Hy]; simpl.
  - repeat constructor.
  - apply Forall_cons in Hl as [Hy' Hl]. rewrite (gt_rank x y Hx Hy').
    destruct (Z.ltb_spec (rank x) (rank y)) as [Hlt | Hge].
    + constructor; [by apply IH |].
      rewrite sort_insert_Permutation. constructor; [lia | done].
    + constructor; [by constructor |].
      constructor; [done |]. eapply Forall_impl; [exact Hy |]. simpl. intros z Hz. lia.
Qed.

Lemma Array_sort_sorted l :
  Forall ranked l ->
  StronglySorted (fun a b => rank b <= rank a)%Z (Array_sort gt l).
Proof.
  induction 1 as [| x l Hx Hl IH]; [constructor |].
  change (Array_sort gt (x :: l)) with (sort_insert gt x (Array_sort gt l)).
  apply sort_insert_sorted; [done | | done].
  by rewrite Array_sort_Permutation.
Qed.

End RankSort.

Lemma StronglySorted_front {A : Type} (R : A -> A -> Prop) front x rest :
  StronglySorted R (front ++ x :: rest) -> Forall (fun y => R y x) front.
Proof.
  induction front as [| y front IH]; simpl; intros Hsorted; [constructor |].
  apply StronglySorted_inv in Hsorted as [Hsorted Hy].
  constructor; [| by apply IH].
  rewrite Forall_forall in Hy. apply Hy. apply elem_of_app. right. left.
Qed.

Section FuzzySearch.
Import Types Binary64 SearchEngine EditDistance.

Lemma length_toLowerCase s : String.length (toLowerCase s) = String.length s.
Proof. induction s as [| c s IH]; simpl; [done | by rewrite IH]. Qed.

Lemma length_append_separator s1 s2 : (0 < String.length (s1 ++ " " ++ s2))%nat.
Proof. destruct s1; simpl; lia. Qed.

(** The searchable text holds the three separators at least. *)
Lemma searchableText_nonempty student : (0 < strlen (searchableText student))%Z.
Proof.
  unfold strlen, searchableText. rewrite length_toLowerCase.
  pose proof (length_append_separator (firstName student)
                (lastName student ++ " " ++ email student ++ " " ++ rollNo student)).
  lia.
Qed.

(** No more edits are needed than the longer text has characters. *)
Lemma aligned_longer s :
  forall t, aligned s t (Z.max (Z.of_nat (length s)) (Z.of_nat (length t))).
Proof.
  induction s as [| a s IH]; intros t.
  - rewrite Z.max_r by (simpl; lia). apply aligned_inserts.
  - destruct t as [| b t].
    + rewrite Z.max_l by (simpl; lia). apply aligned_deletes.
    + replace (Z.max (Z.of_nat (length (a :: s))) (Z.of_nat (length (b :: t))))
        with (Z.max (Z.of_nat (length s)) (Z.of_nat (length t)) + 1)%Z by (simpl; lia).
      apply aligned_substitute, IH.
Qed.

Lemma edit_distance_bounds s t :
  (0 <= edit_distance s t <= Z.max (strlen s) (strlen t))%Z.
Proof.
  unfold edit_distance, strlen. split; [apply lev_nonneg |].
  rewrite <- !length_chars. apply lev_least, aligned_longer.
Qed.

(** The lower-casing of the code is that of the alphabet. *)
Lemma lower_char_lowercase_letter c : lower_char c = lowercase_letter c.
Proof. by destruct c as [[] [] [] [] [] [] [] []]. Qed.

Lemma toLowerCase_lower_cased s : toLowerCase s = lower_cased s.
Proof.
  induction s as [| c s IH]; simpl; [done |].
  by rewrite IH, lower_char_lowercase_letter.
Qed.

Lemma searchableText_lower_cased student :
  searchableText student = lower_cased (searchable_fields student).
Proof. unfold searchableText. apply toLowerCase_lower_cased. Qed.

Lemma record_similarity_unfold query student :
  record_similarity query student
  = normalized_similarity (toLowerCase query) (searchableText student).
Proof.
  unfold record_similarity.
  by rewrite <- toLowerCase_lower_cased, <- searchableText_lower_cased.
Qed.

Lemma similarity_spec query student :
  similarity (toLowerCase query) (searchableText student) = record_similarity query student.
Proof.
  rewrite record_similarity_unfold. unfold similarity, normalized_similarity.
  by rewrite levenshteinDistance_spec.
Qed.

Variable query : string.
Variable threshold : float.
Hypothesis query_length : (strlen (toLowerCase query) < 2 ^ 53)%Z.


(** [1.0] is the highest similarity there is. *)
Lemma record_similarity_le_one student :
  (strlen (searchableText student) < 2 ^ 53)%Z ->
  (record_similarity query student <=? 1)%float = true.
Proof.
  intros Hlength. rewrite record_similarity_unfold. unfold normalized_similarity.
  pose proof (searchableText_nonempty student).
  pose proof (edit_distance_bounds (toLowerCase query) (searchableText student)).
  assert (2 ^ 53 < 2 ^ 63)%Z by done.
  apply score_le_one; lia.
Qed.


(** The scored records that [forEach] collects. *)
Definition scored (students : list Student) : list (Student * float) :=
  map (fun student => (student, record_similarity query student))
    (filter (fun student => (threshold <=? record_similarity query student)%float = true)
       students).

Lemma results_spec students :
  forall results,
    foldl
      (fun results student =>
         let score := similarity (toLowerCase query) (searchableText student) in
         if (threshold <=? score)%float then results ++ [(student, score)] else results)
      results students
    = results ++ scored students.
Proof.
  unfold scored.
  induction students as [| student students IH]; intros results; simpl.
  - by rewrite app_nil_r.
  - rewrite IH, similarity_spec, filter_cons.
    destruct (threshold <=? record_similarity query student)%float eqn:Hle.
    + rewrite decide_True by done. simpl. by rewrite <- app_assoc.
    + by rewrite decide_False by done.
Qed.

Lemma fuzzySearch_unfold students :
  fuzzySearch students query threshold
  = map fst (Array_sort (fun a b => (0 <? snd b - snd a)%float) (scored students)).
Proof. unfold fuzzySearch. by rewrite results_spec. Qed.






End FuzzySearch.

Section FuzzySearchProperties.
Import Types Binary64 SearchEngine EditDistance.



(** For instance, at the default threshold [0.7]: a record that differs from
    the query in one character of twenty-four scores [1 - 1/24] and follows
    the exact match. *)
Example fuzzySearch_example :
  fuzzySearch [sample_student "s1" 3.5; sample_student "s2" 2]
    "Ada Byron ada@uni.edu s2" 0x1.6666666666666p-1
  = [sample_student "s2" 2; sample_student "s1" 3.5].
Proof. vm_compute. reflexivity. Qed.

(** The case of the letters does not count: a query in capitals that no
    record contains as written finds the same records, in the same order,
    and none of them at the threshold [0.7] if the texts were compared as
    written. *)
Example fuzzySearch_ignores_case :
  fuzzySearch [sample_student "s1" 3.5; sample_student "s2" 2]
    "ADA BYRON ADA@UNI.EDU S2" 0x1.6666666666666p-1
  = [sample_student "s2" 2; sample_student "s1" 3.5]
  /\ toLowerCase "ADA BYRON ADA@UNI.EDU S2" = "ada byron ada@uni.edu s2"%string
  /\ searchableText (sample_student "s2" 2) = "ada byron ada@uni.edu s2"%string
  /\ (similarity "ADA BYRON ADA@UNI.EDU S2" (searchable_fields (sample_student "s2" 2))
      <? 0x1.6666666666666p-1)%float = true.
Proof. split_and!; vm_compute; reflexivity. Qed.

End FuzzySearchProperties.

(* ===================================================================== *)
(** * Part III: further properties of the engines                         *)
(* ===================================================================== *)

(** ** The sorting engine: the private routines on a segment *)

Section SegmentRoutines.
Import SortingEngine ListLevel.
Context {T : Type}.
Variable undefined : T.
Variable compareFn : T -> T -> Z.
Local Open Scope Z_scope.

Lemma antisymmetric_comparator_total :
  comparator_antisymmetric compareFn -> comparator_total compareFn.
Proof. intros antisymmetric a b. unfold cmp_le. pose proof (antisymmetric a b). lia. Qed.

(** X1. [insertionSort(arr, low, high)] with a consistent comparator touches
    the segment [low..high] only: the elements before and after it stay in
    place, and the segment becomes an ordered permutation of itself in
    which elements that compare equal keep their order. *)
Theorem insertionSort_sorts_segment (pre seg post : list T) :
  comparator_antisymmetric compareFn ->
  comparator_transitive compareFn ->
  exists seg',
    insertionSort undefined compareFn (pre ++ seg ++ post)
      (Z.of_nat (length pre)) (Z.of_nat (length pre) + Z.of_nat (length seg) - 1)
    = pre ++ seg' ++ post
    /\ seg' ≡ₚ seg
    /\ StronglySorted (cmp_le compareFn) seg'
    /\ stable compareFn seg seg'.
Proof.
  intros antisymmetric transitive.
  exists (insertion_sort compareFn seg). split_and!.
  - by apply insertionSort_spec.
  - apply insertion_sort_Permutation.
  - apply (@Sorted_StronglySorted _ (cmp_le compareFn) transitive).
    by apply insertion_sort_Sorted, antisymmetric_comparator_total.
  - by apply insertion_sort_stable.
Qed.

(** X2. [merge(arr, left, mid, right)] with a consistent comparator, on two
    adjacent ordered runs: the elements outside [left..right] stay in place
    and the two runs become one ordered run, a permutation of both in which
    elements that compare equal keep their order (those of the left run
    first). *)
Theorem merge_merges_runs (pre lrun rrun post : list T) :
  comparator_antisymmetric compareFn ->
  comparator_transitive compareFn ->
  StronglySorted (cmp_le compareFn) lrun ->
  StronglySorted (cmp_le compareFn) rrun ->
  exists run,
    merge undefined compareFn (pre ++ lrun ++ rrun ++ post)
      (Z.of_nat (length pre))
      (Z.of_nat (length pre) + Z.of_nat (length lrun) - 1)
      (Z.of_nat (length pre) + Z.of_nat (length lrun) - 1 + Z.of_nat (length rrun))
    = pre ++ run ++ post
    /\ run ≡ₚ lrun ++ rrun
    /\ StronglySorted (cmp_le compareFn) run
    /\ stable compareFn (lrun ++ rrun) run.
Proof.
  intros antisymmetric transitive Hleft Hright.
  exists (list_merge (cmp_le compareFn) lrun rrun). split_and!.
  - by apply merge_spec.
  - apply merge_Permutation.
  - apply (@Sorted_StronglySorted _ (cmp_le compareFn) transitive).
    apply (@Sorted_list_merge _ (cmp_le compareFn) _
             (antisymmetric_comparator_total antisymmetric));
      by apply StronglySorted_Sorted.
  - by apply list_merge_stable.
Qed.

(** X3. [partition(arr, low, high)] on a segment of two elements or more,
    whatever the comparator: only the segment is rearranged, the index
    returned lies in it, the element there (the pivot) has every element
    that compares [<= 0] with it before it and every other one after it. *)
Theorem partition_splits_segment (pre seg post : list T) :
  (2 <= length seg)%nat ->
  exists small large pivot,
    partition undefined compareFn (pre ++ seg ++ post)
      (Z.of_nat (length pre)) (Z.of_nat (length pre) + Z.of_nat (length seg) - 1)
    = (pre ++ small ++ pivot :: large ++ post,
       Z.of_nat (length pre) + Z.of_nat (length small))
    /\ small ++ pivot :: large ≡ₚ seg
    /\ Forall (fun e => compareFn e pivot <= 0) small
    /\ Forall (fun e => 0 < compareFn e pivot) large.
Proof. intros Hseg. by apply partition_spec. Qed.

End SegmentRoutines.

Section SegmentRoutinesWitnesses.
Import SortingEngine ListLevel.
Local Open Scope Z_scope.

Definition by_first (a b : Z * Z) : Z := fst a - fst b.

Lemma by_first_antisymmetric : comparator_antisymmetric by_first.
Proof. intros a b. unfold by_first. lia. Qed.

Lemma by_first_transitive : comparator_transitive by_first.
Proof. intros a b c. unfold cmp_le, by_first. lia. Qed.

Lemma insertionSort_sorts_segment_witness :
  exists seg',
    insertionSort (0, 0) by_first ([(9, 0)] ++ [(2, 1); (1, 2); (2, 3)] ++ [(0, 4)]) 1 (1 + 3 - 1)
    = [(9, 0)] ++ seg' ++ [(0, 4)]
    /\ seg' ≡ₚ [(2, 1); (1, 2); (2, 3)]
    /\ StronglySorted (cmp_le by_first) seg'
    /\ stable by_first [(2, 1); (1, 2); (2, 3)] seg'.
Proof.
  exact (insertionSort_sorts_segment (0, 0) by_first [(9, 0)] [(2, 1); (1, 2); (2, 3)]
           [(0, 4)] by_first_antisymmetric by_first_transitive).
Defined.

Lemma merge_merges_runs_witness :
  exists run,
    merge (0, 0) by_first ([(9, 0)] ++ [(1, 1); (3, 2)] ++ [(1, 3); (2, 4)] ++ [(0, 5)])
      1 (1 + 2 - 1) (1 + 2 - 1 + 2)
    = [(9, 0)] ++ run ++ [(0, 5)]
    /\ run ≡ₚ [(1, 1); (3, 2)] ++ [(1, 3); (2, 4)]
    /\ StronglySorted (cmp_le by_first) run
    /\ stable by_first ([(1, 1); (3, 2)] ++ [(1, 3); (2, 4)]) run.
Proof.
  apply (merge_merges_runs (0, 0) by_first [(9, 0)] [(1, 1); (3, 2)] [(1, 3); (2, 4)]
           [(0, 5)] by_first_antisymmetric by_first_transitive).
  - repeat constructor; unfold cmp_le, by_first; simpl; lia.
  - repeat constructor; unfold cmp_le, by_first; simpl; lia.
Defined.

Lemma partition_splits_segment_witness :
  exists small large pivot,
    partition (0, 0) by_first ([(9, 0)] ++ [(2, 1); (1, 2); (3, 3)] ++ [(0, 4)])
      1 (1 + 3 - 1)
    = ([(9, 0)] ++ small ++ pivot :: large ++ [(0, 4)], 1 + Z.of_nat (length small))
    /\ small ++ pivot :: large ≡ₚ [(2, 1); (1, 2); (3, 3)]
    /\ Forall (fun e => by_first e pivot <= 0) small
    /\ Forall (fun e => 0 < by_first e pivot) large.
Proof.
  apply (partition_splits_segment (0, 0) by_first [(9, 0)] [(2, 1); (1, 2); (3, 3)] [(0, 4)]).
  simpl. lia.
Defined.

End SegmentRoutinesWitnesses.

(** ** The sorting engine: one pass of the radix sort *)

Section CountingPass.
Import SortingEngine ListLevel.
Local Open Scope Z_scope.

Lemma same_digit_sorted exp a (l : list Z) :
  Forall (fun x => digit_of exp x = a) l ->
  StronglySorted (fun x y => digit_of exp x <= digit_of exp y) l.
Proof.
  induction 1 as [| x xs Hx Hxs IHxs]; constructor; [done |].
  eapply Forall_impl; [exact Hxs |]. simpl. intros y Hy. lia.
Qed.

Lemma digit_blocks_sorted exp (l : list Z) n :
  forall a,
    StronglySorted (fun x y => digit_of exp x <= digit_of exp y)
      (flat_map (fun d => filter (fun x => digit_of exp x = d) l) (seqZ a (Z.of_nat n)))
    /\ Forall (fun x => a <= digit_of exp x)
         (flat_map (fun d => filter (fun x => digit_of exp x = d) l) (seqZ a (Z.of_nat n))).
Proof.
  induction n as [| n IH]; intros a.
  - simpl. split; constructor.
  - rewrite Nat2Z.inj_succ, seqZ_cons by lia. simpl flat_map.
    replace (Z.pred (Z.succ (Z.of_nat n))) with (Z.of_nat n) by lia.
    destruct (IH (Z.succ a)) as [Hsorted Hlow].
    assert (Hblock : Forall (fun x => digit_of exp x = a)
                       (filter (fun x => digit_of exp x = a) l)).
    { apply Forall_forall. intros x Hx. apply list_elem_of_filter in Hx. tauto. }
    split.
    + apply StronglySorted_app_2; [| by apply (same_digit_sorted exp a) | done].
      intros x y Hx Hy.
      rewrite Forall_forall in Hblock, Hlow.
      specialize (Hblock x Hx). specialize (Hlow y Hy). lia.
    + apply Forall_app. split.
      * eapply Forall_impl; [exact Hblock |]. simpl. intros; lia.
      * eapply Forall_impl; [exact Hlow |]. simpl. intros; lia.
Qed.

(** X4. One pass [countingSort(arr, exp)] over non-negative integers below
    [2^53], for a positive [exp] below [2^53] (the integers that binary64
    holds exactly and divides as the integers are divided), rearranges the
    array into a permutation of itself that is ordered by the digit
    [floor(x / exp) % 10], and it is stable: the elements with one digit
    keep the order they had. *)
Theorem countingSort_stable_by_digit (l : list Z) (exp : Z) :
  0 < exp < 2 ^ 53 ->
  Forall (fun x => 0 <= x < 2 ^ 53) l ->
  exists l',
    countingSort (map Some l) exp = map Some l'
    /\ l' ≡ₚ l
    /\ StronglySorted (fun x y => digit_of exp x <= digit_of exp y) l'
    /\ forall d, filter (fun x => digit_of exp x = d) l'
                 = filter (fun x => digit_of exp x = d) l.
Proof.
  intros [Hexp _] Hsafe.
  assert (Hpos : Forall (fun x => 0 <= x) l).
  { eapply Forall_impl; [exact Hsafe |]. simpl. intros x Hx. lia. }
  exists (counting_pass exp l). split_and!.
  - by apply countingSort_spec.
  - by apply counting_pass_Permutation.
  - apply (digit_blocks_sorted exp l 10 0).
  - intros d. apply counting_pass_stable.
Qed.

Lemma countingSort_stable_by_digit_witness :
  exists l',
    countingSort (map Some [170; 45; 75; 90; 802; 24; 2; 66]) 10 = map Some l'
    /\ l' ≡ₚ [170; 45; 75; 90; 802; 24; 2; 66]
    /\ StronglySorted (fun x y => digit_of 10 x <= digit_of 10 y) l'
    /\ forall d, filter (fun x => digit_of 10 x = d) l'
                 = filter (fun x => digit_of 10 x = d) [170; 45; 75; 90; 802; 24; 2; 66].
Proof.
  apply (countingSort_stable_by_digit [170; 45; 75; 90; 802; 24; 2; 66] 10); [lia |].
  repeat constructor; lia.
Defined.

End CountingPass.

(** ** The search engine: the Levenshtein distance is a metric *)

Section LevenshteinMetric.
Import SearchEngine EditDistance.
Local Open Scope Z_scope.

Lemma aligned_sym s t n : aligned s t n -> aligned t s n.
Proof.
  induction 1 as [| a s t n _ IH | b s t n _ IH | a s t n _ IH | a b s t n _ IH].
  - apply aligned_nil.
  - by apply aligned_insert.
  - by apply aligned_delete.
  - by apply aligned_keep.
  - by apply aligned_substitute.
Qed.

(** Every edit changes the length by one at most. *)
Lemma aligned_length s t n :
  aligned s t n -> Z.abs (Z.of_nat (length s) - Z.of_nat (length t)) <= n.
Proof.
  induction 1 as [| a s t n _ IH | b s t n _ IH | a s t n _ IH | a b s t n _ IH];
    simpl length; lia.
Qed.

(** Two alignments compose, edit by edit. *)
Lemma aligned_trans s t n :
  aligned s t n ->
  forall u m, aligned t u m -> exists k, k <= n + m /\ aligned s u k.
Proof.
  induction 1 as [| a s t n _ IH | b s t n _ IH | a s t n _ IH | a b s t n _ IH];
    intros u m Hsecond.
  - exists m. split; [lia | done].
  - destruct (IH u m Hsecond) as (k & Hk & Hafter).
    exists (k + 1). split; [lia | by apply aligned_delete].
  - remember (b :: t) as t' eqn:Ht'.
    induction Hsecond as [| c t' u m Hrest _ | c t' u m Hrest IHsecond
                          | c t' u m Hrest _ | c d t' u m Hrest _].
    + done.
    + injection Ht' as -> ->.
      destruct (IH u m Hrest) as (k & Hk & Hafter). exists k. split; [lia | done].
    + destruct (IHsecond Ht') as (k & Hk & Hafter).
      exists (k + 1). split; [lia | by apply aligned_insert].
    + injection Ht' as -> ->.
      destruct (IH u m Hrest) as (k & Hk & Hafter).
      exists (k + 1). split; [lia | by apply aligned_insert].
    + injection Ht' as -> ->.
      destruct (IH u m Hrest) as (k & Hk & Hafter).
      exists (k + 1). split; [lia | by apply aligned_insert].
  - remember (a :: t) as t' eqn:Ht'.
    induction Hsecond as [| c t' u m Hrest _ | c t' u m Hrest IHsecond
                          | c t' u m Hrest _ | c d t' u m Hrest _].
    + done.
    + injection Ht' as -> ->.
      destruct (IH u m Hrest) as (k & Hk & Hafter).
      exists (k + 1). split; [lia | by apply aligned_delete].
    + destruct (IHsecond Ht') as (k & Hk & Hafter).
      exists (k + 1). split; [lia | by apply aligned_insert].
    + injection Ht' as -> ->.
      destruct (IH u m Hrest) as (k & Hk & Hafter).
      exists k. split; [lia | by apply aligned_keep].
    + injection Ht' as -> ->.
      destruct (IH u m Hrest) as (k & Hk & Hafter).
      exists (k + 1). split; [lia | by apply aligned_substitute].
  - remember (b :: t) as t' eqn:Ht'.
    induction Hsecond as [| c t' u m Hrest _ | c t' u m Hrest IHsecond
                          | c t' u m Hrest _ | c d t' u m Hrest _].
    + done.
    + injection Ht' as -> ->.
      destruct (IH u m Hrest) as (k & Hk & Hafter).
      exists (k + 1). split; [lia | by apply aligned_delete].
    + destruct (IHsecond Ht') as (k & Hk & Hafter).
      exists (k + 1). split; [lia | by apply aligned_insert].
    + injection Ht' as -> ->.
      destruct (IH u m Hrest) as (k & Hk & Hafter).
      exists (k + 1). split; [lia | by apply aligned_substitute].
    + injection Ht' as -> ->.
      destruct (IH u m Hrest) as (k & Hk & Hafter).
      exists (k + 1). split; [lia | by apply aligned_substitute].
Qed.

Lemma chars_inj s t : chars s = chars t -> s = t.
Proof.
  unfold chars. intros Heq.
  rewrite <- (string_of_list_ascii_of_string s), <- (string_of_list_ascii_of_string t).
  by rewrite Heq.
Qed.

(** X5. [levenshteinDistance] is the edit distance of its arguments: the
    value returned is reached by some sequence of single-character
    deletions, insertions and substitutions, and by no shorter one. *)
Theorem levenshteinDistance_is_least (str1 str2 : string) :
  is_edit_distance (chars str1) (chars str2) (levenshteinDistance str1 str2).
Proof. rewrite levenshteinDistance_spec. apply lev_is_edit_distance. Qed.

(** X6. [levenshteinDistance] is symmetric, and it is [0] on equal strings
    and on no others. *)
Theorem levenshteinDistance_symmetric_and_zero (str1 str2 : string) :
  levenshteinDistance str1 str2 = levenshteinDistance str2 str1
  /\ (levenshteinDistance str1 str2 = 0 <-> str1 = str2).
Proof.
  rewrite !levenshteinDistance_spec. unfold edit_distance. split.
  - apply Z.le_antisymm; apply lev_least, aligned_sym, lev_aligned.
  - split.
    + intros Hzero. by apply chars_inj, lev_zero.
    + intros ->. apply lev_same.
Qed.

(** X7. [levenshteinDistance] obeys the triangle inequality: going through
    a third string never takes fewer edits. *)
Theorem levenshteinDistance_triangle (str1 str2 str3 : string) :
  levenshteinDistance str1 str3
  <= levenshteinDistance str1 str2 + levenshteinDistance str2 str3.
Proof.
  rewrite !levenshteinDistance_spec. unfold edit_distance.
  destruct (aligned_trans _ _ _ (lev_aligned (chars str1) (chars str2)) _ _
              (lev_aligned (chars str2) (chars str3))) as (k & Hk & Hdirect).
  pose proof (lev_least _ _ _ Hdirect). lia.
Qed.

(** X8. [levenshteinDistance] lies between the difference of the two
    lengths and the greater of them. *)
Theorem levenshteinDistance_bounds (str1 str2 : string) :
  Z.abs (strlen str1 - strlen str2) <= levenshteinDistance str1 str2
  <= Z.max (strlen str1) (strlen str2).
Proof.
  rewrite levenshteinDistance_spec. split; [| apply edit_distance_bounds].
  unfold edit_distance, strlen. rewrite <- !length_chars.
  apply aligned_length, lev_aligned.
Qed.

End LevenshteinMetric.

(** ** The search engine: Boyer-Moore *)

Section BoyerMoore.
Import SearchEngine EditDistance.
Local Open Scope Z_scope.

Lemma substring_chars s :
  forall a m, chars (substring a m s) = take m (drop a (chars s)).
Proof.
  unfold chars. induction s as [| c s IH]; intros [| a] [| m]; simpl; try done.
  f_equal. rewrite IH. by rewrite drop_0.
Qed.

(** A window whose characters all agree is an occurrence. *)
Lemma occurs_at_window text pattern shift :
  0 <= shift -> shift + strlen pattern <= strlen text ->
  (forall k, 0 <= k < strlen pattern -> char_at pattern k = char_at text (shift + k)) ->
  occurs_at text pattern shift.
Proof.
  intros Hshift Hfits Hwindow. split_and!; [done | | done].
  apply chars_inj. rewrite substring_chars. apply list_eq. intros i.
  unfold strlen in *.
  destruct (decide (i < String.length pattern)%nat) as [Hin | Hout].
  - rewrite lookup_take_lt, lookup_drop by done.
    specialize (Hwindow (Z.of_nat i)).
    rewrite !char_at_chars in Hwindow by lia.
    rewrite Nat2Z.id in Hwindow. rewrite Hwindow by lia. f_equal. lia.
  - rewrite lookup_take_ge by lia. symmetry. apply lookup_ge_None.
    rewrite length_chars. lia.
Qed.

(** The inner loop stops below the characters that agree. *)
Lemma boyerMoore_compare_spec text pattern shift rounds :
  forall j,
    -1 <= j < Z.of_nat rounds ->
    let r := boyerMoore_compare rounds text pattern shift j in
    -1 <= r <= j
    /\ forall k, r < k <= j -> char_at pattern k = char_at text (shift + k).
Proof.
  induction rounds as [| rounds IH]; intros j Hj; [simpl; split; intros; lia |]. simpl.
  destruct (Z.leb_spec 0 j) as [Hnonneg | Hneg]; simpl; [| split; intros; lia].
  destruct (bool_decide_reflect (char_at pattern j = char_at text (shift + j)))
    as [Hsame | Hdiff]; [| split; intros; lia].
  destruct (IH (j - 1) ltac:(lia)) as [Hrange Hagree]. split; [lia |].
  intros k Hk. destruct (decide (k = j)) as [-> | Hne]; [done |].
  apply Hagree. lia.
Qed.

(** What the loop of [buildBadCharTable] has stored after [i] characters. *)
Definition last_index_below (pattern : string) (i : Z) (c : ascii) (last : Z) : Prop :=
  0 <= last < i /\ char_at pattern last = Some c
  /\ forall j, last < j < i -> char_at pattern j <> Some c.

Lemma char_at_in_range s i : 0 <= i < strlen s -> is_Some (char_at s i).
Proof.
  intros Hi. rewrite char_at_chars by lia. apply lookup_lt_is_Some.
  rewrite length_chars. unfold strlen in Hi. lia.
Qed.

Lemma char_at_Some_range s i c : char_at s i = Some c -> 0 <= i < strlen s.
Proof.
  unfold char_at, strlen. destruct (Z.ltb_spec i 0); [done |].
  rewrite get_chars. intros Hchar%lookup_lt_Some. rewrite length_chars in Hchar. lia.
Qed.

Lemma buildBadCharTable_spec (pattern : string) :
  (forall c last,
     buildBadCharTable pattern !! c = Some last
     <-> last_index_below pattern (strlen pattern) c last)
  /\ (forall c,
        buildBadCharTable pattern !! c = None
        <-> forall j, 0 <= j < strlen pattern -> char_at pattern j <> Some c).
Proof.
  unfold buildBadCharTable.
  pose proof (for_up_inv
    (fun i (table : gmap ascii Z) =>
       i <= strlen pattern
       /\ (forall c last, table !! c = Some last <-> last_index_below pattern i c last)
       /\ (forall c, table !! c = None
                     <-> forall j, 0 <= j < i -> char_at pattern j <> Some c))
    (String.length pattern) 0
    (fun i table =>
       match char_at pattern i with
       | Some c => <[c := i]> table
       | None => table
       end) ∅) as Hinv.
  simpl in Hinv. apply Hinv; clear Hinv.
  - split_and!; [unfold strlen; lia | |].
    + intros c' last'. rewrite lookup_empty. unfold last_index_below.
      split; [done |]. intros [? _]. lia.
    + intros c'. rewrite lookup_empty. split; [intros _ j Hj; lia | done].
  - intros k table Hk (_ & Htable & Hnone). split; [unfold strlen; lia |].
    destruct (char_at_in_range pattern k) as [a Ha]; [unfold strlen; lia |].
    rewrite Ha. split.
    + intros c' last'.
      destruct (decide (a = c')) as [<- | Hne].
      * rewrite lookup_insert_eq. unfold last_index_below. split.
        -- intros [= <-]. split; [lia |]. split; [done |]. intros j Hj. lia.
        -- intros (Hrange & Hchar & Hlast).
           destruct (decide (last' = k)) as [-> | Hbelow]; [done |].
           exfalso. apply (Hlast k); [lia | done].
      * rewrite lookup_insert_ne by done. rewrite Htable. unfold last_index_below.
        split.
        -- intros (Hrange & Hchar & Hlast). split; [lia |]. split; [done |].
           intros j Hj. destruct (decide (j = k)) as [-> | Hjk].
           ++ rewrite Ha. congruence.
           ++ apply Hlast. lia.
        -- intros (Hrange & Hchar & Hlast).
           assert (last' <> k) by (intros ->; congruence).
           split; [lia |]. split; [done |]. intros j Hj. apply Hlast. lia.
    + intros c'.
      destruct (decide (a = c')) as [<- | Hne].
      * rewrite lookup_insert_eq. split; [done |].
        intros Habsent. exfalso. apply (Habsent k); [lia | done].
      * rewrite lookup_insert_ne by done. rewrite Hnone. split.
        -- intros Habsent j Hj. destruct (decide (j = k)) as [-> | Hjk].
           ++ rewrite Ha. congruence.
           ++ apply Habsent. lia.
        -- intros Habsent j Hj. apply Habsent. lia.
Qed.

Lemma badChar_index_range pattern x last :
  x ≫= (buildBadCharTable pattern !!.) = Some last -> 0 <= last < strlen pattern.
Proof.
  destruct x as [c |]; simpl; [| done].
  intros Hlast. apply buildBadCharTable_spec in Hlast. by destruct Hlast.
Qed.

(** X9. [buildBadCharTable(pattern)] holds, for each character of the
    pattern, the last index at which it stands, and nothing for a character
    that the pattern does not have. *)
Theorem buildBadCharTable_last_index (pattern : string) (c : ascii) :
  (forall last,
     buildBadCharTable pattern !! c = Some last
     <-> 0 <= last < strlen pattern /\ char_at pattern last = Some c
         /\ forall j, last < j < strlen pattern -> char_at pattern j <> Some c)
  /\ (buildBadCharTable pattern !! c = None
      <-> forall j, char_at pattern j <> Some c).
Proof.
  destruct (buildBadCharTable_spec pattern) as [Hsome Hnone].
  split; [intros last; apply Hsome |].
  rewrite Hnone. split.
  - intros Habsent j Hj. by apply (Habsent j); [eapply char_at_Some_range |].
  - intros Habsent j _. apply Habsent.
Qed.

(** The outer loop from any window on: with a non-empty pattern the window
    moves right every round. *)
Lemma boyerMoore_loop_spec text pattern :
  0 < strlen pattern ->
  forall rounds shift positions,
    0 <= shift ->
    Z.max 0 (strlen text - strlen pattern - shift + 1) < Z.of_nat rounds ->
    Forall (occurs_at text pattern) positions ->
    StronglySorted Z.lt positions ->
    Forall (fun p => p < shift) positions ->
    exists found,
      boyerMoore_loop rounds text pattern (buildBadCharTable pattern) shift positions
      = Some found
      /\ Forall (occurs_at text pattern) found
      /\ StronglySorted Z.lt found.
Proof.
  intros Hpattern.
  induction rounds as [| rounds IH]; intros shift positions Hshift Hrounds Hoccur Hsorted Hbelow;
    [lia |].
  cbn [boyerMoore_loop].
  destruct (Z.leb_spec shift (strlen text - strlen pattern)) as [Hfits | Hends];
    [| by exists positions].
  destruct (boyerMoore_compare_spec text pattern shift (String.length pattern)
              (strlen pattern - 1)) as [Hrange Hagree]; [unfold strlen; lia |].
  cbv zeta in Hrange, Hagree.
  set (j := boyerMoore_compare (String.length pattern) text pattern shift
              (strlen pattern - 1)) in *.
  destruct (Z.ltb_spec j 0) as [Hmatch | Hmismatch].
  - set (step := if shift + strlen pattern <? strlen text then _ else _).
    assert (Hstep : 1 <= step).
    { unfold step.
      destruct (shift + strlen pattern <? strlen text); [| lia].
      destruct (char_at text (shift + strlen pattern) ≫= (buildBadCharTable pattern !!.))
        as [last |] eqn:Hlast; [| lia].
      apply badChar_index_range in Hlast.
      destruct (Z.eqb_spec (strlen pattern - last) 0); lia. }
    apply IH.
    + lia.
    + lia.
    + apply Forall_app. split; [done |]. constructor; [| done].
      apply occurs_at_window; [done | lia |]. intros k Hk. apply Hagree. lia.
    + apply StronglySorted_app_2; [| done | repeat constructor].
      intros p q Hp ->%list_elem_of_singleton.
      rewrite Forall_forall in Hbelow. by apply Hbelow.
    + apply Forall_app. split.
      * eapply Forall_impl; [exact Hbelow |]. simpl. intros; lia.
      * constructor; [lia | done].
  - apply IH; [lia | lia | done | done |].
    eapply Forall_impl; [exact Hbelow |]. simpl. intros; lia.
Qed.

(** X10. With a non-empty pattern [boyerMooreSearch] returns, within
    [text.length + 2] rounds of its loop, and what it returns are offsets
    at which the pattern does occur in the text, in increasing order. *)
Theorem boyerMooreSearch_sound (text pattern : string) :
  pattern <> EmptyString ->
  exists positions,
    boyerMooreSearch text pattern = Some positions
    /\ Forall (occurs_at text pattern) positions
    /\ StronglySorted Z.lt positions.
Proof.
  intros Hpattern. unfold boyerMooreSearch.
  assert (0 < strlen pattern) by (unfold strlen; destruct pattern; [done | simpl; lia]).
  apply boyerMoore_loop_spec; try done.
  - unfold strlen in *. lia.
  - constructor.
Qed.

Lemma boyerMooreSearch_sound_witness :
  exists positions,
    boyerMooreSearch "abcabcab" "abc" = Some positions
    /\ Forall (occurs_at "abcabcab" "abc") positions
    /\ StronglySorted Z.lt positions.
Proof. apply (boyerMooreSearch_sound "abcabcab" "abc"). discriminate. Defined.

(** X11. With the empty pattern and a non-empty text the loop of
    [boyerMooreSearch] never ends: the step is
    [0 - undefined || 0], the window stays at offset 0, and no number of
    rounds reaches the [return]. *)
Theorem boyerMooreSearch_empty_pattern_never_returns (text : string) :
  text <> EmptyString ->
  (forall rounds positions,
     boyerMoore_loop rounds text "" (buildBadCharTable "") 0 positions = None)
  /\ boyerMooreSearch text "" = None.
Proof.
  intros Htext.
  assert (Hlength : 0 < strlen text) by (unfold strlen; destruct text; [done | simpl; lia]).
  assert (Hloop : forall rounds positions,
             boyerMoore_loop rounds text "" (buildBadCharTable "") 0 positions = None).
  { induction rounds as [| rounds IH]; intros positions; [done |].
    cbn [boyerMoore_loop].
    change (strlen "") with 0. change (buildBadCharTable "") with (∅ : gmap ascii Z).
    rewrite Z.sub_0_r.
    destruct (Z.leb_spec 0 (strlen text)) as [_ | ?]; [| lia].
    cbn [boyerMoore_compare String.length].
    change (0 - 1 <? 0) with true. cbv iota.
    rewrite !Z.add_0_l.
    destruct (Z.ltb_spec 0 (strlen text)) as [_ | ?]; [| lia].
    assert (Hnone : char_at text 0 ≫= ((∅ : gmap ascii Z) !!.) = None).
    { destruct (char_at text 0); [apply lookup_empty | done]. }
    rewrite Hnone. apply IH. }
  split; [done | apply Hloop].
Qed.

Lemma boyerMooreSearch_empty_pattern_never_returns_witness :
  (forall rounds positions,
     boyerMoore_loop rounds "ab" "" (buildBadCharTable "") 0 positions = None)
  /\ boyerMooreSearch "ab" "" = None.
Proof. apply (boyerMooreSearch_empty_pattern_never_returns "ab"). discriminate. Defined.

End BoyerMoore.

(** ** The sorting engine: the order that [topologicalSort] returns *)

Section TopologicalOrder.
Import SortingEngine Graph.
Local Open Scope Z_scope.

Variable courses : list Course.

(** [courses.find(c => c.id === u)] *)
Definition found (u : string) : option Course :=
  find (fun c => String.eqb (id c) u) courses.

(** Every identifier of [visited] stands after the identifiers of the
    courses that list it as a prerequisite. *)
Definition dependents_first (visited : list string) : Prop :=
  forall i v, visited !! i = Some v ->
    forall w, depends courses w v -> exists j, (j < i)%nat /\ visited !! j = Some w.

Record kahn_order (visited : list string) (st : kahn_state) : Prop := {
  order_inv : kahn_inv courses visited st;
  order_first : dependents_first visited;
  order_result : result st = map found visited
}.

(** An identifier is enqueued once every course that lists it has been
    dequeued. *)
Lemma kahn_inv_dependents visited st v w :
  kahn_inv courses visited st ->
  v ∈ visited ++ queue st -> depends courses w v -> w ∈ visited.
Proof.
  intros Hinv Hv Hwv.
  destruct (decide (w ∈ visited)) as [Hin | Hout]; [done |].
  destruct (inv_spent _ _ _ Hinv v Hv) as [_ Hspent].
  pose proof (inv_pending _ _ _ Hinv v).
  pose proof (pending_edge _ _ _ _ Hwv Hout). lia.
Qed.

Lemma kahn_order_init : kahn_order [] (kahn_init courses).
Proof.
  split; [apply kahn_init_inv | | done].
  intros i v Hi. by rewrite lookup_nil in Hi.
Qed.

Lemma kahn_order_runs rounds :
  forall visited st,
    kahn_order visited st ->
    exists visited', kahn_order visited' (kahn courses (build_graph courses) rounds st).
Proof.
  induction rounds as [| rounds IH]; intros visited st Horder; [by exists visited |].
  destruct (queue st) as [| u rest] eqn:Hqueue.
  - rewrite kahn_idle by done. by exists visited.
  - destruct Horder as [Hinv Hfirst Hresult].
    destruct (kahn_round_inv courses visited st u rest Hinv Hqueue)
      as (m' & q' & Heq & Hinv').
    rewrite (kahn_round courses rounds st u rest m' q' Hqueue Heq).
    apply (IH (visited ++ [u])). split; [done | |].
    + intros i v Hi w Hwv.
      destruct (decide (i < length visited)%nat) as [Hold | Hnew].
      * rewrite lookup_app_l in Hi by done.
        destruct (Hfirst i v Hi w Hwv) as (j & Hj & Hw).
        exists j. split; [done |]. rewrite lookup_app_l by lia. done.
      * rewrite lookup_app_r in Hi by lia.
        apply list_lookup_singleton_Some in Hi as [Hi <-].
        assert (Hw : w ∈ visited).
        { apply (kahn_inv_dependents visited st u w Hinv); [| done].
          rewrite Hqueue. apply elem_of_app. right. left. }
        apply list_elem_of_lookup in Hw as [j Hj].
        exists j. pose proof (lookup_lt_Some _ _ _ Hj).
        split; [lia |]. by rewrite lookup_app_l by done.
    + simpl. by rewrite Hresult, map_app.
Qed.

(** X12. The list that [topologicalSort] returns has each course before
    its prerequisites: when a course of the list is a prerequisite of a
    course of the collection, a course with that identifier stands earlier
    in the list. No identifier stands in the list twice. *)
Theorem topologicalSort_dependents_first :
  exists sorted,
    topologicalSort courses = Returns sorted
    /\ (forall i prerequisite course,
          sorted !! i = Some (Some prerequisite) ->
          course ∈ courses -> id prerequisite ∈ prereqs course ->
          exists j dependent,
            (j < i)%nat /\ sorted !! j = Some (Some dependent)
            /\ id dependent = id course)
    /\ (forall i j first second,
          sorted !! i = Some (Some first) -> sorted !! j = Some (Some second) ->
          id first = id second -> i = j).
Proof.
  eexists. split; [reflexivity |].
  destruct (kahn_order_runs (length (inDegree (kahn_init courses))) []
              (kahn_init courses) kahn_order_init) as [visited [Hinv Hfirst Hresult]].
  rewrite Hresult.
  assert (Hfound : forall i c, map found visited !! i = Some (Some c) ->
                               visited !! i = Some (id c)).
  { intros i c Hi. rewrite list_lookup_fmap in Hi.
    destruct (visited !! i) as [u |]; [| done]. simpl in Hi.
    injection Hi as Hu. apply find_some in Hu as [_ Hid%String.eqb_eq]. by rewrite Hid. }
  split.
  - intros i prerequisite course Hi Hcourse Hprereq.
    apply Hfound in Hi.
    assert (Hdepends : depends courses (id course) (id prerequisite)).
    { apply depends_course. by exists course. }
    destruct (Hfirst i _ Hi _ Hdepends) as (j & Hj & Hw).
    destruct (found (id course)) as [dependent |] eqn:Hdependent.
    + exists j, dependent. split_and!; [done | |].
      * by rewrite list_lookup_fmap, Hw; simpl; rewrite Hdependent.
      * unfold found in Hdependent.
        by apply find_some in Hdependent as [_ Hid%String.eqb_eq].
    + unfold found in Hdependent.
      apply list_elem_of_In in Hcourse.
      apply (find_none _ _ Hdependent course) in Hcourse.
      by rewrite String.eqb_refl in Hcourse.
  - intros i j first second Hi Hj Hid.
    apply Hfound in Hi. apply Hfound in Hj. rewrite Hid in Hi.
    pose proof (inv_once _ _ _ Hinv) as Honce.
    apply NoDup_app in Honce as (Hnd & _ & _).
    by apply (NoDup_lookup visited i j (id second)).
Qed.

End TopologicalOrder.

(** ** The search engine: thresholds that admit nothing *)

Section FuzzyThreshold.
Import Types Binary64 SearchEngine EditDistance.

(** [x <= y] holds of numbers only. *)
Lemma leb_true_num x y : (x <=? y)%float = true -> is_num x /\ is_num y.
Proof.
  rewrite leb_spec. unfold SFleb, is_num, is_number.
  destruct (Prim2SF x), (Prim2SF y); intros Hle; try discriminate Hle; split; discriminate.
Qed.

(** X13. [fuzzySearch] returns no record when the threshold is not at most
    [1], that is when it is above [1] or [NaN]: no similarity exceeds
    [1.0]. *)
Theorem fuzzySearch_threshold_above_one
    (students : list Student) (query : string) (threshold : float) :
  (strlen (toLowerCase query) < 2 ^ 53)%Z ->
  Forall (fun student => (strlen (searchableText student) < 2 ^ 53)%Z) students ->
  (threshold <=? 1)%float = false ->
  fuzzySearch students query threshold = [].
Proof.
  intros Hquery Hlengths Hthreshold. rewrite fuzzySearch_unfold. unfold scored.
  assert (Hnone :
    filter (fun student => (threshold <=? record_similarity query student)%float = true)
      students = []).
  { induction Hlengths as [| student students Hlength _ IH]; [done |].
    rewrite filter_cons, IH.
    destruct (decide ((threshold <=? record_similarity query student)%float = true))
      as [Hreached |]; [| done].
    exfalso.
    pose proof (record_similarity_le_one query Hquery student Hlength) as Hone.
    destruct (leb_true_num _ _ Hreached) as [Hnum Hscore].
    destruct (leb_true_num _ _ Hone) as [_ Hnum1].
    rewrite leb_key in Hreached, Hone, Hthreshold by done.
    apply Z.leb_le in Hreached, Hone. apply Z.leb_gt in Hthreshold. lia. }
  by rewrite Hnone.
Qed.

Lemma fuzzySearch_threshold_above_one_witness :
  fuzzySearch [sample_student "s1" 3.5; sample_student "s2" 2] "Ada Byron ada@uni.edu s2" 1.5
  = [].
Proof.
  apply fuzzySearch_threshold_above_one.
  - vm_compute. reflexivity.
  - repeat constructor.
  - reflexivity.
Defined.

End FuzzyThreshold.

(** ** The analytics engine: what k-means returns *)

Section KMeansOutcome.
Import Types AnalyticsEngine.
Variable parseFloat : string -> float.
Variable random : nat -> float.
Local Open Scope float_scope.

Lemma map_const_replicate {A B : Type} (b : B) (l : list A) :
  map (fun _ => b) l = replicate (length l) b.
Proof. induction l as [| a l IH]; simpl; [done | by rewrite IH]. Qed.

(** Points without coordinates are at distance [0] of anything. *)
Lemma calculateInertia_no_coordinates n centroids assignments :
  calculateInertia (replicate n []) centroids assignments = Returns 0.
Proof.
  unfold calculateInertia.
  assert (Hfold : forall i,
    fst (foldl (fun '(acc, index) (point : list float) =>
                  (bind acc (fun sum =>
                     match mjoin (assignments !! index) ≫= (centroids !!.) with
                     | Some centroid =>
                         Returns (sum + JsMath.pow2 (euclideanDistance point centroid))
                     | None =>
                         match point with
                         | [] => Returns (sum + JsMath.pow2 (PrimFloat.sqrt 0))
                         | _ :: _ => Throws TypeError
                         end
                     end),
                   S index))
           (Returns 0, i) (replicate n []))
    = Returns 0).
  { induction n as [| n IH]; intros i; [done |].
    cbn [replicate foldl bind].
    destruct (mjoin (assignments !! i) ≫= (centroids !!.)) as [centroid |]; apply IH. }
  apply Hfold.
Qed.

(** X14. [kMeansClustering] assigns no student to any cluster. On an empty
    collection, and on every collection when a feature is named, the call
    throws a [TypeError]. On a non-empty collection and no feature it
    returns [k] empty clusters, [k] centroids without coordinates, an
    [assignments] array that holds nothing, and inertia [0]. *)
Theorem kMeansClustering_never_assigns
    (students : list Student) (k : nat) (features : list string) (maxIterations : nat) :
  match students, features with
  | [], _ | _ :: _, _ :: _ =>
      kMeansClustering parseFloat random students k features maxIterations
      = Throws TypeError
  | _ :: _, [] =>
      kMeansClustering parseFloat random students k features maxIterations
      = Returns {| clusters := replicate k [];
                   centroids := replicate k [];
                   assignments := replicate (length students) None;
                   inertia := 0 |}
  end.
Proof.
  destruct students as [| student students]; [done |].
  destruct features as [| feature features]; [| apply kMeansClustering_throws].
  unfold kMeansClustering. cbn [map initializeCentroids bind].
  rewrite kMeans_loop_first_round. cbn [bind].
  rewrite groupByCluster_holes. cbn [bind length seq map].
  rewrite !map_const_replicate, length_seq.
  change (@nil float :: replicate (length students) [])
    with (replicate (S (length students)) (@nil float)).
  rewrite calculateInertia_no_coordinates. cbn [bind].
  rewrite length_replicate. do 2 f_equal.
  induction k as [| k IH]; simpl; [done | by rewrite IH].
Qed.

End KMeansOutcome.

(** ** The analytics engine: performance trends *)

Section Trends.
Import Binary64 AnalyticsEngine.
Local Open Scope Z_scope.

(** A loop that pushes one element per round. *)
Lemma for_up_push {A : Type} (g : Z -> A) n :
  forall start acc,
    for_up n start (fun i result => result ++ [g i]) acc
    = acc ++ map (fun k => g (start + Z.of_nat k)) (seq 0 n).
Proof.
  induction n as [| n IH]; intros start acc; simpl.
  - by rewrite app_nil_r.
  - rewrite IH, <- app_assoc, Z.add_0_r. simpl. do 2 f_equal.
    rewrite <- seq_shift, map_map. apply map_ext. intros k. f_equal. lia.
Qed.

Lemma slice_window {T : Type} (values : list T) (k window : Z) :
  0 <= k -> 0 <= window -> k + window <= Z.of_nat (length values) ->
  slice values k (k + window) = take (Z.to_nat window) (drop (Z.to_nat k) values).
Proof.
  intros Hk Hwindow Hfits. unfold slice.
  destruct (Z.ltb_spec k 0); [lia |]. destruct (Z.ltb_spec (k + window) 0); [lia |].
  rewrite !Z.min_l by lia. f_equal. lia.
Qed.

Lemma calculateMovingAverage_spec (values : list float) (window : Z) :
  1 <= window ->
  calculateMovingAverage values window
  = map (fun k => (total (take (Z.to_nat window) (drop k values)) / JsMath.of_Z window)%float)
      (seq 0 (length values + 1 - Z.to_nat window)).
Proof.
  intros Hwindow. unfold calculateMovingAverage.
  rewrite (for_up_push
             (fun i => (total (slice values (i - window + 1) (i + 1)) / JsMath.of_Z window)%float)).
  simpl app.
  replace (Z.to_nat (Z.of_nat (length values) - (window - 1)))
    with (length values + 1 - Z.to_nat window)%nat by lia.
  apply map_ext_in. intros k Hk%in_seq.
  replace (window - 1 + Z.of_nat k - window + 1) with (Z.of_nat k) by lia.
  replace (window - 1 + Z.of_nat k + 1) with (Z.of_nat k + window) by lia.
  rewrite slice_window by lia. by rewrite Nat2Z.id.
Qed.

(** X15. [calculateMovingAverage(values, window)], for a window of one or
    more: the result has one entry for each run of [window] consecutive
    values (none when there are fewer values than that), and entry [k] is
    the sum of the values [k .. k + window - 1], added from the left,
    divided by the window. *)
Theorem calculateMovingAverage_windows (values : list float) (window : Z) :
  1 <= window ->
  calculateMovingAverage values window
  = map (fun k => (total (take (Z.to_nat window) (drop k values)) / JsMath.of_Z window)%float)
      (seq 0 (length values + 1 - Z.to_nat window))
  /\ length (calculateMovingAverage values window)
     = (length values + 1 - Z.to_nat window)%nat.
Proof.
  intros Hwindow. rewrite calculateMovingAverage_spec by done.
  split; [done |]. by rewrite length_map, length_seq.
Qed.

Lemma calculateMovingAverage_windows_witness :
  calculateMovingAverage [1; 2; 3; 4]%float 3
  = map (fun k => (total (take (Z.to_nat 3) (drop k [1; 2; 3; 4]%float)) / JsMath.of_Z 3)%float)
      (seq 0 (length [1; 2; 3; 4]%float + 1 - Z.to_nat 3))
  /\ length (calculateMovingAverage [1; 2; 3; 4]%float 3)
     = (length [1; 2; 3; 4]%float + 1 - Z.to_nat 3)%nat.
Proof. apply (calculateMovingAverage_windows [1; 2; 3; 4]%float 3). lia. Defined.

(** [x < y] holds of numbers only. *)
Lemma ltb_true_num x y : (x <? y)%float = true -> is_num x /\ is_num y.
Proof.
  rewrite ltb_spec. unfold SFltb, is_num, is_number.
  destruct (Prim2SF x), (Prim2SF y); intros Hlt; try discriminate Hlt; split; discriminate.
Qed.

Lemma ltb_trans x y z :
  (x <? y)%float = true -> (y <? z)%float = true -> (x <? z)%float = true.
Proof.
  intros Hxy Hyz.
  destruct (ltb_true_num _ _ Hxy) as [Hx Hy]. destruct (ltb_true_num _ _ Hyz) as [_ Hz].
  rewrite ltb_key in * by done. apply Z.ltb_lt in Hxy, Hyz. apply Z.ltb_lt. lia.
Qed.

(** X16. [detectSeasonality] returns either the period [1] with strength
    [0] (always so for fewer than four values), or a period between [2]
    and half the number of values with a strength above [0]; the strength
    is never [NaN] and never negative. *)
Theorem detectSeasonality_range (values : list float) :
  let found := detectSeasonality values in
  (period found = 1 /\ strength found = 0%float)
  \/ (2 <= period found <= Z.of_nat (length values) / 2
      /\ (0 <? strength found)%float = true).
Proof.
  cbv zeta. unfold detectSeasonality.
  pose proof (for_up_inv
    (fun i (st : float * Z) =>
       (snd st = 1 /\ fst st = 0%float)
       \/ (2 <= snd st < i /\ (0 <? fst st)%float = true))
    (Z.to_nat (Z.of_nat (length values) / 2 - 1)) 2
    (fun period '(maxCorrelation, bestPeriod) =>
       let correlation := autocorrelation values period in
       if (maxCorrelation <? correlation)%float then (correlation, period)
       else (maxCorrelation, bestPeriod))
    (0%float, 1)) as Hinv.
  destruct (for_up _ _ _ _) as [maxCorrelation bestPeriod]. simpl in *.
  destruct Hinv as [Hnone | Hsome].
  - by left.
  - intros k [m b] Hk [[Hb Hm] | [Hb Hm]]; simpl in *.
    + destruct (m <? autocorrelation values k)%float eqn:Hlt; simpl.
      * right. split; [lia |]. by rewrite <- Hm.
      * by left.
    + destruct (m <? autocorrelation values k)%float eqn:Hlt; simpl.
      * right. split; [lia |]. by apply (ltb_trans _ m).
      * right. split; [lia | done].
  - by left.
  - right. split; [lia | by destruct Hsome].
Qed.

(** X17. [analyzePerformanceTrends] throws the error of
    [calculateStatistics] on fewer than two data points: [calculateVolatility]
    passes it the empty list of relative changes. On two points or more it
    returns, with five forecast values and with the moving averages over
    7 and over 30 values, one for each full window. *)
Theorem analyzePerformanceTrends_needs_two_points (performanceData : list (float * float)) :
  match performanceData with
  | [] | [_] =>
      analyzePerformanceTrends performanceData
      = Throws (Error "Cannot calculate statistics for empty array")
  | _ :: _ :: _ =>
      exists analysis,
        analyzePerformanceTrends performanceData = Returns analysis
        /\ length (forecast analysis) = 5%nat
        /\ length (movingAverages_short analysis) = (length performanceData - 6)%nat
        /\ length (movingAverages_long analysis) = (length performanceData - 29)%nat
  end.
Proof.
  destruct performanceData as [| first [| second rest]]; [done | done |].
  unfold analyzePerformanceTrends, calculateVolatility.
  set (values := map snd (first :: second :: rest)).
  change (drop 1 values) with (snd second :: map snd rest).
  cbn [imap calculateStatistics bind].
  eexists. split; [reflexivity |]. cbn [forecast movingAverages_short movingAverages_long].
  split_and!.
  - reflexivity.
  - rewrite calculateMovingAverage_spec by lia.
    rewrite length_map, length_seq. unfold values. rewrite length_map. simpl length. lia.
  - rewrite calculateMovingAverage_spec by lia.
    rewrite length_map, length_seq. unfold values. rewrite length_map. simpl length. lia.
Qed.

End Trends.

(** ** The analytics engine: the correlation matrix *)

Section CorrelationFacts.
Import Types Binary64 AnalyticsEngine.
Variable parseFloat : string -> float.
Local Open Scope float_scope.

Lemma SFmul_comm x y : SF64mul x y = SF64mul y x.
Proof.
  destruct x as [sx | sx | | sx mx ex], y as [sy | sy | | sy my ey]; simpl;
    try done; try by rewrite xorb_comm.
  by rewrite xorb_comm, Pos.mul_comm, Z.add_comm.
Qed.

Lemma mul_comm (a b : float) : a * b = b * a.
Proof. apply Prim2SF_inj. rewrite !mul_spec. apply SFmul_comm. Qed.

(** The sum of the products, over the tails of two columns of one length. *)
Lemma products_comm (x' y' : list float) :
  length x' = length y' ->
  forall (px py : list float) sum,
    length px = length py ->
    fst (foldl (fun '(sum, i) xi => (sum + xi * nth i (py ++ y') nan, S i))
           (sum, length px) x')
    = fst (foldl (fun '(sum, i) yi => (sum + yi * nth i (px ++ x') nan, S i))
             (sum, length py) y').
Proof.
  revert y'. induction x' as [| a x' IH]; intros [| b y'] Hlength px py sum Hprefix;
    try done.
  cbn [foldl].
  rewrite Hprefix at 1. rewrite !app_nth2 by lia. rewrite Hprefix at 2.
  rewrite !Nat.sub_diag. cbn [nth].
  rewrite (mul_comm a b).
  pose proof (IH y' ltac:(simpl in Hlength; lia) (px ++ [a]) (py ++ [b]) (sum + b * a)
                ltac:(rewrite !length_app; simpl; lia)) as Hrest.
  rewrite !length_app in Hrest. simpl in Hrest.
  rewrite <- !app_assoc in Hrest. simpl in Hrest.
  rewrite !Nat.add_1_r in Hrest. exact Hrest.
Qed.

Lemma pearsonCorrelation_comm (x y : list float) :
  length x = length y -> pearsonCorrelation x y = pearsonCorrelation y x.
Proof.
  intros Hlength. unfold pearsonCorrelation.
  pose proof (products_comm x y Hlength [] [] 0 eq_refl) as Hproducts.
  simpl in Hproducts. rewrite Hproducts, Hlength.
  rewrite (mul_comm (total x) (total y)).
  by rewrite (mul_comm (JsMath.of_nat (length y) * foldl (fun sum xi => sum + xi * xi) 0 x
                        - total x * total x)).
Qed.

(** X18. [pearsonCorrelation] does not depend on the order of its two
    columns when they have one length. *)
Theorem pearsonCorrelation_symmetric (x y : list float) :
  length x = length y -> pearsonCorrelation x y = pearsonCorrelation y x.
Proof. apply pearsonCorrelation_comm. Qed.

Lemma pearsonCorrelation_symmetric_witness :
  pearsonCorrelation [1; 2; 4] [3; 5; 6] = pearsonCorrelation [3; 5; 6] [1; 2; 4].
Proof. apply (pearsonCorrelation_symmetric [1; 2; 4] [3; 5; 6]). reflexivity. Defined.

(** [findStrongCorrelations] returns when the matrix has a row for each
    feature, and then every pair it returns reaches the threshold. *)
Lemma findStrongCorrelations_returns matrix features threshold :
  (length features <= length matrix)%nat ->
  exists strong,
    findStrongCorrelations matrix features threshold = Returns strong
    /\ Forall (fun c => (threshold <=? PrimFloat.abs (correlation c)) = true) strong.
Proof.
  intros Hrows. unfold findStrongCorrelations.
  set (reaches := fun c => (threshold <=? PrimFloat.abs (correlation c)) = true).
  set (kept := fun (_ : Z) (acc : outcome (list StrongCorrelation)) =>
                 exists l, acc = Returns l /\ Forall reaches l).
  set (n := length features) in *.
  match goal with
  | |- context [bind (for_up n 0 ?body ?init)] =>
      assert (Hloop : kept (0 + Z.of_nat n)%Z (for_up n 0 body init))
  end.
  { apply (for_up_inv kept).
    - exists []. by split.
    - intros i acc Hi Hacc.
      match goal with
      | |- kept _ (for_up ?m ?start ?body acc) =>
          pose proof (for_up_inv kept m start body acc Hacc) as Hinner
      end.
      assert (Hstep : kept (i + 1 + Z.of_nat (n - S (Z.to_nat i)))%Z
                        (for_up (n - S (Z.to_nat i)) (i + 1)
                           (fun j correlations =>
                              bind correlations (fun correlations =>
                                match matrix !! Z.to_nat i with
                                | None => Throws TypeError
                                | Some row =>
                                    let correlation := get nan row j in
                                    if threshold <=? PrimFloat.abs correlation then
                                      Returns
                                        (correlations
                                         ++ [{| feature1 := features !! Z.to_nat i;
                                                feature2 := features !! Z.to_nat j;
                                                correlation := correlation |}])
                                    else Returns correlations
                                end))
                           acc)).
      { apply Hinner. intros j acc' Hj (l & -> & Hl). cbn [bind].
        destruct (lookup_lt_is_Some_2 matrix (Z.to_nat i)) as [row Hrow]; [lia |].
        rewrite Hrow. cbv zeta.
        destruct (threshold <=? PrimFloat.abs (get nan row j)) eqn:Hreaches.
        - eexists. split; [reflexivity |]. apply Forall_app. split; [done |].
          constructor; [exact Hreaches | constructor].
        - by exists l. }
      destruct Hstep as (l & Hl & Hforall). exists l. by split. }
  destruct Hloop as (l & -> & Hforall). cbn [bind].
  eexists. split; [reflexivity |].
  by rewrite Array_sort_Permutation.
Qed.

(** X19. [calculateCorrelationMatrix] returns a square matrix, one row and
    one column for each feature, which is symmetric; and every pair it
    lists as strongly correlated has a correlation of magnitude [0.7] at
    least. *)
Theorem calculateCorrelationMatrix_symmetric (students : list Student) (features : list string) :
  exists result,
    calculateCorrelationMatrix parseFloat students features = Returns result
    /\ length (matrix result) = length features
    /\ Forall (fun row => length row = length features) (matrix result)
    /\ (forall i j,
          get nan (get [] (matrix result) i) j = get nan (get [] (matrix result) j) i)
    /\ Forall (fun c => (0x1.6666666666666p-1 <=? PrimFloat.abs (correlation c)) = true)
         (strongCorrelations result).
Proof.
  unfold calculateCorrelationMatrix.
  set (featureData :=
         map (fun feature =>
                map (fun student => extractNumericFeature parseFloat student feature) students)
           features).
  set (rows := map (fun column1 =>
                      map (fun column2 => pearsonCorrelation column1 column2) featureData)
                 featureData).
  assert (Hcount : length featureData = length features)
    by (unfold featureData; by rewrite length_map).
  assert (Hcolumns : forall a column, featureData !! a = Some column ->
                                      length column = length students).
  { intros a column Ha. unfold featureData in Ha. rewrite list_lookup_fmap in Ha.
    destruct (features !! a); [| done]. injection Ha as <-. by rewrite length_map. }
  assert (Hrows : length rows = length features)
    by (unfold rows; by rewrite length_map).
  destruct (findStrongCorrelations_returns rows features 0x1.6666666666666p-1)
    as (strong & -> & Hstrong); [lia |].
  cbn [bind]. eexists. split; [reflexivity |].
  cbn [matrix strongCorrelations]. split_and!; [done | | | done].
  - unfold rows. apply Forall_map, Forall_forall. intros column _. simpl.
    by rewrite length_map.
  - assert (Hentry : forall a b,
               default nan (default [] (rows !! a) !! b)
               = match featureData !! a, featureData !! b with
                 | Some column1, Some column2 => pearsonCorrelation column1 column2
                 | _, _ => nan
                 end).
    { intros a b. unfold rows. rewrite list_lookup_fmap.
      destruct (featureData !! a) as [column1 |]; simpl; [| done].
      rewrite list_lookup_fmap. by destruct (featureData !! b). }
    intros i j. unfold get.
    destruct (Z.leb_spec 0 i) as [Hi | Hi], (Z.leb_spec 0 j) as [Hj | Hj];
      try (by destruct (Z.to_nat i), (Z.to_nat j)); try (by destruct (Z.to_nat j));
      try (by destruct (Z.to_nat i)).
    rewrite !nth_lookup, !Hentry.
    destruct (featureData !! Z.to_nat i) as [column1 |] eqn:H1,
             (featureData !! Z.to_nat j) as [column2 |] eqn:H2; try done.
    apply pearsonCorrelation_comm.
    by rewrite (Hcolumns _ _ H1), (Hcolumns _ _ H2).
Qed.

End CorrelationFacts.

(** ** The sorting engine: [bucketSort] on equal grades *)

Section BucketEqual.
Import Binary64 SortingEngine.
Local Open Scope float_scope.

Lemma SFcompare_refl x : is_number x -> SFcompare x x = Some Eq.
Proof.
  destruct x as [s | s | | s m e]; intros Hx; try done; simpl.
  - by destruct s.
  - rewrite Z.compare_refl, Pos.compare_cont_refl. by destruct s.
Qed.

(** [NaN], or a number. *)
Lemma nan_or_num x : x = nan \/ is_num x.
Proof.
  unfold is_num, is_number. destruct (Prim2SF x) eqn:Hx; try (right; discriminate).
  left. by apply Prim2SF_inj.
Qed.

Lemma ltb_irrefl x : (x <? x) = false.
Proof.
  rewrite ltb_spec. unfold SFltb.
  destruct (nan_or_num x) as [-> | Hx]; [done |]. by rewrite SFcompare_refl.
Qed.

Lemma min_same x : JsMath.min x x = x.
Proof.
  unfold JsMath.min. destruct (nan_or_num x) as [-> | Hx]; [done |].
  assert (Hnan : PrimFloat.is_nan x = false).
  { unfold PrimFloat.is_nan. rewrite FloatAxioms.eqb_spec. unfold SFeqb.
    by rewrite SFcompare_refl. }
  rewrite Hnan, ltb_irrefl. simpl. by destruct (PrimFloat.get_sign x).
Qed.

Lemma max_same x : JsMath.max x x = x.
Proof.
  unfold JsMath.max. destruct (nan_or_num x) as [-> | Hx]; [done |].
  assert (Hnan : PrimFloat.is_nan x = false).
  { unfold PrimFloat.is_nan. rewrite FloatAxioms.eqb_spec. unfold SFeqb.
    by rewrite SFcompare_refl. }
  rewrite Hnan, ltb_irrefl. simpl. by destruct (PrimFloat.get_sign x).
Qed.

(** [Math.min(Infinity, x)] and [Math.max(-Infinity, x)] are [x]. *)
Lemma min_infinity x : JsMath.min infinity x = x.
Proof.
  unfold JsMath.min. destruct (nan_or_num x) as [-> | Hx]; [done |].
  assert (Hnan : PrimFloat.is_nan x = false).
  { unfold PrimFloat.is_nan. rewrite FloatAxioms.eqb_spec. unfold SFeqb.
    by rewrite SFcompare_refl. }
  rewrite Hnan. simpl.
  assert (Hlt : (infinity <? x) = false).
  { rewrite ltb_spec. unfold SFltb.
    change (Prim2SF infinity) with (S754_infinity false).
    by destruct (Prim2SF x) as [| [|] | |]. }
  rewrite Hlt. by destruct (x <? infinity).
Qed.

Lemma max_neg_infinity x : JsMath.max neg_infinity x = x.
Proof.
  unfold JsMath.max. destruct (nan_or_num x) as [-> | Hx]; [done |].
  assert (Hnan : PrimFloat.is_nan x = false).
  { unfold PrimFloat.is_nan. rewrite FloatAxioms.eqb_spec. unfold SFeqb.
    by rewrite SFcompare_refl. }
  rewrite Hnan. simpl.
  assert (Hlt : (x <? neg_infinity) = false).
  { rewrite ltb_spec. unfold SFltb.
    change (Prim2SF neg_infinity) with (S754_infinity true).
    by destruct (Prim2SF x) as [| [|] | |]. }
  rewrite Hlt. by destruct (neg_infinity <? x).
Qed.

Lemma min_list_equal x n : JsMath.min_list (replicate (S n) x) = x.
Proof.
  unfold JsMath.min_list. cbn [replicate foldl]. rewrite min_infinity.
  induction n as [| n IH]; [done |]. cbn [replicate foldl]. by rewrite min_same.
Qed.

Lemma max_list_equal x n : JsMath.max_list (replicate (S n) x) = x.
Proof.
  unfold JsMath.max_list. cbn [replicate foldl]. rewrite max_neg_infinity.
  induction n as [| n IH]; [done |]. cbn [replicate foldl]. by rewrite max_same.
Qed.

(** [x - x] is a zero, or [NaN] when [x] is infinite or [NaN]. *)
Lemma sub_same x :
  Prim2SF (x - x) = S754_nan \/ exists s, Prim2SF (x - x) = S754_zero s.
Proof.
  rewrite sub_spec. destruct (Prim2SF x) as [s | s | | s m e].
  - right. destruct s; by eexists.
  - left. by destruct s.
  - by left.
  - right. exists false. unfold SF64sub, SFsub. by rewrite Z.sub_diag.
Qed.

(** With a bucket size that comes from a zero range, the quotient that
    names the bucket is [0 / 0]. *)
Lemma bucket_quotient_nan x count :
  ((x - x) / ((x - x) / count)) = nan.
Proof.
  apply Prim2SF_inj. rewrite !div_spec.
  destruct (sub_same x) as [-> | [s ->]]; [done |].
  destruct (Prim2SF count) as [sc | sc | | sc mc ec]; try done.
Qed.

Lemma bucketSort_distribute_thrown min bucketSize bucketLast e grades :
  foldl (bucketSort_distribute min bucketSize bucketLast) (Throws e) grades = Throws e.
Proof. induction grades as [| grade grades IH]; [done | apply IH]. Qed.

Lemma bucketSort_distribute_equal grade count bucketLast buckets :
  bucketSort_distribute grade ((grade - grade) / count) bucketLast (Returns buckets) grade
  = Throws TypeError.
Proof.
  unfold bucketSort_distribute. cbn [bind]. rewrite bucket_quotient_nan.
  change (JsMath.floor nan) with nan.
  by change (JsMath.min nan bucketLast) with nan.
Qed.

(** X20. On an array of two or more grades that are all the same value,
    [bucketSort] throws a [TypeError], for every such value and every
    bucket count that [Array] accepts: the range is [0] (or [NaN]), so is
    the bucket size, and the first grade is pushed to [buckets[NaN]]. The
    caller's arrays are as they were. *)
Theorem bucketSort_equal_grades_throw
    (h : heap float) (grades : loc) (grade : float) (n : nat) (bucketCount : Z) :
  h !! grades = Some (replicate (S (S n)) grade) ->
  (0 <= bucketCount < 2 ^ 32)%Z ->
  bucketSort grades bucketCount h = (Throws TypeError, h).
Proof.
  intros Hgrades Hcount. unfold bucketSort, deref. rewrite Hgrades.
  cbn [default Datatypes.id]. rewrite length_replicate. cbn [Nat.leb].
  destruct (Z.ltb_spec bucketCount 0) as [? | _]; [lia |].
  destruct (Z.leb_spec (2 ^ 32) bucketCount) as [? | _]; [lia |]. cbn [orb].
  rewrite min_list_equal, max_list_equal.
  change (replicate (S (S n)) grade) with (grade :: replicate (S n) grade).
  cbn [foldl]. rewrite bucketSort_distribute_equal.
  by rewrite bucketSort_distribute_thrown.
Qed.

Lemma bucketSort_equal_grades_throw_witness :
  bucketSort 0%nat 10 [[3.5; 3.5; 3.5]] = (Throws TypeError, [[3.5; 3.5; 3.5]]).
Proof. apply (bucketSort_equal_grades_throw [[3.5; 3.5; 3.5]] 0%nat 3.5 1 10); [done | lia]. Defined.

End BucketEqual.

(** ** The analytics engine: the convergence test of k-means *)

Section ArraysEqual.
Import AnalyticsEngine.

(** X21. [arraysEqual(a, b)] holds exactly when the two arrays have one
    length and every slot of [a] that holds a value holds the value that
    [b] has there; a slot of [a] that was never written is not compared.
    So an array created by [new Array(n)] is equal to every array of
    length [n]. *)
Theorem arraysEqual_compares_written_slots (a : list (option nat)) (b : list nat) :
  (arraysEqual a b = true
   <-> length a = length b
       /\ forall i val, a !! i = Some (Some val) -> b !! i = Some val)
  /\ arraysEqual (replicate (length b) None) b = true.
Proof.
  assert (Hspec : arraysEqual a b = true
                  <-> length a = length b
                      /\ forall i val, a !! i = Some (Some val) -> b !! i = Some val).
  { unfold arraysEqual. rewrite andb_true_iff, Nat.eqb_eq, forallb_forall.
    split; intros [Hlength Hslots]; (split; [done |]).
    - intros i val Hi.
      specialize (Hslots (i, Some val)). simpl in Hslots.
      destruct (b !! i) as [val' |] eqn:Hb.
      + f_equal. symmetry. apply Nat.eqb_eq, Hslots.
        apply list_elem_of_In, elem_of_lookup_imap. by exists i, (Some val).
      + discriminate Hslots.
        apply list_elem_of_In, elem_of_lookup_imap. by exists i, (Some val).
    - intros [index slot] Hin.
      apply list_elem_of_In, elem_of_lookup_imap in Hin as (i & slot' & [= -> ->] & Hlook).
      destruct slot' as [val |]; [| done].
      rewrite (Hslots _ _ Hlook). apply Nat.eqb_refl. }
  split; [exact Hspec |].
  apply arraysEqual_holes. done.
Qed.

End ArraysEqual.

(** ** The sorting engine: [topologicalSort] on acyclic collections *)

Section TopologicalComplete.
Import SortingEngine Graph.
Local Open Scope Z_scope.

Lemma occurrences_pos v ps : 1 <= occurrences v ps -> v ∈ ps.
Proof.
  unfold occurrences. intros Hpos.
  destruct (filter (fun p => p = v) ps) as [| p rest] eqn:Hfilter; [simpl in Hpos; lia |].
  assert (Hp : p ∈ filter (fun p => p = v) ps) by (rewrite Hfilter; left).
  by apply list_elem_of_filter in Hp as [-> Hp].
Qed.

(** A pending edge has a source that was not dequeued. *)
Lemma pending_pos_edge courses visited v :
  1 <= pending courses visited v -> exists w, depends courses w v /\ w ∉ visited.
Proof.
  induction courses as [| c courses IH]; simpl; [lia |]. intros Hpos.
  destruct (decide (1 <= pending courses visited v)) as [Hrest | Hrest].
  - destruct (IH Hrest) as (w & (c' & Hc' & Hid & Hv)%depends_course & Hw).
    exists w. split; [| done]. apply depends_course. exists c'. split; [by right | done].
  - unfold pending in *. simpl in Hpos.
    destruct (decide (id c ∈ visited)) as [| Hnew]; [lia |].
    exists (id c). split; [| done]. apply depends_course. exists c.
    split_and!; [left | done |]. apply occurrences_pos. lia.
Qed.

Lemma pending_skip courses visited u v :
  u ∉ map id courses -> pending courses (visited ++ [u]) v = pending courses visited v.
Proof.
  induction courses as [| c courses IH]; simpl; [done |]. intros Hu.
  apply not_elem_of_cons in Hu as [Hne Hu]. specialize (IH Hu).
  destruct (decide (id c ∈ visited ++ [u])) as [Hin | Hin],
    (decide (id c ∈ visited)) as [Hin' | Hin']; unfold pending in *; try lia.
  - apply elem_of_app in Hin as [Hin | Hin%list_elem_of_singleton]; [done | congruence].
  - destruct Hin. apply elem_of_app. by left.
Qed.

(** With distinct identifiers, dequeuing a course takes exactly its own
    prerequisite edges out of [pending]. *)
Lemma pending_visit_exact courses visited c v :
  NoDup (map id courses) -> c ∈ courses -> id c ∉ visited ->
  pending courses (visited ++ [id c]) v
  = pending courses visited v - occurrences v (prereqs c).
Proof.
  intros Hnd Hc Hnew. induction courses as [| c0 courses IH]; [by apply elem_of_nil in Hc |].
  simpl in Hnd. apply NoDup_cons in Hnd as [Hc0 Hnd]. simpl.
  apply elem_of_cons in Hc as [<- | Hc].
  - rewrite decide_True by (apply elem_of_app; right; left).
    rewrite decide_False by done.
    pose proof (pending_skip courses visited (id c) v Hc0). unfold pending in *. lia.
  - specialize (IH Hnd Hc).
    assert (Hne : id c0 <> id c).
    { intros Heq. apply Hc0. rewrite Heq. apply list_elem_of_fmap. by exists c. }
    destruct (decide (id c0 ∈ visited ++ [id c])) as [Hin | Hin],
      (decide (id c0 ∈ visited)) as [Hin' | Hin']; unfold pending in *; try lia.
    + apply elem_of_app in Hin as [Hin | Hin%list_elem_of_singleton]; [done | congruence].
    + destruct Hin. apply elem_of_app. by left.
Qed.

Lemma build_graph_foldl_skip courses :
  forall (graph : gmap string (list string)) u,
    u ∉ map id courses ->
    foldl (fun graph course => <[id course := prereqs course]> graph) graph courses !! u
    = graph !! u.
Proof.
  induction courses as [| c courses IH]; intros graph u Hu; simpl; [done |].
  apply not_elem_of_cons in Hu as [Hne Hu].
  rewrite IH by done. by rewrite lookup_insert_ne.
Qed.

Lemma build_graph_lookup_id courses c :
  NoDup (map id courses) -> c ∈ courses -> build_graph courses !! id c = Some (prereqs c).
Proof.
  unfold build_graph. generalize (∅ : gmap string (list string)).
  induction courses as [| c0 courses IH]; intros graph Hnd Hc;
    [by apply elem_of_nil in Hc |].
  simpl in Hnd. apply NoDup_cons in Hnd as [Hc0 Hnd]. simpl.
  apply elem_of_cons in Hc as [<- | Hc].
  - rewrite build_graph_foldl_skip by done. apply lookup_insert_eq.
  - by apply IH.
Qed.

Lemma build_graph_lookup_none courses u :
  u ∉ map id courses -> build_graph courses !! u = None.
Proof. intros Hu. unfold build_graph. by rewrite build_graph_foldl_skip. Qed.

(** Every course has its identifier among the keys of [inDegree]. *)
Lemma kahn_init_course_keys courses c :
  c ∈ courses -> id c ∈ map fst (inDegree (kahn_init courses)).
Proof.
  intros Hc. simpl. rewrite count_inDegree_flat.
  destruct (init_inDegree_spec courses []) as (Hm & _ & _ & Hids & _).
  { by intros k x. } { constructor. } { done. }
  destruct (count_prereqs_spec (flat_map prereqs courses) _ Hm) as (_ & _ & Hkeep & _ & _).
  by apply counted_key, Hkeep, Hids.
Qed.

(** An in-degree that the inner [forEach] brings from above zero to zero
    is enqueued. *)
Lemma visit_neighbors_zero ns :
  forall m q,
    proper m ->
    (forall p, p ∈ ns -> counted m p) ->
    forall v,
      1 <= deg_of m v ->
      deg_of (fst (foldl visit_neighbor (m, q) ns)) v = 0 ->
      v ∈ snd (foldl visit_neighbor (m, q) ns).
Proof.
  induction ns as [| n ns IH]; intros m q Hm Hns v Hpos Hzero; [simpl in Hzero; lia |].
  destruct (Hns n ltac:(left)) as [d Hn].
  change (foldl visit_neighbor (m, q) (n :: ns))
    with (foldl visit_neighbor (visit_neighbor (m, q) n) ns) in *.
  rewrite (visit_neighbor_counted m q n d Hn) in *.
  set (m1 := map_set n (Deg (d - 1)) m) in *.
  assert (Hm1 : proper m1) by by apply proper_set.
  assert (Hns1 : forall p, p ∈ ns -> counted m1 p).
  { intros p Hp. apply counted_set, Hns. by right. }
  destruct (decide (1 <= deg_of m1 v)) as [Hstill | Hspent]; [by apply IH |].
  assert (Hv : n = v).
  { destruct (decide (n = v)) as [| Hne]; [done |].
    unfold m1 in Hspent. rewrite deg_of_set_ne in Hspent by done. lia. }
  subst v.
  assert (Hd : d = 1).
  { unfold m1 in Hspent. rewrite deg_of_set_eq in Hspent.
    unfold deg_of in Hpos. rewrite Hn in Hpos. lia. }
  subst d. change (is_zero (Deg (1 - 1))) with true. cbv iota.
  destruct (visit_neighbors_spec ns m1 (q ++ [n]) Hm1 Hns1) as (m' & pushed & -> & _).
  simpl. apply elem_of_app. left. apply elem_of_app. right. left.
Qed.

Lemma distinct_id_inj (courses : list Course) c c' :
  NoDup (map id courses) -> c ∈ courses -> c' ∈ courses -> id c = id c' -> c = c'.
Proof.
  intros Hnd Hc Hc' Hid. induction courses as [| c0 cs IH]; [by apply elem_of_nil in Hc |].
  simpl in Hnd. apply NoDup_cons in Hnd as [Hc0 Hnd].
  apply elem_of_cons in Hc as [-> | Hc], Hc' as [-> | Hc']; try done.
  - destruct Hc0. rewrite Hid. apply list_elem_of_fmap. by exists c'.
  - destruct Hc0. rewrite <- Hid. apply list_elem_of_fmap. by exists c.
  - by apply IH.
Qed.

Variable courses : list Course.
Hypothesis distinct : NoDup (map id courses).

(** What Kahn's loop keeps when no two courses share an identifier: the
    in-degree is the number of pending edges, and an identifier of
    in-degree zero has been enqueued. *)
Record kahn_exact (visited : list string) (st : kahn_state) : Prop := {
  exact_order : kahn_order courses visited st;
  exact_degree : forall v, deg_of (inDegree st) v = pending courses visited v;
  exact_zero :
    forall v, v ∈ map fst (inDegree st) -> deg_of (inDegree st) v = 0 ->
              v ∈ visited ++ queue st
}.

Lemma kahn_exact_init : kahn_exact [] (kahn_init courses).
Proof.
  destruct (kahn_init_inDegree courses) as (Hm & Hnd & Hdeg & Hcounted).
  split.
  - apply kahn_order_init.
  - intros v. by rewrite pending_nil, Hdeg.
  - intros v (e & -> & He)%list_elem_of_fmap Hzero. simpl app.
    destruct e as [k x]. pose proof (map_get_NoDup k x _ Hnd He) as Hget.
    simpl fst in *. unfold deg_of in Hzero. rewrite Hget in Hzero.
    destruct (Hm k x Hget) as [d ->]. subst d.
    apply list_elem_of_fmap. exists (k, Deg 0). split; [done |].
    by apply list_elem_of_filter.
Qed.

Lemma kahn_exact_round visited st u rest :
  kahn_exact visited st ->
  queue st = u :: rest ->
  exists m' q',
    foldl visit_neighbor (inDegree st, rest) (default [] (build_graph courses !! u))
    = (m', q')
    /\ kahn_exact (visited ++ [u])
         {| inDegree := m';
            queue := q';
            result := result st ++ [find (fun c => String.eqb (id c) u) courses] |}.
Proof.
  intros [[Hinv Hfirst Hresult] Hdegree Hzero] Hqueue.
  destruct (kahn_round_inv courses visited st u rest Hinv Hqueue)
    as (m' & q' & Heq & Hinv').
  exists m', q'. split; [done |].
  set (ns := default [] (build_graph courses !! u)) in *.
  assert (Hns : forall p, p ∈ ns -> counted (inDegree st) p).
  { intros p Hp. apply (inv_counted _ _ _ Hinv). subst ns.
    destruct (build_graph courses !! u) as [ps |] eqn:Hu; [| by apply elem_of_nil in Hp].
    apply build_graph_lookup in Hu as (c & Hc & _ & <-).
    apply list_elem_of_In, in_flat_map. exists c. by rewrite <- !list_elem_of_In. }
  assert (Hu : u ∉ visited).
  { pose proof (inv_once _ _ _ Hinv) as Honce. rewrite Hqueue in Honce.
    apply NoDup_app in Honce as (_ & Hdisj & _). intros Hin. apply (Hdisj u Hin). left. }
  assert (Hvisit : forall v,
             pending courses (visited ++ [u]) v
             = pending courses visited v - occurrences v ns).
  { intros v. subst ns.
    destruct (decide (u ∈ map id courses)) as [(c & -> & Hc)%list_elem_of_fmap | Hother].
    - rewrite build_graph_lookup_id by done. simpl. by apply pending_visit_exact.
    - rewrite build_graph_lookup_none by done. simpl.
      rewrite pending_skip by done. unfold occurrences. simpl. lia. }
  destruct (visit_neighbors_spec ns (inDegree st) rest (inv_proper _ _ _ Hinv) Hns)
    as (m2 & pushed & Heq2 & _ & Hkeys & _ & Hdeg & _ & _).
  pose proof (visit_neighbors_zero ns (inDegree st) rest (inv_proper _ _ _ Hinv) Hns)
    as Hpushed.
  rewrite Heq in Heq2, Hpushed. injection Heq2 as <- ->. simpl in Hpushed.
  split.
  - split; [done | | by simpl; rewrite Hresult, map_app].
    intros i v Hi w Hwv.
    destruct (decide (i < length visited)%nat) as [Hold | Hnew].
    + rewrite lookup_app_l in Hi by done.
      destruct (Hfirst i v Hi w Hwv) as (j & Hj & Hw).
      exists j. split; [done |]. by rewrite lookup_app_l by lia.
    + rewrite lookup_app_r in Hi by lia.
      apply list_lookup_singleton_Some in Hi as [Hi <-].
      assert (Hw : w ∈ visited).
      { apply (kahn_inv_dependents courses visited st u w Hinv); [| done].
        rewrite Hqueue. apply elem_of_app. right. left. }
      apply list_elem_of_lookup in Hw as [j Hj].
      exists j. pose proof (lookup_lt_Some _ _ _ Hj).
      split; [lia |]. by rewrite lookup_app_l by done.
  - intros v. simpl. by rewrite Hdeg, Hdegree, Hvisit.
  - intros v. simpl. rewrite Hkeys. intros Hkey Hspent.
    destruct (decide (deg_of (inDegree st) v = 0)) as [Hbefore | Hbefore].
    + specialize (Hzero v Hkey Hbefore). rewrite Hqueue in Hzero.
      apply elem_of_app in Hzero as [Hv | [-> | Hv]%elem_of_cons].
      * apply elem_of_app. left. apply elem_of_app. by left.
      * apply elem_of_app. left. apply elem_of_app. right. left.
      * apply elem_of_app. right. apply elem_of_app. by left.
    + apply elem_of_app. right. apply Hpushed; [| done].
      pose proof (pending_nonneg courses visited v). rewrite Hdegree in *. lia.
Qed.

Lemma kahn_exact_runs rounds :
  forall visited st,
    kahn_exact visited st ->
    (length (inDegree (kahn_init courses)) <= length visited + rounds)%nat ->
    exists visited',
      kahn_exact visited' (kahn courses (build_graph courses) rounds st)
      /\ queue (kahn courses (build_graph courses) rounds st) = [].
Proof.
  induction rounds as [| rounds IH]; intros visited st Hexact Hfull.
  - rewrite Nat.add_0_r in Hfull. exists visited. split; [done |].
    apply (kahn_inv_full courses visited); [| done].
    apply exact_order in Hexact. by destruct Hexact.
  - destruct (queue st) as [| u rest] eqn:Hqueue.
    + rewrite kahn_idle by done. by exists visited.
    + destruct (kahn_exact_round visited st u rest Hexact Hqueue) as (m' & q' & Heq & Hexact').
      rewrite (kahn_round courses rounds st u rest m' q' Hqueue Heq).
      apply (IH (visited ++ [u])); [done |].
      rewrite length_app. change (length [u]) with 1%nat. lia.
Qed.

(** A chain of edges longer than there are identifiers closes a cycle. *)
Lemma chain_cycle (l : list string) :
  StronglySorted (tc (depends courses)) l ->
  NoDup l \/ exists v, on_cycle courses v.
Proof.
  induction 1 as [| a l _ IH Ha]; [left; constructor |].
  destruct IH as [Hnd | Hcycle]; [| by right].
  destruct (decide (a ∈ l)) as [Hin | Hout].
  - right. exists a. rewrite Forall_forall in Ha. by apply Ha.
  - left. by constructor.
Qed.

Hypothesis acyclic : forall v, ~ on_cycle courses v.

(** When the loop has ended, every key of [inDegree] was dequeued. *)
Lemma kahn_exact_all_visited visited st :
  kahn_exact visited st -> queue st = [] ->
  forall v, v ∈ map fst (inDegree (kahn_init courses)) -> v ∈ visited.
Proof.
  intros [[Hinv _ _] Hdegree Hzero] Hqueue.
  set (keys := map fst (inDegree (kahn_init courses))).
  assert (Hpred : forall v, v ∈ keys -> v ∉ visited ->
                            exists w, (w ∈ keys) /\ (w ∉ visited) /\ depends courses w v).
  { intros v Hkey Hnew.
    assert (Hpending : 1 <= pending courses visited v).
    { pose proof (pending_nonneg courses visited v).
      destruct (decide (pending courses visited v = 0)) as [Hnone |]; [| lia].
      exfalso. apply Hnew. rewrite <- Hdegree in Hnone.
      unfold keys in Hkey. rewrite <- (inv_keys _ _ _ Hinv) in Hkey.
      specialize (Hzero v Hkey Hnone). by rewrite Hqueue, app_nil_r in Hzero. }
    destruct (pending_pos_edge courses visited v Hpending) as (w & Hwv & Hw).
    exists w. split_and!; [| done | done].
    apply depends_course in Hwv as (c & Hc & <- & _). by apply kahn_init_course_keys. }
  assert (Hchain : forall n v, v ∈ keys -> v ∉ visited ->
             exists l, length l = S n
                       /\ Forall (fun w => w ∈ keys /\ w ∉ visited) l
                       /\ Sorted (depends courses) l).
  { induction n as [| n IH]; intros v Hkey Hnew.
    - exists [v]. split_and!; [done | | ]; by repeat constructor.
    - destruct (IH v Hkey Hnew) as (l & Hlength & Hl & Hsorted).
      destruct l as [| a l]; [done |].
      apply Forall_cons in Hl as [[Ha Ha'] Hl].
      destruct (Hpred a Ha Ha') as (w & Hw & Hw' & Hwa).
      exists (w :: a :: l). split_and!.
      + simpl in *. lia.
      + repeat constructor; done.
      + constructor; [done | by constructor]. }
  intros v Hkey. destruct (decide (v ∈ visited)) as [| Hnew]; [done |]. exfalso.
  destruct (Hchain (length keys) v Hkey Hnew) as (l & Hlength & Hl & Hsorted).
  assert (Hstrong : StronglySorted (tc (depends courses)) l).
  { apply Sorted_StronglySorted; [intros x y z; apply tc_transitive |].
    clear -Hsorted. induction Hsorted as [| a l _ IH Ha]; constructor; [done |].
    destruct Ha; constructor. by apply tc_once. }
  destruct (chain_cycle l Hstrong) as [Hnd | [w Hw]]; [| by apply (acyclic w)].
  assert (Hsub : l ⊆+ keys).
  { apply NoDup_submseteq; [done |]. intros w Hw.
    rewrite Forall_forall in Hl. by apply Hl. }
  apply submseteq_length in Hsub. lia.
Qed.

(** X22. For a collection of courses with distinct identifiers and no
    cycle of prerequisites, [topologicalSort] returns every course exactly
    once: the courses of the returned list are a rearrangement of the
    input. (An identifier that only occurs as a prerequisite contributes an
    [undefined] entry.) *)
Theorem topologicalSort_complete :
  exists sorted,
    topologicalSort courses = Returns sorted
    /\ omap (fun entry : option Course => entry) sorted ≡ₚ courses.
Proof.
  eexists. split; [reflexivity |].
  destruct (kahn_exact_runs (length (inDegree (kahn_init courses))) []
              (kahn_init courses) kahn_exact_init (Nat.le_refl _))
    as (visited & Hexact & Hqueue).
  pose proof (kahn_exact_all_visited visited _ Hexact Hqueue) as Hall.
  destruct Hexact as [[Hinv _ Hresult] _ _]. rewrite Hresult.
  pose proof (inv_once _ _ _ Hinv) as Honce.
  apply NoDup_app in Honce as (Hvisited & _ & _).
  assert (Hcourses : NoDup courses) by by apply (NoDup_fmap_1 id).
  assert (Hfind : forall u c, found courses u = Some c <-> c ∈ courses /\ id c = u).
  { intros u c. unfold found. split.
    - intros [Hc Hid%String.eqb_eq]%find_some. by rewrite <- list_elem_of_In in Hc.
    - intros [Hc <-].
      destruct (find (fun c0 => String.eqb (id c0) (id c)) courses) as [c' |] eqn:Hfound.
      + apply find_some in Hfound as [Hc' Hid%String.eqb_eq].
        rewrite <- list_elem_of_In in Hc'. f_equal.
        by apply (distinct_id_inj courses).
      + apply list_elem_of_In in Hc. apply (find_none _ _ Hfound) in Hc.
        by rewrite String.eqb_refl in Hc. }
  apply NoDup_Permutation; [| done |].
  - clear -Hvisited Hfind. induction visited as [| u visited IH]; [constructor |].
    apply NoDup_cons in Hvisited as [Hu Hvisited]. simpl.
    destruct (found courses u) as [c |] eqn:Hc; [| by apply IH].
    simpl. apply NoDup_cons. split; [| by apply IH].
    intros (entry & Hin & ->)%list_elem_of_omap.
    apply list_elem_of_fmap in Hin as (u' & Hu' & Hin).
    symmetry in Hu'. apply Hfind in Hc as [_ <-]. apply Hfind in Hu' as [_ <-]. done.
  - intros c. rewrite list_elem_of_omap. split.
    + intros (entry & Hin & ->). apply list_elem_of_fmap in Hin as (u & Hu & _).
      symmetry in Hu. by apply Hfind in Hu as [Hc _].
    + intros Hc. exists (Some c). split; [| done].
      apply list_elem_of_fmap. exists (id c). split; [symmetry; by apply Hfind |].
      by apply Hall, kahn_init_course_keys.
Qed.

End TopologicalComplete.

Section TopologicalCompleteWitness.
Import SortingEngine Graph.

Definition course_calculus : Course :=
  {| id := "MATH2"; name := "Calculus"; prerequisites := Some ["MATH1"%string] |}.
Definition course_precalculus : Course :=
  {| id := "MATH1"; name := "Precalculus"; prerequisites := None |}.

Lemma topologicalSort_complete_witness :
  exists sorted,
    topologicalSort [course_precalculus; course_calculus] = Returns sorted
    /\ omap (fun entry : option Course => entry) sorted
       ≡ₚ [course_precalculus; course_calculus].
Proof.
  apply (topologicalSort_complete [course_precalculus; course_calculus]).
  - apply (bool_decide_unpack _). vm_compute. exact I.
  - intros v Hcycle.
    destruct (on_cycle_pred _ _ Hcycle) as (w & Hwv & Hw).
    unfold depends in Hwv. simpl in Hwv.
    apply list_elem_of_singleton in Hwv. injection Hwv as -> ->.
    destruct (on_cycle_pred _ _ Hw) as (w' & Hww & _).
    unfold depends in Hww. simpl in Hww.
    apply list_elem_of_singleton in Hww. discriminate Hww.
Defined.

End TopologicalCompleteWitness.

(** ** The analytics engine: the extremes of a summary *)

Section StatisticsOrder.
Import Binary64 AnalyticsEngine.
Local Open Scope Z_scope.

(** The comparator [(a, b) => a - b] of [calculateStatistics] follows the
    order of the numbers. *)
Lemma ascending_comparator (a b : float) :
  is_num a -> is_num b -> (0 <? a - b)%float = (- fkey a <? - fkey b).
Proof.
  intros Ha Hb. rewrite sub_pos_ltb, ltb_key by done.
  destruct (Z.ltb_spec (fkey b) (fkey a)), (Z.ltb_spec (- fkey a) (- fkey b)); lia.
Qed.

Lemma nth_last {A : Type} (front : list A) (x d : A) :
  nth (length (front ++ [x]) - 1) (front ++ [x]) d = x.
Proof.
  rewrite length_app. simpl. replace (length front + 1 - 1)%nat with (length front) by lia.
  by rewrite app_nth2, Nat.sub_diag by lia.
Qed.

(** X26. On a non-empty list of numbers, none of them [NaN],
    [calculateStatistics] returns a summary whose [count] is the number of
    values and whose [min] and [max] are values of the list, with every
    value between them. *)
Theorem calculateStatistics_extremes (values : list float) :
  values <> [] ->
  Forall is_num values ->
  exists summary,
    calculateStatistics values = Returns summary
    /\ count summary = length values
    /\ min summary ∈ values
    /\ max summary ∈ values
    /\ Forall (fun value => (min summary <=? value)%float = true
                            /\ (value <=? max summary)%float = true) values.
Proof.
  intros Hvalues Hnumbers.
  destruct values as [| value values]; [done |]. clear Hvalues.
  eexists. split; [reflexivity |]. cbn [count min max].
  set (all := value :: values) in *.
  set (sorted := Array_sort (fun a b => (0 <? a - b)%float) all).
  pose proof (Array_sort_Permutation (fun a b => (0 <? a - b)%float) all) as Hperm.
  fold sorted in Hperm.
  pose proof (Array_sort_sorted _ (fun x => - fkey x) is_num ascending_comparator all Hnumbers)
    as Hsorted.
  fold sorted in Hsorted.
  assert (Hlength : length sorted = length all) by by rewrite Hperm.
  assert (Hsorted_numbers : Forall is_num sorted) by by rewrite Hperm.
  assert (Hle : forall a b, is_num a -> is_num b -> fkey a <= fkey b ->
                            (a <=? b)%float = true).
  { intros a b Ha Hb Hab. rewrite leb_key by done. by apply Z.leb_le. }
  destruct sorted as [| least rest] eqn:Hleast; [done |].
  destruct (exists_last (l := least :: rest) ltac:(done)) as (front & greatest & Hgreatest).
  assert (Hmin : nth 0 (least :: rest) nan = least) by done.
  assert (Hmax : nth (length all - 1) (least :: rest) nan = greatest).
  { rewrite <- Hlength, Hgreatest. apply nth_last. }
  rewrite Hmin, Hmax.
  assert (Hleast_in : least ∈ all) by (rewrite <- Hperm; left).
  assert (Hgreatest_in : greatest ∈ all).
  { rewrite <- Hperm, Hgreatest. apply elem_of_app. right. left. }
  split_and!; [done | done | done |].
  apply Forall_forall. intros x Hx. rewrite <- Hperm in Hx.
  rewrite Forall_forall in Hnumbers.
  assert (Hx_num : is_num x) by (apply Hnumbers; by rewrite <- Hperm).
  split.
  - apply Hle; [by apply Hnumbers | done |].
    apply StronglySorted_inv in Hsorted as [_ Hrest].
    apply elem_of_cons in Hx as [-> | Hx]; [lia |].
    rewrite Forall_forall in Hrest. specialize (Hrest x Hx). simpl in Hrest. lia.
  - apply Hle; [done | by apply Hnumbers |].
    rewrite Hgreatest in Hsorted, Hx.
    apply StronglySorted_front in Hsorted.
    apply elem_of_app in Hx as [Hx | ->%list_elem_of_singleton]; [| lia].
    rewrite Forall_forall in Hsorted. specialize (Hsorted x Hx). simpl in Hsorted. lia.
Qed.

Lemma calculateStatistics_extremes_witness :
  exists summary,
    calculateStatistics [3; 1; 2]%float = Returns summary
    /\ count summary = length [3; 1; 2]%float
    /\ min summary ∈ [3; 1; 2]%float
    /\ max summary ∈ [3; 1; 2]%float
    /\ Forall (fun value => (min summary <=? value)%float = true
                            /\ (value <=? max summary)%float = true) [3; 1; 2]%float.
Proof.
  apply (calculateStatistics_extremes [3; 1; 2]%float); [done |].
  repeat constructor; discriminate.
Defined.

End StatisticsOrder.

(** ** The analytics engine: DBSCAN *)

Section DbscanFacts.
Import Types DensityClustering.
Variable parseFloat : string -> float.

Lemma getNeighbors_bound points pointIndex epsilon :
  Forall (fun j => j < length points)%nat (getNeighbors points pointIndex epsilon)
  /\ (length (getNeighbors points pointIndex epsilon) <= length points)%nat.
Proof.
  unfold getNeighbors. split.
  - apply Forall_forall. intros j (e & -> & He)%list_elem_of_fmap.
    apply list_elem_of_filter in He as [_ He].
    apply elem_of_lookup_imap in He as (i & x & -> & Hi). simpl.
    by apply lookup_lt_Some in Hi.
  - rewrite length_map. etrans; [apply length_filter |]. by rewrite length_imap.
Qed.

(** A point is no neighbour of itself. *)
Lemma getNeighbors_fewer points pointIndex epsilon :
  (pointIndex < length points)%nat ->
  (length (getNeighbors points pointIndex epsilon) < length points)%nat.
Proof.
  intros Hindex. unfold getNeighbors. rewrite length_map.
  destruct (lookup_lt_is_Some_2 points pointIndex Hindex) as [point Hpoint].
  eapply Nat.lt_le_trans;
    [apply (length_filter_lt _ _ (pointIndex, point)) | by rewrite length_imap].
  - apply elem_of_lookup_imap. by exists pointIndex, point.
  - simpl. by rewrite Nat.eqb_refl.
Qed.

(** The indices that [visited] may hold. *)
Definition in_range (n : nat) (visited : gset nat) : Prop :=
  forall j, j ∈ visited -> (j < n)%nat.

Lemma in_range_size n visited : in_range n visited -> (size visited <= n)%nat.
Proof.
  intros Hrange. rewrite <- (size_set_seq (C := gset nat) 0 n).
  apply subseteq_size. intros j Hj. apply elem_of_set_seq. specialize (Hrange j Hj). lia.
Qed.

Lemma in_range_add n visited j :
  in_range n visited -> (j < n)%nat -> j ∉ visited ->
  in_range n ({[j]} ∪ visited) /\ size ({[j]} ∪ visited) = S (size visited).
Proof.
  intros Hrange Hj Hnew. split.
  - intros k [->%elem_of_singleton | Hk]%elem_of_union; [done | by apply Hrange].
  - rewrite size_union by set_solver. by rewrite size_singleton.
Qed.

(** The loop of [expandCluster] ends within the rounds it is given, and
    every index it marks as visited is in the cluster it leaves. *)
Lemma expandCluster_loop_spec points epsilon minPoints rounds :
  forall neighbors i cluster visited,
    Forall (fun j => j < length points)%nat neighbors ->
    in_range (length points) visited ->
    ((length points - size visited) * S (length points) + (length neighbors - i)
     < rounds)%nat ->
    exists cluster' visited',
      expandCluster_loop rounds points epsilon minPoints neighbors i cluster visited
      = Some (cluster', visited')
      /\ in_range (length points) visited'
      /\ (forall j, j ∈ visited -> j ∈ visited')
      /\ (forall j, j ∈ cluster -> j ∈ cluster')
      /\ (forall j, j ∈ visited' -> j ∈ visited \/ j ∈ cluster')
      /\ (forall j, j ∈ cluster' -> j ∈ cluster \/ (j < length points)%nat).
Proof.
  set (n := length points).
  induction rounds as [| rounds IH]; intros neighbors i cluster visited Hneighbors Hrange Hrounds;
    [lia |].
  cbn [expandCluster_loop].
  destruct (neighbors !! i) as [j |] eqn:Hj.
  2: { exists cluster, visited. split_and!; try done; intros k Hk; by left. }
  assert (Hjn : (j < n)%nat).
  { rewrite Forall_forall in Hneighbors. apply Hneighbors. by eapply list_elem_of_lookup_2. }
  pose proof (lookup_lt_Some _ _ _ Hj) as Hi.
  set (cluster1 := if bool_decide (j ∈ cluster) then cluster else cluster ++ [j]).
  assert (Hcluster1 : (forall k, k ∈ cluster -> k ∈ cluster1) /\ j ∈ cluster1
                      /\ forall k, k ∈ cluster1 -> k ∈ cluster \/ k = j).
  { unfold cluster1. destruct (bool_decide_reflect (j ∈ cluster)) as [Hin | Hout].
    - split_and!; [done | done |]. intros k Hk. by left.
    - split_and!.
      + intros k Hk. apply elem_of_app. by left.
      + apply elem_of_app. right. left.
      + intros k [Hk | ->%list_elem_of_singleton]%elem_of_app; [by left | by right]. }
  destruct Hcluster1 as (Hkeep & Hjin & Hfrom).
  destruct (bool_decide_reflect (j ∈ visited)) as [Hseen | Hnew].
  - destruct (IH neighbors (S i) cluster1 visited Hneighbors Hrange ltac:(lia))
      as (cluster' & visited' & Heq & Hrange' & Hsub & Hclusters & Hcover & Hbound).
    exists cluster', visited'. split_and!; try done.
    + intros k Hk. by apply Hclusters, Hkeep.
    + intros k Hk. destruct (Hbound k Hk) as [Hk1 | Hk1]; [| by right].
      destruct (Hfrom k Hk1) as [Hk2 | ->]; [by left | by right].
  - destruct (in_range_add n visited j Hrange Hjn Hnew) as [Hrange1 Hsize1].
    pose proof (in_range_size n _ Hrange1) as Hfull.
    destruct (getNeighbors_bound points j epsilon) as [Hnn Hlength].
    fold n in Hnn, Hlength.
    set (neighbors1 :=
           if (minPoints <=? JsMath.of_nat (length (getNeighbors points j epsilon)))%float
           then neighbors ++ getNeighbors points j epsilon else neighbors).
    assert (Hneighbors1 : Forall (fun k => k < n)%nat neighbors1
                          /\ (length neighbors1 <= length neighbors + n)%nat).
    { unfold neighbors1.
      destruct (minPoints <=? JsMath.of_nat (length (getNeighbors points j epsilon)))%float.
      - split; [by apply Forall_app | rewrite length_app; lia].
      - split; [done | lia]. }
    destruct Hneighbors1 as [Hneighbors1 Hlength1].
    assert (Hmeasure : ((n - size ({[j]} ∪ visited)) * S n + (length neighbors1 - S i)
                        < rounds)%nat).
    { rewrite Hsize1 in *.
      replace (n - size visited)%nat with (S (n - S (size visited))) in Hrounds by lia.
      simpl in Hrounds. lia. }
    destruct (IH neighbors1 (S i) cluster1 ({[j]} ∪ visited) Hneighbors1 Hrange1 Hmeasure)
      as (cluster' & visited' & Heq & Hrange' & Hsub & Hclusters & Hcover & Hbound).
    exists cluster', visited'. split_and!; try done.
    + intros k Hk. apply Hsub. apply elem_of_union. by right.
    + intros k Hk. by apply Hclusters, Hkeep.
    + intros k Hk. destruct (Hcover k Hk) as [[->%elem_of_singleton | Hk1]%elem_of_union | Hk1].
      * right. by apply Hclusters.
      * by left.
      * by right.
    + intros k Hk. destruct (Hbound k Hk) as [Hk1 | Hk1]; [| by right].
      destruct (Hfrom k Hk1) as [Hk2 | ->]; [by left | by right].
Qed.

(** The body of the [forEach] of [dbscanClustering]. *)
Definition scan_point (points : list (list float)) (epsilon minPoints : float)
    (state : option (list (list nat) * list nat * gset nat)) (index : nat)
  : option (list (list nat) * list nat * gset nat) :=
  state ≫= fun '(clusters, noise, visited) =>
    if bool_decide (index ∈ visited) then Some (clusters, noise, visited)
    else
      let visited : gset nat := {[index]} ∪ visited in
      let neighbors := getNeighbors points index epsilon in
      if (JsMath.of_nat (length neighbors) <? minPoints)%float
      then Some (clusters, noise ++ [index], visited)
      else
        expandCluster points index neighbors [] visited epsilon minPoints
          ≫= fun '(cluster, visited) => Some (clusters ++ [cluster], noise, visited).

(** What the [forEach] keeps, before the point of index [k]. *)
Definition scan_inv (n k : nat) (state : list (list nat) * list nat * gset nat) : Prop :=
  let '(clusters, noise, visited) := state in
  in_range n visited
  /\ (forall j, (j < k)%nat -> j ∈ visited)
  /\ (forall j, j ∈ visited -> j ∈ noise \/ exists cluster, cluster ∈ clusters /\ j ∈ cluster)
  /\ Forall (fun j => j < n)%nat noise
  /\ Forall (fun cluster => cluster <> [] /\ Forall (fun j => j < n)%nat cluster) clusters.

Lemma scan_point_inv points epsilon minPoints k state :
  (k < length points)%nat ->
  scan_inv (length points) k state ->
  exists state',
    scan_point points epsilon minPoints (Some state) k = Some state'
    /\ scan_inv (length points) (S k) state'.
Proof.
  set (n := length points). destruct state as [[clusters noise] visited].
  intros Hk (Hrange & Hbefore & Hcovered & Hnoise & Hclusters).
  unfold scan_point. cbn [mbind option_bind].
  assert (Hnext : forall visited' : gset nat,
             (forall j, j ∈ visited -> j ∈ visited') -> k ∈ visited' ->
             forall j, (j < S k)%nat -> j ∈ visited').
  { intros visited' Hsub Hkin j Hj. destruct (decide (j = k)) as [-> | Hne]; [done |].
    apply Hsub, Hbefore. lia. }
  destruct (bool_decide_reflect (k ∈ visited)) as [Hseen | Hnew].
  { eexists. split; [reflexivity |]. split_and!; try done. by apply Hnext. }
  destruct (in_range_add n visited k Hrange Hk Hnew) as [Hrange1 Hsize1].
  cbv zeta.
  destruct (JsMath.of_nat (length (getNeighbors points k epsilon)) <? minPoints)%float.
  - eexists. split; [reflexivity |]. split_and!; try done.
    + apply Hnext; [| set_solver]. intros j Hj. set_solver.
    + intros j [->%elem_of_singleton | Hj]%elem_of_union.
      * left. apply elem_of_app. right. left.
      * destruct (Hcovered j Hj) as [Hj' | Hj']; [| by right].
        left. apply elem_of_app. by left.
    + apply Forall_app. split; [done |]. by repeat constructor.
  - unfold expandCluster.
    destruct (getNeighbors_bound points k epsilon) as [Hnn Hlength].
    destruct (expandCluster_loop_spec points epsilon minPoints
                (S (length (getNeighbors points k epsilon) + length points * S (length points)))
                (getNeighbors points k epsilon) 0 ([] ++ [k]) ({[k]} ∪ visited) Hnn Hrange1)
      as (cluster' & visited' & -> & Hrange' & Hsub & Hclusters' & Hcover & Hbound).
    { fold n. pose proof (Nat.mul_le_mono_r (n - size ({[k]} ∪ visited)) n (S n)). lia. }
    cbn [mbind option_bind]. eexists. split; [reflexivity |].
    assert (Hkin : k ∈ cluster') by (apply Hclusters'; set_solver).
    split_and!; try done.
    + apply Hnext; [| apply Hsub; set_solver]. intros j Hj. apply Hsub. set_solver.
    + intros j Hj. destruct (Hcover j Hj) as [[->%elem_of_singleton | Hj']%elem_of_union | Hj'].
      * right. exists cluster'. split; [| done]. apply elem_of_app. right. left.
      * destruct (Hcovered j Hj') as [Hj'' | (cluster & Hcluster & Hj'')]; [by left |].
        right. exists cluster. split; [| done]. apply elem_of_app. by left.
      * right. exists cluster'. split; [| done]. apply elem_of_app. right. left.
    + apply Forall_app. split; [done |]. constructor; [| constructor].
      split; [by intros -> ; apply elem_of_nil in Hkin |].
      apply Forall_forall. intros j Hj.
      destruct (Hbound j Hj) as [->%list_elem_of_singleton | Hj']; done.
Qed.

Lemma scan_runs points epsilon minPoints m :
  forall k state,
    (k + m = length points)%nat ->
    scan_inv (length points) k state ->
    exists state',
      foldl (scan_point points epsilon minPoints) (Some state) (seq k m) = Some state'
      /\ scan_inv (length points) (length points) state'.
Proof.
  induction m as [| m IH]; intros k state Hk Hinv.
  - exists state. split; [done |]. rewrite Nat.add_0_r in Hk. by subst k.
  - cbn [seq foldl].
    destruct (scan_point_inv points epsilon minPoints k state ltac:(lia) Hinv)
      as (state1 & -> & Hinv1).
    apply IH; [lia | done].
Qed.

(** X27. [dbscanClustering] returns for every input: the loop of
    [expandCluster], whose bound grows while it runs, ends. Every student
    is then reported as noise or stands in a cluster (or both); clusters
    and noise hold students of the input only, no cluster is empty, and
    [clusterCount] is the number of clusters. *)
Theorem dbscanClustering_covers
    (students : list Student) (features : list string) (epsilon minPoints : float) :
  exists result,
    dbscanClustering parseFloat students features epsilon minPoints = Some result
    /\ clusterCount result = length (clusters result)
    /\ (forall student, student ∈ students ->
          student ∈ noise result
          \/ exists cluster, cluster ∈ clusters result /\ student ∈ cluster)
    /\ (forall student, student ∈ noise result -> student ∈ students)
    /\ (forall cluster, cluster ∈ clusters result ->
          cluster <> [] /\ forall student, student ∈ cluster -> student ∈ students).
Proof.
  unfold dbscanClustering.
  set (points := map _ students).
  assert (Hlength : length points = length students) by (unfold points; by rewrite length_map).
  change (foldl _ (Some ([], [], ∅)) (seq 0 (length points)))
    with (foldl (scan_point points epsilon minPoints) (Some ([], [], ∅)) (seq 0 (length points))).
  destruct (scan_runs points epsilon minPoints (length points) 0 ([], [], ∅) eq_refl)
    as ([[clusters noise] visited] & -> & Hrange & Hall & Hcovered & Hnoise & Hclusters).
  { split_and!; try done; intros j Hj; try lia; set_solver. }
  cbn [mbind option_bind]. eexists. split; [reflexivity |].
  cbn [DensityClustering.clusters DensityClustering.noise clusterCount].
  assert (Hstudent : forall j, (j < length points)%nat -> is_Some (students !! j)).
  { intros j Hj. apply lookup_lt_is_Some. lia. }
  split_and!.
  - by rewrite length_map.
  - intros student [j Hj]%list_elem_of_lookup.
    pose proof (lookup_lt_Some _ _ _ Hj) as Hjn.
    destruct (Hcovered j (Hall j ltac:(lia))) as [Hin | (cluster & Hcluster & Hin)].
    + left. apply list_elem_of_omap. by exists j.
    + right. exists (omap (fun index => students !! index) cluster). split.
      * apply list_elem_of_fmap. by exists cluster.
      * apply list_elem_of_omap. by exists j.
  - intros student (j & _ & Hj)%list_elem_of_omap. by eapply list_elem_of_lookup_2.
  - intros cluster' (cluster & -> & Hcluster)%list_elem_of_fmap.
    rewrite Forall_forall in Hclusters. destruct (Hclusters cluster Hcluster) as [Hsome Hbound].
    split.
    + destruct cluster as [| j cluster]; [done |].
      apply Forall_cons in Hbound as [Hj _]. destruct (Hstudent j Hj) as [student Hstudent'].
      simpl. by rewrite Hstudent'.
    + intros student (j & _ & Hj)%list_elem_of_omap. by eapply list_elem_of_lookup_2.
Qed.

Lemma omap_lookup_seq {A : Type} (l : list A) :
  forall front, omap (fun index => (front ++ l) !! index) (seq (length front) (length l)) = l.
Proof.
  induction l as [| x l IH]; intros front; [done |].
  simpl. rewrite list_lookup_middle by done. f_equal.
  pose proof (IH (front ++ [x])) as Hrest.
  rewrite <- app_assoc, length_app in Hrest. simpl in Hrest.
  by rewrite Nat.add_1_r in Hrest.
Qed.

(** Fewer than five neighbours are fewer than the default [minPoints]. *)
Lemma below_default_minPoints (count : nat) :
  (count < 5)%nat -> (JsMath.of_nat count <? 5)%float = true.
Proof.
  intros Hcount.
  destruct count as [| [| [| [| [| count]]]]]; try reflexivity. lia.
Qed.

Lemma scan_small points epsilon m :
  (length points <= 5)%nat ->
  forall k noise (visited : gset nat),
    (k + m = length points)%nat ->
    (forall j, j ∈ visited <-> (j < k)%nat) ->
    exists visited' : gset nat,
      foldl (scan_point points epsilon 5) (Some ([], noise, visited)) (seq k m)
      = Some ([], noise ++ seq k m, visited').
Proof.
  intros Hsmall. induction m as [| m IH]; intros k noise visited Hk Hvisited.
  - exists visited. simpl. by rewrite app_nil_r.
  - cbn [seq foldl]. unfold scan_point at 2. cbn [mbind option_bind].
    rewrite bool_decide_false by (rewrite Hvisited; lia). cbv zeta.
    rewrite below_default_minPoints
      by (pose proof (getNeighbors_fewer points k epsilon ltac:(lia)); lia).
    destruct (IH (S k) (noise ++ [k]) ({[k]} ∪ visited) ltac:(lia)) as [visited' ->].
    + intros j. rewrite elem_of_union, elem_of_singleton, Hvisited. lia.
    + exists visited'. by rewrite <- app_assoc.
Qed.

(** X28. With the default [minPoints] of 5, [dbscanClustering] forms no
    cluster of five students or fewer, whatever the features and
    [epsilon]: a point has at most four neighbours, and every student is
    reported as noise, in the order of the input. *)
Theorem dbscanClustering_small_input
    (students : list Student) (features : list string) (epsilon : float) :
  (length students <= 5)%nat ->
  dbscanClustering parseFloat students features epsilon 5
  = Some {| clusters := []; noise := students; clusterCount := 0 |}.
Proof.
  intros Hsmall. unfold dbscanClustering.
  set (points := map _ students).
  assert (Hlength : length points = length students) by (unfold points; by rewrite length_map).
  change (foldl _ (Some ([], [], ∅)) (seq 0 (length points)))
    with (foldl (scan_point points epsilon 5) (Some ([], [], ∅)) (seq 0 (length points))).
  destruct (scan_small points epsilon (length points) ltac:(lia) 0 [] ∅ eq_refl)
    as [visited ->].
  { intros j. rewrite elem_of_empty. lia. }
  cbn [mbind option_bind map length app]. rewrite Hlength.
  pose proof (omap_lookup_seq students []) as Hnoise. simpl in Hnoise.
  by rewrite Hnoise.
Qed.

End DbscanFacts.

Section DbscanWitness.
Import Types DensityClustering.

Lemma dbscanClustering_small_input_witness :
  dbscanClustering (fun _ => nan) [sample_student "s1" 3.5; sample_student "s2" 2]
    ["gpa"%string] 0.5 5
  = Some {| clusters := [];
            noise := [sample_student "s1" 3.5; sample_student "s2" 2];
            clusterCount := 0 |}.
Proof.
  apply (dbscanClustering_small_input (fun _ => nan)
           [sample_student "s1" 3.5; sample_student "s2" 2] ["gpa"%string] 0.5).
  simpl. lia.
Defined.

End DbscanWitness.

(** ** The prediction engine: confidence over targets without variance *)

Section ConfidenceZeroVariance.
Import Binary64 PredictionEngine.
Local Open Scope float_scope.

(** Zero or above, [+Infinity] included, or [NaN]. *)
Definition nonneg (x : spec_float) : Prop := x = S754_nan \/ has_sign false x.

Lemma square_nonneg x : nonneg (SF64mul x x).
Proof.
  destruct x as [s | s | | s m e]; simpl.
  - right. simpl. apply xorb_nilpotent.
  - right. simpl. apply xorb_nilpotent.
  - by left.
  - right. rewrite xorb_nilpotent. by apply binary_round_aux_sign.
Qed.

Lemma add_nonneg x y :
  valid_binary x = true -> valid_binary y = true ->
  nonneg x -> nonneg y -> nonneg (SF64add x y).
Proof.
  intros Hvx Hvy [-> | Hx] [-> | Hy]; try (by left); try (left; by destruct x).
  destruct x as [sx | sx | | sx mx ex], y as [sy | sy | | sy my ey];
    simpl in Hx, Hy; try done; subst; try (right; done).
  right. unfold SF64add, SFadd. cbn [cond_Zopp].
  destruct (valid_finite_bounds _ _ _ Hvx) as [Hex _].
  destruct (valid_finite_bounds _ _ _ Hvy) as [Hey _].
  change (Z.pos (shl_align mx ex (Z.min ex ey)).1 + Z.pos (shl_align my ey (Z.min ex ey)).1)%Z
    with (Z.pos ((shl_align mx ex (Z.min ex ey)).1 + (shl_align my ey (Z.min ex ey)).1)).
  cbn [binary_normalize].
  destruct (binary_round_pos false
              ((shl_align mx ex (Z.min ex ey)).1 + (shl_align my ey (Z.min ex ey)).1)
              (Z.min ex ey) ltac:(lia)) as [(m' & e' & ->) | ->]; done.
Qed.

Lemma div_nonneg x y : nonneg x -> nonneg y -> nonneg (SF64div x y).
Proof.
  intros [-> | Hx] [-> | Hy]; try (by left); try (left; by destruct x).
  destruct x as [sx | sx | | sx mx ex], y as [sy | sy | | sy my ey];
    simpl in Hx, Hy; try done; subst; try (right; done); try (by left).
  right. unfold SF64div, SFdiv.
  pose proof (SFdiv_core_nonneg mx ex my ey) as Hcore.
  destruct (SFdiv_core_binary prec emax (Z.pos mx) ex (Z.pos my) ey) as [[mz ez] lz].
  by apply binary_round_aux_sign.
Qed.

(** An array length as a number is zero or above. *)
Lemma of_nat_nonneg n : nonneg (Prim2SF (JsMath.of_nat n)).
Proof.
  unfold JsMath.of_nat, JsMath.of_Z.
  destruct (Z.ltb_spec (Z.of_nat n) 0) as [? | _]; [lia |].
  rewrite of_uint63_spec. right.
  destruct (Uint63Axioms.to_Z (Uint63Axioms.of_Z (Z.of_nat n))) as [| p | p] eqn:Hvalue.
  - done.
  - cbn [binary_normalize].
    destruct (binary_round_pos false p 0 ltac:(lia)) as [(m' & e' & ->) | ->]; done.
  - pose proof (Uint63.to_Z_bounded (Uint63Axioms.of_Z (Z.of_nat n))). lia.
Qed.

(** The sum of the squared errors is zero or above, or [NaN]. *)
Lemma squared_errors_nonneg (y predictions : list float) :
  forall sum i,
    nonneg (Prim2SF sum) ->
    nonneg (Prim2SF
              (fst (foldl (fun '(sum, i) pred =>
                             (sum + JsMath.pow2 (pred - nth i y nan), S i))
                      (sum, i) predictions))).
Proof.
  induction predictions as [| pred predictions IH]; intros sum i Hsum; [done |].
  cbn [foldl]. apply IH. rewrite add_spec.
  apply add_nonneg; [apply Prim2SF_valid | apply Prim2SF_valid | done |].
  unfold JsMath.pow2. rewrite mul_spec. apply square_nonneg.
Qed.

(** X29. When the variance of the targets is [0], [calculateConfidence]
    never reports a confidence above [0]: the quotient [MSE / 0] is
    [Infinity] or [NaN], and the result is [0] or [NaN]. *)
Theorem calculateConfidence_zero_variance
    (X : list (list float)) (y weights : list float) :
  variance y = 0 ->
  calculateConfidence X y weights = 0
  \/ PrimFloat.is_nan (calculateConfidence X y weights) = true.
Proof.
  intros Hvariance. unfold calculateConfidence. rewrite Hvariance.
  set (mse := _ / JsMath.of_nat (length y)).
  assert (Hmse : nonneg (Prim2SF mse)).
  { unfold mse. rewrite div_spec. apply div_nonneg; [| apply of_nat_nonneg].
    apply squared_errors_nonneg. by right. }
  assert (Hquotient : Prim2SF (mse / 0) = S754_nan \/ Prim2SF (mse / 0) = S754_infinity false).
  { rewrite div_spec. change (Prim2SF 0) with (S754_zero false).
    destruct Hmse as [-> | Hsign]; [by left |].
    destruct (Prim2SF mse) as [s | s | | s m e]; simpl in Hsign; subst; auto. }
  assert (Hdifference : 1 - mse / 0 = nan \/ 1 - mse / 0 = neg_infinity).
  { destruct Hquotient as [Hq | Hq]; [left | right];
      apply Prim2SF_inj; rewrite sub_spec, Hq; reflexivity. }
  destruct Hdifference as [-> | ->]; [by right | by left].
Qed.

Lemma calculateConfidence_zero_variance_witness :
  calculateConfidence [[1]; [2]] [2; 2] [1; 0] = 0
  \/ PrimFloat.is_nan (calculateConfidence [[1]; [2]] [2; 2] [1; 0]) = true.
Proof. apply (calculateConfidence_zero_variance [[1]; [2]] [2; 2] [1; 0]). reflexivity. Defined.

End ConfidenceZeroVariance.

(** ** The prediction engine: targets without a range *)

Section NormalizeConstant.
Import Binary64 PredictionEngine.
Local Open Scope float_scope.

(** X30. [normalizeTargets] guards its division: on targets that are all
    the same finite number the range is [0], and every target is
    normalized to [0]. *)
Theorem normalizeTargets_constant (target : float) (n : nat) :
  target <> nan -> target <> infinity -> target <> neg_infinity ->
  normalizeTargets (replicate (S n) target) = replicate (S n) 0.
Proof.
  intros Hnan Hinfinity Hneg_infinity. unfold normalizeTargets.
  rewrite min_list_equal, max_list_equal.
  assert (Hrange : (target - target =? 0) = true).
  { rewrite FloatAxioms.eqb_spec, sub_spec.
    destruct (Prim2SF target) as [s | s | | s m e] eqn:Htarget.
    - by destruct s.
    - exfalso. destruct s; [apply Hneg_infinity | apply Hinfinity];
        by apply Prim2SF_inj; rewrite Htarget.
    - exfalso. apply Hnan. by apply Prim2SF_inj; rewrite Htarget.
    - unfold SF64sub, SFsub. by rewrite Z.sub_diag. }
  rewrite Hrange. by rewrite map_const_replicate, length_replicate.
Qed.

Lemma normalizeTargets_constant_witness :
  normalizeTargets (replicate 3 2.5) = replicate 3 0.
Proof. apply (normalizeTargets_constant 2.5 2); discriminate. Defined.

End NormalizeConstant.
